(** * The pak archive of jazz2-native: [PakFile] (reader) and [PakWriter]

    A shallow embedding of [Sources/Shared/IO/PakFile.cpp].  Bytes and
    characters are integers in [0, 256); a [String]/[StringView] is the
    list of its bytes; fixed-width integers are [Z] with their wrap-around
    written out.  The collaborators whose code lives outside the sources
    (the hash, the compression codecs, build switches) are gathered in a
    [Platform] record that every operation takes as a parameter. *)

From Stdlib Require Import ZArith List Lia Bool Arith Permutation Sorted.
Import ListNotations.
Local Open Scope Z_scope.

(** ** Characters and strings *)

Definition String := list Z.

Definition slash : Z := 47.       (* '/'  *)
Definition backslash : Z := 92.   (* '\\' *)

(** Membership in the separator set "/\\" handed to [trimmedPrefix],
    [findAny] and [findAnyOr]. *)
Definition is_separator (c : Z) : bool := (c =? slash) || (c =? backslash).

(** ** Collaborators

    [xxHash3] is the 64-bit hash of Cryptography/xxHash.h; the codec pairs
    are the compressing writers and decompressing readers of
    IO/Compression; [WITH_ZLIB] (which also stands for WITH_MINIZ),
    [WITH_LZ4], [WITH_ZSTD] and [TARGET_WINDOWS] are the build switches the
    source tests with #if.  A writer maps the bytes fed to it to the bytes
    it emits; a reader maps the bytes of its source, from the position it
    is opened at, to the bytes it decodes. *)
Record Platform := {
  xxHash3 : String -> Z;
  WITH_ZLIB : bool;
  WITH_LZ4 : bool;
  WITH_ZSTD : bool;
  TARGET_WINDOWS : bool;
  DeflateWriter : list Z -> list Z;
  DeflateStream : list Z -> list Z;
  Lz4Writer : list Z -> list Z;
  Lz4Stream : list Z -> list Z;
  ZstdWriter : list Z -> list Z;
  ZstdStream : list Z -> list Z
}.

(** ** FileNameToHash *)

(** [c += (std::uint8_t(c - 'A') < 26) << 5] *)
Definition lowercase_char (c : Z) : Z :=
  c + Z.shiftl (if ((c - 65) mod 256) <? 26 then 1 else 0) 5.

(** The body of the [for (char c : fileName)] loop: the characters stored
    to [normalizedFileName], in order, given the flag [lastWasSlash]. *)
Fixpoint FileNameToHash_loop (fileName : String) (lastWasSlash : bool) : String :=
  match fileName with
  | [] => []
  | c :: rest =>
      let c := if c =? backslash then slash else c in
      if c =? slash then
        if lastWasSlash then FileNameToHash_loop rest true
        else lowercase_char c :: FileNameToHash_loop rest true
      else lowercase_char c :: FileNameToHash_loop rest false
  end.

Definition FileNameToHash (P : Platform) (fileName : String) : Z :=
  xxHash3 P (FileNameToHash_loop fileName false) mod 2 ^ 64.

(** ** String views

    Modelled from the spec: the comparison operators of [StringView] are
    declared in Containers/StringView.h and defined in a file that is not
    among the sources; spec section 3 gives the order (lexicographic string
    compare), and equality is equality of the byte sequences. *)
Fixpoint String_eqb (a b : String) : bool :=
  match a, b with
  | [], [] => true
  | x :: a', y :: b' => (x =? y) && String_eqb a' b'
  | _, _ => false
  end.

Fixpoint String_ltb (a b : String) : bool :=
  match a, b with
  | [], [] => false
  | [], _ :: _ => true
  | _ :: _, [] => false
  | x :: a', y :: b' =>
      if x <? y then true else if y <? x then false else String_ltb a' b'
  end.

(** [std::memcmp(a, b, n)]: the sign of the first difference among the
    first [n] bytes; a byte past the end of a list reads as 0. *)
Fixpoint memcmp (a b : list Z) (n : nat) : Z :=
  match n with
  | O => 0
  | S n' =>
      let x := hd 0 a in
      let y := hd 0 b in
      if x <? y then -1 else if y <? x then 1 else memcmp (tl a) (tl b) n'
  end.

(** [path.trimmedPrefix("/\\")] *)
Fixpoint trimmedPrefix (path : String) : String :=
  match path with
  | [] => []
  | c :: rest => if is_separator c then trimmedPrefix rest else path
  end.

(** [path.findAny("/\\")]: the index of the first separator. *)
Fixpoint findAny (path : String) : option nat :=
  match path with
  | [] => None
  | c :: rest =>
      if is_separator c then Some O
      else match findAny rest with
           | Some i => Some (S i)
           | None => None
           end
  end.

(** [path.empty() || path[path.size() - 1] == '/' || path[path.size() - 1] == '\\'] *)
Definition empty_or_ends_with_separator (path : String) : bool :=
  match rev path with
  | [] => true
  | c :: _ => is_separator c
  end.

(** ** Fixed-width integers *)

Definition UINT32_MAX : Z := 4294967295.
Definition INT32_MAX : Z := 2147483647.
Definition INT16_MAX : Z := 32767.

Definition to_uint32 (z : Z) : Z := z mod 2 ^ 32.
Definition to_uint64 (z : Z) : Z := z mod 2 ^ 64.
Definition to_int32 (z : Z) : Z := (z + 2 ^ 31) mod 2 ^ 32 - 2 ^ 31.
Definition to_int64 (z : Z) : Z := (z + 2 ^ 63) mod 2 ^ 64 - 2 ^ 63.

(** The [n] bytes of a value in memory, least significant first (the
    source is built without DEATH_TARGET_BIG_ENDIAN, so [Stream::FromLE]
    is the identity and [memcpy] of an integer yields this order). *)
Fixpoint le_bytes (n : nat) (z : Z) : list Z :=
  match n with
  | O => []
  | S n' => z mod 256 :: le_bytes n' (z / 256)
  end.

Fixpoint le_value (bytes : list Z) : Z :=
  match bytes with
  | [] => 0
  | b :: rest => b + 256 * le_value rest
  end.

(** ** Streams

    Modelled from the spec: the [Stream] interface is declared in
    IO/Stream.h; its implementations ([FileStream], [BoundedFileStream],
    [CopyTo], the variable-length integers) are not among the sources.
    Spec section 6 lists the capability: seek, position, read, write,
    fixed-width values, LEB128-style varints, stream-to-stream copy.  A
    stream opened for reading is the bytes of its source and a position; a
    read past the end delivers no bytes, and a buffer the read did not
    fill keeps zeroes. *)
Record Stream := mkStream { bytes_of : list Z; position : Z }.

Definition GetSize (s : Stream) : Z := Z.of_nat (length (bytes_of s)).

(** [Seek(offset, SeekOrigin::Begin)]: a negative target is refused and
    the position kept. *)
Definition Seek_Begin (s : Stream) (offset : Z) : Z * Stream :=
  if offset <? 0 then (-2, s) else (offset, mkStream (bytes_of s) offset).

(** [Seek(offset, SeekOrigin::End)] *)
Definition Seek_End (s : Stream) (offset : Z) : Z * Stream :=
  Seek_Begin s (GetSize s + offset).

(** [Read(destination, bytesToRead)]: the bytes delivered. *)
Definition Read (s : Stream) (bytesToRead : Z) : list Z * Stream :=
  let got := firstn (Z.to_nat bytesToRead)
                    (skipn (Z.to_nat (position s)) (bytes_of s)) in
  (got, mkStream (bytes_of s) (position s + Z.of_nat (length got))).

(** A read into a zeroed or fresh buffer of [size] bytes: the buffer
    afterwards. *)
Definition ReadBuffer (s : Stream) (size : Z) : list Z * Stream :=
  let (got, s') := Read s size in
  (got ++ repeat 0 (Z.to_nat size - length got), s').

(** [ReadValue<T>()] followed by [Stream::FromLE], for a [T] of [n] bytes. *)
Definition ReadValue (n : nat) (s : Stream) : Z * Stream :=
  let (buffer, s') := ReadBuffer s (Z.of_nat n) in (le_value buffer, s').

(** The varint reader: seven value bits per byte, least significant group
    first, bit 7 set on every byte but the last; at most [maxBytes] bytes
    are taken, and the end of the stream ends the number. *)
Fixpoint ReadVariableUint (maxBytes : nat) (s : Stream) (shift result : Z) : Z * Stream :=
  match maxBytes with
  | O => (result, s)
  | S n =>
      match Read s 1 with
      | (b :: _, s') =>
          let result := result + (b mod 128) * 2 ^ shift in
          if b <? 128 then (result, s')
          else ReadVariableUint n s' (shift + 7) result
      | ([], s') => (result, s')
      end
  end.

Definition ReadVariableUint32 (s : Stream) : Z * Stream :=
  let (v, s') := ReadVariableUint 5 s 0 0 in (to_uint32 v, s').

Definition ReadVariableUint64 (s : Stream) : Z * Stream :=
  let (v, s') := ReadVariableUint 10 s 0 0 in (to_uint64 v, s').

(** The varint writer: the bytes written for [value]. *)
Fixpoint WriteVariableUint (maxBytes : nat) (value : Z) : list Z :=
  match maxBytes with
  | O => []
  | S n =>
      if value <? 128 then [value]
      else (value mod 128 + 128) :: WriteVariableUint n (value / 128)
  end.

Definition WriteVariableUint32 (value : Z) : list Z := WriteVariableUint 5 value.
Definition WriteVariableUint64 (value : Z) : list Z := WriteVariableUint 10 value.

(** [Write(source, bytesToWrite)] with an [std::int32_t] count: nothing is
    written for a count that is not positive. *)
Definition WriteBytes (source : list Z) (bytesToWrite : Z) : list Z :=
  firstn (Z.to_nat bytesToWrite) source.

(** A [FileStream] opened for writing: whether it is valid, and the bytes
    written so far.  The writer never seeks, so the position is the number
    of bytes written. *)
Record FileStream := mkFileStream { fs_valid : bool; fs_written : list Z }.

Definition GetPosition (out : FileStream) : Z := Z.of_nat (length (fs_written out)).

Definition Write (out : FileStream) (bytes : list Z) : FileStream :=
  if fs_valid out then mkFileStream true (fs_written out ++ bytes) else out.

(** ** Items *)

(** Modelled from the spec: [PakFile::ItemFlags] is declared in
    IO/PakFile.h, which is not among the sources.  Spec section 3 names
    the members of the bit set; each is given a bit of its own here. *)
Definition ItemFlags_None : Z := 0.
Definition ItemFlags_Directory : Z := 1.
Definition ItemFlags_DeflateCompressed : Z := 2.
Definition ItemFlags_Lz4Compressed : Z := 4.
Definition ItemFlags_Lzma2Compressed : Z := 8.
Definition ItemFlags_ZstdCompressed : Z := 16.

Definition PakFileFlags_None : Z := 0.
Definition PakFileFlags_DeflateCompressedIndex : Z := 1.
Definition PakFileFlags_Aes256EncryptedIndex : Z := 2.
Definition PakFileFlags_HashIndex : Z := 4.

(** [(flags & flag) == flag] *)
Definition has_flag (flags flag : Z) : bool := Z.land flags flag =? flag.

Definition OptionalHeader : list Z := [239; 187; 191; 240; 159; 140; 170; 58].
Definition Signature : list Z := [240; 159; 140; 170].
Definition Version : Z := 1.
Definition FooterSize : Z := 4 + 2 + 2 + 8.
Definition MaxDepth : Z := 64.
Definition HashIndexLength : Z := 8.

(** [PakFile::Item]; a value-initialised item is [Item_default]. *)
#[warnings="-register-all"]
Inductive Item : Type := mkItem {
  Name : String;
  Flags : Z;
  Offset : Z;
  UncompressedSize : Z;
  Size : Z;
  ChildItems : list Item
}.

Definition Item_default : Item := mkItem [] ItemFlags_None 0 0 0 [].

Definition set_ChildItems (item : Item) (children : list Item) : Item :=
  mkItem (Name item) (Flags item) (Offset item) (UncompressedSize item) (Size item) children.

Definition set_Offset (item : Item) (offset : Z) : Item :=
  mkItem (Name item) (Flags item) offset (UncompressedSize item) (Size item) (ChildItems item).

Definition isDirectory (item : Item) : bool := has_flag (Flags item) ItemFlags_Directory.

(** [PakFile::HasCompressedSize] *)
Definition HasCompressedSize (itemFlags : Z) : bool :=
  negb (Z.land itemFlags
          (Z.lor (Z.lor ItemFlags_DeflateCompressed ItemFlags_Lz4Compressed)
                 (Z.lor ItemFlags_Lzma2Compressed ItemFlags_ZstdCompressed))
        =? ItemFlags_None).

(** Modelled from the spec: [std::lower_bound] is the library's binary
    search (spec section 4.4: binary-search the current item array).
    [less a] stands for [comp(a, value)]; the result is the index the
    halving search stops at, [length items] standing for [end()]. *)
Fixpoint lower_bound_loop {A : Type} (less : A -> bool) (items : list A)
    (steps first len : nat) : nat :=
  match steps with
  | O => first
  | S steps' =>
      match len with
      | O => first
      | _ =>
          let half := Nat.div2 len in
          let mid := (first + half)%nat in
          match nth_error items mid with
          | Some a =>
              if less a
              then lower_bound_loop less items steps' (S mid) (len - half - 1)%nat
              else lower_bound_loop less items steps' first half
          | None => first
          end
      end
  end.

Definition lower_bound {A : Type} (less : A -> bool) (items : list A) : nat :=
  lower_bound_loop less items (length items) O (length items).

(** Modelled from the spec: [std::sort] with a comparator (spec section
    4.6: sort the child items by name).  The library promises an ordered
    permutation and leaves the order of equivalent elements open; this
    insertion sort keeps them in their input order. *)
Fixpoint sort_insert {A : Type} (less : A -> A -> bool) (x : A) (sorted : list A) : list A :=
  match sorted with
  | [] => [x]
  | y :: rest => if less y x then y :: sort_insert less x rest else x :: sorted
  end.

Fixpoint sort {A : Type} (less : A -> A -> bool) (items : list A) : list A :=
  match items with
  | [] => []
  | x :: rest => sort_insert less x (sort less rest)
  end.

(** The comparator both [std::sort] calls of [Finalize] pass. *)
Definition Name_less (a b : Item) : bool := String_ltb (Name a) (Name b).
(** ** PakFile: the reader *)

Module PakFile.

(** The members of [PakFile].  [IsValid] reads [_path]. *)
Record t := mk {
  _path : String;
  _mountPoint : String;
  _useHashIndex : bool;
  _rootItems : list Item
}.

(** The object before the constructor body has stored anything. *)
Definition empty : t := mk [] [] false [].

Definition GetMountPoint (pak : t) : String := _mountPoint pak.
Definition GetPath (pak : t) : String := _path pak.
Definition IsValid (pak : t) : bool := negb (Nat.eqb (length (_path pak)) 0).

Section WithPlatform.
Context (P : Platform).

(** [FileSystem::PathSeparator] *)
Definition PathSeparator : Z := if TARGET_WINDOWS P then backslash else slash.

(** The [for] loop of [ReadIndexFromStream] over the [itemCount] slots of
    the freshly sized array: the stream, the array as the loop leaves it,
    and whether the loop ran to its end ([false]: the name-length
    assertion returned [nullptr], the later slots keep their initial
    value). *)
Fixpoint ReadIndexFromStream_items (useHashIndex : bool) (itemCount : nat) (s : Stream)
    : Stream * list Item * bool :=
  match itemCount with
  | O => (s, [], true)
  | S remaining =>
      let (flags, s) := ReadVariableUint32 s in
      let isDirectory := has_flag flags ItemFlags_Directory in
      let '(name, s, ok) :=
        if useHashIndex then
          let (name, s) := ReadBuffer s HashIndexLength in (name, s, true)
        else
          let (nameLength, s) := ReadVariableUint32 s in
          if negb ((nameLength =? 0) || (nameLength <? INT32_MAX)) then ([], s, false)
          else let (name, s) := ReadBuffer s (to_int32 nameLength) in (name, s, true) in
      if negb ok then
        (s, mkItem [] flags 0 0 0 [] :: repeat Item_default remaining, false)
      else
        let (offset, s) := ReadVariableUint64 s in
        let '(uncompressedSize, size, s) :=
          if negb isDirectory then
            let (uncompressedSize, s) := ReadVariableUint32 s in
            if HasCompressedSize flags then
              let (size, s) := ReadVariableUint32 s in (uncompressedSize, size, s)
            else (uncompressedSize, 0, s)
          else (0, 0, s) in
        let '(s, rest, ok) := ReadIndexFromStream_items useHashIndex remaining s in
        (s, mkItem name flags offset uncompressedSize size [] :: rest, ok)
  end.

(** [ReadIndexFromStream(s, parentItem)]: [root] is [parentItem == nullptr];
    [mountPoint] is [_mountPoint] on entry and [items] the array the call
    would assign ([_rootItems] or [parentItem->ChildItems]).  The result is
    the stream, [_mountPoint], that array, and whether the returned
    pointer is non-null. *)
Definition ReadIndexFromStream (useHashIndex : bool) (s : Stream) (root : bool)
    (mountPoint : String) (items : list Item) : Stream * String * list Item * bool :=
  let '(s, mountPoint, ok) :=
    if root then
      let (mountPointLength, s) := ReadVariableUint32 s in
      if negb (mountPointLength <? INT16_MAX) then (s, mountPoint, false)
      else
        let (mountPoint, s) := ReadBuffer s (to_int32 mountPointLength) in
        let mountPoint :=
          match rev mountPoint with
          | [] => mountPoint
          | c :: _ => if is_separator c then mountPoint else mountPoint ++ [PathSeparator]
          end in
        (s, mountPoint, true)
    else (s, mountPoint, true) in
  if negb ok then (s, mountPoint, items, false)
  else
    let (itemCount, s) := ReadVariableUint32 s in
    let '(s, items, ok) := ReadIndexFromStream_items useHashIndex (Z.to_nat itemCount) s in
    (s, mountPoint, items, ok).

(** [ReadIndexFromStreamDeflateCompressed]: the index is read through a
    [DeflateStream] opened on [s] at its position.  How far the
    [DeflateStream] moves [s] on is not in the sources; the position [s]
    is returned with here is never read, since every use of [s] after
    this call ([ConstructsItemsFromIndex], line 295) begins with a [Seek]
    to an absolute offset. *)
Definition ReadIndexFromStreamDeflateCompressed (useHashIndex : bool) (s : Stream)
    (root : bool) (mountPoint : String) (items : list Item)
    : Stream * String * list Item * bool :=
  if WITH_ZLIB P then
    let ds := mkStream (DeflateStream P (skipn (Z.to_nat (position s)) (bytes_of s))) 0 in
    let '(_, mountPoint, items, ok) := ReadIndexFromStream useHashIndex ds root mountPoint items in
    (s, mountPoint, items, ok)
  else (s, mountPoint, items, false).

(** The loop [for (auto& item : *items)] of [ConstructsItemsFromIndex]:
    [recurse s item] is the recursive call for the directory [item], made
    after the seek, and yields the stream and the children it stored. *)
Fixpoint ConstructsItemsFromIndex_each (recurse : Stream -> Item -> Stream * list Item)
    (items : list Item) (s : Stream) : Stream * list Item :=
  match items with
  | [] => (s, [])
  | item :: rest =>
      if isDirectory item then
        let (_, s) := Seek_Begin s (to_int64 (Offset item)) in
        let (s, children) := recurse s item in
        let (s, rest) := ConstructsItemsFromIndex_each recurse rest s in
        (s, set_ChildItems item children :: rest)
      else
        let (s, rest) := ConstructsItemsFromIndex_each recurse rest s in
        (s, item :: rest)
  end.

(** [ConstructsItemsFromIndex(s, parentItem, deflateCompressed, depth)].
    The recursion is on [depth], which the assertion stops at [MaxDepth];
    [budget] only makes that visible to Rocq: with [MaxDepth - depth] or
    more it is never used up.  [items] is the array of [parentItem] (or
    [_rootItems]) on entry. *)
Fixpoint ConstructsItemsFromIndex (budget : nat) (useHashIndex : bool) (s : Stream)
    (root : bool) (deflateCompressed : bool) (depth : Z)
    (mountPoint : String) (items : list Item) {struct budget}
    : Stream * String * list Item :=
  match budget with
  | O => (s, mountPoint, items)
  | S budget' =>
      if negb (depth <? MaxDepth) then (s, mountPoint, items)
      else
        let '(s, mountPoint, items, ok) :=
          if deflateCompressed
          then ReadIndexFromStreamDeflateCompressed useHashIndex s root mountPoint items
          else ReadIndexFromStream useHashIndex s root mountPoint items in
        if ok then
          let (s, items) :=
            ConstructsItemsFromIndex_each
              (fun s item =>
                 let '(s, _, children) :=
                   ConstructsItemsFromIndex budget' useHashIndex s false
                     deflateCompressed (depth + 1) mountPoint (ChildItems item) in
                 (s, children))
              items s in
          (s, mountPoint, items)
        else (s, mountPoint, items)
  end.

(** [PakFile::PakFile(path)].  [file] is what the [FileStream] opened on
    [path] delivers: [None] when the file cannot be opened (the stream is
    invalid and reports the size [Stream::Invalid]). *)
Definition new (path : String) (file : option (list Z)) : t :=
  let s := mkStream (match file with Some bytes => bytes | None => [] end) 0 in
  let size := match file with Some _ => GetSize s | None => -1 end in
  if negb (size >? FooterSize + 8) then empty
  else
    let (r, s) := Seek_End s (- FooterSize) in
    let isSeekable := r >=? 0 in
    if negb isSeekable then empty
    else
      let (signature, s) := ReadBuffer s 4 in
      if negb (memcmp signature Signature 4 =? 0) then empty
      else
        let (fileVersion, s) := ReadValue 2 s in
        if negb (fileVersion =? Version) then empty
        else
          let (fileFlags, s) := ReadValue 2 s in
          let (rootIndexOffset, s) := ReadValue 8 s in
          if negb (rootIndexOffset <? to_uint64 size) then empty
          else
            let (_, s) := Seek_Begin s (to_int64 rootIndexOffset) in
            let useHashIndex := has_flag fileFlags PakFileFlags_HashIndex in
            let '(_, mountPoint, rootItems) :=
              ConstructsItemsFromIndex (Z.to_nat MaxDepth) useHashIndex s true
                (has_flag fileFlags PakFileFlags_DeflateCompressedIndex) 0 [] [] in
            mk path mountPoint useHashIndex rootItems.

(** [PakFile::FindItem], tree mode: the [while (true)] loop.  The loop has
    no bound in the source; [steps] counts its iterations, and [None] says
    that the loop has not returned within [steps] of them.

    A [StringView] is modelled by its characters, [path].  The loop also
    reads what lies behind the view: in [separator == path.end()] the right
    side is a [char*], which converts to a view through the constructor
    that takes its length from [std::strlen], and [operator==] compares
    the characters of the two views.  [tail] is that C string: the bytes
    of the buffer from [path.end()] up to its terminator.  It is empty for
    a view that ends at the terminator of its buffer, and it is the same
    in every iteration, since [suffix] keeps the end of the view.
    [separator] is the view [findAnyOr] returns: the one character found,
    or no character at all. *)
Fixpoint FindItem_loop (steps : nat) (items : list Item) (path tail : String)
    : option (option Item) :=
  match steps with
  | O => None
  | S steps' =>
      let hit := findAny path in
      let separator := match hit with Some i => firstn 1 (skipn i path) | None => [] end in
      let name := match hit with Some i => firstn i path | None => path end in
      let suffix := match hit with Some i => skipn (S i) path | None => [] end in
      match name with
      | [] => FindItem_loop steps' items suffix tail
      | _ :: _ =>
          let found := lower_bound (fun a => String_ltb (Name a) name) items in
          match nth_error items found with
          | None => Some None
          | Some foundItem =>
              if negb (String_eqb (Name foundItem) name) then Some None
              else if String_eqb separator tail then Some (Some foundItem)
              else FindItem_loop steps' (ChildItems foundItem) suffix tail
          end
      end
  end.

(** [PakFile::FindItem]: [Some None] is [nullptr], [Some (Some item)] the
    item found.  [tail] is the C string at [path.end()], as for
    [FindItem_loop]; [trimmedPrefix] moves the start of the view only. *)
Definition FindItem (steps : nat) (pak : t) (path tail : String) : option (option Item) :=
  let path := trimmedPrefix path in
  if _useHashIndex pak then
    let hashedPath := le_bytes 8 (FileNameToHash P path) in
    let found :=
      lower_bound (fun a => memcmp (Name a) hashedPath (Z.to_nat HashIndexLength) <? 0)
                  (_rootItems pak) in
    match nth_error (_rootItems pak) found with
    | None => Some None
    | Some foundItem =>
        if negb (memcmp (Name foundItem) hashedPath (Z.to_nat HashIndexLength) =? 0)
        then Some None
        else Some (Some foundItem)
    end
  else FindItem_loop steps (_rootItems pak) path tail.

Definition FileExists (steps : nat) (pak : t) (path tail : String) : option bool :=
  match FindItem steps pak path tail with
  | None => None
  | Some None => Some false
  | Some (Some foundItem) => Some (negb (isDirectory foundItem))
  end.

Definition DirectoryExists (steps : nat) (pak : t) (path tail : String) : option bool :=
  match FindItem steps pak path tail with
  | None => None
  | Some None => Some false
  | Some (Some foundItem) => Some (isDirectory foundItem)
  end.

(** What a stream returned by [OpenFile] shows its reader: [GetSize()] and
    the bytes it delivers when read from its start to its end. *)
Record OpenedStream := mkOpened { stream_size : Z; stream_bytes : list Z }.

(** Modelled from the spec: [BoundedFileStream] is not among the sources;
    the glossary has it as the view of a file restricted to the byte range
    [offset, offset + length). *)
Definition BoundedFileStream (file : list Z) (offset size : Z) : list Z :=
  firstn (Z.to_nat size) (skipn (Z.to_nat offset) file).

(** [CompressedBoundedStream<T>]: [decoder] is the stream class [T]. *)
Definition CompressedBoundedStream (decoder : list Z -> list Z) (file : list Z)
    (offset uncompressedSize compressedSize : Z) : OpenedStream :=
  mkOpened uncompressedSize (decoder (BoundedFileStream file offset compressedSize)).

(** [PakFile::OpenFile]; [file] is the content of the file at [_path],
    which the bounded streams open again.  [Some None] is [nullptr];
    [tail] is the C string at [path.end()], which [FindItem] reads. *)
Definition OpenFile (steps : nat) (pak : t) (file : list Z) (path tail : String)
    : option (option OpenedStream) :=
  if empty_or_ends_with_separator path then Some None
  else
    match FindItem steps pak path tail with
    | None => None
    | Some None => Some None
    | Some (Some foundItem) =>
        if isDirectory foundItem then Some None
        else if has_flag (Flags foundItem) ItemFlags_DeflateCompressed then
          if WITH_ZLIB P then
            Some (Some (CompressedBoundedStream (DeflateStream P) file (Offset foundItem)
                          (UncompressedSize foundItem) (Size foundItem)))
          else Some None
        else if has_flag (Flags foundItem) ItemFlags_Lz4Compressed then
          if WITH_LZ4 P then
            Some (Some (CompressedBoundedStream (Lz4Stream P) file (Offset foundItem)
                          (UncompressedSize foundItem) (Size foundItem)))
          else Some None
        else if has_flag (Flags foundItem) ItemFlags_ZstdCompressed then
          if WITH_ZSTD P then
            Some (Some (CompressedBoundedStream (ZstdStream P) file (Offset foundItem)
                          (UncompressedSize foundItem) (Size foundItem)))
          else Some None
        else
          Some (Some (mkOpened (UncompressedSize foundItem)
                        (BoundedFileStream file (Offset foundItem) (UncompressedSize foundItem))))
    end.

End WithPlatform.

End PakFile.
(** ** Directory enumeration over a PakFile *)

Module Directory.

(** [FileSystem::EnumerationOptions], as far as [Increment] tests it. *)
Record EnumerationOptions := mkOptions { SkipDirectories : bool; SkipFiles : bool }.

(** [PakFile::Directory::Impl].  [_path] is the whole character array
    (of [MaxPathLength] cells, zero before its first use); [_fileNamePart]
    is the offset of the pointer into it. *)
Record Impl := mkImpl {
  _options : EnumerationOptions;
  _path : list Z;
  _fileNamePart : nat;
  _childItems : list Item;
  _index : nat
}.

(** Storing [chars] from cell [at_] on; a store past the array is dropped. *)
Definition store (buffer : list Z) (at_ : nat) (chars : list Z) : list Z :=
  firstn at_ buffer
  ++ firstn (length buffer - at_) chars
  ++ skipn (at_ + length chars) buffer.

(** The C string a character array holds. *)
Fixpoint c_str (buffer : list Z) : String :=
  match buffer with
  | [] => []
  | c :: rest => if c =? 0 then [] else c :: c_str rest
  end.

Section WithPlatform.
Context (P : Platform) (MaxPathLength : nat).

Definition Separator : Z := if TARGET_WINDOWS P then backslash else slash.

(** The skipping [while (true)] loop of [Increment]: the index it breaks
    at, or [None] when it ran off the items. *)
Fixpoint Increment_skip (options : EnumerationOptions) (items : list Item) (index : nat)
    : option nat :=
  match items with
  | [] => None
  | item :: rest =>
      if (SkipDirectories options && isDirectory item)
         || (SkipFiles options && negb (isDirectory item))
      then Increment_skip options rest (S index)
      else Some index
  end.

(** [Impl::Increment] *)
Definition Increment (impl : Impl) : Impl :=
  match Increment_skip (_options impl) (skipn (_index impl) (_childItems impl)) (_index impl) with
  | None =>
      mkImpl (_options impl) (store (_path impl) 0 [0]) (_fileNamePart impl)
             (_childItems impl) (Nat.max (_index impl) (length (_childItems impl)))
  | Some index =>
      let fileName := Name (nth index (_childItems impl) Item_default) in
      let room := (MaxPathLength - _fileNamePart impl)%nat in
      let path :=
        if TARGET_WINDOWS P then
          (* strncpy_s *)
          let chars := firstn (length fileName) (c_str fileName) in
          if (length chars <? room)%nat
          then store (_path impl) (_fileNamePart impl) (chars ++ [0])
          else store (_path impl) (_fileNamePart impl) [0]
        else
          (* strncpy, then the terminator in the last cell *)
          let count := Z.to_nat ((Z.of_nat (Nat.min room (length fileName)) - 1) mod 2 ^ 64) in
          let chars := firstn count (c_str fileName) in
          let copied := store (_path impl) (_fileNamePart impl)
                              (chars ++ repeat 0 (Nat.min count MaxPathLength - length chars)) in
          store copied (MaxPathLength - 1) [0] in
      mkImpl (_options impl) path (_fileNamePart impl) (_childItems impl) (S index)
  end.

(** [Impl::Open]: the object after the call, and the value returned;
    [None] when [FindItem] has not returned within [steps] iterations.
    [tail] is the C string at [path.end()], which [FindItem] reads. *)
Definition Open (steps : nat) (pakFile : PakFile.t) (path tail : String)
    (options : EnumerationOptions) : option (Impl * bool) :=
  let fresh := repeat 0 MaxPathLength in
  let closed items := (mkImpl options (store fresh 0 [0]) 0 items 0, false) in
  if PakFile._useHashIndex pakFile then Some (closed [])
  else
    let children :=
      match path with
      | [] => Some (Some (PakFile._rootItems pakFile))
      | _ :: _ =>
          match PakFile.FindItem P steps pakFile path tail with
          | None => None
          | Some None => Some None
          | Some (Some parentItem) => Some (Some (ChildItems parentItem))
          end
      end in
    match children with
    | None => None
    | Some None => Some (closed [])
    | Some (Some []) => Some (closed [])
    | Some (Some childItems) =>
        let pathLength := length path in
        let '(buffer, fileNamePart) :=
          match rev path with
          | [] => (store fresh 0 [0], O)
          | c :: _ =>
              let copied := store fresh 0 path in
              if is_separator c
              then (store (store copied (pathLength - 1) [Separator]) pathLength [0], pathLength)
              else (store (store copied pathLength [Separator]) (S pathLength) [0], S pathLength)
          end in
        Some (Increment (mkImpl options buffer fileNamePart childItems 0), true)
    end.

(** [operator==] against the end iterator: [_path[0] == '\0']. *)
Definition at_end (impl : Impl) : bool := hd 0 (_path impl) =? 0.

(** The range-for over a [Directory]: the paths [operator*] shows, one per
    round, until the iterator compares equal to the end. *)
Fixpoint enumerate_loop (rounds : nat) (impl : Impl) : list String :=
  match rounds with
  | O => []
  | S rounds' =>
      if at_end impl then []
      else c_str (_path impl) :: enumerate_loop rounds' (Increment impl)
  end.

(** Every round moves [_index] forward, so there are no more rounds than
    items. *)
Definition enumerate (steps : nat) (pakFile : PakFile.t) (path tail : String)
    (options : EnumerationOptions) : option (list String) :=
  match Open steps pakFile path tail options with
  | None => None
  | Some (impl, _) => Some (enumerate_loop (S (length (_childItems impl))) impl)
  end.

End WithPlatform.

End Directory.
(** ** PakWriter *)

Inductive PakPreferredCompression := Compression_None | Compression_Deflate | Compression_Lz4 | Compression_Zstd.

Module PakWriter.

(** The members of [PakWriter]; [_outputStream] is [None] once the pointer
    has been reset.  [file_on_disk] is not a member: it is the file at the
    writer's path as the file system has it once the stream is closed
    ([None]: no such file). *)
Record t := mk {
  _finalized : bool;
  _useHashIndex : bool;
  _useCompressedIndex : bool;
  _alreadyExisted : bool;
  _mountPoint : String;
  _rootItems : list Item;
  _outputStream : option FileStream;
  file_on_disk : option (list Z)
}.

(** [PakWriter::PakWriter(path, useHashIndex, useCompressedIndex)];
    [existing] is the file at [path] before the call and [opens] whether
    the [FileStream] can be opened for writing. *)
Definition new (existing : option (list Z)) (opens : bool)
    (useHashIndex useCompressedIndex : bool) : t :=
  mk false useHashIndex useCompressedIndex
     (match existing with Some _ => true | None => false end)
     [] []
     (Some (Write (mkFileStream opens []) OptionalHeader))
     (if opens then Some [] else existing).

Definition IsValid (w : t) : bool :=
  match _outputStream w with
  | Some out => fs_valid out
  | None => false
  end.

Definition GetMountPoint (w : t) : String := _mountPoint w.

Definition SetMountPoint (w : t) (value : String) : t :=
  mk (_finalized w) (_useHashIndex w) (_useCompressedIndex w) (_alreadyExisted w)
     value (_rootItems w) (_outputStream w) (file_on_disk w).

(** The linear search [for (item : *items) if (item.Name == name)]. *)
Fixpoint find_by_name (name : String) (items : list Item) : option (nat * Item) :=
  match items with
  | [] => None
  | item :: rest =>
      if String_eqb (Name item) name then Some (O, item)
      else match find_by_name name rest with
           | Some (i, found) => Some (S i, found)
           | None => None
           end
  end.

(** Assigning through a pointer to the [i]-th element. *)
Fixpoint replace_nth (i : nat) (item : Item) (items : list Item) : list Item :=
  match items, i with
  | [], _ => []
  | _ :: rest, O => item :: rest
  | x :: rest, S i' => x :: replace_nth i' item rest
  end.

(** The number of items of a tree: [collect] needs no more rounds. *)
Fixpoint count_item (item : Item) : nat :=
  match item with
  | mkItem _ _ _ _ _ children =>
      S ((fix count (items : list Item) : nat :=
            match items with
            | [] => O
            | x :: rest => (count_item x + count rest)%nat
            end) children)
  end.

Definition count_items (items : list Item) : nat :=
  fold_right (fun item n => (count_item item + n)%nat) O items.

Section WithPlatform.
Context (P : Platform).

(** [PakWriter::WriteItemDescription]: the bytes written to [s]. *)
Definition WriteItemDescription (useHashIndex : bool) (item : Item) : list Z :=
  let isDirectory := has_flag (Flags item) ItemFlags_Directory in
  WriteVariableUint32 (to_uint32 (Flags item))
  ++ (if useHashIndex then
        WriteBytes (Name item ++ repeat 0 (Z.to_nat HashIndexLength - length (Name item)))
                   HashIndexLength
      else
        WriteVariableUint32 (to_uint32 (Z.of_nat (length (Name item))))
        ++ WriteBytes (Name item) (to_int32 (Z.of_nat (length (Name item)))))
  ++ WriteVariableUint64 (Offset item)
  ++ (if negb isDirectory then
        WriteVariableUint32 (UncompressedSize item)
        ++ (if HasCompressedSize (Flags item) then WriteVariableUint32 (Size item) else [])
      else []).

(** [PakWriter::FindOrCreateParentItem(path)], after its [trimmedPrefix].
    The function returns a pointer into the item tree and leaves the file
    name in [path]; its caller then works on the array the pointer
    designates ([_rootItems] for [nullptr]).  Here the caller's work is the
    argument [use]: it receives that array and the remaining [path] and
    returns its result with the array as it leaves it, and the loop hands
    back the array [items] with that change in place.  Every iteration
    drops a separator from [path]; [steps] bounds the iterations and
    [None] says the bound was too small ([S (length path)] never is). *)
Fixpoint FindOrCreateParentItem_loop {R : Type} (steps : nat) (items : list Item)
    (path : String) (use : list Item -> String -> R * list Item)
    : option (R * list Item) :=
  match steps with
  | O => None
  | S steps' =>
      match findAny path with
      | None => Some (use items path)
      | Some i =>
          let name := firstn i path in
          let path := skipn (S i) path in
          match find_by_name name items with
          | Some (j, foundItem) =>
              match FindOrCreateParentItem_loop steps' (ChildItems foundItem) path use with
              | Some (r, children) =>
                  Some (r, replace_nth j (set_ChildItems foundItem children) items)
              | None => None
              end
          | None =>
              let foundItem := mkItem name ItemFlags_Directory 0 0 0 [] in
              match FindOrCreateParentItem_loop steps' [] path use with
              | Some (r, children) =>
                  Some (r, items ++ [set_ChildItems foundItem children])
              | None => None
              end
          end
      end
  end.

Definition FindOrCreateParentItem {R : Type} (items : list Item) (path : String)
    (use : list Item -> String -> R * list Item) : option (R * list Item) :=
  let path := trimmedPrefix path in
  FindOrCreateParentItem_loop (S (length path)) items path use.

(** [PakWriter::AddFile] from the duplicate check on: [items] is the
    owning array, [path] the path as [FindOrCreateParentItem] left it (the
    whole path in hash mode), [content] the bytes the source stream
    delivers to [CopyTo].  The result is the value returned, the output
    stream, and the owning array. *)
Definition AddFile_to (useHashIndex : bool) (content : list Z)
    (preferredCompression : PakPreferredCompression) (out : FileStream)
    (items : list Item) (path : String) : (bool * FileStream) * list Item :=
  if existsb (fun item => String_eqb (Name item) path) items then ((false, out), items)
  else
    let offset := GetPosition out in
    let plain := (Write out content, ItemFlags_None, 0) in
    let through (writer : list Z -> list Z) (flag : Z) :=
      let out' := Write out (writer content) in
      (out', flag, GetPosition out' - offset) in
    let '(out, flags, size) :=
      match preferredCompression with
      | Compression_Deflate =>
          if WITH_ZLIB P then through (DeflateWriter P) ItemFlags_DeflateCompressed else plain
      | Compression_Lz4 =>
          if WITH_LZ4 P then through (Lz4Writer P) ItemFlags_Lz4Compressed else plain
      | Compression_Zstd =>
          if WITH_ZSTD P then through (ZstdWriter P) ItemFlags_ZstdCompressed else plain
      | Compression_None => plain
      end in
    let uncompressedSize := Z.of_nat (length content) in
    if negb (uncompressedSize >? 0) then ((false, out), items)
    else if negb ((uncompressedSize <? UINT32_MAX) && (size <? UINT32_MAX))
    then ((false, out), items)
    else
      let name := if useHashIndex then le_bytes 8 (FileNameToHash P path) else path in
      ((true, out),
       items ++ [mkItem name flags offset (to_uint32 uncompressedSize) (to_uint32 size) []]).

Definition with_state (w : t) (items : list Item) (out : option FileStream) : t :=
  mk (_finalized w) (_useHashIndex w) (_useCompressedIndex w) (_alreadyExisted w)
     (_mountPoint w) items out (file_on_disk w).

(** [PakWriter::AddFile(stream, path, preferredCompression)]; [content]
    is what [stream] delivers.  Once [Finalize] has reset [_outputStream]
    the source calls [IsValid] through the null pointer; the model has the
    call fail there. *)
Definition AddFile (w : t) (content : list Z) (path : String)
    (preferredCompression : PakPreferredCompression) : bool * t :=
  match _outputStream w with
  | None => (false, w)
  | Some out =>
      if negb (fs_valid out) then (false, w)
      else if empty_or_ends_with_separator path then (false, w)
      else if _useHashIndex w then
        let '((ok, out), items) :=
          AddFile_to true content preferredCompression out (_rootItems w) path in
        (ok, with_state w items (Some out))
      else
        match FindOrCreateParentItem (_rootItems w) path
                (AddFile_to false content preferredCompression out) with
        | Some ((ok, out), items) => (ok, with_state w items (Some out))
        | None => (false, w)
        end
  end.

(** A pointer to an item, as [Finalize] queues it: the indices that lead
    to it from [_rootItems]. *)
Fixpoint item_at (items : list Item) (pointer : list nat) : option Item :=
  match pointer with
  | [] => None
  | [i] => nth_error items i
  | i :: below =>
      match nth_error items i with
      | Some item => item_at (ChildItems item) below
      | None => None
      end
  end.

(** Changing the item a pointer designates. *)
Fixpoint update_at (items : list Item) (pointer : list nat) (f : Item -> Item) : list Item :=
  match pointer with
  | [] => items
  | [i] =>
      match nth_error items i with
      | Some item => replace_nth i (f item) items
      | None => items
      end
  | i :: below =>
      match nth_error items i with
      | Some item => replace_nth i (set_ChildItems item (update_at (ChildItems item) below f)) items
      | None => items
      end
  end.

(** One pass of [for (item : array)] in the collecting loops of
    [Finalize]: the pointers (prefixed by [parent]) of the directories of
    [items], counted from [index], and whether a file was seen. *)
Fixpoint scan (parent : list nat) (index : nat) (items : list Item) : list (list nat) * bool :=
  match items with
  | [] => ([], false)
  | item :: rest =>
      let (queued, hasFiles) := scan parent (S index) rest in
      if isDirectory item then ((parent ++ [index]) :: queued, hasFiles)
      else (queued, true)
  end.

(** The loop [for (i = 0; i < queuedDirectories.size(); i++)], which
    appends to the array it walks: [pending] is the part of the array from
    [i] on, the result the array from [i] on when the loop ends.  A round
    per directory of the tree; [rounds] bounds them. *)
Fixpoint collect (rounds : nat) (root : list Item) (pending : list (list nat)) (hasFiles : bool)
    : list (list nat) * bool :=
  match rounds with
  | O => (pending, hasFiles)
  | S rounds' =>
      match pending with
      | [] => ([], hasFiles)
      | pointer :: later =>
          let children := match item_at root pointer with
                          | Some item => ChildItems item
                          | None => []
                          end in
          let (queued, files) := scan pointer 0 children in
          let (rest, hasFiles) := collect rounds' root (later ++ queued) (hasFiles || files) in
          (pointer :: rest, hasFiles)
      end
  end.

(** An index block: the item count and the item descriptions, through a
    [DeflateWriter] when the index is compressed. *)
Definition index_block (useHashIndex compressed : bool) (header : list Z) (items : list Item)
    : list Z :=
  let plain := header
               ++ WriteVariableUint32 (to_uint32 (Z.of_nat (length items)))
               ++ flat_map (WriteItemDescription useHashIndex) items in
  if compressed then DeflateWriter P plain else plain.

(** The body of the [while (true)] loop of [Finalize] for the directory
    [pointer] designates. *)
Definition write_directory (useHashIndex compressed : bool)
    (state : list Item * FileStream) (pointer : list nat) : list Item * FileStream :=
  let (root, out) := state in
  match item_at root pointer with
  | None => state
  | Some item =>
      let offset := GetPosition out in
      let children := sort Name_less (ChildItems item) in
      (update_at root pointer (fun item => set_ChildItems (set_Offset item offset) children),
       Write out (index_block useHashIndex compressed [] children))
  end.

(** [PakWriter::Finalize] *)
Definition Finalize (w : t) : t :=
  if _finalized w then w
  else
    let finalized items out disk :=
      mk true (_useHashIndex w) (_useCompressedIndex w) (_alreadyExisted w)
         (_mountPoint w) items out disk in
    match _outputStream w with
    | None => finalized (_rootItems w) None (file_on_disk w)
    | Some out =>
        let (queued, hasFiles) := scan [] 0 (_rootItems w) in
        let (queuedDirectories, hasFiles) :=
          collect (count_items (_rootItems w)) (_rootItems w) queued hasFiles in
        if negb hasFiles then
          finalized (_rootItems w) None
            (if _alreadyExisted w
             then (if fs_valid out then Some (fs_written out) else file_on_disk w)
             else None)
        else
          let compressed := WITH_ZLIB P && _useCompressedIndex w in
          let (root, out) :=
            fold_left (write_directory (_useHashIndex w) compressed)
                      (rev queuedDirectories) (_rootItems w, out) in
          let rootIndexOffset := GetPosition out in
          let root := sort Name_less root in
          if negb (Z.of_nat (length (_mountPoint w)) <? INT16_MAX) then
            finalized root (Some out) (file_on_disk w)
          else
            let header :=
              WriteVariableUint32 (to_uint32 (Z.of_nat (length (_mountPoint w))))
              ++ WriteBytes (_mountPoint w) (to_int32 (Z.of_nat (length (_mountPoint w)))) in
            let out := Write out (index_block (_useHashIndex w) compressed header root) in
            let fileFlags :=
              Z.lor (if _useHashIndex w then PakFileFlags_HashIndex else PakFileFlags_None)
                    (if compressed then PakFileFlags_DeflateCompressedIndex
                     else PakFileFlags_None) in
            let out := Write out Signature in
            let out := Write out (le_bytes 2 Version) in
            let out := Write out (le_bytes 2 (fileFlags mod 2 ^ 16)) in
            let out := Write out (le_bytes 8 (to_uint64 rootIndexOffset)) in
            finalized root None (Some (fs_written out))
    end.

End WithPlatform.

End PakWriter.
(** * Notions the statements use *)

(** Two spellings of one logical path: the closure of the three
    respellings the contract names. *)
Inductive same_logical_path : String -> String -> Prop :=
| slp_refl : forall s, same_logical_path s s
| slp_sym : forall s t, same_logical_path s t -> same_logical_path t s
| slp_trans : forall s t u,
    same_logical_path s t -> same_logical_path t u -> same_logical_path s u
| slp_slash_style : forall u v,
    same_logical_path (u ++ backslash :: v) (u ++ slash :: v)
| slp_separator_run : forall u c d v,
    is_separator c = true -> is_separator d = true ->
    same_logical_path (u ++ c :: d :: v) (u ++ c :: v)
| slp_letter_case : forall u c v,
    65 <= c <= 90 ->
    same_logical_path (u ++ c :: v) (u ++ (c + 32) :: v).

(** The value of [lastWasSlash] after the loop has consumed [s]. *)
Fixpoint lastWasSlash_after (s : String) (lastWasSlash : bool) : bool :=
  match s with
  | [] => lastWasSlash
  | c :: rest => lastWasSlash_after rest (is_separator c)
  end.

(** A statement about every platform. *)
Definition on_every_platform (claim : Platform -> Prop) : Prop := forall P, claim P.

(** The compressed byte count [AddFile] records for [content]: [size]. *)
Definition stored_size (P : Platform) (preferredCompression : PakPreferredCompression)
    (content : list Z) : Z :=
  match preferredCompression with
  | Compression_Deflate =>
      if WITH_ZLIB P then Z.of_nat (length (DeflateWriter P content)) else 0
  | Compression_Lz4 =>
      if WITH_LZ4 P then Z.of_nat (length (Lz4Writer P content)) else 0
  | Compression_Zstd =>
      if WITH_ZSTD P then Z.of_nat (length (ZstdWriter P content)) else 0
  | Compression_None => 0
  end.

(** The two assertions of [AddFile] on the sizes. *)
Definition size_accepted (P : Platform) (preferredCompression : PakPreferredCompression)
    (content : list Z) : bool :=
  (Z.of_nat (length content) >? 0)
  && ((Z.of_nat (length content) <? UINT32_MAX)
      && (stored_size P preferredCompression content <? UINT32_MAX)).

(** A property of every item of a tree, at any depth. *)
Inductive Forall_tree (Q : Item -> Prop) : list Item -> Prop :=
| Forall_tree_nil : Forall_tree Q []
| Forall_tree_cons : forall item rest,
    Q item -> Forall_tree Q (ChildItems item) -> Forall_tree Q rest ->
    Forall_tree Q (item :: rest).

(** A file to add: the arguments of one [AddFile] call. *)
Record Addition := mkAddition {
  add_content : list Z;
  add_path : String;
  add_compression : PakPreferredCompression
}.

Definition AddFiles (P : Platform) (w : PakWriter.t) (additions : list Addition) : PakWriter.t :=
  fold_left (fun w a => snd (PakWriter.AddFile P w (add_content a) (add_path a) (add_compression a)))
            additions w.

(** What [FindOrCreateParentItem] hands its caller: the owning array and
    the remaining path. *)
Definition probe (items : list Item) (path : String) : (list Item * String) * list Item :=
  ((items, path), items).

(** The file records of a tree: every item that is not a directory,
    without its children. *)
Fixpoint files_of_item (item : Item) : list Item :=
  match item with
  | mkItem name flags offset uncompressedSize size children =>
      (if has_flag flags ItemFlags_Directory then []
       else [mkItem name flags offset uncompressedSize size []])
      ++ (fix files (items : list Item) : list Item :=
            match items with
            | [] => []
            | x :: rest => files_of_item x ++ files rest
            end) children
  end.

Definition files_of (items : list Item) : list Item := flat_map files_of_item items.

(** The sizes [AddFile] stores. *)
Definition sizes_below_limit (item : Item) : Prop :=
  0 <= UncompressedSize item < UINT32_MAX /\ 0 <= Size item < UINT32_MAX.

(** What a stream has left to deliver. *)
Definition remaining (s : Stream) : list Z := skipn (Z.to_nat (position s)) (bytes_of s).

(** The footer as the format lays it out: the last [FooterSize] bytes. *)
Definition footer (bytes : list Z) : list Z :=
  skipn (length bytes - Z.to_nat FooterSize) bytes.

Definition footer_signature (bytes : list Z) : list Z := firstn 4 (footer bytes).
Definition footer_version (bytes : list Z) : Z := le_value (firstn 2 (skipn 4 (footer bytes))).
Definition footer_flags (bytes : list Z) : Z := le_value (firstn 2 (skipn 6 (footer bytes))).
Definition footer_rootIndexOffset (bytes : list Z) : Z := le_value (firstn 8 (skipn 8 (footer bytes))).

(** The checks of the constructor on the footer, read off the layout. *)
Definition footer_valid (file : option (list Z)) : bool :=
  match file with
  | None => false
  | Some bytes =>
      (Z.of_nat (length bytes) >? FooterSize + 8)
      && String_eqb (footer_signature bytes) Signature
      && (footer_version bytes =? Version)
      && (footer_rootIndexOffset bytes <? to_uint64 (Z.of_nat (length bytes)))
  end.

(** At most [n] levels of item arrays, one inside the other. *)
Inductive levels_le : nat -> list Item -> Prop :=
| levels_le_nil : forall n, levels_le n []
| levels_le_cons : forall n item rest,
    levels_le n (ChildItems item) -> levels_le (S n) rest ->
    levels_le (S n) (item :: rest).

(** The number of array levels of a tree. *)
Fixpoint item_levels (item : Item) : nat :=
  match item with
  | mkItem _ _ _ _ _ children =>
      (fix levels (items : list Item) : nat :=
         match items with
         | [] => O
         | x :: rest => Nat.max (S (item_levels x)) (levels rest)
         end) children
  end.

Definition levels (items : list Item) : nat :=
  fold_right (fun item n => Nat.max (S (item_levels item)) n) O items.




(** A platform simple enough to run: Deflate output is its input behind
    its length, LZ4 output its input, Zstandard output its input
    reversed; the hash is the sum of the characters. *)
Definition reference_platform : Platform :=
  Build_Platform (fun s => fold_right Z.add 0 s) true true true false
    (fun x => Z.of_nat (length x) :: x)
    (fun y => match y with [] => [] | n :: r => firstn (Z.to_nat n) r end)
    (fun x => x) (fun x => x) (fun x => rev x) (fun x => rev x).

(** Three files, two of them nested, one per codec. *)
Definition reference_additions : list Addition :=
  [mkAddition [1; 2; 3] [97; 47; 98; 47; 99] Compression_Deflate;
   mkAddition [4] [97; 47; 100] Compression_None;
   mkAddition [5; 6] [122] Compression_Lz4].

(** The stream [s] is over [file], and has [left] to deliver. *)
Definition stream_at (file : list Z) (s : Stream) (left : list Z) : Prop :=
  bytes_of s = file /\ 0 <= position s /\ remaining s = left.

(** An item as the index can hold it. *)
Definition wf_item (useHashIndex : bool) (item : Item) : Prop :=
  0 <= Flags item < 2 ^ 32 /\
  (if useHashIndex then length (Name item) = 8%nat
   else Z.of_nat (length (Name item)) < INT32_MAX) /\
  0 <= Offset item < 2 ^ 64 /\
  0 <= UncompressedSize item < 2 ^ 32 /\
  0 <= Size item < 2 ^ 32 /\
  (isDirectory item = true -> UncompressedSize item = 0 /\ Size item = 0) /\
  (HasCompressedSize (Flags item) = false -> Size item = 0).

(** What the codecs must do for anything written through them to be read
    back: a decoder returns what the encoder was fed, and the Deflate
    decoder stops at the end of the encoder's output. *)
Record codecs_round_trip (P : Platform) : Prop := {
  deflate_round_trip : forall x rest, DeflateStream P (DeflateWriter P x ++ rest) = x;
  lz4_round_trip : forall x, Lz4Stream P (Lz4Writer P x) = x;
  zstd_round_trip : forall x, ZstdStream P (ZstdWriter P x) = x
}.

(** The mount point as the reader stores it. *)
Definition mount_point_read (P : Platform) (mountPoint : String) : String :=
  match rev mountPoint with
  | [] => mountPoint
  | c :: _ => if is_separator c then mountPoint else mountPoint ++ [PakFile.PathSeparator P]
  end.

(** What [Finalize] writes ahead of the root item count. *)
Definition mount_point_header (mountPoint : String) : list Z :=
  WriteVariableUint32 (to_uint32 (Z.of_nat (length mountPoint)))
  ++ WriteBytes mountPoint (to_int32 (Z.of_nat (length mountPoint))).

Definition strip (item : Item) : Item := set_ChildItems item [].

(** [block] stands in [file] from [offset] on. *)
Definition block_at (file : list Z) (offset : Z) (block : list Z) : Prop :=
  exists before after, file = before ++ block ++ after /\ Z.of_nat (length before) = offset.

(** A tree the reader can rebuild from [file] within [n] levels: every
    directory's children are stored at its [Offset], and files have none. *)
Inductive readable (P : Platform) (useHashIndex compressed : bool) (file : list Z)
  : nat -> list Item -> Prop :=
| readable_nil : forall n, readable P useHashIndex compressed file n []
| readable_file : forall n item rest,
    isDirectory item = false -> ChildItems item = [] ->
    readable P useHashIndex compressed file (S n) rest ->
    readable P useHashIndex compressed file (S n) (item :: rest)
| readable_dir : forall n item rest,
    isDirectory item = true ->
    0 <= Offset item < 2 ^ 63 ->
    block_at file (Offset item)
      (PakWriter.index_block P useHashIndex compressed [] (ChildItems item)) ->
    Forall (wf_item useHashIndex) (ChildItems item) ->
    Z.of_nat (length (ChildItems item)) < 2 ^ 32 ->
    readable P useHashIndex compressed file n (ChildItems item) ->
    readable P useHashIndex compressed file (S n) rest ->
    readable P useHashIndex compressed file (S n) (item :: rest).

(** [after] is [before] with every directory that [Finalize] wrote: its
    children sorted and in [file] at its [Offset], and the directories
    among them treated the same way.  Files stay as they are, and the
    order of [before] is kept (the array itself is sorted by the pass of
    its owner). *)
Inductive finalized (P : Platform) (useHashIndex compressed : bool) (file : list Z)
  : list Item -> list Item -> Prop :=
| finalized_nil : finalized P useHashIndex compressed file [] []
| finalized_file : forall item rest rest',
    isDirectory item = false ->
    finalized P useHashIndex compressed file rest rest' ->
    finalized P useHashIndex compressed file (item :: rest) (item :: rest')
| finalized_directory : forall item item' children rest rest',
    isDirectory item = true ->
    Name item' = Name item -> Flags item' = Flags item ->
    UncompressedSize item' = UncompressedSize item -> Size item' = Size item ->
    block_at file (Offset item')
      (PakWriter.index_block P useHashIndex compressed [] (ChildItems item')) ->
    finalized P useHashIndex compressed file (ChildItems item) children ->
    ChildItems item' = sort Name_less children ->
    finalized P useHashIndex compressed file rest rest' ->
    finalized P useHashIndex compressed file (item :: rest) (item' :: rest').

(** One directory written: [item'] is what the pass made of [item]. *)
Definition finalized_directory_item (P : Platform) (useHashIndex compressed : bool)
    (file : list Z) (item item' : Item) : Prop :=
  isDirectory item = true /\
  Name item' = Name item /\ Flags item' = Flags item /\
  UncompressedSize item' = UncompressedSize item /\ Size item' = Size item /\
  block_at file (Offset item')
    (PakWriter.index_block P useHashIndex compressed [] (ChildItems item')) /\
  exists children,
    finalized P useHashIndex compressed file (ChildItems item) children /\
    ChildItems item' = sort Name_less children.

(** A pointer to the next element of the array. *)
Definition shift (pointer : list nat) : list nat :=
  match pointer with
  | [] => []
  | i :: below => S i :: below
  end.

(** The tree while the passes run: the directories the pointers in
    [written] designate are written, nothing else has changed. *)
Inductive partly_finalized (P : Platform) (useHashIndex compressed : bool) (file : list Z)
  : (list nat -> Prop) -> list Item -> list Item -> Prop :=
| partly_nil : forall written,
    partly_finalized P useHashIndex compressed file written [] []
| partly_here : forall (written : list nat -> Prop) item item' rest rest',
    written [O] ->
    finalized_directory_item P useHashIndex compressed file item item' ->
    partly_finalized P useHashIndex compressed file (fun q => written (shift q)) rest rest' ->
    partly_finalized P useHashIndex compressed file written (item :: rest) (item' :: rest')
| partly_below : forall (written : list nat -> Prop) item children rest rest',
    ~ written [O] ->
    partly_finalized P useHashIndex compressed file (fun q => written (O :: q))
      (ChildItems item) children ->
    partly_finalized P useHashIndex compressed file (fun q => written (shift q)) rest rest' ->
    partly_finalized P useHashIndex compressed file written
      (item :: rest) (set_ChildItems item children :: rest').

(** [p] is an initial part of [q]. *)
Definition prefix (p q : list nat) : Prop := exists r, q = p ++ r.

(** Pointers none of which leads to another. *)
Fixpoint antichain (pointers : list (list nat)) : Prop :=
  match pointers with
  | [] => True
  | p :: later => (forall q, In q later -> ~ prefix p q /\ ~ prefix q p) /\ antichain later
  end.

(** The rounds [collect] needs: an item counts for the queue entries at
    and below it. *)
Definition weight (root : list Item) (pointer : list nat) : nat :=
  match PakWriter.item_at root pointer with
  | Some item => PakWriter.count_item item
  | None => O
  end.

Definition total_weight (root : list Item) (pending : list (list nat)) : nat :=
  fold_right (fun p n => (weight root p + n)%nat) O pending.

(** The passes of [Finalize] over a queue, last entry first. *)
Definition write_directories (P : Platform) (useHashIndex compressed : bool)
    (queue : list (list nat)) (state : list Item * FileStream) : list Item * FileStream :=
  fold_left (PakWriter.write_directory P useHashIndex compressed) (rev queue) state.

(** A file can be reached from the array through directories. *)
Inductive holds_file : list Item -> Prop :=
| holds_file_here : forall item rest, isDirectory item = false -> holds_file (item :: rest)
| holds_file_below : forall item rest,
    isDirectory item = true -> holds_file (ChildItems item) -> holds_file (item :: rest)
| holds_file_later : forall item rest, holds_file rest -> holds_file (item :: rest).

(** The flags [Finalize] stores in the footer. *)
Definition footer_flags_written (useHashIndex compressed : bool) : Z :=
  Z.lor (if useHashIndex then PakFileFlags_HashIndex else PakFileFlags_None)
        (if compressed then PakFileFlags_DeflateCompressedIndex else PakFileFlags_None).

(** The footer [Finalize] writes behind a root index at [rootIndexOffset]. *)
Definition footer_written (useHashIndex compressed : bool) (rootIndexOffset : Z) : list Z :=
  Signature ++ le_bytes 2 Version
  ++ le_bytes 2 (footer_flags_written useHashIndex compressed mod 2 ^ 16)
  ++ le_bytes 8 (to_uint64 rootIndexOffset).

(** Not after: the order [std::sort] establishes. *)
Definition Name_le (a b : Item) : Prop := Name_less b a = false.

(** Strictly ascending names. *)
Definition Name_lt (a b : Item) : Prop := Name_less a b = true.

(** The components of a path: what stands between its separators. *)
Fixpoint split_path (path : String) : list String :=
  match path with
  | [] => [[]]
  | c :: rest =>
      if is_separator c then [] :: split_path rest
      else match split_path rest with
           | name :: names => (c :: name) :: names
           | [] => [[c]]
           end
  end.

(** [names] leads to [item] through arrays of strictly ascending names. *)
Inductive reaches : list Item -> list String -> Item -> Prop :=
| reaches_last : forall items item,
    StronglySorted Name_lt items -> In item items ->
    reaches items [Name item] item
| reaches_step : forall items dir names item,
    StronglySorted Name_lt items -> In dir items ->
    reaches (ChildItems dir) names item ->
    reaches items (Name dir :: names) item.

(** The flag [AddFile] records for [content] and the bytes it writes. *)
Definition encoding (P : Platform) (preferredCompression : PakPreferredCompression)
    (content : list Z) : Z * list Z :=
  match preferredCompression with
  | Compression_Deflate =>
      if WITH_ZLIB P then (ItemFlags_DeflateCompressed, DeflateWriter P content)
      else (ItemFlags_None, content)
  | Compression_Lz4 =>
      if WITH_LZ4 P then (ItemFlags_Lz4Compressed, Lz4Writer P content)
      else (ItemFlags_None, content)
  | Compression_Zstd =>
      if WITH_ZSTD P then (ItemFlags_ZstdCompressed, ZstdWriter P content)
      else (ItemFlags_None, content)
  | Compression_None => (ItemFlags_None, content)
  end.

(** The record [AddFile] appends for a file stored at [offset]. *)
Definition file_item (P : Platform) (name : String) (content : list Z)
    (preferredCompression : PakPreferredCompression) (offset : Z) : Item :=
  mkItem name (fst (encoding P preferredCompression content)) offset
         (Z.of_nat (length content)) (stored_size P preferredCompression content) [].

(** The names [AddFile] walks for [path], the last one the file's own:
    the hash in flat mode, the components in tree mode. *)
Definition key (P : Platform) (useHashIndex : bool) (path : String) : list String :=
  if useHashIndex then [le_bytes 8 (FileNameToHash P path)]
  else split_path (trimmedPrefix path).

(** [names] leads to [item] by name, array by array. *)
Inductive resolves : list Item -> list String -> Item -> Prop :=
| resolves_last : forall items item, In item items -> resolves items [Name item] item
| resolves_step : forall items dir names item,
    In dir items -> resolves (ChildItems dir) names item ->
    resolves items (Name dir :: names) item.

(** The tree after [item] was appended to the array the directory names
    lead to, directories being created where none is found.  With
    [fresh], the array held no item of that name. *)
Inductive added (fresh : bool) (item : Item) : list String -> list Item -> list Item -> Prop :=
| added_here : forall items,
    (fresh = true -> forall x, In x items -> Name x <> Name item) ->
    added fresh item [] items (items ++ [item])
| added_found : forall names items j dir children,
    nth_error items j = Some dir ->
    added fresh item names (ChildItems dir) children ->
    added fresh item (Name dir :: names) items
      (PakWriter.replace_nth j (set_ChildItems dir children) items)
| added_created : forall name names items children,
    (forall x, In x items -> Name x <> name) ->
    added fresh item names [] children ->
    added fresh item (name :: names) items
      (items ++ [mkItem name ItemFlags_Directory 0 0 0 children]).

(** [p] is an initial part of [q], and not all of it. *)
Definition proper_prefix (p q : list String) : Prop := exists r, r <> [] /\ q = p ++ r.

(** No file has children. *)
Definition files_are_leaves (items : list Item) : Prop :=
  Forall_tree (fun x => isDirectory x = false -> ChildItems x = []) items.

(** [Q] holds of the array and of every array of children in it. *)
Definition every_array (Q : list Item -> Prop) (items : list Item) : Prop :=
  Q items /\ Forall_tree (fun x => Q (ChildItems x)) items.

(** No two items of an array bear the same name. *)
Definition unique_names : list Item -> Prop :=
  every_array (fun items => NoDup (map Name items)).

(** No array is longer than [n]. *)
Definition arrays_within (n : nat) : list Item -> Prop :=
  every_array (fun items => (length items <= n)%nat).

(** Every call of [AddFile] returned [true]. *)
Fixpoint all_added (P : Platform) (w : PakWriter.t) (additions : list Addition) : bool :=
  match additions with
  | [] => true
  | a :: rest =>
      let (ok, w') := PakWriter.AddFile P w (add_content a) (add_path a) (add_compression a) in
      ok && all_added P w' rest
  end.

Definition keys (P : Platform) (useHashIndex : bool) (additions : list Addition)
    : list (list String) :=
  map (fun a => key P useHashIndex (add_path a)) additions.

(** The record of the file [a] stored at [offset]. *)
Definition stored_record (P : Platform) (useHashIndex : bool) (a : Addition) (offset : Z) : Item :=
  file_item P (last (key P useHashIndex (add_path a)) []) (add_content a) (add_compression a)
            offset.

(** [item] can be described in an index, wherever it is stored. *)
Definition describable (useHashIndex : bool) (item : Item) : Prop :=
  wf_item useHashIndex (set_Offset item 0).

(** What holds of the tree [items] and the bytes [written] once the files
    [done] are added. *)
Record writer_invariant (P : Platform) (useHashIndex : bool) (done : list Addition)
    (items : list Item) (written : list Z) : Prop := {
  inv_leaves : files_are_leaves items;
  inv_covered : forall p x,
    resolves items p x -> isDirectory x = false -> In p (keys P useHashIndex done);
  inv_stored : forall a, In a done ->
    exists offset,
      resolves items (key P useHashIndex (add_path a)) (stored_record P useHashIndex a offset) /\
      block_at written offset (snd (encoding P (add_compression a) (add_content a))) /\
      size_accepted P (add_compression a) (add_content a) = true /\
      empty_or_ends_with_separator (add_path a) = false;
  inv_described : Forall_tree (describable useHashIndex) items;
  inv_offsets : Forall_tree (fun x => 0 <= Offset x <= Z.of_nat (length written)) items;
  inv_levels : levels_le (Z.to_nat MaxDepth) items;
  inv_within : arrays_within (length done) items;
  inv_unique : unique_names items;
  inv_flat : useHashIndex = true -> Forall (fun x => isDirectory x = false) items;
  inv_header : 8 <= Z.of_nat (length written)
}.

(** Tree mode: no component is empty, no path has more than [MaxDepth]
    components or [INT32_MAX] characters, and no path names as a
    directory what another names as a file. *)
Definition tree_paths (additions : list Addition) : Prop :=
  (forall a, In a additions ->
     Forall (fun name => name <> []) (split_path (trimmedPrefix (add_path a))) /\
     (length (split_path (trimmedPrefix (add_path a))) <= Z.to_nat MaxDepth)%nat /\
     Z.of_nat (length (add_path a)) < INT32_MAX) /\
  (forall a b, In a additions -> In b additions ->
     ~ proper_prefix (split_path (trimmedPrefix (add_path a)))
                     (split_path (trimmedPrefix (add_path b)))).

(** Flat mode: no path begins with a separator, and no two paths have the
    same hash. *)
Definition hash_paths (P : Platform) (additions : list Addition) : Prop :=
  (forall a, In a additions -> trimmedPrefix (add_path a) = add_path a) /\
  NoDup (map (fun a => FileNameToHash P (add_path a)) additions).

Definition paths_ok (P : Platform) (useHashIndex : bool) (additions : list Addition) : Prop :=
  if useHashIndex then hash_paths P additions else tree_paths additions.

(** A writer whose output file could be opened, with its mount point set. *)
Definition opened_writer (existing : option (list Z)) (useHashIndex useCompressedIndex : bool)
    (mountPoint : String) : PakWriter.t :=
  PakWriter.SetMountPoint (PakWriter.new existing true useHashIndex useCompressedIndex)
                          mountPoint.

(** [Name a] comes before [Name b]: bytewise over the 8 hash bytes in
    flat mode, as strings in tree mode. *)
Definition Name_before (useHashIndex : bool) (a b : Item) : bool :=
  if useHashIndex then memcmp (Name a) (Name b) (Z.to_nat HashIndexLength) <? 0
  else String_ltb (Name a) (Name b).

(** Adjacent names ascend: strictly, or at least never descend. *)
Definition ascending (useHashIndex strict : bool) (items : list Item) : Prop :=
  forall i a b,
  nth_error items i = Some a -> nth_error items (S i) = Some b ->
  if strict then Name_before useHashIndex a b = true
  else Name_before useHashIndex b a = false.

(** The array and the children of every directory reached through
    directories ascend. *)
Inductive arrays_ascending (useHashIndex strict : bool) : list Item -> Prop :=
| arrays_ascending_intro : forall items,
    ascending useHashIndex strict items ->
    (forall item, In item items -> isDirectory item = true ->
                  arrays_ascending useHashIndex strict (ChildItems item)) ->
    arrays_ascending useHashIndex strict items.

(** What flat mode stores: files under names of 8 bytes. *)
Definition flat_item (item : Item) : Prop :=
  isDirectory item = false /\ length (Name item) = 8%nat /\ ChildItems item = [].

(** What any run of calls leaves of a writer that was opened where no
    file existed. *)
Record sort_invariant (useHashIndex : bool) (w : PakWriter.t) : Prop := {
  sort_finalized : PakWriter._finalized w = false;
  sort_existed : PakWriter._alreadyExisted w = false;
  sort_mode : PakWriter._useHashIndex w = useHashIndex;
  sort_stream : exists written, PakWriter._outputStream w = Some (mkFileStream true written);
  sort_unique : useHashIndex = false -> unique_names (PakWriter._rootItems w);
  sort_flat : useHashIndex = true -> Forall flat_item (PakWriter._rootItems w)
}.

(** One path, two contents. *)
Definition duplicate_additions : list Addition :=
  [mkAddition [1] [97] Compression_None; mkAddition [2] [97] Compression_None].

(** The archive with the one file [/a] in flat mode. *)
Definition leading_separator_additions : list Addition :=
  [mkAddition [1] [47; 97] Compression_None].

(** What [FileExists] answers for the view [path], followed in its buffer
    by the C string [tail], on the archive a writer in tree mode leaves
    after [additions]: [None] when there is no archive. *)
Definition found_after (P : Platform) (additions : list Addition) (steps : nat)
    (path tail : String) : option bool :=
  match PakWriter.file_on_disk
          (PakWriter.Finalize P (AddFiles P (opened_writer None false false []) additions)) with
  | Some file => PakFile.FileExists P steps (PakFile.new P [112] (Some file)) path tail
  | None => None
  end.

(** ** Notions of the further properties *)

(** The names a path stands for in tree mode: what stands between its
    separators, empty components left out. *)
Definition components (path : String) : list String :=
  filter (fun name => negb (Nat.eqb (length name) 0)) (split_path path).

(** One level of the tree-mode lookup of [FindItem]: the element
    [std::lower_bound] stops at, when it bears the name. *)
Definition find_name (items : list Item) (name : String) : option Item :=
  match nth_error items (lower_bound (fun a => String_ltb (Name a) name) items) with
  | Some foundItem => if String_eqb (Name foundItem) name then Some foundItem else None
  | None => None
  end.

(** The lookup level by level: every name but the last one selects the
    array to go on with. *)
Fixpoint lookup (items : list Item) (names : list String) : option Item :=
  match names with
  | [] => None
  | name :: rest =>
      match find_name items name with
      | Some foundItem =>
          match rest with
          | [] => Some foundItem
          | _ :: _ => lookup (ChildItems foundItem) rest
          end
      | None => None
      end
  end.

(** A reader's tree holding the directory [a] with the file [b]. *)
Definition reference_pak : PakFile.t :=
  PakFile.mk [112] [] false
    [mkItem [97] ItemFlags_Directory 0 0 0 [mkItem [98] ItemFlags_None 8 1 0 []]].

(** The flag [hasFiles] as the two collecting loops of [Finalize] leave
    it. *)
Definition has_files (root : list Item) : bool :=
  snd (let (queued, hasFiles) := PakWriter.scan [] 0 root in
       PakWriter.collect (PakWriter.count_items root) root queued hasFiles).

(** A writer in tree mode after a call that stored nothing and created
    the directories [a] and [a/b]. *)
Definition writer_with_directories_only : PakWriter.t :=
  snd (PakWriter.AddFile reference_platform (opened_writer None false false [])
         [] [97; 47; 98; 47; 99] Compression_None).

(** Whether the build holds the codec a call of [AddFile] asks for. *)
Definition codec_built_in (P : Platform) (preferredCompression : PakPreferredCompression)
    : bool :=
  match preferredCompression with
  | Compression_Deflate => WITH_ZLIB P
  | Compression_Lz4 => WITH_LZ4 P
  | Compression_Zstd => WITH_ZSTD P
  | Compression_None => true
  end.

(** A build without any codec. *)
Definition platform_without_codecs : Platform :=
  Build_Platform (fun s => fold_right Z.add 0 s) false false false false
    (fun x => x) (fun x => x) (fun x => x) (fun x => x) (fun x => x) (fun x => x).

(** The names [FindItem] looks for: the hash of the trimmed path in flat
    mode, the components of the path in tree mode. *)
Definition lookup_key (P : Platform) (useHashIndex : bool) (path : String) : list String :=
  if useHashIndex then [le_bytes 8 (FileNameToHash P (trimmedPrefix path))]
  else components path.

(** Whether [Increment] stops at an item: the test of its skipping loop,
    negated. *)
Definition keeps (options : Directory.EnumerationOptions) (item : Item) : bool :=
  negb ((Directory.SkipDirectories options && isDirectory item)
        || (Directory.SkipFiles options && negb (isDirectory item))).

(** What [Open] leaves in front of [_fileNamePart]: the path with one
    native separator at its end, nothing for the empty path. *)
Definition directory_prefix (P : Platform) (path : String) : String :=
  match rev path with
  | [] => []
  | c :: before =>
      if is_separator c then rev before ++ [Directory.Separator P]
      else path ++ [Directory.Separator P]
  end.

(** A build for Windows with every codec. *)
Definition windows_platform : Platform :=
  Build_Platform (fun s => fold_right Z.add 0 s) true true true true
    (fun x => Z.of_nat (length x) :: x)
    (fun y => match y with [] => [] | n :: r => firstn (Z.to_nat n) r end)
    (fun x => x) (fun x => x) (fun x => rev x) (fun x => rev x).

(** ** Byte order ([IO/Stream.h])

    The conversions of [Stream] that swap the bytes of a value:
    [Uint16FromBE], [Uint32FromBE] and [Uint64FromBE] on the little-endian
    target the archive code is built for (with DEATH_TARGET_BIG_ENDIAN
    the same bodies bear the names [Uint16FromLE] and so on). *)

Definition to_uint16 (z : Z) : Z := z mod 2 ^ 16.

(** [(value >> 8) | (value << 8)]: computed on [int] after the integral
    promotion, and converted to [std::uint16_t] by the return. *)
Definition Uint16FromBE (value : Z) : Z :=
  to_uint16 (Z.lor (Z.shiftr value 8) (Z.shiftl value 8)).

(** [(value >> 24) | ((value << 8) & 0x00FF0000) | ((value >> 8) & 0x0000FF00) | (value << 24)]
    on [std::uint32_t]. *)
Definition Uint32FromBE (value : Z) : Z :=
  Z.lor (Z.lor (Z.lor (Z.shiftr value 24)
                      (Z.land (to_uint32 (Z.shiftl value 8)) 0x00FF0000))
               (Z.land (Z.shiftr value 8) 0x0000FF00))
        (to_uint32 (Z.shiftl value 24)).

(** The eight terms of [Uint64FromBE], on [std::uint64_t]. *)
Definition Uint64FromBE (value : Z) : Z :=
  Z.lor (Z.lor (Z.lor (Z.lor (Z.lor (Z.lor (Z.lor
    (Z.shiftr value 56)
    (Z.land (to_uint64 (Z.shiftl value 40)) 0x00FF000000000000))
    (Z.land (to_uint64 (Z.shiftl value 24)) 0x0000FF0000000000))
    (Z.land (to_uint64 (Z.shiftl value 8)) 0x000000FF00000000))
    (Z.land (Z.shiftr value 8) 0x00000000FF000000))
    (Z.land (Z.shiftr value 24) 0x0000000000FF0000))
    (Z.land (Z.shiftr value 40) 0x000000000000FF00))
    (to_uint64 (Z.shiftl value 56)).


(** What the duplicate check of [AddFile] meets in tree mode once a path
    is taken: the walk of [FindOrCreateParentItem] over [path] finds
    every directory the path names, and the array it ends in holds an
    item under the rest of the path. *)
Inductive taken : list Item -> String -> Prop :=
| taken_here : forall items path,
    findAny path = None ->
    existsb (fun item => String_eqb (Name item) path) items = true ->
    taken items path
| taken_below : forall items path i j foundItem,
    findAny path = Some i ->
    PakWriter.find_by_name (firstn i path) items = Some (j, foundItem) ->
    taken (ChildItems foundItem) (skipn (S i) path) ->
    taken items path.
(** * Proofs *)

(** ** The path hash *)

Lemma FileNameToHash_loop_app : forall u v b,
  FileNameToHash_loop (u ++ v) b =
  FileNameToHash_loop u b ++ FileNameToHash_loop v (lastWasSlash_after u b).
Proof.
  induction u as [|c u IH]; intros v b; simpl; [reflexivity|].
  unfold is_separator, slash, backslash.
  destruct (c =? 92) eqn:E92.
  - simpl. rewrite orb_true_r. destruct b; simpl; now rewrite IH.
  - destruct (c =? 47) eqn:E47; simpl.
    + destruct b; simpl; now rewrite IH.
    + now rewrite IH.
Qed.

Lemma lastWasSlash_after_app : forall u v b,
  lastWasSlash_after (u ++ v) b = lastWasSlash_after v (lastWasSlash_after u b).
Proof.
  induction u as [|c u IH]; intros v b; simpl; [reflexivity|apply IH].
Qed.

Lemma lowercase_char_upper : forall c,
  65 <= c <= 90 -> lowercase_char c = c + 32.
Proof.
  intros c Hc. unfold lowercase_char.
  rewrite Z.mod_small by lia.
  destruct (c - 65 <? 26) eqn:E; [reflexivity|].
  apply Z.ltb_ge in E. lia.
Qed.

Lemma lowercase_char_lower : forall c,
  97 <= c <= 122 -> lowercase_char c = c.
Proof.
  intros c Hc. unfold lowercase_char.
  rewrite Z.mod_small by lia.
  destruct (c - 65 <? 26) eqn:E; [|simpl; lia].
  apply Z.ltb_lt in E. lia.
Qed.

Lemma separator_unified : forall c,
  is_separator c = true -> (if c =? backslash then slash else c) = slash.
Proof.
  intros c H. unfold is_separator in H.
  destruct (c =? backslash); [reflexivity|].
  rewrite orb_false_r in H. now apply Z.eqb_eq in H.
Qed.

Lemma same_logical_path_normal : forall s t,
  same_logical_path s t ->
  forall b, FileNameToHash_loop s b = FileNameToHash_loop t b /\
            lastWasSlash_after s b = lastWasSlash_after t b.
Proof.
  induction 1 as [s|s t _ IH|s t u _ IH1 _ IH2|u v|u c d v Hc Hd|u c v Hc]; intros b.
  - split; reflexivity.
  - destruct (IH b). split; congruence.
  - destruct (IH1 b), (IH2 b). split; congruence.
  - rewrite !FileNameToHash_loop_app, !lastWasSlash_after_app. split; reflexivity.
  - rewrite !FileNameToHash_loop_app, !lastWasSlash_after_app. simpl.
    rewrite Hc, Hd. split; [f_equal|reflexivity].
    rewrite (separator_unified c Hc), (separator_unified d Hd). simpl.
    destruct (lastWasSlash_after u b); reflexivity.
  - rewrite !FileNameToHash_loop_app, !lastWasSlash_after_app. simpl.
    unfold is_separator, slash, backslash.
    replace (c =? 92) with false by (symmetry; apply Z.eqb_neq; lia).
    replace (c =? 47) with false by (symmetry; apply Z.eqb_neq; lia).
    replace (c + 32 =? 92) with false by (symmetry; apply Z.eqb_neq; lia).
    replace (c + 32 =? 47) with false by (symmetry; apply Z.eqb_neq; lia).
    simpl.
    rewrite (lowercase_char_upper c) by lia.
    rewrite (lowercase_char_lower (c + 32)) by lia.
    split; reflexivity.
Qed.

(** C7.  Path-hash invariance: two path strings that spell the same logical
    path (they differ only in slash style, in runs of consecutive
    separators, or in the case of ASCII letters) get the same 64-bit hash
    from [FileNameToHash]. *)
Theorem FileNameToHash_same_logical_path : forall P s t,
  same_logical_path s t -> FileNameToHash P s = FileNameToHash P t.
Proof.
  intros P s t H. unfold FileNameToHash.
  destruct (same_logical_path_normal s t H false) as [E _].
  now rewrite E.
Qed.

Lemma FileNameToHash_same_logical_path_witness :
  same_logical_path [65; 92; 98] [97; 47; 47; 66] /\
  FileNameToHash reference_platform [65; 92; 98]
  = FileNameToHash reference_platform [97; 47; 47; 66].
Proof.
  assert (H : same_logical_path [65; 92; 98] [97; 47; 47; 66]).
  { apply slp_trans with (t := [65; 47; 98]); [apply (slp_slash_style [65] [98])|].
    apply slp_trans with (t := [65; 47; 47; 98]);
      [apply slp_sym; apply (slp_separator_run [65] 47 47 [98]); reflexivity|].
    apply slp_trans with (t := [97; 47; 47; 98]);
      [apply (slp_letter_case [] 65 [47; 47; 98]); lia|].
    apply slp_sym. apply (slp_letter_case [97; 47; 47] 66 []). lia. }
  split; [exact H|].
  apply (FileNameToHash_same_logical_path reference_platform _ _ H).
Defined.

(** *** FindItem on a path without components *)

Lemma FindItem_loop_empty_path : forall steps items tail,
  PakFile.FindItem_loop steps items [] tail = None.
Proof.
  induction steps as [|steps IH]; intros items tail; simpl; [reflexivity|apply IH].
Qed.

(** The view [findAnyOr] returns for a hit holds the separator found. *)
Lemma findAny_separator : forall path i,
  findAny path = Some i ->
  exists c, firstn 1 (skipn i path) = [c] /\ is_separator c = true.
Proof.
  induction path as [|c path IH]; intros i H; simpl in H; [discriminate|].
  destruct (is_separator c) eqn:Hc.
  - injection H as <-. exists c. split; [reflexivity|exact Hc].
  - destruct (findAny path) as [j|] eqn:Hj; [|discriminate].
    injection H as <-. apply (IH j eq_refl).
Qed.

(** One iteration of the loop for a view that ends at the terminator of
    its buffer: the test [separator == path.end()] then holds exactly when
    no separator was found. *)
Lemma FindItem_loop_terminated : forall steps items path,
  PakFile.FindItem_loop (S steps) items path [] =
    match (match findAny path with Some i => firstn i path | None => path end) with
    | [] =>
        PakFile.FindItem_loop steps items
          (match findAny path with Some i => skipn (S i) path | None => [] end) []
    | c :: name =>
        match nth_error items (lower_bound (fun a => String_ltb (Name a) (c :: name)) items) with
        | None => Some None
        | Some foundItem =>
            if negb (String_eqb (Name foundItem) (c :: name)) then Some None
            else
              match findAny path with
              | None => Some (Some foundItem)
              | Some i => PakFile.FindItem_loop steps (ChildItems foundItem) (skipn (S i) path) []
              end
        end
    end.
Proof.
  intros steps items path. cbn [PakFile.FindItem_loop].
  destruct (findAny path) as [i|] eqn:Hi.
  - destruct (findAny_separator path i Hi) as (c & -> & _).
    destruct (firstn i path); reflexivity.
  - destruct path; reflexivity.
Qed.

Lemma trimmedPrefix_separators : forall n, trimmedPrefix (repeat slash n) = [].
Proof.
  induction n as [|n IH]; simpl; [reflexivity|exact IH].
Qed.

(** C6.  [FindItem] in tree mode does not terminate on every path: on a
    path of separators only, the empty path among them, the loop has not
    returned after any number of iterations, whatever the archive holds
    and whatever follows the view of the path in its buffer ([tail]: the
    test that reads it is not reached).  The loop skips an empty
    component without ever looking whether the path is used up. *)
Theorem FindItem_never_returns_without_component : forall P steps path mountPoint items n tail,
  PakFile.FindItem P steps (PakFile.mk path mountPoint false items) (repeat slash n) tail = None.
Proof.
  intros. unfold PakFile.FindItem. simpl.
  rewrite trimmedPrefix_separators. apply FindItem_loop_empty_path.
Qed.

Lemma FindItem_trailing_separator_example : forall steps mountPoint,
  PakFile.FindItem (Build_Platform (fun _ => 0) false false false false
      (fun x => x) (fun x => x) (fun x => x) (fun x => x) (fun x => x) (fun x => x))
    steps
    (PakFile.mk [112] mountPoint false
       [mkItem [97] ItemFlags_Directory 0 0 0 [mkItem [98] 0 8 1 0 []]])
    [97; 47] [] = None.
Proof.
  intros. unfold PakFile.FindItem. simpl.
  destruct steps as [|steps]; [reflexivity|]. simpl.
  apply FindItem_loop_empty_path.
Qed.

(** The test [separator == path.end()] on views that do not end at the
    terminator of their buffer.  The view [a] cut from [a/b], the item
    [a] being there: the separator view is empty, the C string behind
    the path is [/b], the loop goes on with an empty path and never
    returns.  The view [a/b] cut from [a/b/], the directory [a] holding
    the file [b]: the separator found equals the C string behind the
    path, and the directory [a] is returned.  The view [x/y] cut from
    [x/y/], only the file [x] being there: [x] is returned. *)
Lemma FindItem_unterminated_view_examples : forall P,
  (forall steps,
     PakFile.FindItem P steps (PakFile.mk [112] [] false [mkItem [97] 0 8 1 0 []])
       [97] [47; 98] = None) /\
  PakFile.FindItem P 4
    (PakFile.mk [112] [] false [mkItem [97] ItemFlags_Directory 0 0 0 [mkItem [98] 0 8 1 0 []]])
    [97; 47; 98] [47]
  = Some (Some (mkItem [97] ItemFlags_Directory 0 0 0 [mkItem [98] 0 8 1 0 []])) /\
  PakFile.FindItem P 4 (PakFile.mk [112] [] false [mkItem [120] 0 8 1 0 []])
    [120; 47; 121] [47]
  = Some (Some (mkItem [120] 0 8 1 0 [])).
Proof.
  intros P. split; [|split; reflexivity].
  intros steps. unfold PakFile.FindItem. simpl.
  destruct steps as [|steps]; [reflexivity|]. simpl.
  apply FindItem_loop_empty_path.
Qed.

(** C2.  Duplicate rejection fails in flat mode: on every platform a
    writer takes the path [a] a second time.  Both calls of [AddFile]
    return [true], the root array holds two items under the same name (the
    hash of the path), and the output stream holds both contents.  The
    check compares the names stored, which are hashes, with the path as
    given. *)
Theorem AddFile_hash_mode_accepts_duplicate : forall P,
  let w0 := PakWriter.new None true true false in
  let r1 := PakWriter.AddFile P w0 [1] [97] Compression_None in
  let r2 := PakWriter.AddFile P (snd r1) [2] [97] Compression_None in
  fst r1 = true /\ fst r2 = true /\
  map Name (PakWriter._rootItems (snd r2))
    = [le_bytes 8 (FileNameToHash P [97]); le_bytes 8 (FileNameToHash P [97])] /\
  option_map fs_written (PakWriter._outputStream (snd r2)) = Some (OptionalHeader ++ [1] ++ [2]).
Proof.
  intros P. cbn -[le_bytes FileNameToHash].
  unfold PakWriter.AddFile_to. cbn -[FileNameToHash Z.modulo Z.div].
  rewrite !andb_false_r. cbn -[FileNameToHash Z.modulo Z.div].
  repeat split.
Qed.
Lemma FindOrCreateParentItem_loop_result :
  forall (R : Type) (use : list Item -> String -> R * list Item) steps items path,
  option_map fst (PakWriter.FindOrCreateParentItem_loop steps items path use)
  = option_map (fun r => fst (use (fst (fst r)) (snd (fst r))))
               (PakWriter.FindOrCreateParentItem_loop steps items path probe).
Proof.
  intros R use. induction steps as [|steps IH]; intros items path; simpl; [reflexivity|].
  destruct (findAny path) as [i|]; [|reflexivity].
  destruct (PakWriter.find_by_name (firstn i path) items) as [[j foundItem]|].
  - specialize (IH (ChildItems foundItem) (skipn (S i) path)).
    destruct (PakWriter.FindOrCreateParentItem_loop steps (ChildItems foundItem) _ use) as [[r c]|];
    destruct (PakWriter.FindOrCreateParentItem_loop steps (ChildItems foundItem) _ probe) as [[r' c']|];
    simpl in *; congruence.
  - specialize (IH [] (skipn (S i) path)).
    destruct (PakWriter.FindOrCreateParentItem_loop steps [] _ use) as [[r c]|];
    destruct (PakWriter.FindOrCreateParentItem_loop steps [] _ probe) as [[r' c']|];
    simpl in *; congruence.
Qed.

Lemma GetPosition_Write : forall out bytes,
  fs_valid out = true ->
  GetPosition (Write out bytes) - GetPosition out = Z.of_nat (length bytes).
Proof.
  intros out bytes Hv. unfold Write, GetPosition. rewrite Hv. simpl.
  rewrite length_app. lia.
Qed.

Lemma AddFile_to_verdict : forall P useHashIndex content pc out items path,
  fs_valid out = true ->
  fst (fst (PakWriter.AddFile_to P useHashIndex content pc out items path))
  = negb (existsb (fun item => String_eqb (Name item) path) items)
    && size_accepted P pc content.
Proof.
  intros P uh content pc out items path Hv.
  unfold PakWriter.AddFile_to, size_accepted, stored_size.
  destruct (existsb _ items); [reflexivity|]. simpl negb. rewrite andb_true_l.
  destruct pc; try destruct (WITH_ZLIB P); try destruct (WITH_LZ4 P); try destruct (WITH_ZSTD P);
    rewrite ?GetPosition_Write by exact Hv;
    destruct (Z.of_nat (length content) >? 0); simpl; try reflexivity;
    match goal with
    | |- context [?a <? UINT32_MAX] => destruct (a <? UINT32_MAX); simpl; try reflexivity
    end;
    match goal with
    | |- context [?a <? UINT32_MAX] => destruct (a <? UINT32_MAX); simpl; reflexivity
    | _ => idtac
    end.
Qed.

Lemma size_accepted_reference : forall P, size_accepted P Compression_None [0] = true.
Proof. reflexivity. Qed.

Lemma AddFile_verdict : forall P w content path pc,
  fst (PakWriter.AddFile P w content path pc)
  = fst (PakWriter.AddFile P w [0] path Compression_None) && size_accepted P pc content.
Proof.
  intros P w content path pc. unfold PakWriter.AddFile.
  destruct (PakWriter._outputStream w) as [out|]; [|reflexivity].
  destruct (fs_valid out) eqn:Hv; [|reflexivity]. simpl negb. cbv iota.
  destruct (empty_or_ends_with_separator path); [reflexivity|].
  destruct (PakWriter._useHashIndex w).
  - pose proof (AddFile_to_verdict P true content pc out (PakWriter._rootItems w) path Hv) as E1.
    pose proof (AddFile_to_verdict P true [0] Compression_None out (PakWriter._rootItems w) path Hv) as E2.
    destruct (PakWriter.AddFile_to P true content pc out _ path) as [[ok o] its].
    destruct (PakWriter.AddFile_to P true [0] Compression_None out _ path) as [[ok' o'] its'].
    simpl in *. rewrite E1, E2, size_accepted_reference, andb_true_r. reflexivity.
  - unfold PakWriter.FindOrCreateParentItem.
    pose proof (FindOrCreateParentItem_loop_result _
                  (PakWriter.AddFile_to P false content pc out)
                  (S (length (trimmedPrefix path))) (PakWriter._rootItems w) (trimmedPrefix path)) as E1.
    pose proof (FindOrCreateParentItem_loop_result _
                  (PakWriter.AddFile_to P false [0] Compression_None out)
                  (S (length (trimmedPrefix path))) (PakWriter._rootItems w) (trimmedPrefix path)) as E2.
    destruct (PakWriter.FindOrCreateParentItem_loop _ _ _ (PakWriter.AddFile_to P false content pc out))
      as [[[ok o] its]|];
    destruct (PakWriter.FindOrCreateParentItem_loop _ _ _ (PakWriter.AddFile_to P false [0] Compression_None out))
      as [[[ok' o'] its']|];
    destruct (PakWriter.FindOrCreateParentItem_loop _ _ _ probe) as [[[a p] its'']|];
    simpl in *; try discriminate; try reflexivity.
    injection E1 as E1. injection E2 as E2.
    apply (f_equal fst) in E1. apply (f_equal fst) in E2. simpl in E1, E2.
    rewrite (AddFile_to_verdict P false content pc out a p Hv) in E1.
    rewrite (AddFile_to_verdict P false [0] Compression_None out a p Hv) in E2.
    rewrite size_accepted_reference, andb_true_r in E2.
    subst. reflexivity.
Qed.

(** *** Reasoning about [FindOrCreateParentItem] *)

Section FindOrCreateParentItem_rel.
Context {R : Type}
  (use : list Item -> String -> R * list Item)
  (Rel : String -> list Item -> R -> list Item -> Prop).
Hypothesis Rel_use : forall items path,
  findAny path = None ->
  Rel path items (fst (use items path)) (snd (use items path)).
Hypothesis Rel_found : forall path i items j foundItem r children,
  findAny path = Some i ->
  PakWriter.find_by_name (firstn i path) items = Some (j, foundItem) ->
  Rel (skipn (S i) path) (ChildItems foundItem) r children ->
  Rel path items r (PakWriter.replace_nth j (set_ChildItems foundItem children) items).
Hypothesis Rel_created : forall path i items r children,
  findAny path = Some i ->
  PakWriter.find_by_name (firstn i path) items = None ->
  Rel (skipn (S i) path) [] r children ->
  Rel path items r (items ++ [mkItem (firstn i path) ItemFlags_Directory 0 0 0 children]).

Lemma FindOrCreateParentItem_loop_rel : forall steps items path r items',
  PakWriter.FindOrCreateParentItem_loop steps items path use = Some (r, items') ->
  Rel path items r items'.
Proof.
  induction steps as [|steps IH]; intros items path r items' H; simpl in H; [discriminate|].
  destruct (findAny path) as [i|] eqn:Hsep.
  - destruct (PakWriter.find_by_name (firstn i path) items) as [[j foundItem]|] eqn:Hfind.
    + destruct (PakWriter.FindOrCreateParentItem_loop steps (ChildItems foundItem) _ use)
        as [[r0 children]|] eqn:Hrec; [|discriminate].
      injection H as <- <-. eapply Rel_found; eauto.
    + destruct (PakWriter.FindOrCreateParentItem_loop steps [] _ use)
        as [[r0 children]|] eqn:Hrec; [|discriminate].
      injection H as <- <-. eapply Rel_created; eauto.
  - injection H as H. rewrite (surjective_pairing (use items path)) in H.
    injection H as <- <-. apply Rel_use; assumption.
Qed.

End FindOrCreateParentItem_rel.

(** The loop always returns within [S (length path)] iterations. *)
Lemma findAny_lt : forall path i, findAny path = Some i -> (i < length path)%nat.
Proof.
  induction path as [|c path IH]; intros i H; simpl in *; [discriminate|].
  destruct (is_separator c); [injection H as <-; lia|].
  destruct (findAny path) as [k|]; [|discriminate].
  injection H as <-. specialize (IH k eq_refl). lia.
Qed.

Lemma FindOrCreateParentItem_loop_returns :
  forall (R : Type) (use : list Item -> String -> R * list Item) steps items path,
  (length path < steps)%nat ->
  PakWriter.FindOrCreateParentItem_loop steps items path use <> None.
Proof.
  intros R use. induction steps as [|steps IH]; intros items path Hlen; [lia|]. simpl.
  destruct (findAny path) as [i|] eqn:Hsep; [|discriminate].
  pose proof (findAny_lt _ _ Hsep) as Hi.
  assert (Hs : (length (skipn (S i) path) < steps)%nat) by (rewrite length_skipn; lia).
  destruct (PakWriter.find_by_name (firstn i path) items) as [[j foundItem]|].
  - specialize (IH (ChildItems foundItem) _ Hs).
    destruct (PakWriter.FindOrCreateParentItem_loop steps (ChildItems foundItem) _ use) as [[r c]|];
      [discriminate|contradiction].
  - specialize (IH [] _ Hs).
    destruct (PakWriter.FindOrCreateParentItem_loop steps [] _ use) as [[r c]|];
      [discriminate|contradiction].
Qed.

(** *** Lists of items *)

Lemma find_by_name_nth_error : forall name items j foundItem,
  PakWriter.find_by_name name items = Some (j, foundItem) ->
  nth_error items j = Some foundItem /\ String_eqb (Name foundItem) name = true.
Proof.
  induction items as [|x items IH]; intros j foundItem H; simpl in H; [discriminate|].
  destruct (String_eqb (Name x) name) eqn:E.
  - injection H as <- <-. split; [reflexivity|exact E].
  - destruct (PakWriter.find_by_name name items) as [[k f]|]; [|discriminate].
    injection H as <- <-. apply IH. reflexivity.
Qed.

Lemma replace_nth_split : forall items j (x y : Item),
  nth_error items j = Some x ->
  exists before after,
    items = before ++ x :: after /\
    PakWriter.replace_nth j y items = before ++ y :: after /\
    length before = j.
Proof.
  induction items as [|a items IH]; intros j x y H; destruct j; simpl in H; try discriminate.
  - injection H as <-. exists [], items. repeat split.
  - destruct (IH j x y H) as (b & c & E1 & E2 & E3).
    exists (a :: b), c. simpl. rewrite E2, E3. rewrite <- E1. repeat split.
Qed.

Lemma Forall_tree_app : forall Q a b,
  Forall_tree Q (a ++ b) <-> Forall_tree Q a /\ Forall_tree Q b.
Proof.
  induction a as [|x a IH]; intros b; simpl.
  - split; [intros H; split; [constructor|exact H]|intros [_ H]; exact H].
  - split.
    + intros H. inversion H; subst. apply IH in H4 as [Ha Hb].
      split; [constructor; assumption|assumption].
    + intros [H Hb]. inversion H; subst. constructor; try assumption.
      apply IH. split; assumption.
Qed.

Lemma files_of_item_eq : forall item,
  files_of_item item
  = (if isDirectory item then [] else [set_ChildItems item []]) ++ files_of (ChildItems item).
Proof.
  intros [name flags offset usize size children]. unfold isDirectory, set_ChildItems. simpl.
  reflexivity.
Qed.

Lemma files_of_app : forall a b, files_of (a ++ b) = files_of a ++ files_of b.
Proof. intros. unfold files_of. apply flat_map_app. Qed.

(** *** Adding a file of no bytes *)





(** *** Properties of every item through [AddFile] *)

Lemma Forall_tree_replace_nth : forall (Q : Item -> Prop) items j foundItem children,
  (forall item c, Q item -> Q (set_ChildItems item c)) ->
  nth_error items j = Some foundItem ->
  Forall_tree Q items -> Forall_tree Q children ->
  Forall_tree Q (PakWriter.replace_nth j (set_ChildItems foundItem children) items).
Proof.
  intros Q items j foundItem children HQ Hnth Hitems Hchildren.
  destruct (replace_nth_split items j foundItem (set_ChildItems foundItem children) Hnth)
    as (before & after & E1 & E2 & _).
  rewrite E2. rewrite E1 in Hitems.
  apply Forall_tree_app in Hitems as [Hb Ha]. inversion Ha; subst.
  apply Forall_tree_app. split; [assumption|].
  constructor; [apply HQ; assumption|exact Hchildren|assumption].
Qed.

Lemma Forall_tree_child : forall (Q : Item -> Prop) items j foundItem,
  nth_error items j = Some foundItem ->
  Forall_tree Q items -> Q foundItem /\ Forall_tree Q (ChildItems foundItem).
Proof.
  intros Q items j foundItem Hnth Hitems.
  apply nth_error_split in Hnth as (before & after & -> & _).
  apply Forall_tree_app in Hitems as [_ Ha]. inversion Ha; subst. split; assumption.
Qed.

Lemma AddFile_Forall_tree : forall (Q : Item -> Prop) P w content path pc,
  (forall item c, Q item -> Q (set_ChildItems item c)) ->
  (forall name, Q (mkItem name ItemFlags_Directory 0 0 0 [])) ->
  (forall useHashIndex out items p,
     Forall_tree Q items ->
     Forall_tree Q (snd (PakWriter.AddFile_to P useHashIndex content pc out items p))) ->
  Forall_tree Q (PakWriter._rootItems w) ->
  Forall_tree Q (PakWriter._rootItems (snd (PakWriter.AddFile P w content path pc))).
Proof.
  intros Q P w content path pc Hchild Hdir Huse Hw. unfold PakWriter.AddFile.
  destruct (PakWriter._outputStream w) as [out|]; [|exact Hw].
  destruct (fs_valid out); [|exact Hw]. simpl negb. cbv iota.
  destruct (empty_or_ends_with_separator path); [exact Hw|].
  destruct (PakWriter._useHashIndex w).
  - specialize (Huse true out (PakWriter._rootItems w) path Hw).
    destruct (PakWriter.AddFile_to P true content pc out _ path) as [[ok o] its]. exact Huse.
  - unfold PakWriter.FindOrCreateParentItem.
    destruct (PakWriter.FindOrCreateParentItem_loop _ _ _ _) as [[[ok o] its]|] eqn:H; [|exact Hw].
    simpl. revert Hw.
    eapply (FindOrCreateParentItem_loop_rel (PakWriter.AddFile_to P false content pc out)
              (fun _ items _ items' => Forall_tree Q items -> Forall_tree Q items'));
      [| | |exact H].
    + intros its0 p _ H0. apply Huse. exact H0.
    + intros p i its0 j foundItem r0 children _ Hfind IH H0.
      apply find_by_name_nth_error in Hfind as [Hnth _].
      apply Forall_tree_replace_nth; try assumption.
      apply IH. eapply Forall_tree_child; eassumption.
    + intros p i its0 r0 children _ _ IH H0.
      apply Forall_tree_app. split; [exact H0|].
      constructor; [|apply IH; constructor|constructor].
      apply (Hchild (mkItem (firstn i p) ItemFlags_Directory 0 0 0 []) children), Hdir.
Qed.

Lemma AddFiles_Forall_tree : forall (Q : Item -> Prop) P additions w,
  (forall item c, Q item -> Q (set_ChildItems item c)) ->
  (forall name, Q (mkItem name ItemFlags_Directory 0 0 0 [])) ->
  (forall useHashIndex content pc out items p,
     Forall_tree Q items ->
     Forall_tree Q (snd (PakWriter.AddFile_to P useHashIndex content pc out items p))) ->
  Forall_tree Q (PakWriter._rootItems w) ->
  Forall_tree Q (PakWriter._rootItems (AddFiles P w additions)).
Proof.
  intros Q P additions. induction additions as [|a additions IH]; intros w H1 H2 H3 Hw; simpl.
  - exact Hw.
  - apply IH; try assumption. apply AddFile_Forall_tree; try assumption.
    intros. apply H3. assumption.
Qed.

Lemma AddFile_to_sizes : forall P useHashIndex content pc out items p,
  Forall_tree sizes_below_limit items ->
  Forall_tree sizes_below_limit (snd (PakWriter.AddFile_to P useHashIndex content pc out items p)).
Proof.
  intros P uh content pc out items p H. unfold PakWriter.AddFile_to.
  destruct (existsb _ items); [exact H|].
  assert (Hsize : forall bytes, 0 <= GetPosition (Write out bytes) - GetPosition out).
  { intros bytes. unfold Write, GetPosition. destruct (fs_valid out); simpl; [|lia].
    rewrite length_app. lia. }
  assert (Hgoal : forall (o : FileStream) (flags size : Z), 0 <= size ->
    Forall_tree sizes_below_limit
      (snd (if negb (Z.of_nat (length content) >? 0) then ((false, o), items)
            else if negb ((Z.of_nat (length content) <? UINT32_MAX) && (size <? UINT32_MAX))
            then ((false, o), items)
            else ((true, o),
                  items ++ [mkItem (if uh then le_bytes 8 (FileNameToHash P p) else p) flags
                              (GetPosition out) (to_uint32 (Z.of_nat (length content)))
                              (to_uint32 size) []])))).
  { intros o flags size Hs.
    destruct (Z.of_nat (length content) >? 0) eqn:E0; [|exact H]. simpl negb. cbv iota.
    destruct (Z.of_nat (length content) <? UINT32_MAX) eqn:E1; [|exact H].
    destruct (size <? UINT32_MAX) eqn:E2; [|exact H]. simpl.
    apply Z.ltb_lt in E1, E2. apply Z.gtb_lt in E0.
    apply Forall_tree_app. split; [exact H|].
    constructor; [|constructor|constructor].
    unfold sizes_below_limit, to_uint32, UINT32_MAX in *. simpl.
    rewrite !Z.mod_small by lia. lia. }
  destruct pc; try destruct (WITH_ZLIB P); try destruct (WITH_LZ4 P); try destruct (WITH_ZSTD P);
    apply Hgoal; try apply Hsize; lia.
Qed.

(** C4, amended.  Size limit: [AddFile] returns what it returns for a file
    of one byte at the same path, unless it refuses the sizes, and it
    refuses them exactly when the content is empty or when its length or
    the length of what the codec made of it reaches [UINT32_MAX], which is
    2^32 - 1 and not 2^32.  Every item of a tree built by [AddFile] has
    [UncompressedSize] and [Size] below 2^32 - 1. *)
Theorem AddFile_size_limit : forall P w content path pc additions existing opens useHashIndex useCompressedIndex,
  fst (PakWriter.AddFile P w content path pc)
    = fst (PakWriter.AddFile P w [0] path Compression_None) && size_accepted P pc content
  /\ Forall_tree sizes_below_limit
       (PakWriter._rootItems
          (AddFiles P (PakWriter.new existing opens useHashIndex useCompressedIndex) additions)).
Proof.
  intros. split; [apply AddFile_verdict|].
  apply AddFiles_Forall_tree.
  - intros item c H. exact H.
  - intros name. unfold sizes_below_limit, UINT32_MAX. simpl. lia.
  - intros. apply AddFile_to_sizes. assumption.
  - constructor.
Qed.

Lemma AddFile_size_limit_counterexample :
  on_every_platform (fun P =>
    let w := PakWriter.new None true false false in
    let content := repeat 0 (Z.to_nat UINT32_MAX) in
    Z.of_nat (length content) < 2 ^ 32 /\
    stored_size P Compression_None content < 2 ^ 32 /\
    fst (PakWriter.AddFile P w [0] [97] Compression_None) = true /\
    fst (PakWriter.AddFile P w content [97] Compression_None) = false).
Proof.
  intros P w content.
  assert (Hlen : Z.of_nat (length content) = UINT32_MAX).
  { unfold content. rewrite repeat_length. apply Z2Nat.id. unfold UINT32_MAX. lia. }
  split; [rewrite Hlen; reflexivity|].
  split; [reflexivity|].
  split; [reflexivity|].
  rewrite AddFile_verdict. unfold size_accepted. rewrite Hlen. reflexivity.
Qed.

(** Takes the branch of a decided [if], leaving everything else folded. *)
Ltac branch :=
  change (negb true) with false; change (negb false) with true;
  change (true && true) with true; cbv beta match.


Lemma String_eqb_eq : forall a b, String_eqb a b = true <-> a = b.
Proof.
  induction a as [|x a IH]; intros [|y b]; simpl; split; intros H; try reflexivity; try discriminate.
  - apply andb_true_iff in H as [H1 H2]. apply Z.eqb_eq in H1. apply IH in H2. congruence.
  - injection H as -> ->. rewrite Z.eqb_refl. simpl. apply IH. reflexivity.
Qed.

Lemma String_eqb_refl : forall a, String_eqb a a = true.
Proof. intros. apply String_eqb_eq. reflexivity. Qed.

Lemma memcmp_eqb : forall n a b,
  length a = n -> length b = n -> (memcmp a b n =? 0) = String_eqb a b.
Proof.
  induction n as [|n IH]; intros [|x a] [|y b] Ha Hb; simpl in *; try discriminate; try reflexivity.
  destruct (x <? y) eqn:E1.
  - apply Z.ltb_lt in E1. replace (x =? y) with false by (symmetry; apply Z.eqb_neq; lia). reflexivity.
  - destruct (y <? x) eqn:E2.
    + apply Z.ltb_lt in E2. replace (x =? y) with false by (symmetry; apply Z.eqb_neq; lia). reflexivity.
    + apply Z.ltb_ge in E1, E2. replace (x =? y) with true by (symmetry; apply Z.eqb_eq; lia).
      simpl. apply IH; congruence.
Qed.

Lemma remaining_advance : forall s k,
  0 <= position s -> 
  remaining (mkStream (bytes_of s) (position s + Z.of_nat k)) = skipn k (remaining s).
Proof.
  intros s k Hpos. unfold remaining. simpl.
  rewrite skipn_skipn. f_equal. lia.
Qed.

Lemma ReadBuffer_full : forall s n,
  0 <= position s -> (n <= length (remaining s))%nat ->
  ReadBuffer s (Z.of_nat n)
  = (firstn n (remaining s), mkStream (bytes_of s) (position s + Z.of_nat n)).
Proof.
  intros s n Hpos Hn. unfold ReadBuffer, Read. fold (remaining s).
  rewrite Nat2Z.id. rewrite length_firstn, Nat.min_l by exact Hn.
  rewrite Nat.sub_diag. simpl. now rewrite app_nil_r.
Qed.

Lemma ReadValue_full : forall s n,
  0 <= position s -> (n <= length (remaining s))%nat ->
  ReadValue n s
  = (le_value (firstn n (remaining s)), mkStream (bytes_of s) (position s + Z.of_nat n)).
Proof.
  intros s n Hpos Hn. unfold ReadValue. now rewrite ReadBuffer_full.
Qed.

(** The constructor up to the point where it stores [_path]: either the
    footer is refused, or the index is read with these arguments. *)
Lemma new_footer : forall P path file,
  PakFile.new P path file =
  match file with
  | Some bytes =>
      if footer_valid file then
        let (_, s) := Seek_Begin (mkStream bytes (Z.of_nat (length bytes)))
                                 (to_int64 (footer_rootIndexOffset bytes)) in
        let useHashIndex := has_flag (footer_flags bytes) PakFileFlags_HashIndex in
        let '(_, mountPoint, rootItems) :=
          PakFile.ConstructsItemsFromIndex P (Z.to_nat MaxDepth) useHashIndex s true
            (has_flag (footer_flags bytes) PakFileFlags_DeflateCompressedIndex) 0 [] [] in
        PakFile.mk path mountPoint useHashIndex rootItems
      else PakFile.empty
  | None => PakFile.empty
  end.
Proof.
  intros P path [bytes|]; [|reflexivity].
  unfold PakFile.new, footer_valid. unfold GetSize at 1. simpl bytes_of.
  destruct (Z.of_nat (length bytes) >? FooterSize + 8) eqn:Hsize; [|reflexivity].
  apply Z.gtb_lt in Hsize. unfold FooterSize in Hsize. simpl in Hsize.
  set (s0 := mkStream bytes (Z.of_nat (length bytes) - 16)).
  assert (Hseek : Seek_End (mkStream bytes 0) (- FooterSize)
                  = (Z.of_nat (length bytes) - 16, s0)).
  { unfold Seek_End, Seek_Begin, GetSize, FooterSize. simpl bytes_of.
    replace (Z.of_nat (length bytes) + - (4 + 2 + 2 + 8)) with (Z.of_nat (length bytes) - 16) by lia.
    destruct (Z.of_nat (length bytes) - 16 <? 0) eqn:E; [apply Z.ltb_lt in E; lia|reflexivity]. }
  branch. rewrite Hseek.
  replace (Z.of_nat (length bytes) - 16 >=? 0) with true
    by (symmetry; apply Z.geb_le; lia).
  branch.
  assert (Hrem : remaining s0 = footer bytes).
  { unfold remaining, footer, s0, FooterSize. simpl. f_equal. lia. }
  assert (Hlen : length (footer bytes) = 16%nat).
  { unfold footer, FooterSize. rewrite length_skipn. simpl Z.to_nat. lia. }
  assert (Hpos : 0 <= position s0) by (unfold s0; simpl; lia).
  change 4 with (Z.of_nat 4) at 1.
  rewrite (ReadBuffer_full s0 4 Hpos) by (rewrite Hrem, Hlen; lia).
  cbv beta match. rewrite Hrem. fold (footer_signature bytes).
  rewrite memcmp_eqb; [|unfold footer_signature; rewrite length_firstn, Hlen; reflexivity|reflexivity].
  destruct (String_eqb (footer_signature bytes) Signature); [|reflexivity].
  branch.
  set (s1 := mkStream (bytes_of s0) (position s0 + Z.of_nat 4)).
  assert (Hrem1 : remaining s1 = skipn 4 (footer bytes)).
  { unfold s1. rewrite remaining_advance by exact Hpos. now rewrite Hrem. }
  assert (Hpos1 : 0 <= position s1) by (unfold s1; simpl; lia).
  rewrite (ReadValue_full s1 2 Hpos1) by (rewrite Hrem1, length_skipn, Hlen; lia).
  cbv beta match. rewrite Hrem1. fold (footer_version bytes).
  destruct (footer_version bytes =? Version); [|reflexivity].
  branch.
  set (s2 := mkStream (bytes_of s1) (position s1 + Z.of_nat 2)).
  assert (Hrem2 : remaining s2 = skipn 6 (footer bytes)).
  { unfold s2. rewrite remaining_advance by exact Hpos1. rewrite Hrem1, skipn_skipn. reflexivity. }
  assert (Hpos2 : 0 <= position s2) by (unfold s2; simpl; lia).
  rewrite (ReadValue_full s2 2 Hpos2) by (rewrite Hrem2, length_skipn, Hlen; lia).
  cbv beta match. rewrite Hrem2. fold (footer_flags bytes).
  set (s3 := mkStream (bytes_of s2) (position s2 + Z.of_nat 2)).
  assert (Hrem3 : remaining s3 = skipn 8 (footer bytes)).
  { unfold s3. rewrite remaining_advance by exact Hpos2. rewrite Hrem2, skipn_skipn. reflexivity. }
  assert (Hpos3 : 0 <= position s3) by (unfold s3; simpl; lia).
  rewrite (ReadValue_full s3 8 Hpos3) by (rewrite Hrem3, length_skipn, Hlen; lia).
  cbv beta match. rewrite Hrem3. fold (footer_rootIndexOffset bytes).
  unfold GetSize. simpl bytes_of.
  destruct (footer_rootIndexOffset bytes <? to_uint64 (Z.of_nat (length bytes))); [|reflexivity].
  branch.
  unfold Seek_Begin. simpl bytes_of.
  destruct (to_int64 (footer_rootIndexOffset bytes) <? 0); [|reflexivity].
  (* a refused seek leaves the stream behind the footer *)
  replace (position s3 + Z.of_nat 8) with (Z.of_nat (length bytes))
    by (unfold s3, s2, s1, s0; simpl; lia).
  reflexivity.
Qed.



(** *** The depth of the materialised index *)

Lemma levels_le_S : forall n items, levels_le n items -> levels_le (S n) items.
Proof.
  induction 1 as [n|n item rest _ IH1 _ IH2]; constructor; assumption.
Qed.


Lemma ReadIndexFromStream_items_leaves : forall useHashIndex itemCount s,
  Forall (fun item => ChildItems item = [])
         (snd (fst (PakFile.ReadIndexFromStream_items useHashIndex itemCount s))).
Proof.
  intros uh. induction itemCount as [|n IH]; intros s; simpl; [constructor|].
  destruct (ReadVariableUint32 s) as [flags s1].
  assert (Hdefault : Forall (fun item => ChildItems item = [])
                            (mkItem [] flags 0 0 0 [] :: repeat Item_default n)).
  { constructor; [reflexivity|]. apply Forall_forall. intros x Hx.
    apply repeat_spec in Hx. subst. reflexivity. }
  assert (Hrest : forall name s2,
    Forall (fun item => ChildItems item = [])
      (snd (fst (let (offset, s) := ReadVariableUint64 s2 in
                 let '(uncompressedSize, size, s) :=
                   if negb (has_flag flags ItemFlags_Directory) then
                     let (uncompressedSize, s) := ReadVariableUint32 s in
                     if HasCompressedSize flags then
                       let (size, s) := ReadVariableUint32 s in (uncompressedSize, size, s)
                     else (uncompressedSize, 0, s)
                   else (0, 0, s) in
                 let '(s, rest, ok) := PakFile.ReadIndexFromStream_items uh n s in
                 (s, mkItem name flags offset uncompressedSize size [] :: rest, ok))))).
  { intros name s2. destruct (ReadVariableUint64 s2) as [offset s3].
    destruct (negb (has_flag flags ItemFlags_Directory)).
    - destruct (ReadVariableUint32 s3) as [usize s4].
      destruct (HasCompressedSize flags).
      + destruct (ReadVariableUint32 s4) as [size s5].
        specialize (IH s5). destruct (PakFile.ReadIndexFromStream_items uh n s5) as [[s6 rest] ok].
        simpl in *. constructor; [reflexivity|exact IH].
      + specialize (IH s4). destruct (PakFile.ReadIndexFromStream_items uh n s4) as [[s6 rest] ok].
        simpl in *. constructor; [reflexivity|exact IH].
    - specialize (IH s3). destruct (PakFile.ReadIndexFromStream_items uh n s3) as [[s6 rest] ok].
      simpl in *. constructor; [reflexivity|exact IH]. }
  destruct uh.
  - destruct (ReadBuffer s1 HashIndexLength) as [name s2]. branch. apply Hrest.
  - destruct (ReadVariableUint32 s1) as [nameLength s2].
    destruct ((nameLength =? 0) || (nameLength <? INT32_MAX)).
    + branch. destruct (ReadBuffer s2 (to_int32 nameLength)) as [name s3]. branch. apply Hrest.
    + branch. exact Hdefault.
Qed.

Lemma ReadIndexFromStream_leaves : forall P useHashIndex s root mountPoint items,
  Forall (fun item => ChildItems item = []) items ->
  Forall (fun item => ChildItems item = [])
         (snd (fst (PakFile.ReadIndexFromStream P useHashIndex s root mountPoint items))).
Proof.
  intros P uh s root mountPoint items Hitems. unfold PakFile.ReadIndexFromStream.
  assert (Hcount : forall s1 (mp : String),
    Forall (fun item => ChildItems item = [])
      (snd (fst (let (itemCount, s) := ReadVariableUint32 s1 in
                 let '(s, items, ok) :=
                   PakFile.ReadIndexFromStream_items uh (Z.to_nat itemCount) s in
                 (s, mp, items, ok))))).
  { intros s1 mp. destruct (ReadVariableUint32 s1) as [itemCount s2].
    pose proof (ReadIndexFromStream_items_leaves uh (Z.to_nat itemCount) s2) as H.
    destruct (PakFile.ReadIndexFromStream_items uh (Z.to_nat itemCount) s2) as [[s3 its] ok].
    exact H. }
  destruct root; [|branch; apply Hcount].
  destruct (ReadVariableUint32 s) as [mountPointLength s1].
  destruct (mountPointLength <? INT16_MAX); branch; [|exact Hitems].
  destruct (ReadBuffer s1 (to_int32 mountPointLength)) as [mp s2].
  branch. apply Hcount.
Qed.

Lemma ReadIndexFromStreamDeflateCompressed_leaves : forall P useHashIndex s root mountPoint items,
  Forall (fun item => ChildItems item = []) items ->
  Forall (fun item => ChildItems item = [])
         (snd (fst (PakFile.ReadIndexFromStreamDeflateCompressed P useHashIndex s root mountPoint items))).
Proof.
  intros P uh s root mountPoint items Hitems.
  unfold PakFile.ReadIndexFromStreamDeflateCompressed.
  destruct (WITH_ZLIB P); [|exact Hitems].
  pose proof (ReadIndexFromStream_leaves P uh
                (mkStream (DeflateStream P (skipn (Z.to_nat (position s)) (bytes_of s))) 0)
                root mountPoint items Hitems) as H.
  destruct (PakFile.ReadIndexFromStream P uh _ root mountPoint items) as [[[s' mp] its] ok].
  exact H.
Qed.








(** ** Reading back what the writer wrote *)

Lemma Read_one : forall file s b left,
  stream_at file s (b :: left) ->
  exists s', Read s 1 = ([b], s') /\ stream_at file s' left.
Proof.
  intros file s b left (Hf & Hpos & Hrem).
  exists (mkStream (bytes_of s) (position s + Z.of_nat 1)). split.
  - unfold Read. fold (remaining s). rewrite Hrem. reflexivity.
  - split; [exact Hf|]. split; [simpl; lia|].
    rewrite remaining_advance by exact Hpos. now rewrite Hrem.
Qed.

Lemma Read_exact : forall file s x left,
  stream_at file s (x ++ left) ->
  exists s', Read s (Z.of_nat (length x)) = (x, s') /\ stream_at file s' left.
Proof.
  intros file s x left (Hf & Hpos & Hrem).
  exists (mkStream (bytes_of s) (position s + Z.of_nat (length x))). split.
  - unfold Read. fold (remaining s). rewrite Hrem, Nat2Z.id.
    rewrite firstn_app, firstn_all, Nat.sub_diag. simpl. now rewrite app_nil_r.
  - split; [exact Hf|]. split; [simpl; lia|].
    rewrite remaining_advance by exact Hpos. rewrite Hrem.
    rewrite skipn_app, skipn_all, Nat.sub_diag. reflexivity.
Qed.

Lemma ReadBuffer_exact : forall file s x left,
  stream_at file s (x ++ left) ->
  exists s', ReadBuffer s (Z.of_nat (length x)) = (x, s') /\ stream_at file s' left.
Proof.
  intros file s x left H. destruct (Read_exact file s x left H) as (s' & E & H').
  exists s'. split; [|exact H']. unfold ReadBuffer. rewrite E.
  rewrite Nat2Z.id, Nat.sub_diag. simpl. now rewrite app_nil_r.
Qed.

Lemma ReadVariableUint_Write : forall file maxBytes value s left shift result,
  0 <= value < 128 ^ Z.of_nat maxBytes -> 0 <= shift ->
  stream_at file s (WriteVariableUint maxBytes value ++ left) ->
  exists s', ReadVariableUint maxBytes s shift result = (result + value * 2 ^ shift, s')
             /\ stream_at file s' left.
Proof.
  intros file. induction maxBytes as [|n IH]; intros value s left shift result Hv Hshift Hs.
  - simpl in *. exists s. split; [|exact Hs]. f_equal. assert (value = 0) by lia. subst. lia.
  - cbn [WriteVariableUint] in Hs. cbn [ReadVariableUint].
    destruct (value <? 128) eqn:Hsmall.
    + simpl in Hs.
      destruct (Read_one file s value left Hs) as (s' & E & Hs').
      rewrite E, Hsmall. apply Z.ltb_lt in Hsmall.
      exists s'. split; [|exact Hs'].
      rewrite Z.mod_small by lia. reflexivity.
    + apply Z.ltb_ge in Hsmall. simpl in Hs.
      destruct (Read_one file s _ _ Hs) as (s' & E & Hs').
      rewrite E.
      assert (Hm : 0 <= value mod 128 < 128) by (apply Z.mod_pos_bound; lia).
      replace (value mod 128 + 128 <? 128) with false by (symmetry; apply Z.ltb_ge; lia).
      replace ((value mod 128 + 128) mod 128) with (value mod 128).
      2:{ replace (value mod 128 + 128) with (value mod 128 + 1 * 128) by lia.
          rewrite Z.mod_add by lia. now rewrite Z.mod_mod by lia. }
      assert (Hdiv : 0 <= value / 128 < 128 ^ Z.of_nat n).
      { split; [apply Z.div_pos; lia|].
        apply Z.div_lt_upper_bound; [lia|].
        replace (128 * 128 ^ Z.of_nat n) with (128 ^ Z.of_nat (S n)); [lia|].
        rewrite Nat2Z.inj_succ, Z.pow_succ_r by lia. reflexivity. }
      destruct (IH (value / 128) s' left (shift + 7) (result + value mod 128 * 2 ^ shift)
                  Hdiv ltac:(lia) Hs') as (s'' & E' & Hs'').
      exists s''. split; [|exact Hs'']. rewrite E'. f_equal.
      rewrite Z.pow_add_r by lia.
      rewrite (Z.div_mod value 128) at 3 by lia.
      change (2 ^ 7) with 128. ring.
Qed.

Lemma ReadVariableUint32_Write : forall file value s left,
  0 <= value < 2 ^ 32 ->
  stream_at file s (WriteVariableUint32 value ++ left) ->
  exists s', ReadVariableUint32 s = (value, s') /\ stream_at file s' left.
Proof.
  intros file value s left Hv Hs. unfold ReadVariableUint32.
  destruct (ReadVariableUint_Write file 5 value s left 0 0) as (s' & E & Hs');
    [change (128 ^ Z.of_nat 5) with (2 ^ 35); lia|lia|exact Hs|].
  rewrite E. exists s'. split; [|exact Hs'].
  unfold to_uint32. rewrite Z.mod_small by lia. f_equal. lia.
Qed.

Lemma ReadVariableUint64_Write : forall file value s left,
  0 <= value < 2 ^ 64 ->
  stream_at file s (WriteVariableUint64 value ++ left) ->
  exists s', ReadVariableUint64 s = (value, s') /\ stream_at file s' left.
Proof.
  intros file value s left Hv Hs. unfold ReadVariableUint64.
  destruct (ReadVariableUint_Write file 10 value s left 0 0) as (s' & E & Hs');
    [change (128 ^ Z.of_nat 10) with (2 ^ 70); lia|lia|exact Hs|].
  rewrite E. exists s'. split; [|exact Hs'].
  unfold to_uint64. rewrite Z.mod_small by lia. f_equal. lia.
Qed.

Lemma to_uint32_small : forall z, 0 <= z < 2 ^ 32 -> to_uint32 z = z.
Proof. intros. unfold to_uint32. apply Z.mod_small. assumption. Qed.

Lemma to_int32_small : forall z, 0 <= z < 2 ^ 31 -> to_int32 z = z.
Proof. intros. unfold to_int32. rewrite Z.mod_small by lia. lia. Qed.

Lemma to_int64_small : forall z, 0 <= z < 2 ^ 63 -> to_int64 z = z.
Proof. intros. unfold to_int64. rewrite Z.mod_small by lia. lia. Qed.

Lemma WriteItemDescription_eq : forall useHashIndex item,
  PakWriter.WriteItemDescription useHashIndex item
  = WriteVariableUint32 (to_uint32 (Flags item))
    ++ (if useHashIndex then
          WriteBytes (Name item ++ repeat 0 (Z.to_nat HashIndexLength - length (Name item)))
                     HashIndexLength
        else
          WriteVariableUint32 (to_uint32 (Z.of_nat (length (Name item))))
          ++ WriteBytes (Name item) (to_int32 (Z.of_nat (length (Name item)))))
    ++ WriteVariableUint64 (Offset item)
    ++ (if negb (isDirectory item) then
          WriteVariableUint32 (UncompressedSize item)
          ++ (if HasCompressedSize (Flags item) then WriteVariableUint32 (Size item) else [])
        else []).
Proof. reflexivity. Qed.

Lemma ReadIndexFromStream_items_Write : forall file useHashIndex items s left,
  Forall (wf_item useHashIndex) items ->
  stream_at file s (flat_map (PakWriter.WriteItemDescription useHashIndex) items ++ left) ->
  exists s',
    PakFile.ReadIndexFromStream_items useHashIndex (length items) s
      = (s', map (fun item => set_ChildItems item []) items, true)
    /\ stream_at file s' left.
Proof.
  intros file uh. induction items as [|item items IH]; intros s left Hwf Hs.
  - exists s. split; [reflexivity|exact Hs].
  - inversion Hwf as [|? ? Hitem Hitems]; subst.
    destruct Hitem as (Hflags & Hname & Hoffset & Husize & Hsize & Hdir & Hplain).
    cbn [flat_map length PakFile.ReadIndexFromStream_items map].
    cbn [flat_map] in Hs. rewrite WriteItemDescription_eq in Hs.
    rewrite <- !app_assoc in Hs.
    rewrite to_uint32_small in Hs by exact Hflags.
    destruct (ReadVariableUint32_Write file _ s _ Hflags Hs) as (s1 & E1 & Hs1).
    rewrite E1. clear E1 Hs. fold (isDirectory item).
    assert (Hnamed : exists s2,
      (if uh
       then let (name, s) := ReadBuffer s1 HashIndexLength in (name, s, true)
       else
         let (nameLength, s) := ReadVariableUint32 s1 in
         if negb ((nameLength =? 0) || (nameLength <? INT32_MAX)) then ([], s, false)
         else let (name, s) := ReadBuffer s (to_int32 nameLength) in (name, s, true))
      = (Name item, s2, true)
      /\ stream_at file s2
           (WriteVariableUint64 (Offset item)
            ++ (if negb (isDirectory item)
                then WriteVariableUint32 (UncompressedSize item)
                     ++ (if HasCompressedSize (Flags item)
                         then WriteVariableUint32 (Size item) else [])
                else [])
            ++ flat_map (PakWriter.WriteItemDescription uh) items ++ left)).
    { destruct uh.
      - rewrite Hname in Hs1. change (Z.to_nat HashIndexLength - 8)%nat with 0%nat in Hs1.
        simpl repeat in Hs1. rewrite app_nil_r in Hs1.
        unfold WriteBytes in Hs1. change (Z.to_nat HashIndexLength) with 8%nat in Hs1.
        rewrite <- Hname, firstn_all in Hs1. rewrite <- ?app_assoc in Hs1.
        destruct (ReadBuffer_exact file s1 _ _ Hs1) as (s2 & E2 & Hs2).
        rewrite Hname in E2. change (Z.of_nat 8) with HashIndexLength in E2.
        rewrite E2. exists s2. split; [reflexivity|exact Hs2].
      - unfold INT32_MAX in Hname.
        assert (H31 : 0 <= Z.of_nat (length (Name item)) < 2 ^ 31) by (change (2 ^ 31) with 2147483648; lia).
        assert (H32 : 0 <= Z.of_nat (length (Name item)) < 2 ^ 32) by (change (2 ^ 32) with 4294967296; lia).
        rewrite (to_uint32_small _ H32), (to_int32_small _ H31) in Hs1.
        unfold WriteBytes in Hs1. rewrite Nat2Z.id, firstn_all in Hs1.
        rewrite <- ?app_assoc in Hs1.
        destruct (ReadVariableUint32_Write file _ s1 _ H32 Hs1) as (s2 & E2 & Hs2).
        rewrite E2.
        replace ((Z.of_nat (length (Name item)) =? 0)
                 || (Z.of_nat (length (Name item)) <? INT32_MAX)) with true.
        2:{ symmetry. apply orb_true_iff. right. apply Z.ltb_lt. unfold INT32_MAX. lia. }
        branch. rewrite (to_int32_small _ H31).
        destruct (ReadBuffer_exact file s2 _ _ Hs2) as (s3 & E3 & Hs3).
        rewrite E3. exists s3. split; [reflexivity|exact Hs3]. }
    destruct Hnamed as (s2 & E2 & Hs2). rewrite E2. clear E2 Hs1. branch.
    destruct (ReadVariableUint64_Write file _ s2 _ Hoffset Hs2) as (s3 & E3 & Hs3).
    rewrite E3. clear E3 Hs2.
    assert (Hsized : exists s4,
      (if negb (isDirectory item) then
         let (uncompressedSize, s) := ReadVariableUint32 s3 in
         if HasCompressedSize (Flags item) then
           let (size, s) := ReadVariableUint32 s in (uncompressedSize, size, s)
         else (uncompressedSize, 0, s)
       else (0, 0, s3))
      = (UncompressedSize item, Size item, s4)
      /\ stream_at file s4 (flat_map (PakWriter.WriteItemDescription uh) items ++ left)).
    { destruct (isDirectory item) eqn:Hd; simpl negb; cbv beta match.
      - destruct (Hdir eq_refl) as [-> ->]. exists s3. split; [reflexivity|exact Hs3].
      - simpl negb in Hs3. cbv beta match in Hs3. rewrite <- ?app_assoc in Hs3.
        destruct (ReadVariableUint32_Write file _ s3 _ Husize Hs3) as (s4 & E4 & Hs4).
        rewrite E4. destruct (HasCompressedSize (Flags item)) eqn:Hc.
        + destruct (ReadVariableUint32_Write file _ s4 _ Hsize Hs4) as (s5 & E5 & Hs5).
          rewrite E5. exists s5. split; [reflexivity|exact Hs5].
        + rewrite (Hplain eq_refl). exists s4. split; [reflexivity|exact Hs4]. }
    destruct Hsized as (s4 & E4 & Hs4). rewrite E4. clear E4 Hs3.
    destruct (IH s4 left Hitems Hs4) as (s5 & E5 & Hs5). rewrite E5.
    exists s5. split; [|exact Hs5]. destruct item; reflexivity.
Qed.

Lemma ReadIndexFromStream_plain : forall P file useHashIndex items s left mountPoint items0,
  Forall (wf_item useHashIndex) items ->
  Z.of_nat (length items) < 2 ^ 32 ->
  stream_at file s
    (WriteVariableUint32 (to_uint32 (Z.of_nat (length items)))
     ++ flat_map (PakWriter.WriteItemDescription useHashIndex) items ++ left) ->
  exists s',
    PakFile.ReadIndexFromStream P useHashIndex s false mountPoint items0
      = (s', mountPoint, map strip items, true)
    /\ stream_at file s' left.
Proof.
  intros P file uh items s left mp items0 Hwf Hlen Hs.
  unfold PakFile.ReadIndexFromStream. branch.
  assert (Hcount : 0 <= Z.of_nat (length items) < 2 ^ 32) by lia.
  rewrite (to_uint32_small _ Hcount) in Hs.
  destruct (ReadVariableUint32_Write file _ s _ Hcount Hs) as (s1 & E1 & Hs1).
  rewrite E1, Nat2Z.id.
  destruct (ReadIndexFromStream_items_Write file uh items s1 left Hwf Hs1) as (s2 & E2 & Hs2).
  rewrite E2. exists s2. split; [reflexivity|exact Hs2].
Qed.

Lemma ReadIndexFromStream_root : forall P file useHashIndex items s left mountPoint mountPoint0 items0,
  Forall (wf_item useHashIndex) items ->
  Z.of_nat (length items) < 2 ^ 32 ->
  Z.of_nat (length mountPoint) < INT16_MAX ->
  stream_at file s
    ((mount_point_header mountPoint
      ++ WriteVariableUint32 (to_uint32 (Z.of_nat (length items)))
      ++ flat_map (PakWriter.WriteItemDescription useHashIndex) items) ++ left) ->
  exists s',
    PakFile.ReadIndexFromStream P useHashIndex s true mountPoint0 items0
      = (s', mount_point_read P mountPoint, map strip items, true)
    /\ stream_at file s' left.
Proof.
  intros P file uh items s left mp mp0 items0 Hwf Hlen Hmp Hs.
  unfold PakFile.ReadIndexFromStream.
  unfold mount_point_header in Hs. rewrite <- !app_assoc in Hs.
  unfold INT16_MAX in Hmp.
  assert (H32 : 0 <= Z.of_nat (length mp) < 2 ^ 32) by (change (2 ^ 32) with 4294967296; lia).
  assert (H31 : 0 <= Z.of_nat (length mp) < 2 ^ 31) by (change (2 ^ 31) with 2147483648; lia).
  rewrite (to_uint32_small _ H32), (to_int32_small _ H31) in Hs.
  unfold WriteBytes in Hs. rewrite Nat2Z.id, firstn_all in Hs.
  destruct (ReadVariableUint32_Write file _ s _ H32 Hs) as (s1 & E1 & Hs1).
  rewrite E1.
  replace (Z.of_nat (length mp) <? INT16_MAX) with true
    by (symmetry; apply Z.ltb_lt; unfold INT16_MAX; lia).
  branch. rewrite (to_int32_small _ H31).
  destruct (ReadBuffer_exact file s1 _ _ Hs1) as (s2 & E2 & Hs2).
  rewrite E2. fold (mount_point_read P mp).
  assert (Hcount : 0 <= Z.of_nat (length items) < 2 ^ 32) by lia.
  rewrite (to_uint32_small _ Hcount) in Hs2.
  destruct (ReadVariableUint32_Write file _ s2 _ Hcount Hs2) as (s3 & E3 & Hs3).
  branch. rewrite E3, Nat2Z.id.
  destruct (ReadIndexFromStream_items_Write file uh items s3 left Hwf Hs3) as (s4 & E4 & Hs4).
  rewrite E4. exists s4. split; [reflexivity|exact Hs4].
Qed.

Lemma read_index_block : forall P file useHashIndex compressed items s left mountPoint items0,
  codecs_round_trip P ->
  (compressed = true -> WITH_ZLIB P = true) ->
  Forall (wf_item useHashIndex) items ->
  Z.of_nat (length items) < 2 ^ 32 ->
  stream_at file s (PakWriter.index_block P useHashIndex compressed [] items ++ left) ->
  exists s',
    (if compressed
     then PakFile.ReadIndexFromStreamDeflateCompressed P useHashIndex s false mountPoint items0
     else PakFile.ReadIndexFromStream P useHashIndex s false mountPoint items0)
      = (s', mountPoint, map strip items, true)
    /\ bytes_of s' = file.
Proof.
  intros P file uh cmp items s left mp items0 Hcodec Hzlib Hwf Hlen Hs.
  unfold PakWriter.index_block in Hs. destruct cmp.
  - unfold PakFile.ReadIndexFromStreamDeflateCompressed. rewrite (Hzlib eq_refl).
    destruct Hs as (Hf & Hpos & Hrem). fold (remaining s). rewrite Hrem.
    rewrite (deflate_round_trip P Hcodec). simpl app.
    set (plain := WriteVariableUint32 _ ++ _).
    destruct (ReadIndexFromStream_plain P plain uh items (mkStream plain 0) [] mp items0 Hwf Hlen)
      as (s' & E & _).
    { split; [reflexivity|]. split; [simpl; lia|].
      unfold remaining, plain. simpl. now rewrite app_nil_r. }
    rewrite E. exists s. split; [reflexivity|exact Hf].
  - simpl app in Hs. rewrite <- app_assoc in Hs.
    destruct (ReadIndexFromStream_plain P file uh items s left mp items0 Hwf Hlen Hs)
      as (s' & E & Hs').
    exists s'. split; [exact E|apply Hs'].
Qed.

Lemma read_root_index_block : forall P file useHashIndex compressed items s left mountPoint mountPoint0 items0,
  codecs_round_trip P ->
  (compressed = true -> WITH_ZLIB P = true) ->
  Forall (wf_item useHashIndex) items ->
  Z.of_nat (length items) < 2 ^ 32 ->
  Z.of_nat (length mountPoint) < INT16_MAX ->
  stream_at file s
    (PakWriter.index_block P useHashIndex compressed (mount_point_header mountPoint) items ++ left) ->
  exists s',
    (if compressed
     then PakFile.ReadIndexFromStreamDeflateCompressed P useHashIndex s true mountPoint0 items0
     else PakFile.ReadIndexFromStream P useHashIndex s true mountPoint0 items0)
      = (s', mount_point_read P mountPoint, map strip items, true)
    /\ bytes_of s' = file.
Proof.
  intros P file uh cmp items s left mp mp0 items0 Hcodec Hzlib Hwf Hlen Hmp Hs.
  unfold PakWriter.index_block in Hs. destruct cmp.
  - unfold PakFile.ReadIndexFromStreamDeflateCompressed. rewrite (Hzlib eq_refl).
    destruct Hs as (Hf & Hpos & Hrem). fold (remaining s). rewrite Hrem.
    rewrite (deflate_round_trip P Hcodec).
    set (plain := mount_point_header mp ++ _).
    destruct (ReadIndexFromStream_root P plain uh items (mkStream plain 0) [] mp mp0 items0
                Hwf Hlen Hmp) as (s' & E & _).
    { split; [reflexivity|]. split; [simpl; lia|].
      unfold remaining, plain. simpl. now rewrite app_nil_r. }
    rewrite E. exists s. split; [reflexivity|exact Hf].
  - destruct (ReadIndexFromStream_root P file uh items s left mp mp0 items0 Hwf Hlen Hmp Hs)
      as (s' & E & Hs').
    exists s'. split; [exact E|apply Hs'].
Qed.

Lemma stream_at_offset : forall file offset block,
  block_at file offset block ->
  exists after, stream_at file (mkStream file offset) (block ++ after).
Proof.
  intros file offset block (before & after & -> & <-).
  exists after. split; [reflexivity|]. split; [simpl; lia|].
  unfold remaining. simpl. rewrite Nat2Z.id.
  rewrite skipn_app, skipn_all, Nat.sub_diag. reflexivity.
Qed.

Lemma set_ChildItems_strip : forall item, set_ChildItems (strip item) (ChildItems item) = item.
Proof. intros []. reflexivity. Qed.

Lemma strip_leaf : forall item, ChildItems item = [] -> strip item = item.
Proof. intros [] H. simpl in H. subst. reflexivity. Qed.

Lemma ConstructsItemsFromIndex_each_readable : forall P useHashIndex compressed file recurse n items s,
  readable P useHashIndex compressed file (S n) items ->
  bytes_of s = file ->
  (forall item,
     In item items -> isDirectory item = true ->
     exists s', recurse (mkStream file (Offset item)) (strip item) = (s', ChildItems item)
                /\ bytes_of s' = file) ->
  exists s',
    PakFile.ConstructsItemsFromIndex_each recurse (map strip items) s = (s', items)
    /\ bytes_of s' = file.
Proof.
  intros P uh cmp file recurse n items. remember (S n) as m eqn:Hm.
  intros s Hr. revert s.
  induction Hr as [m|m item rest Hfile Hleaf _ IH
                  |m item rest Hdir Hoff Hblock Hwf Hlen _ _ _ IH]; intros s Hs Hrec.
  - exists s. split; [reflexivity|exact Hs].
  - cbn [map PakFile.ConstructsItemsFromIndex_each].
    replace (isDirectory (strip item)) with false by (symmetry; exact Hfile).
    destruct (IH Hm s Hs) as (s' & E & Hs').
    { intros x Hin. apply Hrec. right. exact Hin. }
    rewrite E. exists s'. split; [|exact Hs']. now rewrite strip_leaf.
  - cbn [map PakFile.ConstructsItemsFromIndex_each].
    replace (isDirectory (strip item)) with true by (symmetry; exact Hdir).
    change (Offset (strip item)) with (Offset item).
    rewrite to_int64_small by exact Hoff.
    unfold Seek_Begin. replace (Offset item <? 0) with false by (symmetry; apply Z.ltb_ge; lia).
    rewrite Hs.
    destruct (Hrec item (or_introl eq_refl) Hdir) as (s1 & E1 & Hs1). rewrite E1.
    destruct (IH Hm s1 Hs1) as (s' & E & Hs').
    { intros x Hin. apply Hrec. right. exact Hin. }
    rewrite E. exists s'. split; [|exact Hs']. now rewrite set_ChildItems_strip.
Qed.

Lemma readable_0 : forall P useHashIndex compressed file items,
  readable P useHashIndex compressed file 0 items -> items = [].
Proof. intros P uh cmp file items H. inversion H. reflexivity. Qed.

Lemma ConstructsItemsFromIndex_readable : forall P useHashIndex compressed file,
  codecs_round_trip P ->
  (compressed = true -> WITH_ZLIB P = true) ->
  forall budget n depth items left mountPoint,
  0 <= depth -> MaxDepth - depth <= Z.of_nat budget ->
  Z.of_nat n + depth <= MaxDepth ->
  readable P useHashIndex compressed file n items ->
  Forall (wf_item useHashIndex) items ->
  Z.of_nat (length items) < 2 ^ 32 ->
  forall s,
  stream_at file s (PakWriter.index_block P useHashIndex compressed [] items ++ left) ->
  exists s',
    PakFile.ConstructsItemsFromIndex P budget useHashIndex s false compressed depth mountPoint []
      = (s', mountPoint, items)
    /\ bytes_of s' = file.
Proof.
  intros P uh cmp file Hcodec Hzlib.
  induction budget as [|budget IH];
    intros n depth items left mp Hdepth Hbudget Hn Hr Hwf Hlen s Hs;
    cbn [PakFile.ConstructsItemsFromIndex].
  - assert (n = 0%nat) by (unfold MaxDepth in *; lia). subst n.
    rewrite (readable_0 _ _ _ _ _ Hr). exists s. split; [reflexivity|apply Hs].
  - destruct (depth <? MaxDepth) eqn:Hlt; branch.
    + apply Z.ltb_lt in Hlt.
      destruct (read_index_block P file uh cmp items s left mp [] Hcodec Hzlib Hwf Hlen Hs)
        as (s1 & E1 & Hs1).
      rewrite E1.
      destruct n as [|n].
      * rewrite (readable_0 _ _ _ _ _ Hr). simpl. exists s1. split; [reflexivity|exact Hs1].
      * destruct (ConstructsItemsFromIndex_each_readable P uh cmp file
                    (fun s item =>
                       let '(s, _, children) :=
                         PakFile.ConstructsItemsFromIndex P budget uh s false cmp (depth + 1) mp
                           (ChildItems item) in (s, children))
                    n items s1 Hr Hs1) as (s2 & E2 & Hs2).
        { intros item Hin Hdir.
          assert (Hitem : exists left',
                    0 <= Offset item < 2 ^ 63 /\
                    stream_at file (mkStream file (Offset item))
                      (PakWriter.index_block P uh cmp [] (ChildItems item) ++ left') /\
                    Forall (wf_item uh) (ChildItems item) /\
                    Z.of_nat (length (ChildItems item)) < 2 ^ 32 /\
                    readable P uh cmp file n (ChildItems item)).
          { clear - Hr Hin Hdir. remember (S n) as m eqn:Hm.
            induction Hr as [m|m x rest Hfile Hleaf _ IHr
                            |m x rest Hd Hoff Hblock Hwf Hlen Hch _ _ IHr].
            - destruct Hin.
            - destruct Hin as [<-|Hin]; [congruence|apply IHr; assumption].
            - destruct Hin as [<-|Hin]; [|apply IHr; assumption].
              injection Hm as ->.
              destruct (stream_at_offset _ _ _ Hblock) as (after & Hat).
              exists after. split; [exact Hoff|]. split; [exact Hat|].
              split; [exact Hwf|]. split; [exact Hlen|exact Hch]. }
          destruct Hitem as (left' & Hoff & Hat & Hwf' & Hlen' & Hr').
          change (ChildItems (strip item)) with (@nil Item).
          destruct (IH n (depth + 1) (ChildItems item) left' mp ltac:(lia) ltac:(lia) ltac:(lia)
                      Hr' Hwf' Hlen' _ Hat) as (s' & E & Hs').
          rewrite E. exists s'. split; [reflexivity|exact Hs']. }
        rewrite E2. exists s2. split; [reflexivity|exact Hs2].
    + apply Z.ltb_ge in Hlt. assert (n = 0%nat) by lia. subst n.
      rewrite (readable_0 _ _ _ _ _ Hr). exists s. split; [reflexivity|apply Hs].
Qed.

(** ** What Finalize leaves behind *)

Lemma block_at_app : forall file more offset block,
  block_at file offset block -> block_at (file ++ more) offset block.
Proof.
  intros file more offset block (before & after & -> & <-).
  exists before, (after ++ more). split; [|reflexivity]. now rewrite <- !app_assoc.
Qed.

Lemma finalized_app : forall P useHashIndex compressed file more before after,
  finalized P useHashIndex compressed file before after ->
  finalized P useHashIndex compressed (file ++ more) before after.
Proof.
  intros P uh cmp file more before after H.
  induction H; econstructor; eauto using block_at_app.
Qed.

Lemma finalized_directory_item_app : forall P useHashIndex compressed file more item item',
  finalized_directory_item P useHashIndex compressed file item item' ->
  finalized_directory_item P useHashIndex compressed (file ++ more) item item'.
Proof.
  intros P uh cmp file more item item' (H1 & H2 & H3 & H4 & H5 & H6 & children & H7 & H8).
  repeat (split; [assumption|]). split; [apply block_at_app; assumption|].
  exists children. split; [apply finalized_app; assumption|assumption].
Qed.

Lemma partly_finalized_ext : forall P useHashIndex compressed file more written before after,
  partly_finalized P useHashIndex compressed file written before after ->
  forall written' : list nat -> Prop,
  (forall q, q <> [] -> (written q <-> written' q)) ->
  partly_finalized P useHashIndex compressed (file ++ more) written' before after.
Proof.
  intros P uh cmp file more written before after H.
  induction H as [written|written item item' rest rest' Hw Hitem _ IH
                 |written item children rest rest' Hw _ IHc _ IH]; intros written' Hext.
  - constructor.
  - apply partly_here.
    + apply Hext; [discriminate|exact Hw].
    + apply finalized_directory_item_app. exact Hitem.
    + apply IH. intros q Hq. apply Hext. destruct q; [contradiction|discriminate].
  - apply partly_below.
    + intros Hw'. apply Hw. apply Hext; [discriminate|exact Hw'].
    + apply IHc. intros q _. apply Hext. discriminate.
    + apply IH. intros q Hq. apply Hext. destruct q; [contradiction|discriminate].
Qed.

Lemma set_ChildItems_same : forall item, set_ChildItems item (ChildItems item) = item.
Proof. intros []. reflexivity. Qed.

Lemma partly_finalized_none : forall P useHashIndex compressed file written before after,
  partly_finalized P useHashIndex compressed file written before after ->
  (forall q, ~ written q) -> after = before.
Proof.
  intros P uh cmp file written before after H.
  induction H as [written|written item item' rest rest' Hw _ _ _
                 |written item children rest rest' _ _ IHc _ IH]; intros Hnone.
  - reflexivity.
  - exfalso. exact (Hnone _ Hw).
  - rewrite IHc by (intros q; apply Hnone). rewrite IH by (intros q; apply Hnone).
    now rewrite set_ChildItems_same.
Qed.

(** When the pointers written are exactly those of the directories of the
    array, the array is finalized. *)
Lemma partly_finalized_all : forall P useHashIndex compressed file written before after,
  partly_finalized P useHashIndex compressed file written before after ->
  (forall q, written q -> exists i, q = [i]) ->
  (forall i item, nth_error before i = Some item -> isDirectory item = true -> written [i]) ->
  finalized P useHashIndex compressed file before after.
Proof.
  intros P uh cmp file written before after H.
  induction H as [written|written item item' rest rest' Hw Hitem _ IH
                 |written item children rest rest' Hw Hc _ _ IH]; intros Hsingle Hdirs.
  - constructor.
  - destruct Hitem as (H1 & H2 & H3 & H4 & H5 & H6 & children & H7 & H8).
    eapply finalized_directory; eauto.
    apply IH.
    + intros q Hq. destruct (Hsingle _ Hq) as [i Hi].
      destruct q as [|k q]; [discriminate|]. simpl in Hi. injection Hi as _ ->. now exists k.
    + intros i x Hx Hd. apply (Hdirs (S i) x Hx Hd).
  - assert (Hchildren : children = ChildItems item).
    { eapply partly_finalized_none; [exact Hc|].
      intros q Hq. destruct (Hsingle _ Hq) as [i Hi]. injection Hi as _ ->. exact (Hw Hq). }
    rewrite Hchildren, set_ChildItems_same.
    apply finalized_file.
    + destruct (isDirectory item) eqn:Hd; [|reflexivity].
      exfalso. apply Hw. apply (Hdirs O item eq_refl Hd).
    + apply IH.
      * intros q Hq. destruct (Hsingle _ Hq) as [i Hi].
        destruct q as [|k q]; [discriminate|]. simpl in Hi. injection Hi as _ ->. now exists k.
      * intros i x Hx Hd. apply (Hdirs (S i) x Hx Hd).
Qed.

Lemma prefix_cons : forall a b p q, prefix (a :: p) (b :: q) <-> a = b /\ prefix p q.
Proof.
  intros a b p q. split.
  - intros [r H]. simpl in H. injection H as -> ->. split; [reflexivity|now exists r].
  - intros [-> [r ->]]. now exists r.
Qed.

Lemma prefix_nil_r : forall a p, ~ prefix (a :: p) [].
Proof. intros a p [r H]. discriminate. Qed.

Lemma prefix_nil_l : forall q, prefix [] q.
Proof. intros q. now exists q. Qed.

Lemma item_at_cons_S : forall x rest j below,
  PakWriter.item_at (x :: rest) (S j :: below) = PakWriter.item_at rest (j :: below).
Proof. intros. destruct below; reflexivity. Qed.

Lemma item_at_cons_O : forall x rest i below,
  PakWriter.item_at (x :: rest) (O :: i :: below) = PakWriter.item_at (ChildItems x) (i :: below).
Proof. reflexivity. Qed.

Lemma update_at_cons_S : forall x rest j below f,
  PakWriter.update_at (x :: rest) (S j :: below) f
  = x :: PakWriter.update_at rest (j :: below) f.
Proof.
  intros. destruct below; simpl; destruct (nth_error rest j); reflexivity.
Qed.

Lemma update_at_cons_O : forall x rest i below f,
  PakWriter.update_at (x :: rest) (O :: i :: below) f
  = set_ChildItems x (PakWriter.update_at (ChildItems x) (i :: below) f) :: rest.
Proof. reflexivity. Qed.

(** The pass over the directory at [p], on a tree in which exactly the
    directories among its children (and others that neither lie on the
    way to [p] nor below it) are written. *)
Lemma partly_finalized_step : forall P useHashIndex compressed file written before after,
  partly_finalized P useHashIndex compressed file written before after ->
  forall p item,
  p <> [] ->
  PakWriter.item_at before p = Some item ->
  isDirectory item = true ->
  (forall q, written q ->
     (~ prefix q p /\ ~ prefix p q)
     \/ exists i child, q = p ++ [i] /\ nth_error (ChildItems item) i = Some child
                        /\ isDirectory child = true) ->
  (forall i child, nth_error (ChildItems item) i = Some child ->
                   isDirectory child = true -> written (p ++ [i])) ->
  exists item1,
    PakWriter.item_at after p = Some item1 /\
    Name item1 = Name item /\ Flags item1 = Flags item /\
    UncompressedSize item1 = UncompressedSize item /\ Size item1 = Size item /\
    finalized P useHashIndex compressed file (ChildItems item) (ChildItems item1) /\
    forall more f,
      finalized_directory_item P useHashIndex compressed (file ++ more) item (f item1) ->
      partly_finalized P useHashIndex compressed (file ++ more)
        (fun q => q = p \/ (written q /\ ~ prefix p q))
        before (PakWriter.update_at after p f).
Proof.
  intros P uh cmp file written before after H.
  induction H as [written|written x x' rest rest' Hw Hx Hrest IH
                 |written x children rest rest' Hw Hc IHc Hrest IH];
    intros p item Hp Hat Hdir Hcond1 Hcond2.
  - destruct p as [|j [|i below]]; [contradiction| |]; simpl in Hat; destruct j; discriminate.
  - destruct p as [|j below]; [contradiction|]. destruct j as [|j].
    + (* the head is written already: it cannot be on the way to [p] *)
      exfalso. destruct (Hcond1 _ Hw) as [[Hn _]|(i & child & E & _)].
      * apply Hn. now exists below.
      * destruct below; discriminate.
    + rewrite item_at_cons_S in Hat.
      destruct (IH (j :: below) item ltac:(discriminate) Hat Hdir) as
        (item1 & Hat1 & Hn & Hf & Hu & Hs & Hfin & Hstep).
      * intros q Hq. destruct q as [|k q].
        { destruct (Hcond1 _ Hq) as [[Hn _]|(i & child & E & _)].
          - exfalso. apply Hn. apply prefix_nil_l.
          - discriminate. }
        destruct (Hcond1 _ Hq) as [[Hn1 Hn2]|(i & child & E & Hi)].
        -- left. split; intros Hpre; [apply Hn1|apply Hn2];
             apply prefix_cons in Hpre as [-> Hpre]; apply prefix_cons; split; auto.
        -- right. exists i, child. simpl in E. injection E as -> ->. split; [reflexivity|exact Hi].
      * intros i child Hi Hd. apply (Hcond2 i child Hi Hd).
      * exists item1. rewrite item_at_cons_S.
        repeat (split; [assumption|]).
        intros more f Hitem. rewrite update_at_cons_S.
        apply partly_here.
        -- right. split; [exact Hw|]. intros Hpre. apply prefix_cons in Hpre as [E _]. discriminate.
        -- apply finalized_directory_item_app. exact Hx.
        -- specialize (Hstep more f Hitem).
           eapply partly_finalized_ext with (more := []) in Hstep.
           ++ rewrite app_nil_r in Hstep. exact Hstep.
           ++ intros q Hq. destruct q as [|k q]; [contradiction|]. simpl. split.
              ** intros [E|[Hq' Hn']]; [left; now injection E as -> ->|right].
                 split; [exact Hq'|]. intros Hpre. apply Hn'.
                 apply prefix_cons in Hpre as [E Hpre]. injection E as ->.
                 apply prefix_cons. auto.
              ** intros [E|[Hq' Hn']]; [left; now injection E as -> ->|right].
                 split; [exact Hq'|]. intros Hpre. apply Hn'.
                 apply prefix_cons in Hpre as [-> Hpre]. apply prefix_cons. auto.
  - destruct p as [|j below]; [contradiction|]. destruct j as [|j].
    + destruct below as [|i below].
      * (* [p] points at the head *)
        simpl in Hat. injection Hat as <-.
        exists (set_ChildItems x children).
        split; [reflexivity|]. repeat (split; [reflexivity|]).
        split.
        -- apply (partly_finalized_all _ _ _ _ _ _ _ Hc).
           ++ intros q Hq. destruct (Hcond1 _ Hq) as [[_ Hn]|(i & child & E & _)].
              ** exfalso. apply Hn. apply prefix_cons. split; [reflexivity|apply prefix_nil_l].
              ** injection E as ->. now exists i.
           ++ intros i child Hi Hd. apply (Hcond2 i child Hi Hd).
        -- intros more f Hitem. simpl PakWriter.update_at.
           apply partly_here.
           ++ left. reflexivity.
           ++ exact Hitem.
           ++ apply (partly_finalized_ext _ _ _ _ more _ _ _ Hrest).
              intros q Hq. destruct q as [|k q]; [contradiction|]. simpl. split.
              ** intros Hq'. right. split; [exact Hq'|].
                 intros Hpre. apply prefix_cons in Hpre as [E _]. discriminate.
              ** intros [E|[Hq' _]]; [discriminate|exact Hq'].
      * rewrite item_at_cons_O in Hat.
        destruct (IHc (i :: below) item ltac:(discriminate) Hat Hdir) as
          (item1 & Hat1 & Hn & Hf & Hu & Hs & Hfin & Hstep).
        -- intros q Hq. destruct (Hcond1 _ Hq) as [[Hn1 Hn2]|(k & child & E & Hk)].
           ++ left. split; intros Hpre; [apply Hn1|apply Hn2]; apply prefix_cons; auto.
           ++ right. exists k, child. simpl in E. injection E as ->. split; [reflexivity|exact Hk].
        -- intros k child Hk Hd. apply (Hcond2 k child Hk Hd).
        -- exists item1. split; [exact Hat1|]. repeat (split; [assumption|]).
           intros more f Hitem. rewrite update_at_cons_O.
           change (ChildItems (set_ChildItems x children)) with children.
           replace (set_ChildItems (set_ChildItems x children)
                      (PakWriter.update_at children (i :: below) f))
             with (set_ChildItems x (PakWriter.update_at children (i :: below) f))
             by reflexivity.
           apply partly_below.
           ++ intros [E|[Hw' _]]; [discriminate|exact (Hw Hw')].
           ++ specialize (Hstep more f Hitem).
              eapply partly_finalized_ext with (more := []) in Hstep.
              ** rewrite app_nil_r in Hstep. exact Hstep.
              ** intros q _. simpl. split.
                 --- intros [->|[Hq Hn']]; [left; reflexivity|right].
                     split; [exact Hq|]. intros Hpre. apply Hn'.
                     apply prefix_cons in Hpre as [_ Hpre]. exact Hpre.
                 --- intros [E|[Hq Hn']]; [left; now injection E|right].
                     split; [exact Hq|]. intros Hpre. apply Hn'. apply prefix_cons. auto.
           ++ apply (partly_finalized_ext _ _ _ _ more _ _ _ Hrest).
              intros q Hq. destruct q as [|k q]; [contradiction|]. simpl. split.
              ** intros Hq'. right. split; [exact Hq'|].
                 intros Hpre. apply prefix_cons in Hpre as [E _]. discriminate.
              ** intros [E|[Hq' _]]; [discriminate|exact Hq'].
    + rewrite item_at_cons_S in Hat.
      destruct (IH (j :: below) item ltac:(discriminate) Hat Hdir) as
        (item1 & Hat1 & Hn & Hf & Hu & Hs & Hfin & Hstep).
      * intros q Hq. destruct q as [|k q].
        { destruct (Hcond1 _ Hq) as [[Hn _]|(i & child & E & _)].
          - exfalso. apply Hn. apply prefix_nil_l.
          - discriminate. }
        destruct (Hcond1 _ Hq) as [[Hn1 Hn2]|(i & child & E & Hi)].
        -- left. split; intros Hpre; [apply Hn1|apply Hn2];
             apply prefix_cons in Hpre as [-> Hpre]; apply prefix_cons; split; auto.
        -- right. exists i, child. simpl in E. injection E as -> ->. split; [reflexivity|exact Hi].
      * intros i child Hi Hd. apply (Hcond2 i child Hi Hd).
      * exists item1. rewrite item_at_cons_S.
        repeat (split; [assumption|]).
        intros more f Hitem. rewrite update_at_cons_S.
        apply partly_below.
        -- intros [E|[Hw' _]]; [discriminate|exact (Hw Hw')].
        -- apply (partly_finalized_ext _ _ _ _ more _ _ _ Hc).
           intros q _. simpl. split.
           ++ intros Hq'. right. split; [exact Hq'|].
              intros Hpre. apply prefix_cons in Hpre as [E _]. discriminate.
           ++ intros [E|[Hq' _]]; [discriminate|exact Hq'].
        -- specialize (Hstep more f Hitem).
           eapply partly_finalized_ext with (more := []) in Hstep.
           ++ rewrite app_nil_r in Hstep. exact Hstep.
           ++ intros q Hq. destruct q as [|k q]; [contradiction|]. simpl. split.
              ** intros [E|[Hq' Hn']]; [left; now injection E as -> ->|right].
                 split; [exact Hq'|]. intros Hpre. apply Hn'.
                 apply prefix_cons in Hpre as [E Hpre]. injection E as ->.
                 apply prefix_cons. auto.
              ** intros [E|[Hq' Hn']]; [left; now injection E as -> ->|right].
                 split; [exact Hq'|]. intros Hpre. apply Hn'.
                 apply prefix_cons in Hpre as [-> Hpre]. apply prefix_cons. auto.
Qed.

(** *** Induction on item trees *)

Section tree_induction.
Variable Q : list Item -> Prop.
Hypothesis Q_nil : Q [].
Hypothesis Q_cons : forall item rest, Q (ChildItems item) -> Q rest -> Q (item :: rest).
Fixpoint children_tree_ind (item : Item) : Q (ChildItems item) :=
  match item with
  | mkItem _ _ _ _ _ children =>
      (fix each (items : list Item) : Q items :=
         match items with
         | [] => Q_nil
         | x :: rest => Q_cons x rest (children_tree_ind x) (each rest)
         end) children
  end.
Lemma tree_ind : forall items, Q items.
Proof.
  induction items as [|item rest IH]; [exact Q_nil|].
  apply Q_cons; [apply children_tree_ind|exact IH].
Qed.
End tree_induction.

Lemma partly_finalized_refl : forall P useHashIndex compressed file items (written : list nat -> Prop),
  (forall q, ~ written q) ->
  partly_finalized P useHashIndex compressed file written items items.
Proof.
  intros P uh cmp file items. induction items as [|item rest IHc IH] using tree_ind;
    intros written Hnone.
  - constructor.
  - rewrite <- (set_ChildItems_same item) at 2.
    apply partly_below; [apply Hnone|apply IHc|apply IH]; intros q; apply Hnone.
Qed.

(** *** The queue of directories *)

Lemma scan_spec : forall parent items index q,
  In q (fst (PakWriter.scan parent index items)) <->
  exists k child, q = parent ++ [(index + k)%nat] /\ nth_error items k = Some child
                  /\ isDirectory child = true.
Proof.
  intros parent. induction items as [|item rest IH]; intros index q; simpl.
  - split; [contradiction|]. intros (k & child & _ & H & _). destruct k; discriminate.
  - specialize (IH (S index) q).
    destruct (PakWriter.scan parent (S index) rest) as [queued hasFiles]. simpl in IH.
    destruct (isDirectory item) eqn:Hd; simpl.
    + split.
      * intros [<-|Hin].
        -- exists O, item. rewrite Nat.add_0_r. repeat split. exact Hd.
        -- apply IH in Hin as (k & child & -> & Hk & Hc).
           exists (S k), child. rewrite Nat.add_succ_r. repeat split; assumption.
      * intros (k & child & -> & Hk & Hc). destruct k as [|k].
        -- left. now rewrite Nat.add_0_r.
        -- right. apply IH. exists k, child. rewrite Nat.add_succ_r. repeat split; assumption.
    + rewrite IH. split.
      * intros (k & child & -> & Hk & Hc).
        exists (S k), child. rewrite Nat.add_succ_r. repeat split; assumption.
      * intros (k & child & -> & Hk & Hc). destruct k as [|k].
        -- simpl in Hk. injection Hk as <-. congruence.
        -- exists k, child. rewrite Nat.add_succ_r. repeat split; assumption.
Qed.

Lemma scan_hasFiles : forall parent items index,
  snd (PakWriter.scan parent index items) = existsb (fun item => negb (isDirectory item)) items.
Proof.
  intros parent. induction items as [|item rest IH]; intros index; simpl; [reflexivity|].
  specialize (IH (S index)).
  destruct (PakWriter.scan parent (S index) rest) as [queued hasFiles]. simpl in IH.
  destruct (isDirectory item); simpl; [exact IH|reflexivity].
Qed.

Lemma item_at_snoc : forall p items item k,
  p <> [] -> PakWriter.item_at items p = Some item ->
  PakWriter.item_at items (p ++ [k]) = nth_error (ChildItems item) k.
Proof.
  induction p as [|i p IH]; intros items item k Hp Hat; [contradiction|].
  destruct p as [|j p].
  - simpl in *. rewrite Hat. reflexivity.
  - change ((i :: j :: p) ++ [k]) with (i :: (j :: p) ++ [k]).
    simpl in Hat. destruct (nth_error items i) as [x|] eqn:Hx; [|discriminate].
    assert (E : PakWriter.item_at items (i :: (j :: p) ++ [k])
                = PakWriter.item_at (ChildItems x) ((j :: p) ++ [k])).
    { simpl. rewrite Hx. reflexivity. }
    rewrite E. apply IH; [discriminate|exact Hat].
Qed.

Lemma antichain_app : forall a b,
  antichain (a ++ b) <->
  antichain a /\ antichain b /\ (forall p q, In p a -> In q b -> ~ prefix p q /\ ~ prefix q p).
Proof.
  induction a as [|x a IH]; intros b; simpl.
  - split; [intros H|intros (_ & H & _); exact H].
    split; [exact I|]. split; [exact H|]. intros p q [].
  - split.
    + intros [Hx H]. apply IH in H as (Ha & Hb & Hab).
      split; [split; [intros q Hq; apply Hx; apply in_or_app; now left|exact Ha]|].
      split; [exact Hb|].
      intros p q [<-|Hp] Hq; [apply Hx; apply in_or_app; now right|now apply Hab].
    + intros ([Hx Ha] & Hb & Hab). split.
      * intros q Hq. apply in_app_or in Hq as [Hq|Hq]; [now apply Hx|].
        apply Hab; [now left|exact Hq].
      * apply IH. split; [exact Ha|]. split; [exact Hb|].
        intros p q Hp Hq. apply Hab; [now right|exact Hq].
Qed.

Lemma prefix_app_inv : forall p q k, prefix q (p ++ [k]) -> prefix q p \/ q = p ++ [k].
Proof.
  induction p as [|a p IH]; intros q k [r H].
  - destruct q as [|b q]; [left; apply prefix_nil_l|].
    simpl in H. injection H as <- H. destruct q; [|discriminate]. right. reflexivity.
  - destruct q as [|b q]; [left; apply prefix_nil_l|].
    simpl in H. injection H as <- H.
    destruct (IH q k (ex_intro _ r H)) as [Hp | ->].
    + left. apply prefix_cons. auto.
    + right. reflexivity.
Qed.

Lemma prefix_trans : forall p q r, prefix p q -> prefix q r -> prefix p r.
Proof. intros p q r [a ->] [b ->]. exists (a ++ b). now rewrite app_assoc. Qed.

Lemma prefix_snoc : forall p k, prefix p (p ++ [k]).
Proof. intros. now exists [k]. Qed.

Lemma snoc_not_prefix : forall p k, ~ prefix (p ++ [k]) p.
Proof.
  intros p k [r H]. apply (f_equal (@length nat)) in H. rewrite !length_app in H. simpl in H. lia.
Qed.

Lemma snoc_prefix_snoc : forall p k j, prefix (p ++ [k]) (p ++ [j]) -> k = j.
Proof.
  induction p as [|a p IH]; intros k j H.
  - apply prefix_cons in H as [-> _]. reflexivity.
  - simpl in H. apply prefix_cons in H as [_ H]. apply (IH _ _ H).
Qed.

Lemma antichain_scan : forall p items index,
  antichain (fst (PakWriter.scan p index items)).
Proof.
  intros p. induction items as [|item rest IH]; intros index; simpl; [exact I|].
  pose proof (scan_spec p rest (S index)) as Hspec. specialize (IH (S index)).
  destruct (PakWriter.scan p (S index) rest) as [queued hasFiles]. simpl in *.
  destruct (isDirectory item); simpl; [|exact IH].
  split; [|exact IH]. intros q Hq. apply Hspec in Hq as (k & child & -> & _).
  split; intros H; apply snoc_prefix_snoc in H; lia.
Qed.

Lemma count_item_eq : forall item,
  PakWriter.count_item item = S (PakWriter.count_items (ChildItems item)).
Proof. intros []. reflexivity. Qed.

Lemma total_weight_app : forall root a b,
  total_weight root (a ++ b) = (total_weight root a + total_weight root b)%nat.
Proof.
  intros root. induction a as [|p a IH]; intros b; simpl; [reflexivity|]. rewrite IH. lia.
Qed.

Lemma scan_weight : forall root parent items index,
  (forall k child, nth_error items k = Some child ->
                   weight root (parent ++ [(index + k)%nat]) = PakWriter.count_item child) ->
  (total_weight root (fst (PakWriter.scan parent index items)) <= PakWriter.count_items items)%nat.
Proof.
  intros root parent. induction items as [|item rest IH]; intros index Hw; simpl; [lia|].
  specialize (IH (S index)).
  destruct (PakWriter.scan parent (S index) rest) as [queued hasFiles]. simpl in IH.
  assert (Hrest : (total_weight root queued <= PakWriter.count_items rest)%nat).
  { apply IH. intros k child Hk. rewrite <- (Hw (S k) child Hk). f_equal. f_equal. f_equal. lia. }
  pose proof (Hw O item eq_refl) as H0. rewrite Nat.add_0_r in H0.
  destruct (isDirectory item); cbn [fst total_weight fold_right PakWriter.count_items].
  - rewrite H0. fold (total_weight root queued).
    change (fold_right (fun item n => (PakWriter.count_item item + n)%nat) O rest)
      with (PakWriter.count_items rest). lia.
  - change (fold_right (fun item n => (PakWriter.count_item item + n)%nat) O rest)
      with (PakWriter.count_items rest).
    fold (total_weight root queued). lia.
Qed.

Lemma write_directories_cons : forall P useHashIndex compressed p queue state,
  write_directories P useHashIndex compressed (p :: queue) state
  = PakWriter.write_directory P useHashIndex compressed
      (write_directories P useHashIndex compressed queue state) p.
Proof.
  intros. unfold write_directories. simpl rev. now rewrite fold_left_app.
Qed.

Lemma collect_write_directories : forall P useHashIndex compressed root rounds pending hasFiles queue hasFiles',
  PakWriter.collect rounds root pending hasFiles = (queue, hasFiles') ->
  (total_weight root pending <= rounds)%nat ->
  antichain pending ->
  (forall p, In p pending ->
     p <> [] /\ exists item, PakWriter.item_at root p = Some item /\ isDirectory item = true) ->
  forall written,
  exists root' more,
    write_directories P useHashIndex compressed queue (root, mkFileStream true written)
      = (root', mkFileStream true (written ++ more))
    /\ partly_finalized P useHashIndex compressed (written ++ more)
         (fun q => In q pending) root root'.
Proof.
  intros P uh cmp root. induction rounds as [|rounds IH];
    intros pending hasFiles queue hasFiles' Hcollect Hweight Hanti Hvalid written.
  - assert (pending = []).
    { destruct pending as [|p pending]; [reflexivity|]. exfalso.
      destruct (Hvalid p (or_introl eq_refl)) as (_ & item & Hat & _).
      simpl in Hweight. unfold weight in Hweight. rewrite Hat, count_item_eq in Hweight. lia. }
    subst pending. simpl in Hcollect. injection Hcollect as <- _.
    exists root, []. split; [now rewrite app_nil_r|].
    apply partly_finalized_refl. intros q [].
  - destruct pending as [|p later].
    + simpl in Hcollect. injection Hcollect as <- _.
      exists root, []. split; [now rewrite app_nil_r|].
      apply partly_finalized_refl. intros q [].
    + cbn [PakWriter.collect] in Hcollect.
      destruct (Hvalid p (or_introl eq_refl)) as (Hp & item & Hat & Hdir).
      rewrite Hat in Hcollect.
      pose proof (scan_spec p (ChildItems item) O) as Hscan.
      pose proof (antichain_scan p (ChildItems item) O) as Hanti_scan.
      pose proof (scan_weight root p (ChildItems item) O) as Hscan_weight.
      destruct (PakWriter.scan p 0 (ChildItems item)) as [queued files]. simpl in Hscan, Hanti_scan, Hscan_weight.
      destruct (PakWriter.collect rounds root (later ++ queued) (hasFiles || files))
        as [rest hasFiles''] eqn:Hrec.
      injection Hcollect as <- _.
      destruct Hanti as [Hp_later Hanti_later].
      assert (Hweight' : (total_weight root (later ++ queued) <= rounds)%nat).
      { rewrite total_weight_app. simpl in Hweight. unfold weight at 1 in Hweight.
        rewrite Hat, count_item_eq in Hweight.
        assert ((total_weight root queued <= PakWriter.count_items (ChildItems item))%nat).
        { apply Hscan_weight. intros k child Hk. unfold weight.
          rewrite (item_at_snoc p root item k Hp Hat). simpl. rewrite Hk. reflexivity. }
        lia. }
      assert (Hanti' : antichain (later ++ queued)).
      { apply antichain_app. split; [exact Hanti_later|]. split; [exact Hanti_scan|].
        intros a b Ha Hb. apply Hscan in Hb as (k & child & -> & _).
        destruct (Hp_later a Ha) as [Hn1 Hn2]. split; intros Hpre.
        - destruct (prefix_app_inv _ _ _ Hpre) as [H|H].
          + exact (Hn2 H).
          + subst a. apply Hn1. apply prefix_snoc.
        - apply Hn1. eapply prefix_trans; [apply prefix_snoc|exact Hpre]. }
      assert (Hvalid' : forall q, In q (later ++ queued) ->
                q <> [] /\ exists item, PakWriter.item_at root q = Some item
                                        /\ isDirectory item = true).
      { intros q Hq. apply in_app_or in Hq as [Hq|Hq].
        - apply Hvalid. now right.
        - apply Hscan in Hq as (k & child & -> & Hk & Hc). split.
          + destruct p; discriminate.
          + exists child. rewrite (item_at_snoc p root item k Hp Hat). auto. }
      destruct (IH (later ++ queued) _ rest hasFiles'' Hrec Hweight' Hanti' Hvalid' written)
        as (root1 & more1 & Hwrite1 & Hpartly1).
      rewrite write_directories_cons, Hwrite1.
        destruct (partly_finalized_step _ _ _ _ _ _ _ Hpartly1 p item Hp Hat Hdir)
          as (item1 & Hat1 & Hn & Hf & Hu & Hs & Hfin & Hstep).
        -- intros q Hq. apply in_app_or in Hq as [Hq|Hq].
           ++ left. destruct (Hp_later q Hq). auto.
           ++ right. apply Hscan in Hq as (k & child & -> & Hk & Hc). exists k, child. auto.
        -- intros k child Hk Hc. apply in_or_app. right. apply Hscan. exists k, child. auto.
        -- unfold PakWriter.write_directory. rewrite Hat1.
           set (children := sort Name_less (ChildItems item1)).
           set (offset := GetPosition (mkFileStream true (written ++ more1))).
           set (block := PakWriter.index_block P uh cmp [] children).
           exists (PakWriter.update_at root1 p
                     (fun item => set_ChildItems (set_Offset item offset) children)),
                  (more1 ++ block).
           split.
           ++ unfold Write. simpl. now rewrite app_assoc.
           ++ rewrite app_assoc.
              specialize (Hstep block (fun item => set_ChildItems (set_Offset item offset) children)).
              assert (Hitem : finalized_directory_item P uh cmp ((written ++ more1) ++ block) item
                                (set_ChildItems (set_Offset item1 offset) children)).
              { split; [exact Hdir|]. simpl.
                repeat (split; [assumption|]).
                split.
                - exists (written ++ more1), []. split; [now rewrite app_nil_r|reflexivity].
                - exists (ChildItems item1). split; [|reflexivity].
                  apply finalized_app. exact Hfin. }
              specialize (Hstep Hitem).
              eapply partly_finalized_ext with (more := []) (written' := fun q => In q (p :: later))
                in Hstep.
              ** rewrite app_nil_r in Hstep. exact Hstep.
              ** intros q _. simpl. split.
                 --- intros [->|[Hq Hn']]; [now left|right].
                     apply in_app_or in Hq as [Hq|Hq]; [exact Hq|].
                     exfalso. apply Hn'. apply Hscan in Hq as (k & child & -> & _).
                     apply prefix_snoc.
                 --- intros [<-|Hq]; [now left|right].
                     split; [apply in_or_app; now left|]. apply (Hp_later q Hq).
Qed.

Lemma holds_file_cases : forall items,
  holds_file items ->
  existsb (fun item => negb (isDirectory item)) items = true
  \/ exists k child, nth_error items k = Some child /\ isDirectory child = true
                     /\ holds_file (ChildItems child).
Proof.
  induction 1 as [item rest Hf|item rest Hd Hc _|item rest _ IH].
  - left. simpl. now rewrite Hf.
  - right. exists O, item. auto.
  - destruct IH as [IH|(k & child & Hk & Hd & Hc)].
    + left. simpl. rewrite IH. apply orb_true_r.
    + right. exists (S k), child. auto.
Qed.

Lemma collect_hasFiles_true : forall rounds root pending queue hasFiles',
  PakWriter.collect rounds root pending true = (queue, hasFiles') -> hasFiles' = true.
Proof.
  induction rounds as [|rounds IH]; intros root pending queue hasFiles' H; simpl in H.
  - now injection H as _ <-.
  - destruct pending as [|p later]; [now injection H as _ <-|].
    destruct (PakWriter.scan p 0 _) as [queued files].
    destruct (PakWriter.collect rounds root (later ++ queued) true) as [rest h] eqn:E.
    injection H as _ <-. apply (IH _ _ _ _ E).
Qed.

Lemma collect_hasFiles : forall root rounds pending hasFiles queue hasFiles',
  PakWriter.collect rounds root pending hasFiles = (queue, hasFiles') ->
  (total_weight root pending <= rounds)%nat ->
  (forall p, In p pending ->
     p <> [] /\ exists item, PakWriter.item_at root p = Some item /\ isDirectory item = true) ->
  (exists p item, In p pending /\ PakWriter.item_at root p = Some item
                  /\ holds_file (ChildItems item)) ->
  hasFiles' = true.
Proof.
  intros root. induction rounds as [|rounds IH];
    intros pending hasFiles queue hasFiles' Hcollect Hweight Hvalid (p & item & Hin & Hat & Hholds).
  - exfalso. destruct pending as [|p0 pending]; [destruct Hin|].
    destruct (Hvalid p0 (or_introl eq_refl)) as (_ & item0 & Hat0 & _).
    simpl in Hweight. unfold weight in Hweight. rewrite Hat0, count_item_eq in Hweight. lia.
  - destruct pending as [|p0 later]; [destruct Hin|].
    cbn [PakWriter.collect] in Hcollect.
    destruct (Hvalid p0 (or_introl eq_refl)) as (Hp0 & item0 & Hat0 & Hdir0).
    rewrite Hat0 in Hcollect.
    pose proof (scan_spec p0 (ChildItems item0) O) as Hscan.
    pose proof (scan_hasFiles p0 (ChildItems item0) O) as Hfiles.
    pose proof (scan_weight root p0 (ChildItems item0) O) as Hscan_weight.
    destruct (PakWriter.scan p0 0 (ChildItems item0)) as [queued files].
    simpl in Hscan, Hfiles, Hscan_weight.
    destruct (PakWriter.collect rounds root (later ++ queued) (hasFiles || files))
      as [rest h] eqn:Hrec.
    injection Hcollect as _ <-.
    assert (Hweight' : (total_weight root (later ++ queued) <= rounds)%nat).
    { rewrite total_weight_app. simpl in Hweight. unfold weight at 1 in Hweight.
      rewrite Hat0, count_item_eq in Hweight.
      assert ((total_weight root queued <= PakWriter.count_items (ChildItems item0))%nat).
      { apply Hscan_weight. intros k child Hk. unfold weight.
        rewrite (item_at_snoc p0 root item0 k Hp0 Hat0). simpl. rewrite Hk. reflexivity. }
      lia. }
    assert (Hvalid' : forall q, In q (later ++ queued) ->
              q <> [] /\ exists item, PakWriter.item_at root q = Some item
                                      /\ isDirectory item = true).
    { intros q Hq. apply in_app_or in Hq as [Hq|Hq].
      - apply Hvalid. now right.
      - apply Hscan in Hq as (k & child & -> & Hk & Hc). split.
        + destruct p0; discriminate.
        + exists child. rewrite (item_at_snoc p0 root item0 k Hp0 Hat0). auto. }
    destruct Hin as [<-|Hin].
    + rewrite Hat0 in Hat. injection Hat as <-.
      destruct (holds_file_cases _ Hholds) as [Hf|(k & child & Hk & Hd & Hc)].
      * rewrite Hfiles, Hf, orb_true_r in Hrec. apply (collect_hasFiles_true _ _ _ _ _ Hrec).
      * apply (IH _ _ _ _ Hrec Hweight' Hvalid').
        exists (p0 ++ [k]), child. split; [|split; [|exact Hc]].
        -- apply in_or_app. right. apply Hscan. exists k, child. auto.
        -- now rewrite (item_at_snoc p0 root item0 k Hp0 Hat0).
    + apply (IH _ _ _ _ Hrec Hweight' Hvalid').
      exists p, item. split; [apply in_or_app; now left|]. auto.
Qed.

Lemma root_scan_valid : forall root,
  (total_weight root (fst (PakWriter.scan [] 0 root)) <= PakWriter.count_items root)%nat /\
  (forall p, In p (fst (PakWriter.scan [] 0 root)) ->
     p <> [] /\ exists item, PakWriter.item_at root p = Some item /\ isDirectory item = true).
Proof.
  intros root. split.
  - apply scan_weight. intros k child Hk. unfold weight. simpl. rewrite Hk. reflexivity.
  - intros p Hp. apply scan_spec in Hp as (k & child & -> & Hk & Hd). split; [discriminate|].
    exists child. simpl. auto.
Qed.

(** The two collecting loops of [Finalize] find a file whenever one can
    be reached. *)
Lemma Finalize_hasFiles : forall root queue hasFiles,
  holds_file root ->
  (let (queued, hasFiles) := PakWriter.scan [] 0 root in
   PakWriter.collect (PakWriter.count_items root) root queued hasFiles) = (queue, hasFiles) ->
  hasFiles = true.
Proof.
  intros root queue hasFiles Hholds H.
  destruct (root_scan_valid root) as [Hweight Hvalid].
  pose proof (scan_spec [] root O) as Hscan.
  pose proof (scan_hasFiles [] root O) as Hfiles.
  destruct (PakWriter.scan [] 0 root) as [queued files]. simpl in *.
  destruct (holds_file_cases _ Hholds) as [Hf|(k & child & Hk & Hd & Hc)].
  - rewrite Hfiles, Hf in H. apply (collect_hasFiles_true _ _ _ _ _ H).
  - apply (collect_hasFiles _ _ _ _ _ _ H Hweight Hvalid).
    exists [k], child. split; [|split; [simpl; exact Hk|exact Hc]].
    apply Hscan. exists k, child. auto.
Qed.

(** The passes of [Finalize] over the queue it collected finalize the
    tree. *)
Lemma Finalize_directories : forall P useHashIndex compressed root queue hasFiles written,
  (let (queued, hasFiles) := PakWriter.scan [] 0 root in
   PakWriter.collect (PakWriter.count_items root) root queued hasFiles) = (queue, hasFiles) ->
  exists root' more,
    write_directories P useHashIndex compressed queue (root, mkFileStream true written)
      = (root', mkFileStream true (written ++ more))
    /\ finalized P useHashIndex compressed (written ++ more) root root'.
Proof.
  intros P uh cmp root queue hasFiles written H.
  destruct (root_scan_valid root) as [Hweight Hvalid].
  pose proof (scan_spec [] root O) as Hscan.
  pose proof (antichain_scan [] root O) as Hanti.
  destruct (PakWriter.scan [] 0 root) as [queued files]. simpl in *.
  destruct (collect_write_directories P uh cmp root _ _ _ _ _ H Hweight Hanti Hvalid written)
    as (root' & more & Hwrite & Hpartly).
  exists root', more. split; [exact Hwrite|].
  apply (partly_finalized_all _ _ _ _ _ _ _ Hpartly).
  - intros q Hq. apply Hscan in Hq as (k & child & -> & _). now exists k.
  - intros i item Hi Hd. apply Hscan. exists i, item. auto.
Qed.

(** [Finalize] on a writer that holds a file: the tree it leaves and the
    archive it writes. *)
Lemma Finalize_spec : forall P w written,
  PakWriter._finalized w = false ->
  PakWriter._outputStream w = Some (mkFileStream true written) ->
  holds_file (PakWriter._rootItems w) ->
  Z.of_nat (length (PakWriter._mountPoint w)) < INT16_MAX ->
  exists root1 more,
    finalized P (PakWriter._useHashIndex w) (WITH_ZLIB P && PakWriter._useCompressedIndex w)
      (written ++ more) (PakWriter._rootItems w) root1 /\
    PakWriter._rootItems (PakWriter.Finalize P w) = sort Name_less root1 /\
    PakWriter.file_on_disk (PakWriter.Finalize P w)
      = Some ((written ++ more)
              ++ PakWriter.index_block P (PakWriter._useHashIndex w)
                   (WITH_ZLIB P && PakWriter._useCompressedIndex w)
                   (mount_point_header (PakWriter._mountPoint w)) (sort Name_less root1)
              ++ footer_written (PakWriter._useHashIndex w)
                   (WITH_ZLIB P && PakWriter._useCompressedIndex w)
                   (Z.of_nat (length (written ++ more)))).
Proof.
  intros P w written Hfin Hout Hholds Hmount.
  unfold PakWriter.Finalize. rewrite Hfin, Hout.
  destruct (let (queued, hasFiles) := PakWriter.scan [] 0 (PakWriter._rootItems w) in
            PakWriter.collect (PakWriter.count_items (PakWriter._rootItems w))
              (PakWriter._rootItems w) queued hasFiles) as [queue hasFiles] eqn:Hqueue.
  pose proof (Finalize_hasFiles _ _ _ Hholds Hqueue) as ->.
  destruct (Finalize_directories P (PakWriter._useHashIndex w)
              (WITH_ZLIB P && PakWriter._useCompressedIndex w) _ _ _ written Hqueue)
    as (root1 & more & Hwrite & Hfinalized).
  exists root1, more. split; [exact Hfinalized|].
  destruct (PakWriter.scan [] 0 (PakWriter._rootItems w)) as [queued files].
  rewrite Hqueue. cbv beta iota zeta.
  change (negb true) with false. cbv beta iota.
  unfold write_directories in Hwrite. rewrite Hwrite.
  apply Z.ltb_lt in Hmount. rewrite Hmount. change (negb true) with false. cbv beta iota.
  unfold Write, GetPosition. simpl fs_valid. simpl fs_written. cbv beta iota.
  split; [reflexivity|].
  simpl PakWriter.file_on_disk. unfold footer_written, footer_flags_written, mount_point_header.
  rewrite <- !app_assoc. reflexivity.
Qed.

(** ** The order of names *)

Lemma String_ltb_irrefl : forall a, String_ltb a a = false.
Proof.
  induction a as [|x a IH]; simpl; [reflexivity|].
  rewrite Z.ltb_irrefl. exact IH.
Qed.

Lemma String_ltb_trans : forall a b c,
  String_ltb a b = true -> String_ltb b c = true -> String_ltb a c = true.
Proof.
  induction a as [|x a IH]; intros [|y b] [|z c] Hab Hbc; simpl in *;
    try discriminate; try reflexivity.
  destruct (x <? y) eqn:Hxy; destruct (y <? z) eqn:Hyz;
    destruct (y <? x) eqn:Hyx; destruct (z <? y) eqn:Hzy;
    destruct (x <? z) eqn:Hxz; destruct (z <? x) eqn:Hzx;
    try reflexivity; try discriminate;
    rewrite ?Z.ltb_lt, ?Z.ltb_ge in *; try lia.
  eapply IH; eassumption.
Qed.

Lemma String_ltb_asym : forall a b, String_ltb a b = true -> String_ltb b a = false.
Proof.
  intros a b H. destruct (String_ltb b a) eqn:E; [|reflexivity].
  pose proof (String_ltb_trans _ _ _ H E) as Hc. now rewrite String_ltb_irrefl in Hc.
Qed.

Lemma String_ltb_total : forall a b,
  String_ltb a b = false -> String_ltb b a = false -> a = b.
Proof.
  induction a as [|x a IH]; intros [|y b] Hab Hba; simpl in *;
    try discriminate; try reflexivity.
  destruct (x <? y) eqn:Hxy; [discriminate|].
  destruct (y <? x) eqn:Hyx; [discriminate|].
  rewrite Z.ltb_ge in *. f_equal; [lia|]. now apply IH.
Qed.

Lemma Name_le_trans : forall a b c, Name_le a b -> Name_le b c -> Name_le a c.
Proof.
  unfold Name_le, Name_less. intros a b c Hab Hbc.
  destruct (String_ltb (Name c) (Name a)) eqn:Hca; [|reflexivity].
  destruct (String_ltb (Name b) (Name c)) eqn:Hbc'.
  - pose proof (String_ltb_trans _ _ _ Hbc' Hca) as H. congruence.
  - pose proof (String_ltb_total _ _ Hbc Hbc') as E. rewrite <- E in Hab. congruence.
Qed.

Lemma Name_less_le : forall a b, Name_less a b = true -> Name_le a b.
Proof. intros a b H. apply String_ltb_asym. exact H. Qed.

(** ** Sorting *)

Lemma sort_insert_Permutation : forall (less : Item -> Item -> bool) x sorted,
  Permutation (sort_insert less x sorted) (x :: sorted).
Proof.
  intros less x. induction sorted as [|y rest IH]; simpl; [reflexivity|].
  destruct (less y x); [|reflexivity].
  rewrite IH. apply perm_swap.
Qed.

Lemma sort_Permutation : forall (less : Item -> Item -> bool) items,
  Permutation (sort less items) items.
Proof.
  intros less. induction items as [|x rest IH]; simpl; [reflexivity|].
  rewrite sort_insert_Permutation. now constructor.
Qed.

Lemma sort_insert_sorted : forall x sorted,
  StronglySorted Name_le sorted -> StronglySorted Name_le (sort_insert Name_less x sorted).
Proof.
  intros x. induction 1 as [|y rest Hs IH Hy]; simpl.
  - constructor; constructor.
  - destruct (Name_less y x) eqn:E.
    + constructor; [exact IH|].
      assert (Hall : Forall (Name_le y) (x :: rest))
        by (constructor; [now apply Name_less_le|exact Hy]).
      revert Hall. apply Permutation_Forall. symmetry. apply sort_insert_Permutation.
    + constructor; [constructor; assumption|].
      constructor; [exact E|].
      eapply Forall_impl; [|exact Hy]. intros z Hz. apply (Name_le_trans x y z E Hz).
Qed.

Lemma sort_sorted : forall items, StronglySorted Name_le (sort Name_less items).
Proof.
  induction items as [|x rest IH]; simpl; [constructor|].
  now apply sort_insert_sorted.
Qed.

Lemma sorted_strictly : forall items,
  StronglySorted Name_le items -> NoDup (map Name items) -> StronglySorted Name_lt items.
Proof.
  induction 1 as [|x rest Hs IH Hx]; intros Hnodup; [constructor|].
  simpl in Hnodup. inversion Hnodup as [|? ? Hnotin Hrest]; subst.
  constructor; [now apply IH|].
  rewrite Forall_forall in *. intros y Hy. specialize (Hx y Hy).
  unfold Name_lt, Name_le, Name_less in *.
  destruct (String_ltb (Name x) (Name y)) eqn:E; [reflexivity|].
  exfalso. apply Hnotin. rewrite (String_ltb_total _ _ E Hx). now apply in_map.
Qed.

Lemma sort_sorted_strictly : forall items,
  NoDup (map Name items) -> StronglySorted Name_lt (sort Name_less items).
Proof.
  intros items Hnodup. apply sorted_strictly; [apply sort_sorted|].
  apply (Permutation_NoDup (l := map Name items)); [|exact Hnodup].
  apply Permutation_map. symmetry. apply sort_Permutation.
Qed.

Lemma StronglySorted_nth_error : forall (R : Item -> Item -> Prop) items i j a b,
  StronglySorted R items -> (i < j)%nat ->
  nth_error items i = Some a -> nth_error items j = Some b -> R a b.
Proof.
  intros R items i j a b Hs. revert i j. induction Hs as [|x rest Hs IH Hx]; intros i j Hij Ha Hb.
  - destruct i; discriminate.
  - destruct j as [|j]; [lia|]. simpl in Hb. destruct i as [|i]; simpl in Ha.
    + injection Ha as <-. rewrite Forall_forall in Hx. apply Hx. eapply nth_error_In; eassumption.
    + apply (IH i j); [lia|assumption|assumption].
Qed.

(** ** Binary search *)

Lemma lower_bound_loop_spec : forall (less : Item -> bool) items k,
  (forall i a, nth_error items i = Some a -> less a = (i <? k)%nat) ->
  forall steps first len,
  (len <= steps)%nat -> (first <= k <= first + len)%nat -> (first + len <= length items)%nat ->
  lower_bound_loop less items steps first len = k.
Proof.
  intros less items k Hless. induction steps as [|steps IH]; intros first len Hsteps Hk Hlen.
  - simpl. lia.
  - destruct len as [|len']; [simpl; lia|].
    cbn [lower_bound_loop].
    remember (S len') as len eqn:El.
    assert (Hhalf : (Nat.div2 len < len)%nat) by (apply Nat.lt_div2; lia).
    generalize dependent (Nat.div2 len). intros half Hhalf.
    destruct (nth_error items (first + half)) as [a|] eqn:Hmid.
    + rewrite (Hless _ _ Hmid).
      destruct (first + half <? k)%nat eqn:E.
      * apply Nat.ltb_lt in E. apply IH; lia.
      * apply Nat.ltb_ge in E. apply IH; lia.
    + apply nth_error_None in Hmid. lia.
Qed.

Lemma lower_bound_spec : forall (less : Item -> bool) items k,
  (forall i a, nth_error items i = Some a -> less a = (i <? k)%nat) ->
  (k <= length items)%nat ->
  lower_bound less items = k.
Proof.
  intros less items k Hless Hk. unfold lower_bound.
  apply lower_bound_loop_spec; [exact Hless|lia|lia|lia].
Qed.

(** In an array of strictly ascending names the search for the name of
    one of its items stops at that item. *)
Lemma lower_bound_finds : forall (less : Item -> bool) items item,
  StronglySorted Name_lt items -> In item items ->
  (forall a, In a items -> less a = String_ltb (Name a) (Name item)) ->
  nth_error items (lower_bound less items) = Some item.
Proof.
  intros less items item Hs Hin Hless. apply In_nth_error in Hin as [k Hk].
  rewrite (lower_bound_spec _ items k); [exact Hk| |].
  - intros i a Ha. rewrite (Hless a (nth_error_In _ _ Ha)). destruct (i <? k)%nat eqn:E.
    + apply Nat.ltb_lt in E. apply (StronglySorted_nth_error _ _ _ _ _ _ Hs E Ha Hk).
    + apply Nat.ltb_ge in E. destruct (Nat.eq_dec i k) as [->|Hne].
      * rewrite Hk in Ha. injection Ha as <-. apply String_ltb_irrefl.
      * apply String_ltb_asym.
        assert (Hlt : (k < i)%nat) by lia.
        apply (StronglySorted_nth_error _ _ _ _ _ _ Hs Hlt Hk Ha).
  - apply Nat.lt_le_incl. apply nth_error_Some. congruence.
Qed.

Lemma memcmp_ltb : forall n a b,
  length a = n -> length b = n -> (memcmp a b n <? 0) = String_ltb a b.
Proof.
  induction n as [|n IH]; intros [|x a] [|y b] Ha Hb; try discriminate; simpl; [reflexivity|].
  destruct (x <? y); [reflexivity|]. destruct (y <? x); [reflexivity|].
  apply IH; simpl in *; lia.
Qed.

(** ** Looking a path up *)

Lemma split_path_findAny : forall path,
  match findAny path with
  | None => split_path path = [path]
  | Some i => split_path path = firstn i path :: split_path (skipn (S i) path)
  end.
Proof.
  induction path as [|c rest IH]; simpl; [reflexivity|].
  destruct (is_separator c); [reflexivity|].
  destruct (findAny rest) as [i|]; rewrite IH; reflexivity.
Qed.

Lemma split_path_not_nil : forall path, split_path path <> [].
Proof.
  intros path. pose proof (split_path_findAny path) as H.
  destruct (findAny path); rewrite H; discriminate.
Qed.

Lemma reaches_not_nil : forall items names item, reaches items names item -> names <> [].
Proof. intros items names item H. destruct H; discriminate. Qed.

Lemma FindItem_loop_reaches : forall items names item,
  reaches items names item ->
  Forall (fun name => name <> []) names ->
  forall path steps,
  split_path path = names -> (length names <= steps)%nat ->
  PakFile.FindItem_loop steps items path [] = Some (Some item).
Proof.
  induction 1 as [items item Hs Hin|items dir names item Hs Hin Hr IH];
    intros Hnames path steps Hsplit Hsteps.
  - destruct steps as [|steps]; [simpl in Hsteps; lia|].
    pose proof (split_path_findAny path) as Hcase.
    rewrite FindItem_loop_terminated.
    destruct (findAny path) as [i|].
    + rewrite Hcase in Hsplit. injection Hsplit as Hfirst Hrest.
      exfalso. exact (split_path_not_nil _ Hrest).
    + rewrite Hcase in Hsplit. injection Hsplit as ->.
      inversion Hnames as [|? ? Hne _]; subst.
      destruct (Name item) as [|c name] eqn:Hname; [contradiction|].
      rewrite <- Hname.
      rewrite (lower_bound_finds _ items item Hs Hin) by reflexivity.
      rewrite String_eqb_refl. reflexivity.
  - destruct steps as [|steps]; [simpl in Hsteps; lia|].
    pose proof (split_path_findAny path) as Hcase.
    rewrite FindItem_loop_terminated.
    destruct (findAny path) as [i|].
    + rewrite Hcase in Hsplit. injection Hsplit as Hname Hrest.
      inversion Hnames as [|? ? Hne Hnames']; subst.
      rewrite Hname.
      destruct (Name dir) as [|c name] eqn:Hdir; [contradiction|].
      rewrite <- Hdir.
      rewrite (lower_bound_finds _ items dir Hs Hin) by reflexivity.
      rewrite String_eqb_refl. cbv beta iota. change (negb true) with false. cbv beta iota.
      apply IH; [exact Hnames'|reflexivity|simpl in Hsteps; lia].
    + rewrite Hcase in Hsplit. injection Hsplit as Hfirst Hrest.
      exfalso. apply (reaches_not_nil _ _ _ Hr). now symmetry.
Qed.

Lemma FindItem_hash_reaches : forall P steps pakPath mountPoint items item path tail,
  StronglySorted Name_lt items -> In item items ->
  Forall (fun a => length (Name a) = 8%nat) items ->
  Name item = le_bytes 8 (FileNameToHash P (trimmedPrefix path)) ->
  PakFile.FindItem P steps (PakFile.mk pakPath mountPoint true items) path tail = Some (Some item).
Proof.
  intros P steps pakPath mountPoint items item path tail Hs Hin Hlen Hname.
  unfold PakFile.FindItem. simpl PakFile._useHashIndex. simpl PakFile._rootItems. cbv beta iota zeta.
  rewrite <- Hname.
  rewrite Forall_forall in Hlen.
  rewrite (lower_bound_finds _ items item Hs Hin).
  - rewrite memcmp_eqb; [|now apply Hlen|now apply Hlen].
    rewrite String_eqb_refl. reflexivity.
  - intros a Ha. apply memcmp_ltb; now apply Hlen.
Qed.

(** ** What a successful AddFile does *)

Lemma AddFile_to_success : forall P useHashIndex content pc written items path out' items',
  PakWriter.AddFile_to P useHashIndex content pc (mkFileStream true written) items path
    = ((true, out'), items') ->
  existsb (fun item => String_eqb (Name item) path) items = false /\
  size_accepted P pc content = true /\
  out' = mkFileStream true (written ++ snd (encoding P pc content)) /\
  items' = items ++ [file_item P (if useHashIndex then le_bytes 8 (FileNameToHash P path) else path)
                       content pc (Z.of_nat (length written))].
Proof.
  intros P uh content pc written items path out' items' H.
  pose proof (AddFile_to_verdict P uh content pc (mkFileStream true written) items path eq_refl) as Hv.
  rewrite H in Hv. simpl in Hv. symmetry in Hv. apply andb_true_iff in Hv as [Hdup Hsize].
  apply negb_true_iff in Hdup. split; [exact Hdup|]. split; [exact Hsize|].
  unfold size_accepted in Hsize.
  apply andb_true_iff in Hsize as [Hpos Hsize]. apply andb_true_iff in Hsize as [Hu Hs].
  apply Z.ltb_lt in Hu, Hs.
  assert (Hs' : 0 <= stored_size P pc content).
  { unfold stored_size. destruct pc; try destruct (WITH_ZLIB P); try destruct (WITH_LZ4 P);
      try destruct (WITH_ZSTD P); lia. }
  unfold PakWriter.AddFile_to in H. rewrite Hdup in H.
  unfold file_item, encoding, stored_size in *.
  destruct pc; try destruct (WITH_ZLIB P); try destruct (WITH_LZ4 P); try destruct (WITH_ZSTD P);
    unfold Write, GetPosition in H; simpl fs_valid in H; simpl fs_written in H; cbv beta iota zeta in H;
    rewrite Hpos in H; simpl negb in H; cbv beta iota in H;
    rewrite ?length_app, ?Nat2Z.inj_add in H;
    match type of H with
    | context [Z.of_nat (length content) <? UINT32_MAX] =>
        replace (Z.of_nat (length content) <? UINT32_MAX) with true in H
          by (symmetry; apply Z.ltb_lt; unfold UINT32_MAX in *; lia)
    end;
    match type of H with
    | context [?x <? UINT32_MAX] =>
        replace (x <? UINT32_MAX) with true in H
          by (symmetry; apply Z.ltb_lt; unfold UINT32_MAX in *; lia)
    end;
    simpl negb in H; cbv beta iota in H;
    injection H as <- <-; (split; [reflexivity|]);
    rewrite !to_uint32_small by (unfold UINT32_MAX in *; change (2 ^ 32) with 4294967296; lia);
    repeat f_equal; lia.
Qed.

Lemma existsb_Name_false : forall name items,
  existsb (fun item => String_eqb (Name item) name) items = false ->
  forall x, In x items -> Name x <> name.
Proof.
  intros name items H x Hin Hx.
  assert (E : existsb (fun item => String_eqb (Name item) name) items = true).
  { apply existsb_exists. exists x. split; [exact Hin|]. now apply String_eqb_eq. }
  congruence.
Qed.

Lemma find_by_name_None : forall name items,
  PakWriter.find_by_name name items = None ->
  forall x, In x items -> Name x <> name.
Proof.
  intros name. induction items as [|item rest IH]; intros H x Hin; [destruct Hin|].
  simpl in H. destruct (String_eqb (Name item) name) eqn:E; [discriminate|].
  destruct (PakWriter.find_by_name name rest) as [[i found]|]; [discriminate|].
  destruct Hin as [<-|Hin].
  - intros Hx. apply String_eqb_eq in Hx. congruence.
  - now apply IH.
Qed.

Lemma removelast_cons : forall (A : Type) (a : A) l, l <> [] -> removelast (a :: l) = a :: removelast l.
Proof. intros A a [|b l] H; [contradiction|reflexivity]. Qed.

Lemma last_cons : forall (A : Type) (a : A) l d, l <> [] -> last (a :: l) d = last l d.
Proof. intros A a [|b l] d H; [contradiction|reflexivity]. Qed.

Lemma FindOrCreateParentItem_loop_added : forall P content pc written steps items path out' items',
  PakWriter.FindOrCreateParentItem_loop steps items path
    (PakWriter.AddFile_to P false content pc (mkFileStream true written))
    = Some ((true, out'), items') ->
  size_accepted P pc content = true /\
  out' = mkFileStream true (written ++ snd (encoding P pc content)) /\
  added true (file_item P (last (split_path path) []) content pc (Z.of_nat (length written)))
        (removelast (split_path path)) items items'.
Proof.
  intros P content pc written steps items path out' items' H.
  revert H.
  generalize (eq_refl : fst (true, out') = true).
  change out' with (snd (true, out')) at 3.
  generalize (true, out') as r. intros r Hr H. revert Hr.
  eapply (FindOrCreateParentItem_loop_rel
            (PakWriter.AddFile_to P false content pc (mkFileStream true written))
            (fun path items r items' =>
               fst r = true ->
               size_accepted P pc content = true /\
               snd r = mkFileStream true (written ++ snd (encoding P pc content)) /\
               added true
                 (file_item P (last (split_path path) []) content pc (Z.of_nat (length written)))
                 (removelast (split_path path)) items items')); [| | |exact H].
  - intros its p Hnone Hok.
    destruct (PakWriter.AddFile_to P false content pc (mkFileStream true written) its p)
      as [[ok o] its'] eqn:E.
    simpl in Hok. subst ok.
    apply AddFile_to_success in E as (Hdup & Hsize & -> & ->).
    pose proof (split_path_findAny p) as Hsplit. rewrite Hnone in Hsplit. rewrite Hsplit.
    simpl. split; [exact Hsize|]. split; [reflexivity|].
    apply added_here. intros _. apply existsb_Name_false. exact Hdup.
  - intros p i its j foundItem r0 children Hsome Hfind IH Hok.
    destruct (IH Hok) as (Hsize & Hout & Hadded).
    split; [exact Hsize|]. split; [exact Hout|].
    pose proof (split_path_findAny p) as Hsplit. rewrite Hsome in Hsplit. rewrite Hsplit.
    rewrite removelast_cons, last_cons by apply split_path_not_nil.
    apply find_by_name_nth_error in Hfind as [Hnth Hname].
    apply String_eqb_eq in Hname. rewrite <- Hname.
    apply added_found; [exact Hnth|]. exact Hadded.
  - intros p i its r0 children Hsome Hfind IH Hok.
    destruct (IH Hok) as (Hsize & Hout & Hadded).
    split; [exact Hsize|]. split; [exact Hout|].
    pose proof (split_path_findAny p) as Hsplit. rewrite Hsome in Hsplit. rewrite Hsplit.
    rewrite removelast_cons, last_cons by apply split_path_not_nil.
    apply added_created; [|exact Hadded].
    apply find_by_name_None. exact Hfind.
Qed.

Lemma AddFile_success : forall P w content path pc w',
  PakWriter.AddFile P w content path pc = (true, w') ->
  exists written,
    PakWriter._outputStream w = Some (mkFileStream true written) /\
    empty_or_ends_with_separator path = false /\
    size_accepted P pc content = true /\
    w' = PakWriter.with_state w (PakWriter._rootItems w')
           (Some (mkFileStream true (written ++ snd (encoding P pc content)))) /\
    added (negb (PakWriter._useHashIndex w))
      (file_item P (last (key P (PakWriter._useHashIndex w) path) []) content pc
                 (Z.of_nat (length written)))
      (removelast (key P (PakWriter._useHashIndex w) path))
      (PakWriter._rootItems w) (PakWriter._rootItems w').
Proof.
  intros P w content path pc w' H. unfold PakWriter.AddFile in H.
  destruct (PakWriter._outputStream w) as [[valid written]|]; [|discriminate].
  simpl fs_valid in H. destruct valid; [|discriminate]. simpl negb in H. cbv iota in H.
  exists written. split; [reflexivity|].
  destruct (empty_or_ends_with_separator path); [discriminate|]. split; [reflexivity|].
  unfold key. destruct (PakWriter._useHashIndex w).
  - destruct (PakWriter.AddFile_to P true content pc _ _ path) as [[ok o] its] eqn:E.
    injection H as -> <-.
    apply AddFile_to_success in E as (_ & Hsize & -> & ->).
    split; [exact Hsize|]. split; [reflexivity|].
    simpl. apply added_here. discriminate.
  - unfold PakWriter.FindOrCreateParentItem in H.
    destruct (PakWriter.FindOrCreateParentItem_loop _ _ _ _) as [[[ok o] its]|] eqn:E;
      [|discriminate].
    injection H as -> <-.
    apply FindOrCreateParentItem_loop_added in E as (Hsize & -> & Hadded).
    split; [exact Hsize|]. split; [reflexivity|]. exact Hadded.
Qed.

(** *** Arrays with one element replaced *)

Lemma In_replace_nth_inv : forall items j (z y : Item),
  In y (PakWriter.replace_nth j z items) -> y = z \/ In y items.
Proof.
  induction items as [|x rest IH]; intros j z y H; [destruct j; destruct H|].
  destruct j as [|j]; simpl in H.
  - destruct H as [<-|H]; [now left|right; now right].
  - destruct H as [<-|H]; [right; now left|].
    destruct (IH _ _ _ H) as [->|Hin]; [now left|right; now right].
Qed.

Lemma In_replace_nth : forall items j (old z y : Item),
  nth_error items j = Some old -> In y items ->
  y = old \/ In y (PakWriter.replace_nth j z items).
Proof.
  induction items as [|x rest IH]; intros j old z y Hnth H; [destruct H|].
  destruct j as [|j]; simpl in Hnth.
  - injection Hnth as <-. destruct H as [<-|H]; [now left|right; now right].
  - destruct H as [<-|H]; [right; now left|].
    destruct (IH _ _ z _ Hnth H) as [->|Hin]; [now left|right; now right].
Qed.

Lemma In_replace_nth_new : forall items j (old z : Item),
  nth_error items j = Some old -> In z (PakWriter.replace_nth j z items).
Proof.
  induction items as [|x rest IH]; intros j old z Hnth; [destruct j; discriminate|].
  destruct j as [|j]; simpl in *; [now left|right; eapply IH; eassumption].
Qed.

Lemma map_Name_replace_nth : forall items j (old z : Item),
  nth_error items j = Some old -> Name z = Name old ->
  map Name (PakWriter.replace_nth j z items) = map Name items.
Proof.
  induction items as [|x rest IH]; intros j old z Hnth Hname; [now destruct j|].
  destruct j as [|j]; simpl in *.
  - injection Hnth as <-. now rewrite Hname.
  - f_equal. eapply IH; eassumption.
Qed.

Lemma length_replace_nth : forall items j (z : Item),
  length (PakWriter.replace_nth j z items) = length items.
Proof.
  induction items as [|x rest IH]; intros j z; [now destruct j|].
  destruct j; simpl; [reflexivity|now rewrite IH].
Qed.

Lemma Forall_tree_replace : forall (Q : Item -> Prop) items j old z,
  nth_error items j = Some old ->
  Forall_tree Q items -> Q z -> Forall_tree Q (ChildItems z) ->
  Forall_tree Q (PakWriter.replace_nth j z items).
Proof.
  intros Q items j old z Hnth Hall Hz Hc.
  destruct (replace_nth_split items j old z Hnth) as (before & after & E1 & E2 & _).
  rewrite E2. rewrite E1 in Hall.
  apply Forall_tree_app in Hall as [Hb Ha]. apply Forall_tree_app. split; [exact Hb|].
  inversion Ha; subst. now constructor.
Qed.

Lemma Forall_tree_impl : forall (Q Q' : Item -> Prop) items,
  (forall x, Q x -> Q' x) -> Forall_tree Q items -> Forall_tree Q' items.
Proof.
  intros Q Q' items Himpl H. induction H; constructor; auto.
Qed.

Lemma Forall_tree_In : forall (Q : Item -> Prop) items x,
  Forall_tree Q items -> In x items -> Q x /\ Forall_tree Q (ChildItems x).
Proof.
  intros Q items x H. induction H as [|item rest Hq Hc _ Hr IH]; intros Hin; [destruct Hin|].
  destruct Hin as [<-|Hin]; [now split|now apply IH].
Qed.

(** *** Resolving names *)

Lemma resolves_nil : forall names item, ~ resolves [] names item.
Proof. intros names item H. inversion H; subst; contradiction. Qed.

Lemma resolves_inv : forall items names item,
  resolves items names item ->
  exists y, In y items /\
    ((names = [Name y] /\ item = y)
     \/ exists below, names = Name y :: below /\ resolves (ChildItems y) below item).
Proof.
  intros items names item H. inversion H; subst.
  - exists item. split; [assumption|now left].
  - exists dir. split; [assumption|]. right. eexists. split; [reflexivity|assumption].
Qed.

Lemma resolves_incl : forall items items' names item,
  (forall y, In y items -> In y items') ->
  resolves items names item -> resolves items' names item.
Proof.
  intros items items' names item Hincl H. inversion H; subst; constructor; auto.
Qed.

Lemma resolves_name_length : forall items names item,
  resolves items names item -> last names [] = Name item.
Proof.
  induction 1 as [|items dir names item Hin Hr IH]; [reflexivity|].
  rewrite last_cons; [exact IH|]. destruct Hr; discriminate.
Qed.

(** *** Files stay where they were added *)

Lemma isDirectory_set_ChildItems : forall x children,
  isDirectory (set_ChildItems x children) = isDirectory x.
Proof. reflexivity. Qed.

(** Adding a file at names none of whose initial parts is the place of a
    file: the walk passes through directories only, so the files of the
    tree stay as they are, and the new one is at its names. *)
Lemma added_files : forall fresh item dirs items items' (D : list (list String)),
  added fresh item dirs items items' ->
  isDirectory item = false -> ChildItems item = [] ->
  forall q,
  (forall p x, resolves items p x -> isDirectory x = false -> In (q ++ p) D) ->
  (forall d, In d D -> ~ proper_prefix d (q ++ dirs ++ [Name item])) ->
  files_are_leaves items ->
  files_are_leaves items' /\
  resolves items' (dirs ++ [Name item]) item /\
  (forall p x, resolves items p x -> isDirectory x = false -> resolves items' p x) /\
  (forall p x, resolves items' p x -> isDirectory x = false ->
               In (q ++ p) D \/ p = dirs ++ [Name item]).
Proof.
  intros fresh item dirs items items' D Hadded Hfile Hleaf.
  induction Hadded as [items Hfresh
                      |names items j dir children Hnth Hadded IH
                      |name names items children Hnone Hadded IH];
    intros q Hcovered Hfree Hleaves.
  - split; [|split; [|split]].
    + apply Forall_tree_app. split; [exact Hleaves|].
      constructor; [intros _; exact Hleaf|rewrite Hleaf; constructor|constructor].
    + apply resolves_last. apply in_or_app. right. now left.
    + intros p x Hr _. eapply resolves_incl; [|exact Hr].
      intros y Hy. apply in_or_app. now left.
    + intros p x Hr Hx. apply resolves_inv in Hr as (y & Hy & Hcase).
      apply in_app_or in Hy as [Hy|[<-|[]]].
      * left. apply (Hcovered p x); [|exact Hx].
        destruct Hcase as [[-> ->]|(below & -> & Hbelow)]; [now constructor|].
        now apply resolves_step with (dir := y).
      * destruct Hcase as [[-> ->]|(below & -> & Hbelow)]; [now right|].
        rewrite Hleaf in Hbelow. now apply resolves_nil in Hbelow.
  - assert (Hin : In dir items) by (eapply nth_error_In; exact Hnth).
    assert (Hdir : isDirectory dir = true).
    { destruct (isDirectory dir) eqn:E; [reflexivity|]. exfalso.
      apply (Hfree (q ++ [Name dir])).
      - apply (Hcovered [Name dir] dir); [now constructor|exact E].
      - exists (names ++ [Name item]). split; [now destruct names|].
        now rewrite <- app_assoc. }
    destruct (IH (q ++ [Name dir])) as (Hleaves' & Hnew & Hkept & Hall).
    { intros p x Hr Hx. rewrite <- app_assoc. apply (Hcovered (Name dir :: p) x); [|exact Hx].
      now apply resolves_step with (dir := dir). }
    { intros d Hd. rewrite <- app_assoc. now apply Hfree. }
    { now apply (Forall_tree_In _ _ _ Hleaves Hin). }
    split; [|split; [|split]].
    + eapply Forall_tree_replace; [exact Hnth|exact Hleaves| |exact Hleaves'].
      rewrite isDirectory_set_ChildItems, Hdir. discriminate.
    + apply (resolves_step _ (set_ChildItems dir children)); [|exact Hnew].
      eapply In_replace_nth_new; exact Hnth.
    + intros p x Hr Hx. apply resolves_inv in Hr as (y & Hy & Hcase).
      destruct (In_replace_nth items j dir (set_ChildItems dir children) y Hnth Hy) as [->|Hy'].
      * destruct Hcase as [[-> ->]|(below & -> & Hbelow)]; [congruence|].
        apply (resolves_step _ (set_ChildItems dir children)).
        -- eapply In_replace_nth_new; exact Hnth.
        -- apply Hkept; assumption.
      * destruct Hcase as [[-> ->]|(below & -> & Hbelow)]; [now constructor|].
        now apply resolves_step with (dir := y).
    + intros p x Hr Hx. apply resolves_inv in Hr as (y & Hy & Hcase).
      apply In_replace_nth_inv in Hy as [->|Hy].
      * destruct Hcase as [[-> ->]|(below & -> & Hbelow)].
        -- rewrite isDirectory_set_ChildItems in Hx. congruence.
        -- simpl in Hbelow. destruct (Hall _ _ Hbelow Hx) as [Hd| ->].
           ++ left. rewrite <- app_assoc in Hd. exact Hd.
           ++ now right.
      * left. apply (Hcovered p x); [|exact Hx].
        destruct Hcase as [[-> ->]|(below & -> & Hbelow)]; [now constructor|].
        now apply resolves_step with (dir := y).
  - destruct (IH (q ++ [name])) as (Hleaves' & Hnew & Hkept & Hall).
    { intros p x Hr _. now apply resolves_nil in Hr. }
    { intros d Hd. rewrite <- app_assoc. now apply Hfree. }
    { constructor. }
    set (created := mkItem name ItemFlags_Directory 0 0 0 children).
    split; [|split; [|split]].
    + apply Forall_tree_app. split; [exact Hleaves|].
      constructor; [discriminate|exact Hleaves'|constructor].
    + apply (resolves_step _ created); [|exact Hnew].
      apply in_or_app. right. now left.
    + intros p x Hr _. eapply resolves_incl; [|exact Hr].
      intros y Hy. apply in_or_app. now left.
    + intros p x Hr Hx. apply resolves_inv in Hr as (y & Hy & Hcase).
      apply in_app_or in Hy as [Hy|[<-|[]]].
      * left. apply (Hcovered p x); [|exact Hx].
        destruct Hcase as [[-> ->]|(below & -> & Hbelow)]; [now constructor|].
        now apply resolves_step with (dir := y).
      * destruct Hcase as [[-> ->]|(below & -> & Hbelow)]; [discriminate|].
        simpl in Hbelow. destruct (Hall _ _ Hbelow Hx) as [Hd| ->].
        -- left. rewrite <- app_assoc in Hd. exact Hd.
        -- now right.
Qed.

(** *** Properties of every array *)

Section added_every_array.
Variables (fresh : bool) (item : Item) (Q Q' : list Item -> Prop).
Hypothesis Q_nil : Q [].
Hypothesis Q_kept : forall items, Q items -> Q' items.
Hypothesis Q_item : forall items,
  Q items -> (fresh = true -> forall x, In x items -> Name x <> Name item) ->
  Q' (items ++ [item]).
Hypothesis Q_replaced : forall items j old z,
  nth_error items j = Some old -> Name z = Name old -> Q items ->
  Q' (PakWriter.replace_nth j z items).
Hypothesis Q_created : forall items name children,
  Q items -> (forall x, In x items -> Name x <> name) ->
  Q' (items ++ [mkItem name ItemFlags_Directory 0 0 0 children]).
Hypothesis item_leaf : ChildItems item = [].

Lemma added_every_array : forall dirs items items',
  added fresh item dirs items items' ->
  every_array Q items -> every_array Q' items'.
Proof.
  unfold every_array.
  induction 1 as [items Hfresh
                 |names items j dir children Hnth Hadded IH
                 |name names items children Hnone Hadded IH]; intros [Hq Hall].
  - split; [now apply Q_item|].
    apply Forall_tree_app. split.
    + eapply Forall_tree_impl; [|exact Hall]. intros x. apply Q_kept.
    + constructor; [rewrite item_leaf; now apply Q_kept|rewrite item_leaf; constructor
                   |constructor].
  - destruct IH as [Hq' Hall'].
    { apply (Forall_tree_In _ _ dir Hall). eapply nth_error_In; exact Hnth. }
    split; [now apply Q_replaced with (old := dir)|].
    eapply Forall_tree_replace; [exact Hnth| |exact Hq'|exact Hall'].
    eapply Forall_tree_impl; [|exact Hall]. intros x. apply Q_kept.
  - destruct IH as [Hq' Hall']; [split; [exact Q_nil|constructor]|].
    split; [now apply Q_created|].
    apply Forall_tree_app. split.
    + eapply Forall_tree_impl; [|exact Hall]. intros x. apply Q_kept.
    + constructor; [exact Hq'|exact Hall'|constructor].
Qed.

End added_every_array.

Lemma NoDup_snoc : forall (names : list String) name,
  NoDup names -> ~ In name names -> NoDup (names ++ [name]).
Proof.
  intros names name Hn Hnotin.
  apply (Permutation_NoDup (l := name :: names)).
  - apply Permutation_cons_append.
  - now constructor.
Qed.

Lemma not_In_names : forall items name,
  (forall x : Item, In x items -> Name x <> name) -> ~ In name (map Name items).
Proof.
  intros items name H Hin. apply in_map_iff in Hin as (x & Hx & Hin). exact (H x Hin Hx).
Qed.

Lemma added_unique_names : forall item dirs items items',
  added true item dirs items items' -> ChildItems item = [] ->
  unique_names items -> unique_names items'.
Proof.
  intros item dirs items items' Hadded Hleaf Hunique.
  refine (added_every_array true item (fun items => NoDup (map Name items))
            (fun items => NoDup (map Name items)) _ _ _ _ _ Hleaf dirs items items'
            Hadded Hunique).
  - constructor.
  - auto.
  - intros its Hn Hfresh. rewrite map_app. apply NoDup_snoc; [exact Hn|].
    apply not_In_names. now apply Hfresh.
  - intros its j old z Hnth Hname Hn. now rewrite (map_Name_replace_nth its j old z Hnth Hname).
  - intros its name children Hn Hnone. rewrite map_app. apply NoDup_snoc; [exact Hn|].
    now apply not_In_names.
Qed.

Lemma added_arrays_within : forall fresh item dirs items items' n,
  added fresh item dirs items items' -> ChildItems item = [] ->
  arrays_within n items -> arrays_within (S n) items'.
Proof.
  intros fresh item dirs items items' n Hadded Hleaf Hwithin.
  refine (added_every_array fresh item (fun items => (length items <= n)%nat)
            (fun items => (length items <= S n)%nat) _ _ _ _ _ Hleaf dirs items items'
            Hadded Hwithin).
  - simpl. lia.
  - intros its H. lia.
  - intros its H _. rewrite length_app. simpl. lia.
  - intros its j old z _ _ H. rewrite length_replace_nth. lia.
  - intros its name children H _. rewrite length_app. simpl. lia.
Qed.

(** *** Properties of every item *)

Lemma added_Forall_tree : forall (Q : Item -> Prop) fresh item dirs items items',
  added fresh item dirs items items' ->
  (forall x children, Q x -> Q (set_ChildItems x children)) ->
  Q item -> ChildItems item = [] ->
  Forall (fun name => forall children, Q (mkItem name ItemFlags_Directory 0 0 0 children)) dirs ->
  Forall_tree Q items -> Forall_tree Q items'.
Proof.
  intros Q fresh item dirs items items' Hadded Hset Hitem Hleaf.
  induction Hadded as [items Hfresh
                      |names items j dir children Hnth Hadded IH
                      |name names items children Hnone Hadded IH]; intros Hdirs Hall.
  - apply Forall_tree_app. split; [exact Hall|].
    constructor; [exact Hitem|rewrite Hleaf; constructor|constructor].
  - inversion Hdirs as [|? ? _ Hdirs']; subst.
    pose proof (Forall_tree_In _ _ dir Hall (nth_error_In _ _ Hnth)) as [Hq Hc].
    eapply Forall_tree_replace; [exact Hnth|exact Hall|now apply Hset|].
    now apply IH.
  - inversion Hdirs as [|? ? Hname Hdirs']; subst.
    apply Forall_tree_app. split; [exact Hall|].
    constructor; [apply Hname|apply IH; [exact Hdirs'|constructor]|constructor].
Qed.

(** *** The depth of the tree *)

Lemma levels_le_app : forall n a b,
  levels_le n (a ++ b) <-> levels_le n a /\ levels_le n b.
Proof.
  intros n a b. induction a as [|x a IH]; simpl.
  - split; [intros H; split; [constructor|exact H]|now intros [_ H]].
  - split.
    + intros H. inversion H; subst. apply IH in H4 as [Ha Hb].
      split; [now constructor|exact Hb].
    + intros [Ha Hb]. inversion Ha; subst. constructor; [assumption|]. apply IH. now split.
Qed.

Lemma levels_le_In : forall n items x,
  levels_le n items -> In x items -> exists m, n = S m /\ levels_le m (ChildItems x).
Proof.
  intros n items x H. induction H as [|n item rest Hc _ Hr IH]; intros Hin; [destruct Hin|].
  destruct Hin as [<-|Hin]; [now exists n|now apply IH].
Qed.

Lemma levels_le_replace : forall n items j old z,
  nth_error items j = Some old ->
  levels_le (S n) items -> levels_le n (ChildItems z) ->
  levels_le (S n) (PakWriter.replace_nth j z items).
Proof.
  intros n items j old z Hnth Hall Hz.
  destruct (replace_nth_split items j old z Hnth) as (before & after & E1 & E2 & _).
  rewrite E2. rewrite E1 in Hall.
  apply levels_le_app in Hall as [Hb Ha]. apply levels_le_app. split; [exact Hb|].
  inversion Ha; subst. now constructor.
Qed.

Lemma added_levels : forall fresh item dirs items items',
  added fresh item dirs items items' -> ChildItems item = [] ->
  forall n, levels_le n items -> (length dirs < n)%nat -> levels_le n items'.
Proof.
  intros fresh item dirs items items' Hadded Hleaf.
  induction Hadded as [items Hfresh
                      |names items j dir children Hnth Hadded IH
                      |name names items children Hnone Hadded IH]; intros n Hall Hn.
  - destruct n as [|n]; [simpl in Hn; lia|].
    apply levels_le_app. split; [exact Hall|].
    constructor; [rewrite Hleaf; constructor|constructor].
  - destruct (levels_le_In _ _ dir Hall (nth_error_In _ _ Hnth)) as (m & -> & Hc).
    eapply levels_le_replace; [exact Hnth|exact Hall|].
    simpl. apply IH; [exact Hc|simpl in Hn; lia].
  - destruct n as [|n]; [simpl in Hn; lia|].
    apply levels_le_app. split; [exact Hall|].
    constructor; [|constructor]. simpl. apply IH; [constructor|simpl in Hn; lia].
Qed.

(** ** The writer between two calls of AddFile *)

Lemma file_item_is_file : forall P name content pc offset,
  isDirectory (file_item P name content pc offset) = false.
Proof.
  intros P name content pc offset. unfold file_item, encoding, isDirectory.
  destruct pc; try destruct (WITH_ZLIB P); try destruct (WITH_LZ4 P); try destruct (WITH_ZSTD P);
    reflexivity.
Qed.

Lemma file_item_describable : forall P (useHashIndex : bool) (name : String) content pc offset,
  size_accepted P pc content = true ->
  (if useHashIndex then length name = 8%nat else Z.of_nat (length name) < INT32_MAX) ->
  describable useHashIndex (file_item P name content pc offset).
Proof.
  intros P uh name content pc offset Hsize Hname.
  unfold size_accepted in Hsize.
  apply andb_true_iff in Hsize as [Hpos Hsize]. apply andb_true_iff in Hsize as [Hu Hs].
  apply Z.ltb_lt in Hu, Hs. unfold UINT32_MAX in Hu, Hs.
  unfold describable, wf_item, file_item, set_Offset, isDirectory. simpl.
  change (2 ^ 32) with 4294967296. change (2 ^ 64) with 18446744073709551616.
  unfold encoding, stored_size in *.
  destruct pc; try destruct (WITH_ZLIB P); try destruct (WITH_LZ4 P); try destruct (WITH_ZSTD P);
    simpl; repeat split; try lia; try exact Hname; try discriminate; try reflexivity.
Qed.

Lemma directory_describable : forall (useHashIndex : bool) (name : String) children,
  (if useHashIndex then length name = 8%nat else Z.of_nat (length name) < INT32_MAX) ->
  describable useHashIndex (mkItem name ItemFlags_Directory 0 0 0 children).
Proof.
  intros uh name children Hname.
  unfold describable, wf_item, set_Offset, isDirectory. simpl.
  change (2 ^ 32) with 4294967296. change (2 ^ 64) with 18446744073709551616.
  unfold ItemFlags_Directory.
  repeat split; try lia; try exact Hname; try reflexivity.
Qed.

Lemma block_at_end : forall written block,
  block_at (written ++ block) (Z.of_nat (length written)) block.
Proof.
  intros written block. exists written, []. split; [now rewrite app_nil_r|reflexivity].
Qed.

Lemma removelast_last_key : forall (k : list String), k <> [] -> removelast k ++ [last k []] = k.
Proof. intros k H. symmetry. now apply app_removelast_last. Qed.

Lemma length_removelast : forall (k : list String), k <> [] -> S (length (removelast k)) = length k.
Proof.
  intros k H. rewrite <- (removelast_last_key k H) at 2. rewrite length_app. simpl. lia.
Qed.

Lemma Forall_removelast : forall (Q : String -> Prop) k, Forall Q k -> Forall Q (removelast k).
Proof.
  intros Q k H. induction H as [|x k Hx Hk IH]; [constructor|].
  destruct k as [|y k]; [constructor|]. rewrite removelast_cons by discriminate.
  constructor; assumption.
Qed.

Lemma Forall_last : forall (Q : String -> Prop) k, k <> [] -> Forall Q k -> Q (last k []).
Proof.
  intros Q k Hk H. rewrite Forall_forall in H. apply H.
  rewrite <- (removelast_last_key k Hk) at 2. apply in_or_app. right. now left.
Qed.

Lemma key_not_nil : forall P useHashIndex path, key P useHashIndex path <> [].
Proof.
  intros P uh path. unfold key. destruct uh; [discriminate|apply split_path_not_nil].
Qed.

(** One more file: the invariant after an [AddFile] that returned [true]. *)
Lemma AddFile_invariant : forall P w a w' done written,
  PakWriter.AddFile P w (add_content a) (add_path a) (add_compression a) = (true, w') ->
  PakWriter._outputStream w = Some (mkFileStream true written) ->
  writer_invariant P (PakWriter._useHashIndex w) done (PakWriter._rootItems w) written ->
  let k := key P (PakWriter._useHashIndex w) (add_path a) in
  (forall d, In d (keys P (PakWriter._useHashIndex w) done) -> ~ proper_prefix d k) ->
  Forall (fun name => if PakWriter._useHashIndex w then length name = 8%nat
                      else Z.of_nat (length name) < INT32_MAX) k ->
  (length k <= Z.to_nat MaxDepth)%nat ->
  (PakWriter._useHashIndex w = true -> ~ In k (keys P (PakWriter._useHashIndex w) done)) ->
  exists written',
    PakWriter._outputStream w' = Some (mkFileStream true written') /\
    w' = PakWriter.with_state w (PakWriter._rootItems w') (PakWriter._outputStream w') /\
    writer_invariant P (PakWriter._useHashIndex w) (done ++ [a]) (PakWriter._rootItems w') written'.
Proof.
  intros P w a w' done written Hadd Hout Hinv k Hfree Hnames Hdepth Hnew.
  apply AddFile_success in Hadd as (written0 & Hout0 & Hends & Hsize & Hw' & Hadded).
  rewrite Hout in Hout0. injection Hout0 as <-.
  fold k in Hadded.
  remember (PakWriter._useHashIndex w) as uh eqn:Huh.
  remember (PakWriter._rootItems w) as T eqn:HT.
  remember (PakWriter._rootItems w') as T' eqn:HT'.
  remember (snd (encoding P (add_compression a) (add_content a))) as stored eqn:Hstored_eq.
  remember (file_item P (last k []) (add_content a) (add_compression a)
              (Z.of_nat (length written))) as item eqn:Hitem.
  assert (Hk : k <> []) by apply key_not_nil.
  assert (Hfile : isDirectory item = false) by (rewrite Hitem; apply file_item_is_file).
  assert (Hleaf : ChildItems item = []) by (now rewrite Hitem).
  assert (Hname : Name item = last k []) by (now rewrite Hitem).
  assert (Hkey : removelast k ++ [Name item] = k) by (rewrite Hname; now apply removelast_last_key).
  exists (written ++ stored).
  assert (Hout' : PakWriter._outputStream w' = Some (mkFileStream true (written ++ stored))).
  { rewrite Hw'. reflexivity. }
  split; [exact Hout'|]. split; [rewrite Hout'; exact Hw'|].
  destruct Hinv as [Hleaves Hcovered Hstored Hdescribed Hoffsets Hlevels Hwithin Hunique Hflat
                    Hheader].
  assert (Hadded' : added true item (removelast k) T T').
  { destruct uh; [|exact Hadded].
    assert (Ek : k = [Name item]) by (rewrite Hname; reflexivity).
    change (added false item [] T T') in Hadded. change (added true item [] T T').
    inversion Hadded as [its Hfresh E1 E2| |]. apply added_here. intros _ x Hx Heq.
    apply (Hnew eq_refl). rewrite Ek. apply (Hcovered [Name item] x).
    - rewrite <- Heq. now constructor.
    - specialize (Hflat eq_refl). rewrite Forall_forall in Hflat. now apply Hflat. }
  destruct (added_files true item (removelast k) T T' (keys P uh done) Hadded' Hfile Hleaf [])
    as (Hleaves' & Hresolves & Hkept & Hall).
  { exact Hcovered. }
  { intros d Hd. simpl. rewrite Hkey. now apply Hfree. }
  { exact Hleaves. }
  rewrite Hkey in Hresolves, Hall.
  constructor.
  - exact Hleaves'.
  - intros p x Hr Hx. unfold keys. rewrite map_app. apply in_or_app.
    destruct (Hall p x Hr Hx) as [Hin| ->]; [now left|right; now left].
  - intros b Hb. apply in_app_or in Hb as [Hb|[<-|[]]].
    + destruct (Hstored b Hb) as (offset & Hr & Hblock & Hs).
      exists offset. split; [|split; [|exact Hs]].
      * apply Hkept; [exact Hr|apply file_item_is_file].
      * now apply block_at_app.
    + exists (Z.of_nat (length written)). split.
      * unfold stored_record. fold k. rewrite <- Hitem. exact Hresolves.
      * split; [rewrite <- Hstored_eq; apply block_at_end|now split].
  - apply (added_Forall_tree _ true item (removelast k) T T' Hadded'); try assumption.
    + intros x children Hx. exact Hx.
    + rewrite Hitem. apply file_item_describable; [exact Hsize|].
      apply (Forall_last _ k Hk) in Hnames. exact Hnames.
    + apply Forall_removelast in Hnames.
      eapply Forall_impl; [|exact Hnames]. intros name Hn children.
      now apply directory_describable.
  - apply (added_Forall_tree _ true item (removelast k) T T' Hadded').
    + intros x children Hx. exact Hx.
    + rewrite Hitem. simpl. rewrite length_app. lia.
    + exact Hleaf.
    + apply Forall_forall. intros name _ children. simpl. lia.
    + eapply Forall_tree_impl; [|exact Hoffsets]. intros x Hx. simpl in Hx |- *.
      rewrite length_app. lia.
  - apply (added_levels true item (removelast k) T T' Hadded' Hleaf); [exact Hlevels|].
    pose proof (length_removelast k Hk). lia.
  - rewrite length_app. simpl. rewrite Nat.add_1_r.
    apply (added_arrays_within true item (removelast k) T T' _ Hadded' Hleaf Hwithin).
  - apply (added_unique_names item (removelast k) T T' Hadded' Hleaf Hunique).
  - intros Euh. specialize (Hflat Euh).
    assert (Ek : removelast k = []) by (unfold k, key; rewrite Euh; reflexivity).
    rewrite Ek in Hadded'.
    inversion Hadded' as [its Hfresh E1 E2| |]. apply Forall_app. split; [exact Hflat|].
    constructor; [exact Hfile|constructor].
  - rewrite length_app. lia.
Qed.

(** *** Bytes of integers *)

Lemma length_le_bytes : forall n z, length (le_bytes n z) = n.
Proof. induction n as [|n IH]; intros z; simpl; [reflexivity|now rewrite IH]. Qed.

Lemma le_value_le_bytes : forall n z, le_value (le_bytes n z) = z mod 256 ^ Z.of_nat n.
Proof.
  induction n as [|n IH]; intros z.
  - simpl. now rewrite Z.mod_1_r.
  - cbn [le_bytes le_value]. rewrite IH.
    rewrite Nat2Z.inj_succ, Z.pow_succ_r by lia.
    rewrite Z.rem_mul_r; [reflexivity|lia|]. apply Z.pow_pos_nonneg; lia.
Qed.

Lemma le_bytes_8_inj : forall a b,
  0 <= a < 2 ^ 64 -> 0 <= b < 2 ^ 64 -> le_bytes 8 a = le_bytes 8 b -> a = b.
Proof.
  intros a b Ha Hb H. apply (f_equal le_value) in H. rewrite !le_value_le_bytes in H.
  change (256 ^ Z.of_nat 8) with (2 ^ 64) in H.
  now rewrite !Z.mod_small in H.
Qed.

Lemma FileNameToHash_range : forall P path, 0 <= FileNameToHash P path < 2 ^ 64.
Proof. intros P path. unfold FileNameToHash. apply Z.mod_pos_bound. reflexivity. Qed.

(** *** Paths and their components *)

Lemma length_trimmedPrefix : forall path, (length (trimmedPrefix path) <= length path)%nat.
Proof.
  induction path as [|c rest IH]; simpl; [lia|].
  destruct (is_separator c); simpl; lia.
Qed.

Lemma split_path_lengths : forall path name,
  In name (split_path path) -> (length name <= length path)%nat.
Proof.
  induction path as [|c rest IH]; intros name Hin; simpl in *.
  - destruct Hin as [<-|[]]. simpl. lia.
  - destruct (is_separator c).
    + destruct Hin as [<-|Hin]; [simpl; lia|]. specialize (IH _ Hin). lia.
    + destruct (split_path rest) as [|first names] eqn:E.
      * destruct Hin as [<-|[]]. simpl. lia.
      * destruct Hin as [<-|Hin].
        -- specialize (IH first (or_introl eq_refl)). simpl. lia.
        -- specialize (IH name (or_intror Hin)). lia.
Qed.

Lemma length_split_path : forall path, (length (split_path path) <= S (length path))%nat.
Proof.
  induction path as [|c rest IH]; simpl; [lia|].
  destruct (is_separator c); simpl; [lia|].
  destruct (split_path rest); simpl in *; lia.
Qed.

(** ** Paths an archive gives back *)

Lemma with_state_same : forall w,
  PakWriter.with_state w (PakWriter._rootItems w) (PakWriter._outputStream w) = w.
Proof. intros w. now destruct w. Qed.

Lemma paths_ok_step : forall P useHashIndex done a rest,
  paths_ok P useHashIndex (done ++ a :: rest) ->
  let k := key P useHashIndex (add_path a) in
  (forall d, In d (keys P useHashIndex done) -> ~ proper_prefix d k) /\
  Forall (fun name => if useHashIndex then length name = 8%nat
                      else Z.of_nat (length name) < INT32_MAX) k /\
  (length k <= Z.to_nat MaxDepth)%nat /\
  (useHashIndex = true -> ~ In k (keys P useHashIndex done)).
Proof.
  intros P uh done a rest Hok k. unfold paths_ok in Hok.
  assert (Ha : In a (done ++ a :: rest)) by (apply in_or_app; right; now left).
  destruct uh.
  - destruct Hok as [_ Hnodup]. unfold k, key, keys.
    split; [|split; [|split]].
    + intros d Hd (r & Hr & E). apply in_map_iff in Hd as (b & <- & _).
      destruct r; [contradiction|discriminate].
    + constructor; [apply length_le_bytes|constructor].
    + simpl. unfold MaxDepth. lia.
    + intros _ Hin. apply in_map_iff in Hin as (b & E & Hb).
      apply (f_equal (hd [])) in E. cbn [hd] in E.
      apply le_bytes_8_inj in E; try apply FileNameToHash_range.
      rewrite map_app in Hnodup. apply NoDup_remove_2 in Hnodup.
      apply Hnodup. apply in_or_app. left.
      simpl. rewrite <- E. apply in_map_iff. now exists b.
  - destruct Hok as [Heach Hfree]. destruct (Heach a Ha) as (Hnames & Hdepth & Hlength).
    unfold k, key, keys. split; [|split; [|split]].
    + intros d Hd. apply in_map_iff in Hd as (b & <- & Hb).
      apply Hfree; [apply in_or_app; now left|exact Ha].
    + apply Forall_forall. intros name Hin.
      apply split_path_lengths in Hin.
      pose proof (length_trimmedPrefix (add_path a)). lia.
    + exact Hdepth.
    + discriminate.
Qed.

(** The invariant after a run of calls that all returned [true]. *)
Lemma AddFiles_invariant : forall P rest done w written,
  all_added P w rest = true ->
  PakWriter._outputStream w = Some (mkFileStream true written) ->
  writer_invariant P (PakWriter._useHashIndex w) done (PakWriter._rootItems w) written ->
  paths_ok P (PakWriter._useHashIndex w) (done ++ rest) ->
  exists items' written',
    AddFiles P w rest = PakWriter.with_state w items' (Some (mkFileStream true written')) /\
    writer_invariant P (PakWriter._useHashIndex w) (done ++ rest) items' written'.
Proof.
  intros P. induction rest as [|a rest IH]; intros done w written Hall Hout Hinv Hok.
  - exists (PakWriter._rootItems w), written. rewrite app_nil_r. split; [|exact Hinv].
    simpl. rewrite <- Hout. symmetry. apply with_state_same.
  - simpl in Hall.
    destruct (PakWriter.AddFile P w (add_content a) (add_path a) (add_compression a))
      as [ok w'] eqn:Hadd.
    apply andb_true_iff in Hall as [-> Hall].
    destruct (paths_ok_step P _ done a rest Hok) as (Hfree & Hnames & Hdepth & Hnew).
    destruct (AddFile_invariant P w a w' done written Hadd Hout Hinv Hfree Hnames Hdepth Hnew)
      as (written' & Hout' & Hw' & Hinv').
    assert (Huh : PakWriter._useHashIndex w' = PakWriter._useHashIndex w)
      by (rewrite Hw'; reflexivity).
    destruct (IH (done ++ [a]) w' written' Hall Hout') as (items'' & written'' & Hfiles & Hinv'').
    { rewrite Huh. exact Hinv'. }
    { rewrite Huh, <- app_assoc. exact Hok. }
    exists items'', written''. split.
    + unfold AddFiles in *. simpl. rewrite Hadd. simpl. rewrite Hfiles, Hw'. reflexivity.
    + rewrite Huh, <- app_assoc in Hinv''. exact Hinv''.
Qed.

(** ** The finalized tree *)

Lemma finalized_names : forall P useHashIndex compressed file before after,
  finalized P useHashIndex compressed file before after ->
  map Name after = map Name before.
Proof.
  intros P uh cmp file before after H.
  induction H as [|item rest rest' Hfile _ IH
                 |item item' children rest rest' Hdir Hname _ _ _ _ _ _ _ _ IH]; simpl.
  - reflexivity.
  - now rewrite IH.
  - now rewrite IH, Hname.
Qed.

Lemma finalized_files : forall P useHashIndex compressed file before after x,
  finalized P useHashIndex compressed file before after ->
  In x before -> isDirectory x = false -> In x after.
Proof.
  intros P uh cmp file before after x H.
  induction H as [|item rest rest' Hfile _ IH
                 |item item' children rest rest' Hdir _ _ _ _ _ _ _ _ _ IH];
    intros Hin Hx.
  - destruct Hin.
  - destruct Hin as [<-|Hin]; [now left|right; now apply IH].
  - destruct Hin as [<-|Hin]; [congruence|right; now apply IH].
Qed.

Lemma finalized_directories : forall P useHashIndex compressed file before after y,
  finalized P useHashIndex compressed file before after ->
  In y before -> isDirectory y = true ->
  exists y' children,
    In y' after /\ Name y' = Name y /\
    finalized P useHashIndex compressed file (ChildItems y) children /\
    ChildItems y' = sort Name_less children.
Proof.
  intros P uh cmp file before after y H.
  induction H as [|item rest rest' Hfile _ IH
                 |item item' children rest rest' Hdir Hname _ _ _ _ Hc _ Hsort _ IH];
    intros Hin Hy.
  - destruct Hin.
  - destruct Hin as [<-|Hin]; [congruence|].
    destruct (IH Hin Hy) as (y' & c & Hy' & Hrest). exists y', c. split; [now right|exact Hrest].
  - destruct Hin as [<-|Hin].
    + exists item', children. split; [now left|]. split; [exact Hname|]. now split.
    + destruct (IH Hin Hy) as (y' & c & Hy' & Hrest). exists y', c. split; [now right|exact Hrest].
Qed.

Lemma length_sort : forall items, length (sort Name_less items) = length items.
Proof. intros items. apply Permutation_length. apply sort_Permutation. Qed.

Lemma finalized_length : forall P useHashIndex compressed file before after,
  finalized P useHashIndex compressed file before after -> length after = length before.
Proof.
  intros P uh cmp file before after H. apply finalized_names in H.
  apply (f_equal (@length _)) in H. now rewrite !length_map in H.
Qed.

(** *** The finalized tree can be read back *)

Lemma readable_single : forall P useHashIndex compressed file n items,
  readable P useHashIndex compressed file (S n) items <->
  Forall (fun item => readable P useHashIndex compressed file (S n) [item]) items.
Proof.
  intros P uh cmp file n items. split.
  - remember (S n) as m eqn:Hm. intros H.
    induction H as [m|m item rest Hfile Hleaf _ IH
                   |m item rest Hdir Hoff Hblock Hwf Hlen Hc _ _ IH].
    + constructor.
    + constructor; [|now apply IH]. apply readable_file; [assumption|assumption|constructor].
    + constructor; [|now apply IH]. apply readable_dir; try assumption. constructor.
  - induction 1 as [|item rest Hitem _ IH]; [constructor|].
    inversion Hitem; subst.
    + apply readable_file; assumption.
    + apply readable_dir; assumption.
Qed.

Lemma readable_Permutation : forall P useHashIndex compressed file n items items',
  Forall (fun item => readable P useHashIndex compressed file n [item]) items ->
  Permutation items items' ->
  readable P useHashIndex compressed file n items'.
Proof.
  intros P uh cmp file n items items' H Hperm. destruct n as [|n].
  - destruct items as [|x items].
    + apply Permutation_nil in Hperm. subst. constructor.
    + inversion H as [|? ? Hx _]; subst. inversion Hx.
  - apply readable_single. revert H. apply Permutation_Forall. exact Hperm.
Qed.

Lemma block_at_range : forall file offset block,
  block_at file offset block -> 0 <= offset <= Z.of_nat (length file).
Proof.
  intros file offset block (before & after & -> & <-). rewrite length_app. lia.
Qed.

Lemma describable_wf_item : forall useHashIndex item item',
  describable useHashIndex item ->
  Name item' = Name item -> Flags item' = Flags item ->
  UncompressedSize item' = UncompressedSize item -> Size item' = Size item ->
  0 <= Offset item' < 2 ^ 64 ->
  wf_item useHashIndex item'.
Proof.
  intros uh item item' H Hname Hflags Hu Hs Hoff.
  unfold describable, wf_item, isDirectory in *. simpl in H.
  rewrite Hname, Hflags, Hu, Hs. tauto.
Qed.

Lemma finalized_readable : forall P useHashIndex compressed file before after,
  finalized P useHashIndex compressed file before after ->
  Z.of_nat (length file) < 2 ^ 63 ->
  forall n N,
  Z.of_nat N < 2 ^ 32 ->
  levels_le n before ->
  files_are_leaves before ->
  Forall_tree (describable useHashIndex) before ->
  Forall_tree (fun x => 0 <= Offset x <= Z.of_nat (length file)) before ->
  Forall_tree (fun x => (length (ChildItems x) <= N)%nat) before ->
  Forall (fun item => readable P useHashIndex compressed file n [item]) after /\
  Forall (wf_item useHashIndex) after.
Proof.
  intros P uh cmp file before after H Hfile.
  assert (H63 : 2 ^ 63 < 2 ^ 64) by reflexivity.
  induction H as [|item rest rest' Hf _ IH
                 |item item' children rest rest' Hdir Hname Hflags Hu Hs Hblock Hfc IHc Hsort _ IH];
    intros n N HN Hlevels Hleaves Hdesc Hoffs Hlens.
  - split; constructor.
  - inversion Hlevels as [|m ? ? Hlc Hlr]; subst.
    inversion Hleaves as [|? ? Hleaf _ Hleavesr]; subst.
    inversion Hdesc as [|? ? Hd _ Hdescr]; subst.
    inversion Hoffs as [|? ? Ho _ Hoffsr]; subst.
    inversion Hlens as [|? ? _ _ Hlensr]; subst.
    destruct (IH (S m) N HN Hlr Hleavesr Hdescr Hoffsr Hlensr) as [Hr Hw].
    split; constructor; try assumption.
    + apply readable_file; [exact Hf|now apply Hleaf|constructor].
    + apply (describable_wf_item uh item item Hd); try reflexivity. lia.
  - inversion Hlevels as [|m ? ? Hlc Hlr]; subst.
    inversion Hleaves as [|? ? _ Hleavesc Hleavesr]; subst.
    inversion Hdesc as [|? ? Hd Hdescc Hdescr]; subst.
    inversion Hoffs as [|? ? _ Hoffsc Hoffsr]; subst.
    inversion Hlens as [|? ? Hlen Hlensc Hlensr]; subst.
    destruct (IH (S m) N HN Hlr Hleavesr Hdescr Hoffsr Hlensr) as [Hr Hw].
    destruct (IHc m N HN Hlc Hleavesc Hdescc Hoffsc Hlensc) as [Hrc Hwc].
    pose proof (block_at_range _ _ _ Hblock) as Hrange.
    split; constructor; try assumption.
    + apply readable_dir.
      * unfold isDirectory in *. now rewrite Hflags.
      * lia.
      * exact Hblock.
      * rewrite Hsort. revert Hwc. apply Permutation_Forall. symmetry. apply sort_Permutation.
      * rewrite Hsort, length_sort, (finalized_length _ _ _ _ _ _ Hfc). lia.
      * rewrite Hsort. apply (readable_Permutation _ _ _ _ _ children); [exact Hrc|].
        symmetry. apply sort_Permutation.
      * constructor.
    + apply (describable_wf_item uh item item' Hd); try assumption. lia.
Qed.

(** *** Files can be looked up in the finalized tree *)

Lemma resolves_through_directory : forall items dir names item,
  files_are_leaves items -> In dir items -> resolves (ChildItems dir) names item ->
  isDirectory dir = true.
Proof.
  intros items dir names item Hleaves Hin Hr.
  destruct (isDirectory dir) eqn:E; [reflexivity|]. exfalso.
  destruct (Forall_tree_In _ _ _ Hleaves Hin) as [Hleaf _].
  rewrite (Hleaf E) in Hr. now apply resolves_nil in Hr.
Qed.

Lemma finalized_reaches : forall P useHashIndex compressed file before names x,
  resolves before names x ->
  isDirectory x = false ->
  forall after,
  finalized P useHashIndex compressed file before after ->
  unique_names before -> files_are_leaves before ->
  reaches (sort Name_less after) names x.
Proof.
  intros P uh cmp file before names x Hr Hx.
  induction Hr as [items item Hin|items dir names item Hin Hr IH];
    intros after Hfin [Hunique Huniquec] Hleaves.
  - apply reaches_last.
    + apply sort_sorted_strictly. rewrite (finalized_names _ _ _ _ _ _ Hfin). exact Hunique.
    + apply (Permutation_in (l := after)); [symmetry; apply sort_Permutation|].
      now apply (finalized_files _ _ _ _ _ _ _ Hfin).
  - pose proof (resolves_through_directory _ _ _ _ Hleaves Hin Hr) as Hdir.
    destruct (finalized_directories _ _ _ _ _ _ _ Hfin Hin Hdir)
      as (dir' & children & Hin' & Hname & Hfc & Hsort).
    rewrite <- Hname. apply reaches_step.
    + apply sort_sorted_strictly. rewrite (finalized_names _ _ _ _ _ _ Hfin). exact Hunique.
    + apply (Permutation_in (l := after)); [symmetry; apply sort_Permutation|exact Hin'].
    + rewrite Hsort. apply IH; [exact Hx|exact Hfc| |].
      * split; apply (Forall_tree_In _ _ _ Huniquec Hin).
      * apply (Forall_tree_In _ _ _ Hleaves Hin).
Qed.

Lemma resolves_holds_file : forall items names x,
  resolves items names x -> isDirectory x = false -> files_are_leaves items ->
  holds_file items.
Proof.
  intros items names x Hr Hx.
  induction Hr as [items item Hin|items dir names item Hin Hr IH]; intros Hleaves.
  - clear Hleaves. induction items as [|y rest IHi]; [destruct Hin|].
    destruct Hin as [->|Hin]; [now apply holds_file_here|apply holds_file_later; now apply IHi].
  - pose proof (resolves_through_directory _ _ _ _ Hleaves Hin Hr) as Hdir.
    assert (Hc : holds_file (ChildItems dir)).
    { apply IH; [exact Hx|]. apply (Forall_tree_In _ _ _ Hleaves Hin). }
    clear - Hin Hdir Hc. induction items as [|y rest IHi]; [destruct Hin|].
    destruct Hin as [->|Hin]; [now apply holds_file_below|apply holds_file_later; now apply IHi].
Qed.

(** ** Opening the archive *)

Lemma readable_directory : forall P useHashIndex compressed file n items item,
  readable P useHashIndex compressed file (S n) items ->
  In item items -> isDirectory item = true ->
  exists left,
    0 <= Offset item < 2 ^ 63 /\
    stream_at file (mkStream file (Offset item))
      (PakWriter.index_block P useHashIndex compressed [] (ChildItems item) ++ left) /\
    Forall (wf_item useHashIndex) (ChildItems item) /\
    Z.of_nat (length (ChildItems item)) < 2 ^ 32 /\
    readable P useHashIndex compressed file n (ChildItems item).
Proof.
  intros P uh cmp file n items item Hr Hin Hdir. remember (S n) as m eqn:Hm.
  induction Hr as [m|m x rest Hfile Hleaf _ IHr
                  |m x rest Hd Hoff Hblock Hwf Hlen Hch _ _ IHr].
  - destruct Hin.
  - destruct Hin as [<-|Hin]; [congruence|apply IHr; assumption].
  - destruct Hin as [<-|Hin]; [|apply IHr; assumption].
    injection Hm as ->.
    destruct (stream_at_offset _ _ _ Hblock) as (after & Hat).
    exists after. split; [exact Hoff|]. split; [exact Hat|].
    split; [exact Hwf|]. split; [exact Hlen|exact Hch].
Qed.

Lemma ConstructsItemsFromIndex_root_budget : forall P useHashIndex compressed file,
  codecs_round_trip P ->
  (compressed = true -> WITH_ZLIB P = true) ->
  forall budget n items left mountPoint s,
  MaxDepth - 1 <= Z.of_nat budget -> Z.of_nat n + 1 <= MaxDepth ->
  readable P useHashIndex compressed file (S n) items ->
  Forall (wf_item useHashIndex) items ->
  Z.of_nat (length items) < 2 ^ 32 ->
  Z.of_nat (length mountPoint) < INT16_MAX ->
  stream_at file s
    (PakWriter.index_block P useHashIndex compressed (mount_point_header mountPoint) items
     ++ left) ->
  exists s',
    PakFile.ConstructsItemsFromIndex P (S budget) useHashIndex s true compressed 0 [] []
      = (s', mount_point_read P mountPoint, items).
Proof.
  intros P uh cmp file Hcodec Hzlib budget n items left mp s Hbudget Hn Hr Hwf Hlen Hmp Hs.
  cbn [PakFile.ConstructsItemsFromIndex].
  change (0 <? MaxDepth) with true. branch.
  destruct (read_root_index_block P file uh cmp items s left mp [] [] Hcodec Hzlib Hwf Hlen Hmp Hs)
    as (s1 & E1 & Hs1).
  rewrite E1.
  destruct (ConstructsItemsFromIndex_each_readable P uh cmp file
              (fun s item =>
                 let '(s, _, children) :=
                   PakFile.ConstructsItemsFromIndex P budget uh s false cmp (0 + 1)
                     (mount_point_read P mp) (ChildItems item) in (s, children))
              n items s1 Hr Hs1) as (s2 & E2 & Hs2).
  { intros item Hin Hdir.
    destruct (readable_directory _ _ _ _ _ _ _ Hr Hin Hdir)
      as (left' & Hoff & Hat & Hwf' & Hlen' & Hr').
    change (ChildItems (strip item)) with (@nil Item).
    destruct (ConstructsItemsFromIndex_readable P uh cmp file Hcodec Hzlib budget n (0 + 1)
                (ChildItems item) left' (mount_point_read P mp)
                ltac:(lia) ltac:(lia) ltac:(lia)
                Hr' Hwf' Hlen' _ Hat) as (s' & E & Hs').
    rewrite E. exists s'. split; [reflexivity|exact Hs']. }
  rewrite E2. exists s2. reflexivity.
Qed.

(** The root index and everything below it, read by the constructor. *)
Lemma ConstructsItemsFromIndex_root_readable : forall P useHashIndex compressed file,
  codecs_round_trip P ->
  (compressed = true -> WITH_ZLIB P = true) ->
  forall items left mountPoint s,
  readable P useHashIndex compressed file (Z.to_nat MaxDepth) items ->
  Forall (wf_item useHashIndex) items ->
  Z.of_nat (length items) < 2 ^ 32 ->
  Z.of_nat (length mountPoint) < INT16_MAX ->
  stream_at file s
    (PakWriter.index_block P useHashIndex compressed (mount_point_header mountPoint) items
     ++ left) ->
  exists s',
    PakFile.ConstructsItemsFromIndex P (Z.to_nat MaxDepth) useHashIndex s true compressed 0 [] []
      = (s', mount_point_read P mountPoint, items).
Proof.
  intros P uh cmp file Hcodec Hzlib items left mp s Hr Hwf Hlen Hmp Hs.
  change (Z.to_nat MaxDepth) with (S 63) in *.
  apply (ConstructsItemsFromIndex_root_budget P uh cmp file Hcodec Hzlib 63 63 items left mp s);
    try assumption; unfold MaxDepth; lia.
Qed.

(** *** The footer of a written archive *)

Lemma length_footer_written : forall useHashIndex compressed offset,
  length (footer_written useHashIndex compressed offset) = 16%nat.
Proof. reflexivity. Qed.

Lemma footer_of_written : forall body useHashIndex compressed offset,
  footer (body ++ footer_written useHashIndex compressed offset)
  = footer_written useHashIndex compressed offset.
Proof.
  intros body uh cmp offset. unfold footer.
  rewrite length_app, length_footer_written.
  change (Z.to_nat FooterSize) with 16%nat.
  replace (length body + 16 - 16)%nat with (length body + 0)%nat by lia.
  rewrite skipn_app, Nat.add_0_r, skipn_all.
  replace (length body - length body)%nat with 0%nat by lia. reflexivity.
Qed.

Lemma footer_written_valid : forall body useHashIndex compressed offset,
  let file := body ++ footer_written useHashIndex compressed offset in
  0 <= offset < Z.of_nat (length file) ->
  8 < Z.of_nat (length body) ->
  Z.of_nat (length file) < 2 ^ 63 ->
  footer_valid (Some file) = true /\
  footer_rootIndexOffset file = offset /\
  has_flag (footer_flags file) PakFileFlags_HashIndex = useHashIndex /\
  has_flag (footer_flags file) PakFileFlags_DeflateCompressedIndex = compressed.
Proof.
  intros body uh cmp offset file Hoffset Hbody Hfile.
  assert (H63 : 2 ^ 63 < 2 ^ 64) by reflexivity.
  assert (Eoffset : footer_rootIndexOffset file = offset).
  { unfold footer_rootIndexOffset, file. rewrite footer_of_written.
    change (firstn 8 (skipn 8 (footer_written uh cmp offset)))
      with (le_bytes 8 (to_uint64 offset)).
    rewrite le_value_le_bytes. change (256 ^ Z.of_nat 8) with (2 ^ 64).
    unfold to_uint64. rewrite Z.mod_mod by lia. apply Z.mod_small. lia. }
  assert (Eflags : footer_flags file = footer_flags_written uh cmp).
  { unfold footer_flags, file. rewrite footer_of_written. now destruct uh, cmp. }
  split; [|split; [exact Eoffset|rewrite Eflags; split; now destruct uh, cmp]].
  unfold footer_valid. rewrite Eoffset.
  unfold footer_signature, footer_version. fold file.
  unfold file at 2 3. rewrite footer_of_written. fold file.
  replace (Z.of_nat (length file) >? FooterSize + 8) with true.
  2:{ symmetry. apply Z.gtb_lt. unfold file. rewrite length_app, length_footer_written.
      unfold FooterSize. lia. }
  replace (offset <? to_uint64 (Z.of_nat (length file))) with true.
  2:{ symmetry. apply Z.ltb_lt. unfold to_uint64. rewrite Z.mod_small; lia. }
  reflexivity.
Qed.

Lemma DeflateWriter_not_nil : forall P x,
  codecs_round_trip P -> DeflateWriter P x <> [].
Proof.
  intros P x Hcodec Hnil.
  pose proof (deflate_round_trip P Hcodec x (DeflateWriter P (0 :: x))) as H1.
  pose proof (deflate_round_trip P Hcodec (0 :: x) []) as H2.
  rewrite Hnil in H1. simpl in H1. rewrite app_nil_r in H2.
  rewrite H1 in H2. apply (f_equal (@length Z)) in H2. simpl in H2. lia.
Qed.

Lemma index_block_not_nil : forall P useHashIndex compressed header items,
  codecs_round_trip P ->
  PakWriter.index_block P useHashIndex compressed header items <> [].
Proof.
  intros P uh cmp header items Hcodec. unfold PakWriter.index_block.
  destruct cmp; [now apply DeflateWriter_not_nil|].
  intros H. apply (f_equal (@length Z)) in H. rewrite !length_app in H.
  unfold WriteVariableUint32 in H. cbn [WriteVariableUint] in H.
  destruct (_ <? 128); simpl in H; lia.
Qed.

(** The constructor on an archive that ends with a root index and the
    footer for it. *)
Lemma PakFile_new_written : forall P path useHashIndex compressed file0 mountPoint items,
  codecs_round_trip P ->
  (compressed = true -> WITH_ZLIB P = true) ->
  let file := file0
              ++ PakWriter.index_block P useHashIndex compressed
                   (mount_point_header mountPoint) items
              ++ footer_written useHashIndex compressed (Z.of_nat (length file0)) in
  Z.of_nat (length file) < 2 ^ 63 ->
  8 <= Z.of_nat (length file0) ->
  readable P useHashIndex compressed file (Z.to_nat MaxDepth) items ->
  Forall (wf_item useHashIndex) items ->
  Z.of_nat (length items) < 2 ^ 32 ->
  Z.of_nat (length mountPoint) < INT16_MAX ->
  PakFile.new P path (Some file) = PakFile.mk path (mount_point_read P mountPoint) useHashIndex items.
Proof.
  intros P path uh cmp file0 mp items Hcodec Hzlib file Hfile Hfile0 Hr Hwf Hlen Hmp.
  set (block := PakWriter.index_block P uh cmp (mount_point_header mp) items) in *.
  assert (Efile : file = (file0 ++ block) ++ footer_written uh cmp (Z.of_nat (length file0)))
    by (unfold file; now rewrite app_assoc).
  assert (Hlength : Z.of_nat (length file0) < Z.of_nat (length file)).
  { rewrite Efile, !length_app, length_footer_written. lia. }
  assert (Hblock : (0 < length block)%nat).
  { pose proof (index_block_not_nil P uh cmp (mount_point_header mp) items Hcodec) as Hne.
    fold block in Hne. destruct block; [contradiction|simpl; lia]. }
  destruct (footer_written_valid (file0 ++ block) uh cmp (Z.of_nat (length file0)))
    as (Hvalid & Hoffset & Hhash & Hdeflate); rewrite <- ?Efile.
  { lia. }
  { rewrite length_app. lia. }
  { exact Hfile. }
  rewrite <- Efile in Hvalid, Hoffset, Hhash, Hdeflate.
  rewrite new_footer, Hvalid, Hoffset, Hhash, Hdeflate.
  rewrite to_int64_small by lia.
  unfold Seek_Begin. replace (Z.of_nat (length file0) <? 0) with false
    by (symmetry; apply Z.ltb_ge; lia).
  simpl bytes_of.
  assert (Hat : stream_at file (mkStream file (Z.of_nat (length file0)))
                  (block ++ footer_written uh cmp (Z.of_nat (length file0)))).
  { unfold stream_at, remaining. simpl. split; [reflexivity|]. split; [lia|].
    rewrite Nat2Z.id. unfold file. rewrite skipn_app, skipn_all, Nat.sub_diag. reflexivity. }
  destruct (ConstructsItemsFromIndex_root_readable P uh cmp file Hcodec Hzlib items _ mp _
              Hr Hwf Hlen Hmp Hat) as (s' & E).
  rewrite E. reflexivity.
Qed.

(** *** Opening a stored file *)

Lemma BoundedFileStream_block : forall file offset block,
  block_at file offset block ->
  PakFile.BoundedFileStream file offset (Z.of_nat (length block)) = block.
Proof.
  intros file offset block (before & after & -> & <-).
  unfold PakFile.BoundedFileStream. rewrite !Nat2Z.id.
  rewrite skipn_app, skipn_all, Nat.sub_diag. simpl.
  rewrite firstn_app, firstn_all, Nat.sub_diag. simpl. apply app_nil_r.
Qed.

Lemma OpenFile_stored : forall P steps pak file path tail name content pc offset,
  codecs_round_trip P ->
  PakFile.FindItem P steps pak path tail = Some (Some (file_item P name content pc offset)) ->
  empty_or_ends_with_separator path = false ->
  block_at file offset (snd (encoding P pc content)) ->
  PakFile.FileExists P steps pak path tail = Some true /\
  PakFile.OpenFile P steps pak file path tail
    = Some (Some (PakFile.mkOpened (Z.of_nat (length content)) content)).
Proof.
  intros P steps pak file path tail name content pc offset Hcodec Hfind Hends Hblock.
  unfold PakFile.FileExists, PakFile.OpenFile. rewrite Hends, Hfind.
  rewrite file_item_is_file. split; [reflexivity|].
  apply BoundedFileStream_block in Hblock.
  unfold file_item, encoding, stored_size in *. cbn [Flags Offset UncompressedSize Size].
  unfold PakFile.CompressedBoundedStream.
  destruct Hcodec as [Hdeflate Hlz4 Hzstd].
  destruct pc.
  - exact (f_equal (fun x => Some (Some (PakFile.mkOpened _ x))) Hblock).
  - destruct (WITH_ZLIB P) eqn:E; cbn [fst snd] in *.
    + change (has_flag ItemFlags_DeflateCompressed ItemFlags_DeflateCompressed) with true.
      cbv beta iota. rewrite Hblock.
      rewrite <- (app_nil_r (DeflateWriter P content)), Hdeflate. reflexivity.
    + exact (f_equal (fun x => Some (Some (PakFile.mkOpened _ x))) Hblock).
  - destruct (WITH_LZ4 P) eqn:E; cbn [fst snd] in *.
    + change (has_flag ItemFlags_Lz4Compressed ItemFlags_DeflateCompressed) with false.
      change (has_flag ItemFlags_Lz4Compressed ItemFlags_Lz4Compressed) with true.
      cbv beta iota. rewrite Hblock, Hlz4. reflexivity.
    + exact (f_equal (fun x => Some (Some (PakFile.mkOpened _ x))) Hblock).
  - destruct (WITH_ZSTD P) eqn:E; cbn [fst snd] in *.
    + change (has_flag ItemFlags_ZstdCompressed ItemFlags_DeflateCompressed) with false.
      change (has_flag ItemFlags_ZstdCompressed ItemFlags_Lz4Compressed) with false.
      change (has_flag ItemFlags_ZstdCompressed ItemFlags_ZstdCompressed) with true.
      cbv beta iota. rewrite Hblock, Hzstd. reflexivity.
    + exact (f_equal (fun x => Some (Some (PakFile.mkOpened _ x))) Hblock).
Qed.

(** ** From the writer to the reader *)

Lemma writer_invariant_new : forall P useHashIndex,
  writer_invariant P useHashIndex [] [] OptionalHeader.
Proof.
  intros P uh. constructor; try (constructor; fail).
  - intros p x H. now apply resolves_nil in H.
  - intros a [].
  - split; [simpl; lia|constructor].
  - split; constructor.
  - simpl. lia.
Qed.

(** The archive [Finalize] writes after additions that all returned
    [true], and what the constructor makes of it. *)
Lemma Finalize_AddFiles : forall P existing useHashIndex useCompressedIndex mountPoint additions a,
  codecs_round_trip P ->
  let w0 := PakWriter.SetMountPoint
              (PakWriter.new existing true useHashIndex useCompressedIndex) mountPoint in
  all_added P w0 additions = true ->
  paths_ok P useHashIndex additions ->
  Z.of_nat (length additions) < 2 ^ 32 ->
  Z.of_nat (length mountPoint) < INT16_MAX ->
  In a additions ->
  exists items written root1 more rest,
    writer_invariant P useHashIndex additions items written /\
    finalized P useHashIndex (WITH_ZLIB P && useCompressedIndex) (written ++ more) items root1 /\
    PakWriter._rootItems (PakWriter.Finalize P (AddFiles P w0 additions))
      = sort Name_less root1 /\
    PakWriter.file_on_disk (PakWriter.Finalize P (AddFiles P w0 additions))
      = Some ((written ++ more) ++ rest) /\
    (Z.of_nat (length ((written ++ more) ++ rest)) < 2 ^ 63 ->
     forall pakPath,
     PakFile.new P pakPath (Some ((written ++ more) ++ rest))
     = PakFile.mk pakPath (mount_point_read P mountPoint) useHashIndex (sort Name_less root1)).
Proof.
  intros P existing uh uc mp additions a Hcodec w0 Hall Hok Hcount Hmp Hin.
  destruct (AddFiles_invariant P additions [] w0 OptionalHeader Hall eq_refl
              (writer_invariant_new P uh) Hok) as (items & written & Hw & Hinv).
  simpl in Hinv.
  set (w := AddFiles P w0 additions) in *.
  destruct (inv_stored _ _ _ _ _ Hinv a Hin) as (offset & Hresolves & _).
  assert (Hholds : holds_file items).
  { eapply resolves_holds_file; [exact Hresolves|apply file_item_is_file|].
    apply (inv_leaves _ _ _ _ _ Hinv). }
  destruct (Finalize_spec P w written) as (root1 & more & Hfinalized & Hroot & Hfile).
  { rewrite Hw. reflexivity. }
  { rewrite Hw. reflexivity. }
  { rewrite Hw. exact Hholds. }
  { rewrite Hw. exact Hmp. }
  assert (Euh : PakWriter._useHashIndex w = uh) by (rewrite Hw; reflexivity).
  assert (Euc : PakWriter._useCompressedIndex w = uc) by (rewrite Hw; reflexivity).
  assert (Emp : PakWriter._mountPoint w = mp) by (rewrite Hw; reflexivity).
  assert (Eitems : PakWriter._rootItems w = items) by (rewrite Hw; reflexivity).
  rewrite Euh, Euc, Eitems in Hfinalized. rewrite Euh, Euc, Emp in Hfile.
  set (cmp := WITH_ZLIB P && uc) in *.
  exists items, written, root1, more,
    (PakWriter.index_block P uh cmp (mount_point_header mp) (sort Name_less root1)
     ++ footer_written uh cmp (Z.of_nat (length (written ++ more)))).
  split; [exact Hinv|]. split; [exact Hfinalized|]. split; [exact Hroot|].
  split; [exact Hfile|].
  intros Hsize pakPath.
  set (file := (written ++ more) ++ _) in *.
  assert (Hzlib : cmp = true -> WITH_ZLIB P = true).
  { unfold cmp. intros H. now apply andb_true_iff in H. }
  destruct (finalized_readable P uh cmp file items root1
              (finalized_app _ _ _ _ _ _ _ Hfinalized) Hsize
              (Z.to_nat MaxDepth) (length additions) Hcount
              (inv_levels _ _ _ _ _ Hinv) (inv_leaves _ _ _ _ _ Hinv)
              (inv_described _ _ _ _ _ Hinv)) as [Hreadable Hwf].
  { eapply Forall_tree_impl; [|exact (inv_offsets _ _ _ _ _ Hinv)].
    intros x Hx. simpl in Hx |- *. unfold file. rewrite !length_app. lia. }
  { apply (inv_within _ _ _ _ _ Hinv). }
  unfold file.
  apply PakFile_new_written; try assumption.
  - pose proof (inv_header _ _ _ _ _ Hinv). rewrite length_app. lia.
  - fold file.
    apply (readable_Permutation _ _ _ _ _ root1); [exact Hreadable|].
    symmetry. apply sort_Permutation.
  - revert Hwf. apply Permutation_Forall. symmetry. apply sort_Permutation.
  - rewrite length_sort, (finalized_length _ _ _ _ _ _ Hfinalized).
    destruct (inv_within _ _ _ _ _ Hinv) as [Hlen _]. lia.
Qed.

Lemma finalized_name_lengths : forall P useHashIndex compressed file before after,
  finalized P useHashIndex compressed file before after ->
  Forall_tree (describable true) before ->
  Forall (fun y => length (Name y) = 8%nat) (sort Name_less after).
Proof.
  intros P uh cmp file before after Hfin Hdesc.
  apply Forall_forall. intros y Hy.
  apply (Permutation_in (l' := after)) in Hy; [|apply sort_Permutation].
  apply (in_map Name) in Hy. rewrite (finalized_names _ _ _ _ _ _ Hfin) in Hy.
  apply in_map_iff in Hy as (y0 & <- & Hy0).
  destruct (Forall_tree_In _ _ _ Hdesc Hy0) as [Hd _].
  unfold describable, wf_item in Hd. simpl in Hd. tauto.
Qed.

Lemma FindItem_stored : forall P pakPath mountPoint useHashIndex items a record steps tail,
  reaches items (key P useHashIndex (add_path a)) record ->
  paths_ok P useHashIndex [a] ->
  (useHashIndex = true -> Forall (fun y => length (Name y) = 8%nat) items) ->
  (length (add_path a) < steps)%nat ->
  (useHashIndex = false -> tail = []) ->
  PakFile.FindItem P steps (PakFile.mk pakPath mountPoint useHashIndex items) (add_path a) tail
  = Some (Some record).
Proof.
  intros P pakPath mp uh items a record steps tail Hreaches Hok Hlen Hsteps Htail.
  destruct uh; unfold key, paths_ok in *.
  - destruct Hok as [Htrim _]. specialize (Htrim a (or_introl eq_refl)).
    remember [le_bytes 8 (FileNameToHash P (add_path a))] as names eqn:Enames.
    destruct Hreaches as [its x Hsorted Hin|its dir names x _ _ Hbelow].
    + apply FindItem_hash_reaches; [exact Hsorted|exact Hin|now apply Hlen|].
      rewrite Htrim. apply (f_equal (hd [])) in Enames. exact Enames.
    + apply (f_equal (@tl _)) in Enames. simpl in Enames. subst names.
      exfalso. now apply (reaches_not_nil _ _ _ Hbelow).
  - destruct Hok as [Heach _]. destruct (Heach a (or_introl eq_refl)) as (Hnames & _ & _).
    rewrite (Htail eq_refl). unfold PakFile.FindItem. simpl.
    apply (FindItem_loop_reaches _ _ _ Hreaches Hnames); [reflexivity|].
    pose proof (length_split_path (trimmedPrefix (add_path a))).
    pose proof (length_trimmedPrefix (add_path a)). lia.
Qed.

Lemma paths_ok_In : forall P useHashIndex additions a,
  paths_ok P useHashIndex additions -> In a additions -> paths_ok P useHashIndex [a].
Proof.
  intros P uh additions a Hok Hin. destruct uh; unfold paths_ok in *.
  - destruct Hok as [Htrim _]. split.
    + intros b [<-|[]]. now apply Htrim.
    + simpl. constructor; [intros []|constructor].
  - destruct Hok as [Heach Hfree]. split.
    + intros b [<-|[]]. now apply Heach.
    + intros b c [<-|[]] [<-|[]]. now apply Hfree.
Qed.

(** C1, amended.  Round trip: let the codecs of the platform give back
    what they were fed, and let a writer whose file could be opened take
    a mount point shorter than [INT16_MAX] and then fewer than 2^32 files,
    every [AddFile] returning [true].  In tree mode let no path have an
    empty component, more than [MaxDepth] components or [INT32_MAX]
    characters, and let none name as a directory what another names as a
    file; in flat mode let no path begin with a separator and no two have
    the same hash.  Then [Finalize] writes an archive, and if that is
    shorter than 2^63 bytes a [PakFile] constructed over it reports
    [FileExists] for every added path and [OpenFile] yields a stream of
    the length and with the bytes of the original content, at any depth
    of nesting and with any preferred compression; in tree mode, where
    [FindItem] reads the C string that follows the view of the path in
    its buffer ([tail]), for a view that ends at the terminator of its
    buffer. *)
Theorem AddFile_Finalize_round_trip : forall P existing useHashIndex useCompressedIndex mountPoint additions a pakPath steps tail,
  codecs_round_trip P ->
  all_added P (opened_writer existing useHashIndex useCompressedIndex mountPoint) additions
    = true ->
  paths_ok P useHashIndex additions ->
  Z.of_nat (length additions) < 2 ^ 32 ->
  Z.of_nat (length mountPoint) < INT16_MAX ->
  In a additions ->
  (length (add_path a) < steps)%nat ->
  (useHashIndex = false -> tail = []) ->
  exists file,
    PakWriter.file_on_disk
      (PakWriter.Finalize P
         (AddFiles P (opened_writer existing useHashIndex useCompressedIndex mountPoint)
                   additions)) = Some file /\
    (Z.of_nat (length file) < 2 ^ 63 ->
     PakFile.FileExists P steps (PakFile.new P pakPath (Some file)) (add_path a) tail
       = Some true /\
     PakFile.OpenFile P steps (PakFile.new P pakPath (Some file)) file (add_path a) tail
       = Some (Some (PakFile.mkOpened (Z.of_nat (length (add_content a))) (add_content a)))).
Proof.
  intros P existing uh uc mp additions a pakPath steps tail Hcodec Hall Hok Hcount Hmp Hin Hsteps
    Htail.
  destruct (Finalize_AddFiles P existing uh uc mp additions a Hcodec Hall Hok Hcount Hmp Hin)
    as (items & written & root1 & more & rest & Hinv & Hfinalized & _ & Hfile & Hnew).
  exists ((written ++ more) ++ rest). split; [exact Hfile|].
  intros Hsize. rewrite (Hnew Hsize pakPath).
  destruct (inv_stored _ _ _ _ _ Hinv a Hin) as (offset & Hresolves & Hblock & _ & Hends).
  assert (Hreaches : reaches (sort Name_less root1) (key P uh (add_path a))
                       (stored_record P uh a offset)).
  { apply (finalized_reaches _ _ _ _ _ _ _ Hresolves (file_item_is_file _ _ _ _ _)
             root1 Hfinalized (inv_unique _ _ _ _ _ Hinv) (inv_leaves _ _ _ _ _ Hinv)). }
  apply (OpenFile_stored P steps _ _ (add_path a) tail
           (last (key P uh (add_path a)) []) (add_content a) (add_compression a) offset Hcodec).
  - apply FindItem_stored;
      [exact Hreaches|now apply (paths_ok_In P uh additions)| |exact Hsteps|exact Htail].
    intros ->. apply (finalized_name_lengths _ _ _ _ _ _ Hfinalized).
    apply (inv_described _ _ _ _ _ Hinv).
  - exact Hends.
  - rewrite <- app_assoc. apply block_at_app. exact Hblock.
Qed.

(** ** The order Finalize leaves *)

Lemma Finalize_sorts : forall P w written file,
  PakWriter._finalized w = false ->
  PakWriter._outputStream w = Some (mkFileStream true written) ->
  PakWriter._alreadyExisted w = false ->
  PakWriter.file_on_disk (PakWriter.Finalize P w) = Some file ->
  exists root1 more,
    finalized P (PakWriter._useHashIndex w) (WITH_ZLIB P && PakWriter._useCompressedIndex w)
      (written ++ more) (PakWriter._rootItems w) root1 /\
    PakWriter._rootItems (PakWriter.Finalize P w) = sort Name_less root1.
Proof.
  intros P w written file Hfin Hout Hexisted. unfold PakWriter.Finalize. rewrite Hfin, Hout.
  destruct (let (queued, hasFiles) := PakWriter.scan [] 0 (PakWriter._rootItems w) in
            PakWriter.collect (PakWriter.count_items (PakWriter._rootItems w))
              (PakWriter._rootItems w) queued hasFiles) as [queue hasFiles] eqn:Hqueue.
  destruct (Finalize_directories P (PakWriter._useHashIndex w)
              (WITH_ZLIB P && PakWriter._useCompressedIndex w) _ _ _ written Hqueue)
    as (root1 & more & Hwrite & Hfinalized).
  destruct (PakWriter.scan [] 0 (PakWriter._rootItems w)) as [queued files].
  rewrite Hqueue. cbv beta iota zeta.
  destruct hasFiles.
  - change (negb true) with false. cbv beta iota.
    unfold write_directories in Hwrite. rewrite Hwrite.
    intros _. exists root1, more. split; [exact Hfinalized|].
    now destruct (negb (Z.of_nat (length (PakWriter._mountPoint w)) <? INT16_MAX)).
  - simpl. rewrite Hexisted. discriminate.
Qed.

(** *** Sorted arrays *)

Lemma sorted_adjacent : forall (R : Item -> Item -> Prop) items i a b,
  StronglySorted R items ->
  nth_error items i = Some a -> nth_error items (S i) = Some b -> R a b.
Proof.
  intros R items i a b Hs Ha Hb.
  apply (StronglySorted_nth_error R items i (S i) a b Hs); [lia|exact Ha|exact Hb].
Qed.

Lemma finalized_flags : forall P useHashIndex compressed file before after y,
  finalized P useHashIndex compressed file before after ->
  In y after ->
  (isDirectory y = false /\ In y before) \/
  (isDirectory y = true /\
   exists x children, In x before /\ Name y = Name x /\
     finalized P useHashIndex compressed file (ChildItems x) children /\
     ChildItems y = sort Name_less children).
Proof.
  intros P uh cmp file before after y H.
  induction H as [|item rest rest' Hfile _ IH
                 |item item' children rest rest' Hdir Hname Hflags _ _ _ Hc _ Hsort _ IH];
    intros Hin.
  - destruct Hin.
  - destruct Hin as [<-|Hin]; [left; split; [exact Hfile|now left]|].
    destruct (IH Hin) as [[Hf Hb]|(Hd & x & c & Hx & Hrest)].
    + left. split; [exact Hf|now right].
    + right. split; [exact Hd|]. exists x, c. split; [now right|exact Hrest].
  - destruct Hin as [<-|Hin].
    + right. split; [unfold isDirectory in *; now rewrite Hflags|].
      exists item, children. split; [now left|]. split; [exact Hname|]. now split.
    + destruct (IH Hin) as [[Hf Hb]|(Hd & x & c & Hx & Hrest)].
      * left. split; [exact Hf|now right].
      * right. split; [exact Hd|]. exists x, c. split; [now right|exact Hrest].
Qed.

Lemma Name_before_ltb : forall (useHashIndex : bool) a b,
  (useHashIndex = true -> length (Name a) = 8%nat /\ length (Name b) = 8%nat) ->
  Name_before useHashIndex a b = String_ltb (Name a) (Name b).
Proof.
  intros uh a b H. unfold Name_before. destruct uh; [|reflexivity].
  destruct (H eq_refl) as [Ha Hb]. now apply memcmp_ltb.
Qed.

Lemma sorted_ascending : forall (useHashIndex strict : bool) items,
  (useHashIndex = true -> Forall (fun name => length name = 8%nat) (map Name items)) ->
  StronglySorted (if strict then Name_lt else Name_le) items ->
  ascending useHashIndex strict items.
Proof.
  intros uh strict items Hlen Hs i a b Ha Hb.
  assert (Hab : uh = true -> length (Name a) = 8%nat /\ length (Name b) = 8%nat).
  { intros E. specialize (Hlen E). rewrite Forall_forall in Hlen.
    split; apply Hlen; apply in_map; eapply nth_error_In; eassumption. }
  pose proof (sorted_adjacent _ items i a b Hs Ha Hb) as H.
  destruct strict.
  - rewrite Name_before_ltb by exact Hab. exact H.
  - rewrite Name_before_ltb by (intros E; destruct (Hab E); now split). exact H.
Qed.

Lemma arrays_ascending_sort : forall (useHashIndex strict : bool) items,
  (strict = true -> NoDup (map Name items)) ->
  (useHashIndex = true -> Forall (fun name => length name = 8%nat) (map Name items)) ->
  (forall y, In y items -> isDirectory y = true ->
             arrays_ascending useHashIndex strict (ChildItems y)) ->
  arrays_ascending useHashIndex strict (sort Name_less items).
Proof.
  intros uh strict items Hnodup Hlen Hbelow. constructor.
  - apply sorted_ascending.
    + intros E. specialize (Hlen E). revert Hlen. apply Permutation_Forall.
      apply Permutation_map. symmetry. apply sort_Permutation.
    + destruct strict; [apply sort_sorted_strictly; now apply Hnodup|apply sort_sorted].
  - intros y Hy. apply Hbelow. revert Hy. apply Permutation_in. apply sort_Permutation.
Qed.

Lemma finalized_children_ascending : forall P useHashIndex compressed file before after,
  finalized P useHashIndex compressed file before after ->
  forall strict,
  (strict = true -> unique_names before) ->
  (useHashIndex = true ->
   every_array (fun items => Forall (fun name => length name = 8%nat) (map Name items)) before) ->
  forall y, In y after -> isDirectory y = true ->
  arrays_ascending useHashIndex strict (ChildItems y).
Proof.
  intros P uh cmp file before after H.
  induction H as [|item rest rest' Hfile _ IH
                 |item item' children rest rest' Hdir Hname Hflags _ _ _ Hfc IHc Hsort _ IH];
    intros strict Hunique Hlen y Hin Hy.
  - destruct Hin.
  - destruct Hin as [<-|Hin]; [congruence|].
    apply (IH strict); try assumption.
    + intros E. destruct (Hunique E) as [Hn Hall]. simpl in Hn.
      inversion Hn; subst. inversion Hall; subst. now split.
    + intros E. destruct (Hlen E) as [Hn Hall]. simpl in Hn.
      inversion Hn; subst. inversion Hall; subst. now split.
  - destruct Hin as [<-|Hin].
    + rewrite Hsort. apply arrays_ascending_sort.
      * intros E. destruct (Hunique E) as [_ Hall]. inversion Hall; subst.
        now rewrite (finalized_names _ _ _ _ _ _ Hfc).
      * intros E. destruct (Hlen E) as [_ Hall]. inversion Hall; subst.
        now rewrite (finalized_names _ _ _ _ _ _ Hfc).
      * apply (IHc strict).
        -- intros E. destruct (Hunique E) as [_ Hall]. inversion Hall; subst. now split.
        -- intros E. destruct (Hlen E) as [_ Hall]. inversion Hall; subst. now split.
    + apply (IH strict); try assumption.
      * intros E. destruct (Hunique E) as [Hn Hall]. simpl in Hn.
        inversion Hn; subst. inversion Hall; subst. now split.
      * intros E. destruct (Hlen E) as [Hn Hall]. simpl in Hn.
        inversion Hn; subst. inversion Hall; subst. now split.
Qed.

Lemma finalized_sort_ascending : forall P useHashIndex compressed file before after strict,
  finalized P useHashIndex compressed file before after ->
  (strict = true -> unique_names before) ->
  (useHashIndex = true ->
   every_array (fun items => Forall (fun name => length name = 8%nat) (map Name items)) before) ->
  arrays_ascending useHashIndex strict (sort Name_less after).
Proof.
  intros P uh cmp file before after strict Hfin Hunique Hlen.
  apply arrays_ascending_sort.
  - intros E. rewrite (finalized_names _ _ _ _ _ _ Hfin). apply (Hunique E).
  - intros E. rewrite (finalized_names _ _ _ _ _ _ Hfin). apply (Hlen E).
  - apply (finalized_children_ascending _ _ _ _ _ _ Hfin strict Hunique Hlen).
Qed.

(** *** Any call of AddFile *)

Lemma AddFile_to_result : forall P (useHashIndex : bool) content pc written items path,
  exists written',
    snd (fst (PakWriter.AddFile_to P useHashIndex content pc (mkFileStream true written)
                items path)) = mkFileStream true written' /\
    (snd (PakWriter.AddFile_to P useHashIndex content pc (mkFileStream true written) items path)
       = items
     \/ existsb (fun item => String_eqb (Name item) path) items = false /\
        exists flags offset uncompressedSize size,
          has_flag flags ItemFlags_Directory = false /\
          snd (PakWriter.AddFile_to P useHashIndex content pc (mkFileStream true written)
                 items path)
          = items ++ [mkItem (if useHashIndex then le_bytes 8 (FileNameToHash P path) else path)
                             flags offset uncompressedSize size []]).
Proof.
  intros P uh content pc written items path. unfold PakWriter.AddFile_to.
  destruct (existsb _ items) eqn:Hdup; [exists written; split; [reflexivity|now left]|].
  destruct pc; try destruct (WITH_ZLIB P); try destruct (WITH_LZ4 P); try destruct (WITH_ZSTD P);
    unfold Write; cbn [fs_valid fs_written]; cbv beta iota zeta;
    destruct (negb (Z.of_nat (length content) >? 0));
    try (eexists; split; [reflexivity|now left]);
    match goal with
    | |- context [negb ?c] => destruct (negb c)
    end;
    eexists; (split; [reflexivity|]); try (now left);
    right; (split; [reflexivity|]); do 4 eexists; (split; [|reflexivity]); reflexivity.
Qed.

Lemma every_array_tail : forall (Q : list Item -> Prop) item rest,
  (forall x l, Q (x :: l) -> Q l) ->
  every_array Q (item :: rest) -> every_array Q rest.
Proof.
  intros Q item rest Htail [Hq Hall]. inversion Hall; subst. split; [|assumption].
  eapply Htail; exact Hq.
Qed.

Lemma FindOrCreateParentItem_loop_unique : forall P content pc written steps items path r items',
  PakWriter.FindOrCreateParentItem_loop steps items path
    (PakWriter.AddFile_to P false content pc (mkFileStream true written)) = Some (r, items') ->
  (exists written', snd r = mkFileStream true written') /\
  (unique_names items -> unique_names items').
Proof.
  intros P content pc written steps items path r items' H.
  apply (FindOrCreateParentItem_loop_rel
           (PakWriter.AddFile_to P false content pc (mkFileStream true written))
           (fun _ items r items' =>
              (exists written', snd r = mkFileStream true written') /\
              (unique_names items -> unique_names items')))
    in H; [exact H| | |].
  - intros its p _.
    destruct (AddFile_to_result P false content pc written its p) as (written' & Hout & Hcase).
    split; [now exists written'|].
    destruct Hcase as [->|(Hdup & flags & offset & u & s & _ & ->)]; [auto|].
    intros [Hn Hall]. split.
    + rewrite map_app. apply NoDup_snoc; [exact Hn|].
      apply not_In_names. now apply existsb_Name_false.
    + apply Forall_tree_app. split; [exact Hall|].
      constructor; [constructor|constructor|constructor].
  - intros p i its j foundItem r0 children _ Hfind [Hout IH].
    split; [exact Hout|]. intros [Hn Hall].
    apply find_by_name_nth_error in Hfind as [Hnth _].
    destruct (Forall_tree_In _ _ _ Hall (nth_error_In _ _ Hnth)) as [Hc Hcc].
    destruct (IH (conj Hc Hcc)) as [Hc' Hcc'].
    split.
    + now rewrite (map_Name_replace_nth its j foundItem (set_ChildItems foundItem children)
                     Hnth eq_refl).
    + eapply Forall_tree_replace; [exact Hnth|exact Hall|exact Hc'|exact Hcc'].
  - intros p i its r0 children _ Hfind [Hout IH].
    split; [exact Hout|]. intros [Hn Hall].
    destruct IH as [Hc' Hcc']; [split; constructor|].
    split.
    + rewrite map_app. apply NoDup_snoc; [exact Hn|].
      apply not_In_names. now apply find_by_name_None.
    + apply Forall_tree_app. split; [exact Hall|].
      constructor; [exact Hc'|exact Hcc'|constructor].
Qed.

Lemma AddFile_sort_invariant : forall P useHashIndex w content path pc,
  sort_invariant useHashIndex w ->
  sort_invariant useHashIndex (snd (PakWriter.AddFile P w content path pc)).
Proof.
  intros P uh w content path pc [Hfin Hex Hmode [written Hout] Hunique Hflat].
  unfold PakWriter.AddFile. rewrite Hout. cbn [fs_valid negb]. cbv beta iota.
  destruct (empty_or_ends_with_separator path);
    [constructor; try assumption; now exists written|].
  rewrite Hmode. destruct uh.
  - destruct (AddFile_to_result P true content pc written (PakWriter._rootItems w) path)
      as (written' & Hout' & Hcase).
    destruct (PakWriter.AddFile_to P true content pc _ _ path) as [[ok o] its].
    simpl in Hout', Hcase. subst o. simpl.
    constructor; simpl; try assumption; try discriminate; [now exists written'|].
    intros _. specialize (Hflat eq_refl).
    destruct Hcase as [->|(_ & flags & offset & u & s & Hfile & ->)]; [exact Hflat|].
    apply Forall_app. split; [exact Hflat|]. constructor; [|constructor].
    split; [exact Hfile|]. split; reflexivity.
  - unfold PakWriter.FindOrCreateParentItem.
    destruct (PakWriter.FindOrCreateParentItem_loop _ _ _ _) as [[[ok o] its]|] eqn:E.
    + apply FindOrCreateParentItem_loop_unique in E as [[written' Hout'] Hu].
      simpl in Hout'. subst o. simpl.
      constructor; simpl; try assumption; try discriminate; [now exists written'|].
      intros _. apply Hu. now apply Hunique.
    + simpl. constructor; try assumption; now exists written.
Qed.

Lemma AddFiles_sort_invariant : forall P useHashIndex additions w,
  sort_invariant useHashIndex w -> sort_invariant useHashIndex (AddFiles P w additions).
Proof.
  intros P uh. induction additions as [|a rest IH]; intros w H; [exact H|].
  apply IH. now apply AddFile_sort_invariant.
Qed.

Lemma opened_writer_sort_invariant : forall useHashIndex useCompressedIndex mountPoint,
  sort_invariant useHashIndex (opened_writer None useHashIndex useCompressedIndex mountPoint).
Proof.
  intros uh uc mp. constructor; try reflexivity.
  - now exists OptionalHeader.
  - intros _. split; constructor.
  - intros _. constructor.
Qed.

Lemma flat_items_names : forall items,
  Forall flat_item items ->
  every_array (fun items => Forall (fun name => length name = 8%nat) (map Name items)) items.
Proof.
  intros items H. split.
  - induction H as [|x rest (_ & Hx & _) _ IH]; simpl; constructor; assumption.
  - induction H as [|x rest (_ & _ & Hx) _ IH]; constructor; try assumption;
      rewrite Hx; constructor.
Qed.

(** X1. What the sorting passes of [Finalize] establish: when [Finalize]
    leaves an archive where no file existed before, the root array and
    the children of every directory reached through directories are in
    ascending order of [Name] (bytewise over the 8 hash bytes in flat
    mode, as strings in tree mode): no adjacent pair descends.  In tree
    mode the order is strict; in flat mode it is strict when no two items
    of the root array have the same name. *)
Lemma Finalize_sorted : forall P useHashIndex useCompressedIndex mountPoint additions file,
  PakWriter.file_on_disk
    (PakWriter.Finalize P
       (AddFiles P (opened_writer None useHashIndex useCompressedIndex mountPoint) additions))
    = Some file ->
  let root := PakWriter._rootItems
                (PakWriter.Finalize P
                   (AddFiles P (opened_writer None useHashIndex useCompressedIndex mountPoint)
                             additions)) in
  arrays_ascending useHashIndex false root /\
  (useHashIndex = false -> arrays_ascending useHashIndex true root) /\
  (useHashIndex = true -> NoDup (map Name root) -> arrays_ascending useHashIndex true root).
Proof.
  intros P uh uc mp additions file Hfile root.
  pose proof (AddFiles_sort_invariant P uh additions _
                (opened_writer_sort_invariant uh uc mp)) as Hinv.
  destruct Hinv as [Hfin Hex Hmode [written Hout] Hunique Hflat].
  destruct (Finalize_sorts P _ written file Hfin Hout Hex Hfile)
    as (root1 & more & Hfinalized & Hroot).
  unfold root. rewrite Hroot. rewrite Hmode in Hfinalized.
  assert (Hlen : uh = true ->
            every_array (fun items => Forall (fun name => length name = 8%nat) (map Name items))
              (PakWriter._rootItems
                 (AddFiles P (opened_writer None uh uc mp) additions))).
  { intros E. apply flat_items_names. now apply Hflat. }
  split; [|split].
  - apply (finalized_sort_ascending _ _ _ _ _ _ false Hfinalized); [discriminate|exact Hlen].
  - intros E. apply (finalized_sort_ascending _ _ _ _ _ _ true Hfinalized); [|exact Hlen].
    intros _. now apply Hunique.
  - intros E Hnodup.
    apply (finalized_sort_ascending _ _ _ _ _ _ true Hfinalized); [|exact Hlen].
    intros _. specialize (Hflat E).
    split.
    + rewrite <- (finalized_names _ _ _ _ _ _ Hfinalized).
      revert Hnodup. apply Permutation_NoDup. apply Permutation_map. apply sort_Permutation.
    + clear - Hflat. induction Hflat as [|x rest (_ & _ & Hx) _ IH]; constructor; try assumption;
        rewrite Hx; constructor.
Qed.

(** *** The same path added twice in flat mode *)

Lemma duplicate_additions_state : forall P,
  all_added P (opened_writer None true false []) duplicate_additions = true /\
  AddFiles P (opened_writer None true false []) duplicate_additions
  = PakWriter.mk false true false false []
      [mkItem (le_bytes 8 (FileNameToHash P [97])) ItemFlags_None 8 1 0 [];
       mkItem (le_bytes 8 (FileNameToHash P [97])) ItemFlags_None 9 1 0 []]
      (Some (mkFileStream true (OptionalHeader ++ [1; 2]))) (Some []).
Proof.
  intros P. unfold AddFiles, opened_writer, duplicate_additions.
  cbn -[le_bytes FileNameToHash].
  unfold PakWriter.AddFile_to. cbn -[FileNameToHash Z.modulo Z.div].
  rewrite !andb_false_r. cbn -[FileNameToHash Z.modulo Z.div].
  split; reflexivity.
Qed.

(** C3.  The sorted invariant fails in flat mode: on every platform, a
    writer that is given the path [a] twice takes it both times, and the
    archive [Finalize] then writes has a root array that is not strictly
    ascending: its two items bear the same 8 hash bytes, so
    [Name[0] < Name[1]] is false. *)
Theorem Finalize_duplicate_names_not_ascending : forall P,
  all_added P (opened_writer None true false []) duplicate_additions = true /\
  PakWriter.file_on_disk
    (PakWriter.Finalize P (AddFiles P (opened_writer None true false []) duplicate_additions))
    <> None /\
  ~ arrays_ascending true true
      (PakWriter._rootItems
         (PakWriter.Finalize P
            (AddFiles P (opened_writer None true false []) duplicate_additions))).
Proof.
  intros P. destruct (duplicate_additions_state P) as [Hall Hw].
  split; [exact Hall|]. rewrite Hw.
  set (name := le_bytes 8 (FileNameToHash P [97])) in *.
  set (w := PakWriter.mk _ _ _ _ _ _ _ _).
  destruct (Finalize_spec P w (OptionalHeader ++ [1; 2]))
    as (root1 & more & Hfinalized & Hroot & Hfile); try reflexivity.
  { apply holds_file_here. reflexivity. }
  split; [rewrite Hfile; discriminate|].
  rewrite Hroot. intros Hsorted. inversion Hsorted as [? Hascending _]; subst.
  pose proof (finalized_names _ _ _ _ _ _ Hfinalized) as Hnames. simpl in Hnames.
  assert (Hall_names : forall y, In y (sort Name_less root1) -> Name y = name).
  { intros y Hy. apply (Permutation_in (l' := root1)) in Hy; [|apply sort_Permutation].
    apply (in_map Name) in Hy. rewrite Hnames in Hy. simpl in Hy. intuition. }
  assert (Hlength : length (sort Name_less root1) = 2%nat).
  { rewrite length_sort. apply (f_equal (@length _)) in Hnames.
    now rewrite length_map in Hnames. }
  destruct (sort Name_less root1) as [|a [|b rest]]; try discriminate.
  specialize (Hascending O a b eq_refl eq_refl).
  change (Name_before true a b = true) in Hascending.
  rewrite Name_before_ltb in Hascending.
  - rewrite (Hall_names a), (Hall_names b), String_ltb_irrefl in Hascending by (simpl; auto).
    discriminate.
  - intros _. rewrite (Hall_names a), (Hall_names b) by (simpl; auto).
    split; apply length_le_bytes.
Qed.

Lemma Finalize_sorted_reference :
  exists file,
    PakWriter.file_on_disk
      (PakWriter.Finalize reference_platform
         (AddFiles reference_platform (opened_writer None false true [109])
                   reference_additions)) = Some file /\
    arrays_ascending false true
      (PakWriter._rootItems
         (PakWriter.Finalize reference_platform
            (AddFiles reference_platform (opened_writer None false true [109])
                      reference_additions))).
Proof.
  destruct (PakWriter.file_on_disk
              (PakWriter.Finalize reference_platform
                 (AddFiles reference_platform (opened_writer None false true [109])
                           reference_additions))) as [file|] eqn:Hfile;
    [|vm_compute in Hfile; discriminate Hfile].
  exists file. split; [reflexivity|].
  exact (proj1 (proj2 (Finalize_sorted reference_platform false true [109]
                         reference_additions file Hfile)) eq_refl).
Defined.

(** ** The round trip on the reference platform *)

Lemma reference_platform_codecs : codecs_round_trip reference_platform.
Proof.
  constructor; simpl.
  - intros x rest. rewrite Nat2Z.id, firstn_app, firstn_all, Nat.sub_diag. simpl. apply app_nil_r.
  - reflexivity.
  - intros x. apply rev_involutive.
Defined.

Lemma reference_additions_paths_ok : paths_ok reference_platform false reference_additions.
Proof.
  split.
  - intros a [<-|[<-|[<-|[]]]]; simpl; (split; [|split; [unfold MaxDepth; simpl; lia|reflexivity]]);
      repeat constructor; discriminate.
  - intros a b Ha Hb (r & Hr & E).
    destruct Ha as [<-|[<-|[<-|[]]]]; destruct Hb as [<-|[<-|[<-|[]]]]; simpl in E;
      inversion E; subst; now apply Hr.
Defined.

Lemma AddFile_Finalize_round_trip_witness :
  codecs_round_trip reference_platform /\
  all_added reference_platform (opened_writer None false true [109]) reference_additions = true /\
  paths_ok reference_platform false reference_additions /\
  exists file,
    PakWriter.file_on_disk
      (PakWriter.Finalize reference_platform
         (AddFiles reference_platform (opened_writer None false true [109]) reference_additions))
      = Some file /\
    PakFile.FileExists reference_platform 6 (PakFile.new reference_platform [112] (Some file))
      [97; 47; 98; 47; 99] [] = Some true /\
    PakFile.OpenFile reference_platform 6 (PakFile.new reference_platform [112] (Some file)) file
      [97; 47; 98; 47; 99] [] = Some (Some (PakFile.mkOpened 3 [1; 2; 3])).
Proof.
  assert (Hall : all_added reference_platform (opened_writer None false true [109])
                   reference_additions = true) by (vm_compute; reflexivity).
  split; [exact reference_platform_codecs|]. split; [exact Hall|].
  split; [exact reference_additions_paths_ok|].
  destruct (AddFile_Finalize_round_trip reference_platform None false true [109]
              reference_additions
              (mkAddition [1; 2; 3] [97; 47; 98; 47; 99] Compression_Deflate) [112] 6 [])
    as (file & Hfile & H).
  - exact reference_platform_codecs.
  - exact Hall.
  - exact reference_additions_paths_ok.
  - vm_compute. reflexivity.
  - vm_compute. reflexivity.
  - left. reflexivity.
  - simpl. lia.
  - reflexivity.
  - exists file. split; [exact Hfile|]. apply H.
    vm_compute in Hfile. injection Hfile as <-. vm_compute. reflexivity.
Defined.

(** Five runs in tree mode after which a path given to [AddFile] is not
    found: content of no bytes (the call returns [false]); a path with
    an empty component (the writer makes a directory of no name for it,
    the reader skips it); a path that takes a file for a directory; a
    path of [MaxDepth + 1] components; and the added path [a/b] handed to
    [FileExists] as a view which its buffer continues with a separator
    ([a/b] cut from [a/b/]): [separator == path.end()] compares the
    separator found with the C string behind the view, and the lookup
    returns the directory [a]. *)
Lemma AddFile_Finalize_round_trip_counterexample :
  on_every_platform (fun P =>
    found_after P [mkAddition [1] [98] Compression_None; mkAddition [] [97] Compression_None]
                6 [97] [] = Some false /\
    all_added P (opened_writer None false false [])
      [mkAddition [1] [97; 47; 47; 98] Compression_None] = true /\
    found_after P [mkAddition [1] [97; 47; 47; 98] Compression_None] 6 [97; 47; 47; 98] []
      = Some false /\
    all_added P (opened_writer None false false [])
      [mkAddition [1] [97] Compression_None; mkAddition [2] [97; 47; 98] Compression_None]
      = true /\
    found_after P
      [mkAddition [1] [97] Compression_None; mkAddition [2] [97; 47; 98] Compression_None]
      6 [97; 47; 98] [] = Some false /\
    all_added P (opened_writer None false false [])
      [mkAddition [1] (concat (repeat [97; 47] 64) ++ [97]) Compression_None] = true /\
    found_after P [mkAddition [1] (concat (repeat [97; 47] 64) ++ [97]) Compression_None]
      130 (concat (repeat [97; 47] 64) ++ [97]) [] = Some false /\
    all_added P (opened_writer None false false [])
      [mkAddition [1] [97; 47; 98] Compression_None] = true /\
    found_after P [mkAddition [1] [97; 47; 98] Compression_None] 6 [97; 47; 98] [47]
      = Some false).
Proof.
  intros P. destruct P as [hash zlib lz4 zstd windows dw ds lw ls zw zs].
  destruct zlib; repeat split; vm_compute; reflexivity.
Qed.
(** ** Flat mode and a path that begins with a separator *)

Lemma lower_bound_single : forall (less : Item -> bool) item,
  lower_bound less [item] = if less item then 1%nat else 0%nat.
Proof. intros less item. unfold lower_bound. simpl. now destruct (less item). Qed.

(** In a flat archive of one file, a path that hashes to something else
    than the name of that file finds nothing. *)
Lemma FindItem_hash_single : forall P steps pakPath mountPoint item path tail,
  length (Name item) = 8%nat ->
  Name item <> le_bytes 8 (FileNameToHash P (trimmedPrefix path)) ->
  PakFile.FindItem P steps (PakFile.mk pakPath mountPoint true [item]) path tail = Some None.
Proof.
  intros P steps pakPath mp item path tail Hlen Hne.
  unfold PakFile.FindItem. cbn [PakFile._useHashIndex PakFile._rootItems].
  cbv beta zeta iota. rewrite lower_bound_single.
  destruct (memcmp (Name item) _ _ <? 0); [reflexivity|].
  cbn [nth_error].
  change (Z.to_nat HashIndexLength) with 8%nat.
  rewrite memcmp_eqb by (try exact Hlen; apply length_le_bytes).
  destruct (String_eqb _ _) eqn:E; [|reflexivity].
  apply String_eqb_eq in E. contradiction.
Qed.

Lemma enumerate_flat : forall P MaxPathLength steps pakFile path tail options,
  PakFile._useHashIndex pakFile = true ->
  Directory.enumerate P MaxPathLength steps pakFile path tail options = Some [].
Proof.
  intros P MaxPathLength steps pakFile path tail options Hflat.
  unfold Directory.enumerate, Directory.Open. rewrite Hflat.
  cbn [Directory._childItems length Directory.enumerate_loop].
  unfold Directory.at_end. cbn [Directory._path].
  now destruct MaxPathLength.
Qed.

Lemma leading_separator_state : forall P,
  all_added P (opened_writer None true false []) leading_separator_additions = true /\
  AddFiles P (opened_writer None true false []) leading_separator_additions
  = PakWriter.mk false true false false []
      [mkItem (le_bytes 8 (FileNameToHash P [47; 97])) ItemFlags_None 8 1 0 []]
      (Some (mkFileStream true (OptionalHeader ++ [1]))) (Some []).
Proof.
  intros P. unfold AddFiles, opened_writer, leading_separator_additions.
  cbn -[le_bytes FileNameToHash].
  unfold PakWriter.AddFile_to. cbn -[FileNameToHash Z.modulo Z.div].
  split; reflexivity.
Qed.

Lemma leading_separator_archive : forall P pakPath (name : String),
  length name = 8%nat ->
  exists file,
    PakWriter.file_on_disk
      (PakWriter.Finalize P
         (PakWriter.mk false true false false [] [mkItem name ItemFlags_None 8 1 0 []]
            (Some (mkFileStream true (OptionalHeader ++ [1]))) (Some []))) = Some file /\
    PakFile.new P pakPath (Some file)
    = PakFile.mk pakPath [] true [mkItem name ItemFlags_None 8 1 0 []].
Proof.
  intros P pakPath name Hlen.
  destruct name as [|b0 [|b1 [|b2 [|b3 [|b4 [|b5 [|b6 [|b7 [|]]]]]]]]]; try discriminate.
  destruct P as [hash zlib lz4 zstd windows dw ds lw ls zw zs].
  destruct zlib; eexists; (split; [vm_compute; reflexivity|vm_compute; reflexivity]).
Qed.

(** C9.  Flat mode hides hierarchy, but not every added path is found:
    on a platform whose hash tells [/a] from [a], the archive written in
    flat mode with the one file [/a] ([AddFile] returns [true]) yields no
    entries when enumerated, and [FileExists] returns [false] for [/a]:
    the writer hashes the path as given, the reader after trimming the
    separator.  What follows the views of the paths in their buffers
    ([tail]) plays no part in flat mode. *)
Theorem FileExists_flat_mode_leading_separator : forall P MaxPathLength steps pakPath,
  FileNameToHash P [47; 97] <> FileNameToHash P [97] ->
  all_added P (opened_writer None true false []) leading_separator_additions = true /\
  exists file,
    PakWriter.file_on_disk
      (PakWriter.Finalize P
         (AddFiles P (opened_writer None true false []) leading_separator_additions))
      = Some file /\
    (forall path tail options,
       Directory.enumerate P MaxPathLength steps (PakFile.new P pakPath (Some file)) path tail
         options
       = Some []) /\
    (forall tail,
       PakFile.FileExists P steps (PakFile.new P pakPath (Some file)) [47; 97] tail = Some false).
Proof.
  intros P MaxPathLength steps pakPath Hhash.
  destruct (leading_separator_state P) as [Hall Hw].
  split; [exact Hall|]. rewrite Hw.
  destruct (leading_separator_archive P pakPath (le_bytes 8 (FileNameToHash P [47; 97]))
              (length_le_bytes _ _)) as (file & Hfile & Hnew).
  exists file. split; [exact Hfile|]. rewrite Hnew. split.
  - intros path tail options. now apply enumerate_flat.
  - intros tail.
    unfold PakFile.FileExists. rewrite FindItem_hash_single; [reflexivity|reflexivity|].
    cbn [Name trimmedPrefix]. change (is_separator 47) with true. cbv iota.
    change (trimmedPrefix [97]) with [97].
    intros E. apply Hhash. apply le_bytes_8_inj in E; [exact E| |]; apply FileNameToHash_range.
Qed.

Lemma FileExists_flat_mode_leading_separator_witness :
  FileNameToHash reference_platform [47; 97] <> FileNameToHash reference_platform [97] /\
  all_added reference_platform (opened_writer None true false []) leading_separator_additions
    = true /\
  exists file,
    PakWriter.file_on_disk
      (PakWriter.Finalize reference_platform
         (AddFiles reference_platform (opened_writer None true false [])
                   leading_separator_additions)) = Some file /\
    Directory.enumerate reference_platform 260 6
      (PakFile.new reference_platform [112] (Some file)) [] [] (Directory.mkOptions false false)
    = Some [] /\
    PakFile.FileExists reference_platform 6 (PakFile.new reference_platform [112] (Some file))
      [47; 97] [] = Some false.
Proof.
  assert (Hhash : FileNameToHash reference_platform [47; 97]
                  <> FileNameToHash reference_platform [97]) by (vm_compute; discriminate).
  split; [exact Hhash|].
  destruct (FileExists_flat_mode_leading_separator reference_platform 260 6 [112] Hhash)
    as (Hall & file & Hfile & Henumerate & Hexists).
  split; [exact Hall|]. exists file. split; [exact Hfile|].
  split; [apply Henumerate|apply Hexists].
Defined.

(** ** More on the path hash *)

Lemma lowercase_char_cases : forall c,
  (lowercase_char c = c /\ 26 <= (c - 65) mod 256) \/
  (lowercase_char c = c + 32 /\ (c - 65) mod 256 < 26).
Proof.
  intros c. unfold lowercase_char.
  destruct ((c - 65) mod 256 <? 26) eqn:E.
  - right. apply Z.ltb_lt in E. split; [reflexivity|exact E].
  - left. apply Z.ltb_ge in E. split; [simpl; lia|exact E].
Qed.

Lemma lowercase_char_not : forall c k,
  26 <= (k - 65) mod 256 -> 26 <= (k - 32 - 65) mod 256 -> 
  c <> k -> lowercase_char c <> k.
Proof.
  intros c k Hk Hk' Hc.
  destruct (lowercase_char_cases c) as [[E H]|[E H]]; rewrite E; [exact Hc|].
  intros Heq. replace (k - 32 - 65) with (c - 65) in Hk' by lia. lia.
Qed.

Lemma lowercase_char_idempotent : forall c,
  lowercase_char (lowercase_char c) = lowercase_char c.
Proof.
  intros c.
  destruct (lowercase_char_cases c) as [[E H]|[E H]]; rewrite E.
  - exact E.
  - destruct (lowercase_char_cases (c + 32)) as [[E' H']|[E' H']]; [exact E'|].
    exfalso.
    replace (c + 32 - 65) with ((c - 65) + 32) in H' by lia.
    rewrite <- Zplus_mod_idemp_l in H'.
    assert (0 <= (c - 65) mod 256) by (apply Z.mod_pos_bound; lia).
    rewrite Z.mod_small in H' by lia. lia.
Qed.

Lemma lowercase_char_not_upper : forall c, ~ (65 <= lowercase_char c <= 90).
Proof.
  intros c Hrange.
  destruct (lowercase_char_cases c) as [[E H]|[E H]]; rewrite E in Hrange.
  - rewrite Z.mod_small in H by lia. lia.
  - replace (c - 65) with ((c + 32 - 65) + (-1) * 256 + 224) in H by lia.
    rewrite Z.add_comm, Z.add_assoc, Z.mod_add in H by lia.
    rewrite Z.mod_small in H by lia. lia.
Qed.

Lemma FileNameToHash_loop_head : forall fileName b c rest,
  FileNameToHash_loop fileName b = c :: rest ->
  c <> backslash /\ ~ (65 <= c <= 90) /\ (b = true -> c <> slash).
Proof.
  induction fileName as [|x fileName IH]; intros b c rest H; simpl in H; [discriminate|].
  assert (Hslash : lowercase_char slash = slash) by reflexivity.
  destruct (x =? backslash) eqn:Ex.
  - change (slash =? slash) with true in H. cbv iota in H.
    destruct b.
    + apply IH in H. exact H.
    + injection H as Hc _. assert (Ec : c = 47) by (subst c; reflexivity).
      rewrite Ec. unfold slash, backslash. repeat split; first [lia | discriminate].
  - apply Z.eqb_neq in Ex.
    destruct (x =? slash) eqn:Es.
    + destruct b.
      * apply IH in H. exact H.
      * injection H as Hc _. apply Z.eqb_eq in Es. subst x.
        assert (Ec : c = 47) by (subst c; reflexivity).
        rewrite Ec. unfold slash, backslash. repeat split; first [lia | discriminate].
    + apply Z.eqb_neq in Es. injection H as Hc _. subst c.
      split; [|split].
      * apply lowercase_char_not; [now vm_compute|now vm_compute|exact Ex].
      * apply lowercase_char_not_upper.
      * intros _. apply lowercase_char_not; [now vm_compute|now vm_compute|exact Es].
Qed.

(** X2. [FileNameToHash] stores at most [fileName.size()] characters, for
    whatever name it is given: the index [i] never leaves the buffer
    [normalizedFileName], which has that many cells. *)
Theorem FileNameToHash_stays_in_buffer : forall fileName lastWasSlash,
  (length (FileNameToHash_loop fileName lastWasSlash) <= length fileName)%nat.
Proof.
  induction fileName as [|c fileName IH]; intros b; simpl; [lia|].
  destruct ((if c =? backslash then slash else c) =? slash).
  - destruct b; simpl; [specialize (IH true)|specialize (IH true)]; lia.
  - simpl. specialize (IH false). lia.
Qed.

(** X3. What [FileNameToHash] hands to [xxHash3] is in normal form, for
    every file name: it holds no backslash and no upper-case letter, and
    no slash follows a slash. *)
Theorem FileNameToHash_normal_form : forall fileName,
  Forall (fun c => c <> backslash /\ ~ (65 <= c <= 90)) (FileNameToHash_loop fileName false) /\
  (forall i,
     nth_error (FileNameToHash_loop fileName false) i = Some slash ->
     nth_error (FileNameToHash_loop fileName false) (S i) <> Some slash).
Proof.
  intros fileName.
  assert (Hgen : forall s b,
    Forall (fun c => c <> backslash /\ ~ (65 <= c <= 90)) (FileNameToHash_loop s b) /\
    (forall i, nth_error (FileNameToHash_loop s b) i = Some slash ->
               nth_error (FileNameToHash_loop s b) (S i) <> Some slash)).
  { induction s as [|x s IH]; intros b.
    - simpl. split; [constructor|]. intros [|i]; discriminate.
    - destruct (FileNameToHash_loop (x :: s) b) as [|c rest] eqn:E.
      + split; [constructor|]. intros [|i]; discriminate.
      + pose proof (FileNameToHash_loop_head _ _ _ _ E) as [Hb [Hu _]].
        simpl in E.
        assert (Hrest : (exists b', rest = FileNameToHash_loop s b' /\
                                    (c = slash -> b' = true)) \/
                        c :: rest = FileNameToHash_loop s b).
        { destruct ((if x =? backslash then slash else x) =? slash) eqn:Es.
          - destruct b.
            + right. now symmetry.
            + left. injection E as _ Hr. exists true. split; [now symmetry|reflexivity].
          - left. injection E as Hc Hr. exists false. split; [now symmetry|].
            intros Heq. exfalso. subst c. revert Heq.
            apply lowercase_char_not; [now vm_compute|now vm_compute|now apply Z.eqb_neq]. }
        destruct Hrest as [[b' [Hr Hc]]|Hr].
        * destruct (IH b') as [Hall Hadj]. rewrite <- Hr in Hall, Hadj.
          split; [constructor; [split; assumption|exact Hall]|].
          intros [|i] Hi; simpl in *.
          -- injection Hi as Hi. specialize (Hc Hi). subst b'.
             destruct rest as [|d rest']; [discriminate|].
             symmetry in Hr. apply FileNameToHash_loop_head in Hr.
             destruct Hr as [_ [_ Hd]]. intros Heq. injection Heq as Heq.
             now apply Hd.
          -- now apply Hadj.
        * rewrite Hr. apply IH. }
  apply Hgen.
Qed.

Lemma FileNameToHash_loop_idempotent : forall fileName b,
  FileNameToHash_loop (FileNameToHash_loop fileName b) b = FileNameToHash_loop fileName b.
Proof.
  induction fileName as [|x s IH]; intros b; [reflexivity|].
  cbn [FileNameToHash_loop].
  set (y := if x =? backslash then slash else x).
  assert (Hyb : y <> backslash).
  { subst y. destruct (x =? backslash) eqn:Ex; [discriminate|now apply Z.eqb_neq]. }
  destruct (y =? slash) eqn:Es.
  - apply Z.eqb_eq in Es. rewrite Es.
    destruct b; [apply IH|].
    change (lowercase_char slash) with slash.
    cbn [FileNameToHash_loop].
    change (slash =? backslash) with false. cbv iota.
    change (slash =? slash) with true. cbv iota.
    change (lowercase_char slash) with slash.
    now rewrite IH.
  - assert (Hy : y <> slash) by now apply Z.eqb_neq.
    cbn [FileNameToHash_loop].
    assert (Hlb : (lowercase_char y =? backslash) = false).
    { apply Z.eqb_neq. apply lowercase_char_not; [now vm_compute|now vm_compute|exact Hyb]. }
    rewrite Hlb.
    assert (Hls : (lowercase_char y =? slash) = false).
    { apply Z.eqb_neq. apply lowercase_char_not; [now vm_compute|now vm_compute|exact Hy]. }
    rewrite Hls, lowercase_char_idempotent, IH. reflexivity.
Qed.

(** X4. Normalising is idempotent: a name that is already in the form
    [FileNameToHash] hashes has the hash of every name it stands for. *)
Theorem FileNameToHash_of_normal_form : forall P fileName,
  FileNameToHash P (FileNameToHash_loop fileName false) = FileNameToHash P fileName.
Proof.
  intros P fileName. unfold FileNameToHash.
  now rewrite FileNameToHash_loop_idempotent.
Qed.

(** ** What the reader stores, whatever the file holds *)

Lemma length_ReadBuffer : forall s size,
  length (fst (ReadBuffer s size)) = Z.to_nat size.
Proof.
  intros s size. unfold ReadBuffer, Read. cbn [fst].
  rewrite length_app, repeat_length.
  pose proof (firstn_le_length (Z.to_nat size) (skipn (Z.to_nat (position s)) (bytes_of s))).
  lia.
Qed.

Section ItemsRead.
Variable Q : Item -> Prop.
Variable useHashIndex : bool.
Hypothesis Q_set_ChildItems : forall item children,
  isDirectory item = true -> Q item -> Q (set_ChildItems item children).
Hypothesis Q_read : forall itemCount s,
  Forall Q (snd (fst (PakFile.ReadIndexFromStream_items useHashIndex itemCount s))).

Lemma ReadIndexFromStream_Forall : forall P s root mountPoint items,
  Forall Q items ->
  Forall Q (snd (fst (PakFile.ReadIndexFromStream P useHashIndex s root mountPoint items))).
Proof.
  intros P s root mountPoint items Hitems. unfold PakFile.ReadIndexFromStream.
  assert (Hcount : forall s1 (mp : String),
    Forall Q
      (snd (fst (let (itemCount, s) := ReadVariableUint32 s1 in
                 let '(s, items, ok) :=
                   PakFile.ReadIndexFromStream_items useHashIndex (Z.to_nat itemCount) s in
                 (s, mp, items, ok))))).
  { intros s1 mp. destruct (ReadVariableUint32 s1) as [itemCount s2].
    pose proof (Q_read (Z.to_nat itemCount) s2) as H.
    destruct (PakFile.ReadIndexFromStream_items useHashIndex (Z.to_nat itemCount) s2)
      as [[s3 its] ok].
    exact H. }
  destruct root; [|branch; apply Hcount].
  destruct (ReadVariableUint32 s) as [mountPointLength s1].
  destruct (mountPointLength <? INT16_MAX); branch; [|exact Hitems].
  destruct (ReadBuffer s1 (to_int32 mountPointLength)) as [mp s2].
  branch. apply Hcount.
Qed.

Lemma ReadIndexFromStreamDeflateCompressed_Forall : forall P s root mountPoint items,
  Forall Q items ->
  Forall Q (snd (fst (PakFile.ReadIndexFromStreamDeflateCompressed P useHashIndex s root
                        mountPoint items))).
Proof.
  intros P s root mountPoint items Hitems.
  unfold PakFile.ReadIndexFromStreamDeflateCompressed.
  destruct (WITH_ZLIB P); [|exact Hitems].
  pose proof (ReadIndexFromStream_Forall P
                (mkStream (DeflateStream P (skipn (Z.to_nat (position s)) (bytes_of s))) 0)
                root mountPoint items Hitems) as H.
  destruct (PakFile.ReadIndexFromStream P useHashIndex _ root mountPoint items)
    as [[[s' mp] its] ok].
  exact H.
Qed.

Lemma ConstructsItemsFromIndex_each_Forall_tree : forall recurse items s,
  Forall Q items ->
  Forall (fun item => ChildItems item = []) items ->
  (forall s item, In item items -> Forall_tree Q (snd (recurse s item))) ->
  Forall_tree Q (snd (PakFile.ConstructsItemsFromIndex_each recurse items s)).
Proof.
  intros recurse. induction items as [|item rest IH]; intros s HQ Hleaves Hrec; simpl.
  - constructor.
  - inversion HQ as [|? ? Hitem Hrest]; subst.
    inversion Hleaves as [|? ? Hleaf Hleaves']; subst.
    assert (Hrec' : forall s item, In item rest -> Forall_tree Q (snd (recurse s item)))
      by (intros; apply Hrec; right; assumption).
    destruct (isDirectory item) eqn:Hdir.
    + destruct (Seek_Begin s (to_int64 (Offset item))) as [r s1].
      pose proof (Hrec s1 item (or_introl eq_refl)) as Hchildren.
      destruct (recurse s1 item) as [s2 children].
      specialize (IH s2 Hrest Hleaves' Hrec').
      destruct (PakFile.ConstructsItemsFromIndex_each recurse rest s2) as [s3 rest'].
      simpl in *. constructor; [now apply Q_set_ChildItems|exact Hchildren|exact IH].
    + specialize (IH s Hrest Hleaves' Hrec').
      destruct (PakFile.ConstructsItemsFromIndex_each recurse rest s) as [s3 rest'].
      simpl in *. constructor; [exact Hitem|rewrite Hleaf; constructor|exact IH].
Qed.

Lemma Forall_leaves_tree : forall items,
  Forall Q items -> Forall (fun item => ChildItems item = []) items -> Forall_tree Q items.
Proof.
  induction items as [|item rest IH]; intros HQ Hleaves; [constructor|].
  inversion HQ; inversion Hleaves; subst.
  constructor; [assumption| |now apply IH].
  match goal with H : ChildItems item = [] |- _ => rewrite H end. constructor.
Qed.

Lemma ConstructsItemsFromIndex_Forall_tree : forall P budget s root deflateCompressed depth
    mountPoint,
  Forall_tree Q
    (snd (PakFile.ConstructsItemsFromIndex P budget useHashIndex s root deflateCompressed
            depth mountPoint [])).
Proof.
  intros P. induction budget as [|budget IH]; intros s root dc depth mp;
    cbn [PakFile.ConstructsItemsFromIndex].
  - constructor.
  - destruct (depth <? MaxDepth) eqn:Hlt; branch; [|constructor].
    assert (Hread : Forall Q
              (snd (fst (if dc
                         then PakFile.ReadIndexFromStreamDeflateCompressed P useHashIndex s root mp []
                         else PakFile.ReadIndexFromStream P useHashIndex s root mp [])))).
    { destruct dc;
        [apply ReadIndexFromStreamDeflateCompressed_Forall|apply ReadIndexFromStream_Forall];
        constructor. }
    assert (Hleaves : Forall (fun item => ChildItems item = [])
              (snd (fst (if dc
                         then PakFile.ReadIndexFromStreamDeflateCompressed P useHashIndex s root mp []
                         else PakFile.ReadIndexFromStream P useHashIndex s root mp [])))).
    { destruct dc;
        [apply ReadIndexFromStreamDeflateCompressed_leaves|apply ReadIndexFromStream_leaves];
        constructor. }
    destruct (if dc then _ else _) as [[[s1 mp1] items1] ok]. simpl in Hread, Hleaves.
    destruct ok.
    + pose proof (ConstructsItemsFromIndex_each_Forall_tree
                    (fun s item =>
                       let '(s, _, children) :=
                         PakFile.ConstructsItemsFromIndex P budget useHashIndex s false dc
                           (depth + 1) mp1 (ChildItems item) in (s, children))
                    items1 s1 Hread Hleaves) as H.
      destruct (PakFile.ConstructsItemsFromIndex_each _ items1 s1) as [s2 items2].
      simpl in *. apply H. intros s0 item Hin.
      rewrite Forall_forall in Hleaves. rewrite (Hleaves item Hin).
      specialize (IH s0 false dc (depth + 1) mp1).
      destruct (PakFile.ConstructsItemsFromIndex P budget useHashIndex s0 false dc (depth + 1)
                  mp1 []) as [[s3 mp3] children].
      exact IH.
    + simpl. now apply Forall_leaves_tree.
Qed.

End ItemsRead.

Lemma ReadIndexFromStream_items_names : forall useHashIndex itemCount s,
  Forall (fun item => useHashIndex = true -> length (Name item) = Z.to_nat HashIndexLength)
         (snd (fst (PakFile.ReadIndexFromStream_items useHashIndex itemCount s))).
Proof.
  intros uh. induction itemCount as [|n IH]; intros s;
    cbn [PakFile.ReadIndexFromStream_items]; [constructor|].
  destruct (ReadVariableUint32 s) as [flags s1].
  assert (Hrest : forall name s2,
    (uh = true -> length name = Z.to_nat HashIndexLength) ->
    Forall (fun item => uh = true -> length (Name item) = Z.to_nat HashIndexLength)
      (snd (fst (let (offset, s) := ReadVariableUint64 s2 in
                 let '(uncompressedSize, size, s) :=
                   if negb (has_flag flags ItemFlags_Directory) then
                     let (uncompressedSize, s) := ReadVariableUint32 s in
                     if HasCompressedSize flags then
                       let (size, s) := ReadVariableUint32 s in (uncompressedSize, size, s)
                     else (uncompressedSize, 0, s)
                   else (0, 0, s) in
                 let '(s, rest, ok) := PakFile.ReadIndexFromStream_items uh n s in
                 (s, mkItem name flags offset uncompressedSize size [] :: rest, ok))))).
  { intros name s2 Hname. destruct (ReadVariableUint64 s2) as [offset s3].
    destruct (negb (has_flag flags ItemFlags_Directory)).
    - destruct (ReadVariableUint32 s3) as [usize s4].
      destruct (HasCompressedSize flags).
      + destruct (ReadVariableUint32 s4) as [size s5].
        specialize (IH s5). destruct (PakFile.ReadIndexFromStream_items uh n s5) as [[s6 rest] ok].
        simpl in *. constructor; [exact Hname|exact IH].
      + specialize (IH s4). destruct (PakFile.ReadIndexFromStream_items uh n s4) as [[s6 rest] ok].
        simpl in *. constructor; [exact Hname|exact IH].
    - specialize (IH s3). destruct (PakFile.ReadIndexFromStream_items uh n s3) as [[s6 rest] ok].
      simpl in *. constructor; [exact Hname|exact IH]. }
  destruct uh.
  - pose proof (length_ReadBuffer s1 HashIndexLength) as Hname.
    destruct (ReadBuffer s1 HashIndexLength) as [name s2]. branch. apply Hrest.
    intros _. exact Hname.
  - destruct (ReadVariableUint32 s1) as [nameLength s2].
    destruct ((nameLength =? 0) || (nameLength <? INT32_MAX)).
    + branch. destruct (ReadBuffer s2 (to_int32 nameLength)) as [name s3]. branch. apply Hrest.
      discriminate.
    + branch. apply Forall_forall. intros x _. discriminate.
Qed.

(** X5. In flat mode every name the constructor stores has exactly
    [HashIndexLength] bytes, at every level and whatever the file holds,
    so the [memcmp] calls of [FindItem] stay inside the names they
    compare. *)
Theorem PakFile_new_hash_names : forall P path file,
  PakFile._useHashIndex (PakFile.new P path file) = true ->
  Forall_tree (fun item => length (Name item) = Z.to_nat HashIndexLength)
              (PakFile._rootItems (PakFile.new P path file)).
Proof.
  intros P path file. rewrite new_footer.
  destruct file as [bytes|]; [|discriminate].
  destruct (footer_valid (Some bytes)); [|discriminate].
  destruct (Seek_Begin _ _) as [r s].
  cbv zeta.
  pose proof (ConstructsItemsFromIndex_Forall_tree
                (fun item => has_flag (footer_flags bytes) PakFileFlags_HashIndex = true ->
                             length (Name item) = Z.to_nat HashIndexLength)
                (has_flag (footer_flags bytes) PakFileFlags_HashIndex)
                ltac:(intros item children _ H; exact H)
                (ReadIndexFromStream_items_names _)
                P (Z.to_nat MaxDepth) s true
                (has_flag (footer_flags bytes) PakFileFlags_DeflateCompressedIndex) 0 []) as H.
  destruct (PakFile.ConstructsItemsFromIndex _ _ _ _ _ _ _ _ _) as [[s' mp] items].
  cbn [PakFile._useHashIndex PakFile._rootItems snd] in *. intros Hmode.
  revert H. apply Forall_tree_impl. intros item H. now apply H.
Qed.

Lemma PakFile_new_hash_names_witness :
  exists file,
    PakWriter.file_on_disk
      (PakWriter.Finalize reference_platform
         (AddFiles reference_platform (opened_writer None true false [])
                   [mkAddition [1] [97] Compression_None])) = Some file /\
    PakFile._useHashIndex (PakFile.new reference_platform [112] (Some file)) = true /\
    Forall_tree (fun item => length (Name item) = Z.to_nat HashIndexLength)
                (PakFile._rootItems (PakFile.new reference_platform [112] (Some file))).
Proof.
  destruct (PakWriter.file_on_disk
              (PakWriter.Finalize reference_platform
                 (AddFiles reference_platform (opened_writer None true false [])
                           [mkAddition [1] [97] Compression_None]))) as [file|] eqn:Hfile;
    [|vm_compute in Hfile; discriminate Hfile].
  assert (Hmode : PakFile._useHashIndex (PakFile.new reference_platform [112] (Some file))
                  = true).
  { vm_compute in Hfile. injection Hfile as <-. vm_compute. reflexivity. }
  exists file. split; [reflexivity|]. split; [exact Hmode|].
  exact (PakFile_new_hash_names reference_platform [112] (Some file) Hmode).
Defined.

Lemma ReadIndexFromStream_mount_point : forall P useHashIndex s items,
  let mountPoint :=
    snd (fst (fst (PakFile.ReadIndexFromStream P useHashIndex s true [] items))) in
  (mountPoint = [] \/ exists dir c, mountPoint = dir ++ [c] /\ is_separator c = true) /\
  Z.of_nat (length mountPoint) <= INT16_MAX.
Proof.
  intros P uh s items. unfold PakFile.ReadIndexFromStream.
  destruct (ReadVariableUint32 s) as [mountPointLength s1] eqn:Elen.
  assert (Hlen : 0 <= mountPointLength).
  { unfold ReadVariableUint32 in Elen. destruct (ReadVariableUint 5 s 0 0) as [v s'].
    injection Elen as <- _. unfold to_uint32. apply Z.mod_pos_bound. lia. }
  destruct (mountPointLength <? INT16_MAX) eqn:Hlt; branch.
  - apply Z.ltb_lt in Hlt.
    pose proof (length_ReadBuffer s1 (to_int32 mountPointLength)) as Hsize.
    destruct (ReadBuffer s1 (to_int32 mountPointLength)) as [mp s2]. cbn [fst] in Hsize.
    assert (Hint : to_int32 mountPointLength = mountPointLength).
    { unfold to_int32, INT16_MAX in *. rewrite Z.mod_small by lia. lia. }
    rewrite Hint in Hsize.
    branch.
    destruct (ReadVariableUint32 s2) as [itemCount s3].
    destruct (PakFile.ReadIndexFromStream_items uh (Z.to_nat itemCount) s3) as [[s4 its] ok].
    cbn [fst snd].
    destruct (rev mp) as [|c r] eqn:Erev.
    + split; [left|].
      * apply (f_equal (@rev Z)) in Erev. rewrite rev_involutive in Erev. exact Erev.
      * unfold INT16_MAX in *. lia.
    + assert (Emp : mp = rev r ++ [c]).
      { apply (f_equal (@rev Z)) in Erev. rewrite rev_involutive in Erev. exact Erev. }
      destruct (is_separator c) eqn:Ec.
      * split; [right; exists (rev r), c; split; assumption|]. unfold INT16_MAX in *. lia.
      * split.
        -- right. exists mp, (PakFile.PathSeparator P). split; [reflexivity|].
           unfold PakFile.PathSeparator. destruct (TARGET_WINDOWS P); reflexivity.
        -- rewrite length_app. cbn [length]. unfold INT16_MAX in *. lia.
  - cbn [fst snd]. split; [left; reflexivity|]. unfold INT16_MAX. cbn. lia.
Qed.

(** X6. The mount point of a [PakFile] is empty or ends with a path
    separator, and is never longer than [INT16_MAX] characters, whatever
    file the constructor was given. *)
Theorem PakFile_new_mount_point : forall P path file,
  (PakFile.GetMountPoint (PakFile.new P path file) = [] \/
   exists dir c,
     PakFile.GetMountPoint (PakFile.new P path file) = dir ++ [c] /\ is_separator c = true) /\
  Z.of_nat (length (PakFile.GetMountPoint (PakFile.new P path file))) <= INT16_MAX.
Proof.
  intros P path file. rewrite new_footer. unfold PakFile.GetMountPoint.
  assert (Hempty : ([] = @nil Z \/
                    exists dir c, @nil Z = dir ++ [c] /\ is_separator c = true) /\
                   Z.of_nat (length (@nil Z)) <= INT16_MAX).
  { split; [left; reflexivity|]. unfold INT16_MAX. cbn. lia. }
  destruct file as [bytes|]; [|exact Hempty].
  destruct (footer_valid (Some bytes)); [|exact Hempty].
  destruct (Seek_Begin _ _) as [r s]. cbv zeta.
  change (Z.to_nat MaxDepth) with (S 63).
  cbn [PakFile.ConstructsItemsFromIndex].
  change (0 <? MaxDepth) with true. branch.
  set (uh := has_flag (footer_flags bytes) PakFileFlags_HashIndex).
  assert (Hread : forall dc,
    let mountPoint :=
      snd (fst (fst (if dc : bool
                     then PakFile.ReadIndexFromStreamDeflateCompressed P uh s true [] []
                     else PakFile.ReadIndexFromStream P uh s true [] []))) in
    (mountPoint = [] \/ exists dir c, mountPoint = dir ++ [c] /\ is_separator c = true) /\
    Z.of_nat (length mountPoint) <= INT16_MAX).
  { intros [|].
    - unfold PakFile.ReadIndexFromStreamDeflateCompressed.
      destruct (WITH_ZLIB P); [|exact Hempty].
      pose proof (ReadIndexFromStream_mount_point P uh
                    (mkStream (DeflateStream P (skipn (Z.to_nat (position s)) (bytes_of s))) 0)
                    []) as H.
      destruct (PakFile.ReadIndexFromStream P uh _ true [] []) as [[[s' mp] its] ok].
      exact H.
    - apply ReadIndexFromStream_mount_point. }
  specialize (Hread (has_flag (footer_flags bytes) PakFileFlags_DeflateCompressedIndex)).
  destruct (if has_flag (footer_flags bytes) PakFileFlags_DeflateCompressedIndex then _ else _)
    as [[[s1 mp1] items1] ok].
  cbn [fst snd] in Hread.
  destruct ok.
  - destruct (PakFile.ConstructsItemsFromIndex_each _ items1 s1) as [s2 items2].
    exact Hread.
  - exact Hread.
Qed.

(** X7. Whatever the file holds, only directories have children in the
    tree the constructor builds: an item without the [Directory] flag is
    stored as it was read, with no child items. *)
Theorem PakFile_new_files_are_leaves : forall P path file,
  files_are_leaves (PakFile._rootItems (PakFile.new P path file)).
Proof.
  intros P path file. rewrite new_footer. unfold files_are_leaves.
  destruct file as [bytes|]; [|constructor].
  destruct (footer_valid (Some bytes)); [|constructor].
  destruct (Seek_Begin _ _) as [r s]. cbv zeta.
  pose proof (ConstructsItemsFromIndex_Forall_tree
                (fun item => isDirectory item = false -> ChildItems item = [])
                (has_flag (footer_flags bytes) PakFileFlags_HashIndex)
                ltac:(intros item children Hdir _ Hfile;
                      change (isDirectory (set_ChildItems item children))
                        with (isDirectory item) in Hfile; congruence)
                ltac:(intros itemCount s0;
                      apply (Forall_impl _ (fun item H _ => H)
                               (ReadIndexFromStream_items_leaves _ itemCount s0)))
                P (Z.to_nat MaxDepth) s true
                (has_flag (footer_flags bytes) PakFileFlags_DeflateCompressedIndex) 0 []) as H.
  destruct (PakFile.ConstructsItemsFromIndex _ _ _ _ _ _ _ _ _) as [[s' mp] items].
  exact H.
Qed.

(** X8. In flat mode [FindItem] returns nothing but a root item whose
    name is the 8 bytes of the hash of the path, leading separators
    dropped; this holds on the tree of any file the constructor accepted,
    whatever follows the view of the path in its buffer ([tail]). *)
Theorem FindItem_flat_mode_sound : forall P steps path file name tail item,
  PakFile._useHashIndex (PakFile.new P path file) = true ->
  PakFile.FindItem P steps (PakFile.new P path file) name tail = Some (Some item) ->
  In item (PakFile._rootItems (PakFile.new P path file)) /\
  Name item = le_bytes 8 (FileNameToHash P (trimmedPrefix name)).
Proof.
  intros P steps path file name tail item Hmode Hfind.
  assert (Hnames : Forall_tree (fun item => length (Name item) = Z.to_nat HashIndexLength)
                               (PakFile._rootItems (PakFile.new P path file))).
  { revert Hmode. rewrite new_footer.
    destruct file as [bytes|]; [|discriminate].
    destruct (footer_valid (Some bytes)); [|discriminate].
    destruct (Seek_Begin _ _) as [r s]. cbv zeta.
    pose proof (ConstructsItemsFromIndex_Forall_tree
                  (fun item => has_flag (footer_flags bytes) PakFileFlags_HashIndex = true ->
                               length (Name item) = Z.to_nat HashIndexLength)
                  (has_flag (footer_flags bytes) PakFileFlags_HashIndex)
                  ltac:(intros x children _ H; exact H)
                  (ReadIndexFromStream_items_names _)
                  P (Z.to_nat MaxDepth) s true
                  (has_flag (footer_flags bytes) PakFileFlags_DeflateCompressedIndex) 0 []) as H.
    destruct (PakFile.ConstructsItemsFromIndex _ _ _ _ _ _ _ _ _) as [[s' mp] items].
    cbn [PakFile._useHashIndex PakFile._rootItems snd] in *. intros Hmode.
    revert H. apply Forall_tree_impl. intros x H. now apply H. }
  unfold PakFile.FindItem in Hfind. rewrite Hmode in Hfind.
  destruct (nth_error _ _) as [foundItem|] eqn:Hnth; [|discriminate].
  apply nth_error_In in Hnth.
  destruct (Forall_tree_In _ _ _ Hnames Hnth) as [Hlen _].
  rewrite (memcmp_eqb 8 (Name foundItem) _ Hlen (length_le_bytes 8 _)) in Hfind.
  destruct (String_eqb (Name foundItem) _) eqn:Heq; [|discriminate].
  injection Hfind as <-. apply String_eqb_eq in Heq. split; assumption.
Qed.

Lemma FindItem_flat_mode_sound_witness :
  exists file item,
    PakWriter.file_on_disk
      (PakWriter.Finalize reference_platform
         (AddFiles reference_platform (opened_writer None true false [])
                   [mkAddition [1] [97] Compression_None])) = Some file /\
    PakFile.FindItem reference_platform 0 (PakFile.new reference_platform [112] (Some file))
      [47; 65] [] = Some (Some item) /\
    Name item = le_bytes 8 (FileNameToHash reference_platform (trimmedPrefix [47; 65])).
Proof.
  destruct (PakWriter.file_on_disk
              (PakWriter.Finalize reference_platform
                 (AddFiles reference_platform (opened_writer None true false [])
                           [mkAddition [1] [97] Compression_None]))) as [file|] eqn:Hfile;
    [|vm_compute in Hfile; discriminate Hfile].
  assert (Hmode : PakFile._useHashIndex (PakFile.new reference_platform [112] (Some file))
                  = true).
  { vm_compute in Hfile. injection Hfile as <-. vm_compute. reflexivity. }
  destruct (PakFile.FindItem reference_platform 0
              (PakFile.new reference_platform [112] (Some file)) [47; 65] [])
    as [[item|]|] eqn:Hfind.
  - exists file, item. split; [reflexivity|]. split; [exact Hfind|].
    exact (proj2 (FindItem_flat_mode_sound reference_platform 0 [112] (Some file) [47; 65] []
                    item Hmode Hfind)).
  - exfalso. vm_compute in Hfile. injection Hfile as <-. vm_compute in Hfind. discriminate Hfind.
  - exfalso. vm_compute in Hfile. injection Hfile as <-. vm_compute in Hfind. discriminate Hfind.
Defined.

(** ** Looking paths up *)

Lemma empty_or_ends_with_separator_cons : forall c rest,
  rest <> [] ->
  empty_or_ends_with_separator (c :: rest) = empty_or_ends_with_separator rest.
Proof.
  intros c rest Hrest. unfold empty_or_ends_with_separator. simpl.
  destruct (rev rest) as [|d r] eqn:E; [|reflexivity].
  exfalso. apply Hrest. apply (f_equal (@rev Z)) in E. now rewrite rev_involutive in E.
Qed.

Lemma ends_with_name_tail : forall c rest,
  empty_or_ends_with_separator (c :: rest) = false ->
  is_separator c = true ->
  rest <> [] /\ empty_or_ends_with_separator rest = false.
Proof.
  intros c rest H Hc.
  destruct rest as [|d rest]; [unfold empty_or_ends_with_separator in H; simpl in H; congruence|].
  split; [discriminate|]. rewrite empty_or_ends_with_separator_cons in H by discriminate.
  exact H.
Qed.

Lemma ends_with_name_trimmedPrefix : forall path,
  empty_or_ends_with_separator path = false ->
  empty_or_ends_with_separator (trimmedPrefix path) = false.
Proof.
  induction path as [|c rest IH]; intros H; [exact H|].
  simpl. destruct (is_separator c) eqn:Ec; [|exact H].
  apply IH. now apply (ends_with_name_tail c rest).
Qed.

Lemma ends_with_name_suffix : forall path i,
  empty_or_ends_with_separator path = false ->
  findAny path = Some i ->
  empty_or_ends_with_separator (skipn (S i) path) = false.
Proof.
  induction path as [|c rest IH]; intros i H Hf; [discriminate|].
  simpl in Hf. destruct (is_separator c) eqn:Ec.
  - injection Hf as <-. simpl. now apply (ends_with_name_tail c rest).
  - destruct (findAny rest) as [k|] eqn:Ek; [|discriminate]. injection Hf as <-.
    change (skipn (S (S k)) (c :: rest)) with (skipn (S k) rest).
    apply IH; [|reflexivity].
    rewrite empty_or_ends_with_separator_cons in H; [exact H|].
    intros ->. discriminate.
Qed.

Lemma components_cons_separator : forall c rest,
  is_separator c = true -> components (c :: rest) = components rest.
Proof.
  intros c rest Hc. unfold components. simpl. now rewrite Hc.
Qed.

Lemma components_trimmedPrefix : forall path,
  components (trimmedPrefix path) = components path.
Proof.
  induction path as [|c rest IH]; [reflexivity|].
  simpl. destruct (is_separator c) eqn:Ec; [|reflexivity].
  now rewrite components_cons_separator.
Qed.

Lemma components_findAny : forall path,
  match findAny path with
  | None => components path = match path with [] => [] | _ :: _ => [path] end
  | Some i =>
      components path
      = match firstn i path with
        | [] => components (skipn (S i) path)
        | _ :: _ => firstn i path :: components (skipn (S i) path)
        end
  end.
Proof.
  intros path. pose proof (split_path_findAny path) as H. unfold components.
  destruct (findAny path) as [i|]; rewrite H; simpl.
  - destruct (firstn i path); reflexivity.
  - destruct path; reflexivity.
Qed.

Lemma components_not_nil : forall path,
  empty_or_ends_with_separator path = false -> components path <> [].
Proof.
  induction path as [|c rest IH]; intros H; [discriminate|].
  destruct (is_separator c) eqn:Ec.
  - rewrite components_cons_separator by exact Ec.
    apply IH. now apply (ends_with_name_tail c rest).
  - unfold components. simpl. rewrite Ec.
    destruct (split_path rest) as [|name names]; simpl; discriminate.
Qed.

(** The loop of [FindItem] computes the level-by-level lookup of the
    components, once the path ends with a name. *)
Lemma FindItem_loop_lookup : forall steps items path,
  empty_or_ends_with_separator path = false ->
  (length path < steps)%nat ->
  PakFile.FindItem_loop steps items path [] = Some (lookup items (components path)).
Proof.
  induction steps as [|steps IH]; intros items path Hpath Hsteps; [lia|].
  rewrite FindItem_loop_terminated.
  pose proof (components_findAny path) as Hc.
  destruct (findAny path) as [i|] eqn:Ef.
  - pose proof (findAny_lt _ _ Ef) as Hi.
    pose proof (ends_with_name_suffix _ _ Hpath Ef) as Hsuffix.
    assert (Hlen : (length (skipn (S i) path) < steps)%nat) by (rewrite length_skipn; lia).
    rewrite Hc.
    destruct (firstn i path) as [|c name] eqn:Ename.
    + now apply IH.
    + pose proof (components_not_nil _ Hsuffix) as Hne.
      cbn [lookup]. unfold find_name.
      destruct (nth_error items _) as [foundItem|]; [|reflexivity].
      destruct (String_eqb (Name foundItem) (c :: name)); [|reflexivity].
      cbv beta iota. change (negb true) with false. cbv iota.
      rewrite (IH _ _ Hsuffix Hlen).
      destruct (components (skipn (S i) path)); [contradiction|reflexivity].
  - destruct path as [|c name]; [discriminate|].
    rewrite Hc. cbn [lookup]. unfold find_name.
    destruct (nth_error items _) as [foundItem|]; [|reflexivity].
    destruct (String_eqb (Name foundItem) (c :: name)); reflexivity.
Qed.

Lemma FindItem_tree_lookup : forall P pak path k,
  PakFile._useHashIndex pak = false ->
  empty_or_ends_with_separator path = false ->
  PakFile.FindItem P (S (length path) + k) pak path []
  = Some (lookup (PakFile._rootItems pak) (components path)).
Proof.
  intros P pak path k Hmode Hpath. unfold PakFile.FindItem. rewrite Hmode.
  rewrite FindItem_loop_lookup.
  - now rewrite components_trimmedPrefix.
  - now apply ends_with_name_trimmedPrefix.
  - pose proof (length_trimmedPrefix path). lia.
Qed.

Lemma FindItem_returns : forall P pak path tail k,
  empty_or_ends_with_separator path = false ->
  (PakFile._useHashIndex pak = false -> tail = []) ->
  exists found, PakFile.FindItem P (S (length path) + k) pak path tail = Some found.
Proof.
  intros P pak path tail k Hpath Htail.
  destruct (PakFile._useHashIndex pak) eqn:Hmode.
  - unfold PakFile.FindItem. rewrite Hmode.
    destruct (nth_error _ _) as [foundItem|]; [|eexists; reflexivity].
    destruct (negb _); eexists; reflexivity.
  - rewrite (Htail eq_refl).
    rewrite FindItem_tree_lookup by assumption. eexists; reflexivity.
Qed.

(** X9. [OpenFile] returns on every item tree: in flat mode for every
    path, in tree mode for every path handed over as a view that ends at
    the terminator of its buffer ([tail], the C string that follows the
    view, is empty).  The paths on which the loop of [FindItem] never
    ends then (empty ones and those ending with a separator) are turned
    away before the lookup, and on any other path the loop is through
    within as many rounds as the path has characters. *)
Theorem OpenFile_returns : forall P pak file path tail k,
  (PakFile._useHashIndex pak = false -> tail = []) ->
  exists stream, PakFile.OpenFile P (S (length path) + k) pak file path tail = Some stream.
Proof.
  intros P pak file path tail k Htail. unfold PakFile.OpenFile.
  destruct (empty_or_ends_with_separator path) eqn:Hpath; [eexists; reflexivity|].
  destruct (FindItem_returns P pak path tail k Hpath Htail) as [found ->].
  destruct found as [foundItem|]; [|eexists; reflexivity].
  destruct (isDirectory foundItem); [eexists; reflexivity|].
  destruct (has_flag _ ItemFlags_DeflateCompressed);
    [destruct (WITH_ZLIB P); eexists; reflexivity|].
  destruct (has_flag _ ItemFlags_Lz4Compressed);
    [destruct (WITH_LZ4 P); eexists; reflexivity|].
  destruct (has_flag _ ItemFlags_ZstdCompressed);
    [destruct (WITH_ZSTD P); eexists; reflexivity|].
  eexists; reflexivity.
Qed.

Lemma OpenFile_returns_witness :
  exists stream,
    PakFile.OpenFile reference_platform 4 reference_pak [] [97; 47; 98] [] = Some stream.
Proof.
  exact (OpenFile_returns reference_platform reference_pak [] [97; 47; 98] [] 0
           (fun _ => eq_refl)).
Defined.

(** X10. In tree mode [FindItem] tells paths that are handed over as
    views ending at the terminator of their buffer (no C string follows
    them: the last argument is empty) apart by their non-empty components
    only: two such paths that end with a name and have the same
    components (whatever separators they use, leading or repeated ones
    included) find the same item, or both none. *)
Theorem FindItem_tree_mode_separators : forall P pak p q k l,
  PakFile._useHashIndex pak = false ->
  empty_or_ends_with_separator p = false ->
  empty_or_ends_with_separator q = false ->
  components p = components q ->
  PakFile.FindItem P (S (length p) + k) pak p []
  = PakFile.FindItem P (S (length q) + l) pak q [].
Proof.
  intros P pak p q k l Hmode Hp Hq Hsame.
  rewrite !FindItem_tree_lookup by assumption. now rewrite Hsame.
Qed.

Lemma FindItem_tree_mode_separators_witness :
  PakFile._useHashIndex reference_pak = false /\
  components [97; 47; 47; 98] = components [92; 97; 92; 98] /\
  PakFile.FindItem reference_platform 5 reference_pak [97; 47; 47; 98] []
  = PakFile.FindItem reference_platform 7 reference_pak [92; 97; 92; 98] [].
Proof.
  split; [reflexivity|]. split; [reflexivity|].
  apply (FindItem_tree_mode_separators reference_platform reference_pak
           [97; 47; 47; 98] [92; 97; 92; 98] 0 2); reflexivity.
Defined.

Lemma FindItem_loop_sound : forall steps items path item,
  PakFile.FindItem_loop steps items path [] = Some (Some item) ->
  resolves items (components path) item.
Proof.
  induction steps as [|steps IH]; intros items path item H; [discriminate|].
  rewrite FindItem_loop_terminated in H.
  pose proof (components_findAny path) as Hc.
  destruct (findAny path) as [i|] eqn:Ef.
  - rewrite Hc.
    destruct (firstn i path) as [|c name] eqn:Ename; [now apply IH|].
    destruct (nth_error items _) as [foundItem|] eqn:Efound; [|discriminate].
    destruct (String_eqb (Name foundItem) (c :: name)) eqn:Eeq; [|discriminate].
    cbv beta iota in H. change (negb true) with false in H. cbv iota in H.
    apply String_eqb_eq in Eeq. rewrite <- Eeq.
    apply resolves_step; [now apply nth_error_In in Efound|now apply IH].
  - destruct path as [|c name]; [now apply IH|].
    rewrite Hc.
    destruct (nth_error items _) as [foundItem|] eqn:Efound; [|discriminate].
    destruct (String_eqb (Name foundItem) (c :: name)) eqn:Eeq; [|discriminate].
    cbv beta iota in H. change (negb true) with false in H. cbv iota in H.
    injection H as <-.
    apply String_eqb_eq in Eeq. rewrite <- Eeq.
    apply resolves_last. now apply nth_error_In in Efound.
Qed.

(** X11. In tree mode, for a path handed over as a view that ends at the
    terminator of its buffer (no C string follows it: the last argument
    is empty), [FindItem] returns nothing but an item the components of
    the path lead to by name, array by array; so [FileExists] says [true]
    of such a path only if it names a file of the tree. *)
Theorem FindItem_tree_mode_sound : forall P steps pak path item,
  PakFile._useHashIndex pak = false ->
  PakFile.FindItem P steps pak path [] = Some (Some item) ->
  resolves (PakFile._rootItems pak) (components path) item.
Proof.
  intros P steps pak path item Hmode H. unfold PakFile.FindItem in H.
  rewrite Hmode in H. rewrite <- components_trimmedPrefix.
  now apply (FindItem_loop_sound steps).
Qed.

Lemma FindItem_tree_mode_sound_witness :
  PakFile._useHashIndex reference_pak = false /\
  PakFile.FindItem reference_platform 4 reference_pak [97; 47; 98] []
    = Some (Some (mkItem [98] ItemFlags_None 8 1 0 [])) /\
  resolves (PakFile._rootItems reference_pak) (components [97; 47; 98])
           (mkItem [98] ItemFlags_None 8 1 0 []).
Proof.
  split; [reflexivity|]. split; [reflexivity|].
  apply (FindItem_tree_mode_sound reference_platform 4 reference_pak [97; 47; 98]);
    reflexivity.
Defined.

(** X12. Binary search finds what is there: in tree mode, an item that the
    components of a path lead to through arrays sorted strictly ascending
    by name is the item [FindItem] returns for the path, when the path is
    handed over as a view that ends at the terminator of its buffer (no C
    string follows it: the last argument is empty). *)
Theorem FindItem_tree_mode_complete : forall P steps pak path item,
  PakFile._useHashIndex pak = false ->
  reaches (PakFile._rootItems pak) (split_path (trimmedPrefix path)) item ->
  Forall (fun name => name <> []) (split_path (trimmedPrefix path)) ->
  (length path < steps)%nat ->
  PakFile.FindItem P steps pak path [] = Some (Some item).
Proof.
  intros P steps pak path item Hmode Hreaches Hnames Hsteps.
  unfold PakFile.FindItem. rewrite Hmode.
  apply (FindItem_loop_reaches _ _ _ Hreaches Hnames); [reflexivity|].
  pose proof (length_split_path (trimmedPrefix path)).
  pose proof (length_trimmedPrefix path). lia.
Qed.

Lemma FindItem_tree_mode_complete_witness :
  PakFile._useHashIndex reference_pak = false /\
  reaches (PakFile._rootItems reference_pak) (split_path (trimmedPrefix [47; 97; 92; 98]))
          (mkItem [98] ItemFlags_None 8 1 0 []) /\
  PakFile.FindItem reference_platform 5 reference_pak [47; 97; 92; 98] []
    = Some (Some (mkItem [98] ItemFlags_None 8 1 0 [])).
Proof.
  assert (Hreaches : reaches (PakFile._rootItems reference_pak)
                       (split_path (trimmedPrefix [47; 97; 92; 98]))
                       (mkItem [98] ItemFlags_None 8 1 0 [])).
  { apply (reaches_step _ (mkItem [97] ItemFlags_Directory 0 0 0
                             [mkItem [98] ItemFlags_None 8 1 0 []]) [[98]]).
    - repeat constructor.
    - left. reflexivity.
    - apply (reaches_last [mkItem [98] ItemFlags_None 8 1 0 []]
                          (mkItem [98] ItemFlags_None 8 1 0 [])).
      + repeat constructor.
      + left. reflexivity. }
  split; [reflexivity|]. split; [exact Hreaches|].
  apply (FindItem_tree_mode_complete reference_platform 5 reference_pak [47; 97; 92; 98]).
  - reflexivity.
  - exact Hreaches.
  - repeat constructor; discriminate.
  - simpl. lia.
Defined.

Lemma FileNameToHash_loop_trimmedPrefix : forall path,
  FileNameToHash_loop (trimmedPrefix path) false = FileNameToHash_loop path true.
Proof.
  induction path as [|c rest IH]; [reflexivity|].
  cbn [trimmedPrefix]. destruct (is_separator c) eqn:Ec.
  - rewrite IH. cbn [FileNameToHash_loop]. rewrite (separator_unified c Ec).
    change (slash =? slash) with true. reflexivity.
  - cbn [FileNameToHash_loop].
    assert (Hns : ((if c =? backslash then slash else c) =? slash) = false).
    { unfold is_separator in Ec. apply orb_false_iff in Ec as [E1 E2].
      rewrite E2. exact E1. }
    rewrite Hns. reflexivity.
Qed.

(** X13. In flat mode [FindItem] does not tell the spellings of one
    logical path apart: paths that differ in the case of letters, in the
    style of their separators or in runs of separators, as they are given
    or once their leading separators are dropped, find the same item, or
    both none, whatever follows the views of the paths in their buffers. *)
Theorem FindItem_flat_mode_same_logical_path : forall P steps pak p q tail_p tail_q,
  PakFile._useHashIndex pak = true ->
  same_logical_path p q \/ same_logical_path (trimmedPrefix p) (trimmedPrefix q) ->
  PakFile.FindItem P steps pak p tail_p = PakFile.FindItem P steps pak q tail_q.
Proof.
  intros P steps pak p q tail_p tail_q Hmode Hsame. unfold PakFile.FindItem. rewrite Hmode.
  assert (Hhash : FileNameToHash P (trimmedPrefix p) = FileNameToHash P (trimmedPrefix q)).
  { unfold FileNameToHash. destruct Hsame as [Hsame|Hsame].
    - rewrite !FileNameToHash_loop_trimmedPrefix.
      now destruct (same_logical_path_normal p q Hsame true) as [-> _].
    - now destruct (same_logical_path_normal _ _ Hsame false) as [-> _]. }
  now rewrite Hhash.
Qed.

Lemma FindItem_flat_mode_same_logical_path_witness :
  same_logical_path (trimmedPrefix [47; 65; 92; 98]) (trimmedPrefix [97; 47; 47; 66]) /\
  PakFile.FindItem reference_platform 0
    (PakFile.mk [112] [] true [mkItem (le_bytes 8 (97 + 47 + 98)) 0 8 1 0 []])
    [47; 65; 92; 98] []
  = PakFile.FindItem reference_platform 0
      (PakFile.mk [112] [] true [mkItem (le_bytes 8 (97 + 47 + 98)) 0 8 1 0 []])
      [97; 47; 47; 66] [47].
Proof.
  assert (Hsame : same_logical_path (trimmedPrefix [47; 65; 92; 98])
                                    (trimmedPrefix [97; 47; 47; 66])).
  { change (same_logical_path [65; 92; 98] [97; 47; 47; 66]).
    apply slp_trans with [97; 92; 98]; [apply (slp_letter_case [] 65 [92; 98]); lia|].
    apply slp_trans with [97; 47; 98]; [apply (slp_slash_style [97] [98])|].
    apply slp_trans with [97; 47; 66];
      [apply slp_sym; apply (slp_letter_case [97; 47] 66 []); lia|].
    apply slp_sym. apply (slp_separator_run [97] 47 47 [66]); reflexivity. }
  split; [exact Hsame|].
  apply (FindItem_flat_mode_same_logical_path reference_platform 0);
    [reflexivity|right; exact Hsame].
Defined.

(** X14. With every codec built in, [OpenFile] fails on a path that ends
    with a name exactly when [FileExists] says no: a file that is found is
    a file that can be opened, and nothing else can. *)
Theorem OpenFile_fails_iff_no_file : forall P steps pak file path tail,
  WITH_ZLIB P = true -> WITH_LZ4 P = true -> WITH_ZSTD P = true ->
  empty_or_ends_with_separator path = false ->
  (PakFile.OpenFile P steps pak file path tail = Some None <->
   PakFile.FileExists P steps pak path tail = Some false).
Proof.
  intros P steps pak file path tail Hzlib Hlz4 Hzstd Hpath.
  unfold PakFile.OpenFile, PakFile.FileExists.
  rewrite Hpath, Hzlib, Hlz4, Hzstd.
  destruct (PakFile.FindItem P steps pak path tail) as [[foundItem|]|].
  - destruct (isDirectory foundItem); [split; reflexivity|].
    destruct (has_flag _ ItemFlags_DeflateCompressed); [split; discriminate|].
    destruct (has_flag _ ItemFlags_Lz4Compressed); [split; discriminate|].
    destruct (has_flag _ ItemFlags_ZstdCompressed); split; discriminate.
  - split; reflexivity.
  - split; discriminate.
Qed.

Lemma OpenFile_fails_iff_no_file_witness :
  empty_or_ends_with_separator [97] = false /\
  (PakFile.OpenFile reference_platform 2 reference_pak [] [97] [] = Some None <->
   PakFile.FileExists reference_platform 2 reference_pak [97] [] = Some false).
Proof.
  split; [reflexivity|].
  apply (OpenFile_fails_iff_no_file reference_platform 2 reference_pak [] [97] []);
    reflexivity.
Defined.

(** X15. On a path that ends with a name, handed over in tree mode as a
    view that ends at the terminator of its buffer ([tail], the C string
    that follows the view, is empty), [FileExists] and [DirectoryExists]
    return, within as many rounds of the loop of [FindItem] as the path
    has characters, and never both with [true]. *)
Theorem FileExists_DirectoryExists_return : forall P pak path tail k,
  empty_or_ends_with_separator path = false ->
  (PakFile._useHashIndex pak = false -> tail = []) ->
  exists isFile isDirectory,
    PakFile.FileExists P (S (length path) + k) pak path tail = Some isFile /\
    PakFile.DirectoryExists P (S (length path) + k) pak path tail = Some isDirectory /\
    isFile && isDirectory = false.
Proof.
  intros P pak path tail k Hpath Htail. unfold PakFile.FileExists, PakFile.DirectoryExists.
  destruct (FindItem_returns P pak path tail k Hpath Htail) as [[foundItem|] ->].
  - exists (negb (isDirectory foundItem)), (isDirectory foundItem).
    repeat split. now destruct (isDirectory foundItem).
  - exists false, false. repeat split.
Qed.

Lemma FileExists_DirectoryExists_return_witness :
  empty_or_ends_with_separator [97; 47; 98] = false /\
  exists isFile isDirectory,
    PakFile.FileExists reference_platform 4 reference_pak [97; 47; 98] [] = Some isFile /\
    PakFile.DirectoryExists reference_platform 4 reference_pak [97; 47; 98] []
      = Some isDirectory /\
    isFile && isDirectory = false.
Proof.
  split; [reflexivity|].
  exact (FileExists_DirectoryExists_return reference_platform reference_pak [97; 47; 98] [] 0
           eq_refl (fun _ => eq_refl)).
Defined.

(** ** More on adding files *)

Lemma find_by_name_replace_nth : forall name items j foundItem y,
  PakWriter.find_by_name name items = Some (j, foundItem) ->
  Name y = Name foundItem ->
  PakWriter.find_by_name name (PakWriter.replace_nth j y items) = Some (j, y).
Proof.
  intros name. induction items as [|x items IH]; intros j foundItem y H Hy; simpl in H;
    [discriminate|].
  destruct (String_eqb (Name x) name) eqn:E.
  - injection H as <- <-. simpl. now rewrite Hy, E.
  - destruct (PakWriter.find_by_name name items) as [[k f]|] eqn:Ef; [|discriminate].
    injection H as <- <-. simpl. rewrite E.
    now rewrite (IH k f y eq_refl Hy).
Qed.

Lemma find_by_name_snoc : forall name items y,
  PakWriter.find_by_name name items = None ->
  String_eqb (Name y) name = true ->
  PakWriter.find_by_name name (items ++ [y]) = Some (length items, y).
Proof.
  intros name. induction items as [|x items IH]; intros y H Hy; simpl in *.
  - now rewrite Hy.
  - destruct (String_eqb (Name x) name); [discriminate|].
    destruct (PakWriter.find_by_name name items) as [[k f]|]; [discriminate|].
    now rewrite (IH y eq_refl Hy).
Qed.

Lemma replace_nth_same : forall items j x,
  nth_error items j = Some x -> PakWriter.replace_nth j x items = items.
Proof.
  induction items as [|a items IH]; intros j x H; destruct j; simpl in *; try discriminate.
  - now injection H as <-.
  - now rewrite IH.
Qed.

Lemma replace_nth_snoc : forall items x y,
  PakWriter.replace_nth (length items) y (items ++ [x]) = items ++ [y].
Proof.
  induction items as [|a items IH]; intros x y; simpl; [reflexivity|now rewrite IH].
Qed.

Lemma nth_error_replace_nth : forall items j x y,
  nth_error items j = Some x -> nth_error (PakWriter.replace_nth j y items) j = Some y.
Proof.
  induction items as [|a items IH]; intros j x y H; destruct j; simpl in *; try discriminate.
  - reflexivity.
  - now apply (IH j x).
Qed.

Lemma added_files_of : forall fresh item dirs items items',
  added fresh item dirs items items' ->
  isDirectory item = false -> ChildItems item = [] ->
  Permutation (files_of items') (item :: files_of items).
Proof.
  intros fresh item dirs items items' Hadded Hfile Hleaf.
  assert (Hitem : files_of_item item = [item]).
  { rewrite files_of_item_eq, Hfile, Hleaf. simpl.
    rewrite <- Hleaf at 1. now rewrite set_ChildItems_same. }
  induction Hadded as [items Hfresh
                      |names items j dir children Hnth Hadded IH
                      |name names items children Hnone Hadded IH].
  - rewrite files_of_app. change (files_of [item]) with (files_of_item item ++ []).
    rewrite Hitem. simpl. symmetry. apply Permutation_cons_append.
  - destruct (replace_nth_split items j dir (set_ChildItems dir children) Hnth)
      as (before & after & E1 & E2 & _).
    rewrite E2, E1, !files_of_app.
    change (files_of (?x :: after)) with (files_of_item x ++ files_of after).
    rewrite !files_of_item_eq.
    change (isDirectory (set_ChildItems dir children)) with (isDirectory dir).
    change (ChildItems (set_ChildItems dir children)) with children.
    change (set_ChildItems (set_ChildItems dir children) []) with (set_ChildItems dir []).
    set (own := if isDirectory dir then [] else [set_ChildItems dir []]).
    apply Permutation_trans
      with (files_of before ++ (own ++ item :: files_of (ChildItems dir)) ++ files_of after).
    + apply Permutation_app_head. apply Permutation_app_tail.
      apply Permutation_app_head. exact IH.
    + assert (E3 : forall X,
                files_of before ++ (own ++ X) ++ files_of after
                = (files_of before ++ own) ++ X ++ files_of after)
        by (intros X; now rewrite <- !app_assoc).
      rewrite !E3. symmetry. apply (Permutation_middle (files_of before ++ own)).
  - rewrite files_of_app.
    change (files_of [?x]) with (files_of_item x ++ []).
    rewrite files_of_item_eq, app_nil_r. simpl.
    apply Permutation_trans with (files_of items ++ [item]).
    + apply Permutation_app_head. exact IH.
    + symmetry. apply Permutation_cons_append.
Qed.

Lemma AddFile_to_failure : forall P useHashIndex content pc out items path,
  fst (fst (PakWriter.AddFile_to P useHashIndex content pc out items path)) = false ->
  snd (PakWriter.AddFile_to P useHashIndex content pc out items path) = items.
Proof.
  intros P uh content pc out items path. unfold PakWriter.AddFile_to.
  destruct (existsb _ items); [reflexivity|].
  destruct pc; try destruct (WITH_ZLIB P); try destruct (WITH_LZ4 P); try destruct (WITH_ZSTD P);
    cbv beta iota zeta;
    destruct (negb (Z.of_nat (length content) >? 0)); try reflexivity;
    match goal with
    | |- context [negb ?c] => destruct (negb c)
    end; try reflexivity; discriminate.
Qed.

Lemma FindOrCreateParentItem_loop_failure : forall P content pc out steps items path r items',
  PakWriter.FindOrCreateParentItem_loop steps items path
    (PakWriter.AddFile_to P false content pc out) = Some (r, items') ->
  fst r = false -> files_of items' = files_of items.
Proof.
  intros P content pc out steps items path r items'.
  apply (FindOrCreateParentItem_loop_rel (PakWriter.AddFile_to P false content pc out)
           (fun _ items r items' => fst r = false -> files_of items' = files_of items)).
  - intros its p _ Hr. now rewrite AddFile_to_failure.
  - intros p i its j foundItem r0 children _ Hfind IH Hr. specialize (IH Hr).
    apply find_by_name_nth_error in Hfind as [Hnth _].
    destruct (replace_nth_split its j foundItem (set_ChildItems foundItem children) Hnth)
      as (before & after & E1 & E2 & _).
    rewrite E2, E1. rewrite !files_of_app. f_equal.
    change (files_of (?x :: after)) with (files_of_item x ++ files_of after).
    f_equal. rewrite !files_of_item_eq.
    unfold isDirectory, set_ChildItems. simpl. rewrite IH. reflexivity.
  - intros p i its r0 children _ _ IH Hr. specialize (IH Hr).
    rewrite files_of_app.
    change (files_of [?x]) with (files_of_item x ++ []).
    rewrite files_of_item_eq. simpl. rewrite IH.
    simpl. now rewrite app_nil_r.
Qed.

(** X17. What a call of [AddFile] does to the file records of the tree:
    a call that returns [false] leaves them all as they are (it may have
    created directories), and a call that returns [true] adds exactly one,
    the record of the content at the position the output stream had, and
    changes no other. *)
Theorem AddFile_file_records : forall P w content path pc,
  (fst (PakWriter.AddFile P w content path pc) = false ->
   files_of (PakWriter._rootItems (snd (PakWriter.AddFile P w content path pc)))
   = files_of (PakWriter._rootItems w)) /\
  (fst (PakWriter.AddFile P w content path pc) = true ->
   exists out,
     PakWriter._outputStream w = Some out /\
     Permutation
       (files_of (PakWriter._rootItems (snd (PakWriter.AddFile P w content path pc))))
       (file_item P (last (key P (PakWriter._useHashIndex w) path) []) content pc
                  (GetPosition out)
        :: files_of (PakWriter._rootItems w))).
Proof.
  intros P w content path pc. split.
  - unfold PakWriter.AddFile.
    destruct (PakWriter._outputStream w) as [out|]; [|reflexivity].
    destruct (fs_valid out); [|reflexivity]. simpl negb. cbv iota.
    destruct (empty_or_ends_with_separator path); [reflexivity|].
    destruct (PakWriter._useHashIndex w).
    + pose proof (AddFile_to_failure P true content pc out (PakWriter._rootItems w) path) as H.
      destruct (PakWriter.AddFile_to P true content pc out (PakWriter._rootItems w) path)
        as [[ok o] its].
      simpl in *. intros Hok. now rewrite H.
    + unfold PakWriter.FindOrCreateParentItem.
      destruct (PakWriter.FindOrCreateParentItem_loop _ _ _ _) as [[[ok o] its]|] eqn:H;
        [|reflexivity].
      simpl. intros Hok. now apply (FindOrCreateParentItem_loop_failure _ _ _ _ _ _ _ _ _ H).
  - intros Hok.
    destruct (PakWriter.AddFile P w content path pc) as [ok w'] eqn:E.
    simpl in Hok. subst ok.
    apply AddFile_success in E as (written & Hout & _ & _ & _ & Hadded).
    exists (mkFileStream true written). split; [exact Hout|].
    simpl. apply (added_files_of _ _ _ _ _ Hadded).
    + apply file_item_is_file.
    + reflexivity.
Qed.

Lemma AddFile_mode : forall P w content path pc,
  PakWriter._useHashIndex (snd (PakWriter.AddFile P w content path pc))
  = PakWriter._useHashIndex w.
Proof.
  intros P w content path pc. unfold PakWriter.AddFile.
  destruct (PakWriter._outputStream w) as [out|]; [|reflexivity].
  destruct (negb (fs_valid out)); [reflexivity|].
  destruct (empty_or_ends_with_separator path); [reflexivity|].
  destruct (PakWriter._useHashIndex w) eqn:Hmode.
  - destruct (PakWriter.AddFile_to P true content pc out _ path) as [[ok o] its]. exact Hmode.
  - destruct (PakWriter.FindOrCreateParentItem _ _ _) as [[[ok o] its]|]; exact Hmode.
Qed.

Lemma AddFile_keeps_names : forall P w content path pc,
  (PakWriter._useHashIndex w = false ->
   unique_names (PakWriter._rootItems w) ->
   unique_names (PakWriter._rootItems (snd (PakWriter.AddFile P w content path pc)))) /\
  (PakWriter._useHashIndex w = true ->
   Forall flat_item (PakWriter._rootItems w) ->
   Forall flat_item (PakWriter._rootItems (snd (PakWriter.AddFile P w content path pc)))).
Proof.
  intros P w content path pc. unfold PakWriter.AddFile.
  destruct (PakWriter._outputStream w) as [[valid written]|]; [|split; auto].
  destruct valid; cbn [fs_valid negb]; cbv iota; [|split; auto].
  destruct (empty_or_ends_with_separator path); [split; auto|].
  split; intros Hmode Hinv; rewrite Hmode.
  - unfold PakWriter.FindOrCreateParentItem.
    destruct (PakWriter.FindOrCreateParentItem_loop _ _ _ _) as [[[ok o] its]|] eqn:E;
      [|exact Hinv].
    apply FindOrCreateParentItem_loop_unique in E as [_ Hu]. simpl. now apply Hu.
  - destruct (AddFile_to_result P true content pc written (PakWriter._rootItems w) path)
      as (written' & _ & Hcase).
    destruct (PakWriter.AddFile_to P true content pc _ _ path) as [[ok o] its].
    simpl in Hcase. simpl.
    destruct Hcase as [->|(_ & flags & offset & u & s & Hfile & ->)]; [exact Hinv|].
    apply Forall_app. split; [exact Hinv|]. constructor; [|constructor].
    split; [exact Hfile|]. split; reflexivity.
Qed.

Lemma AddFiles_keeps_names : forall P additions w,
  (PakWriter._useHashIndex w = false ->
   unique_names (PakWriter._rootItems w) ->
   unique_names (PakWriter._rootItems (AddFiles P w additions))) /\
  (PakWriter._useHashIndex w = true ->
   Forall flat_item (PakWriter._rootItems w) ->
   Forall flat_item (PakWriter._rootItems (AddFiles P w additions))).
Proof.
  intros P. induction additions as [|a rest IH]; intros w; [split; auto|].
  change (AddFiles P w (a :: rest))
    with (AddFiles P (snd (PakWriter.AddFile P w (add_content a) (add_path a)
                                             (add_compression a))) rest).
  pose proof (AddFile_mode P w (add_content a) (add_path a) (add_compression a)) as Hmode.
  pose proof (AddFile_keeps_names P w (add_content a) (add_path a) (add_compression a))
    as [Htree Hflat].
  destruct (IH (snd (PakWriter.AddFile P w (add_content a) (add_path a) (add_compression a))))
    as [IHtree IHflat].
  split; intros Hm Hinv.
  - apply IHtree; [congruence|now apply Htree].
  - apply IHflat; [congruence|now apply Hflat].
Qed.

(** X18. In tree mode no array of the writer's tree ever holds two items
    of one name, whatever calls of [AddFile] were made and whether they
    succeeded: the linear searches of [AddFile] and
    [FindOrCreateParentItem] keep the names of every array distinct. *)
Theorem AddFiles_tree_mode_unique_names : forall P existing opens useCompressedIndex additions,
  unique_names
    (PakWriter._rootItems
       (AddFiles P (PakWriter.new existing opens false useCompressedIndex) additions)).
Proof.
  intros P existing opens uc additions.
  apply (AddFiles_keeps_names P additions); [reflexivity|].
  split; constructor.
Qed.

(** X19. In flat mode every item of the writer is a file under a name of
    [HashIndexLength] bytes, whatever calls of [AddFile] were made: the
    two debug assertions of [WriteItemDescription] hold of every item
    [Finalize] hands to it. *)
Theorem AddFiles_flat_mode_items : forall P existing opens useCompressedIndex additions,
  Forall flat_item
    (PakWriter._rootItems
       (AddFiles P (PakWriter.new existing opens true useCompressedIndex) additions)).
Proof.
  intros P existing opens uc additions.
  apply (AddFiles_keeps_names P additions); [reflexivity|constructor].
Qed.

(** X20. A codec that is not built in is no error: [AddFile] then stores
    the content as it is, exactly as a call that asks for no compression. *)
Theorem AddFile_unsupported_compression : forall P w content path pc,
  codec_built_in P pc = false ->
  PakWriter.AddFile P w content path pc
  = PakWriter.AddFile P w content path Compression_None.
Proof.
  intros P w content path pc Hpc.
  assert (Hto : forall useHashIndex out,
            PakWriter.AddFile_to P useHashIndex content pc out
            = PakWriter.AddFile_to P useHashIndex content Compression_None out).
  { intros uh out. unfold PakWriter.AddFile_to.
    destruct pc; simpl in Hpc; try rewrite Hpc; try discriminate; reflexivity. }
  unfold PakWriter.AddFile.
  destruct (PakWriter._outputStream w) as [out|]; [|reflexivity].
  now rewrite !Hto.
Qed.

Lemma AddFile_unsupported_compression_witness :
  codec_built_in platform_without_codecs Compression_Lz4 = false /\
  PakWriter.AddFile platform_without_codecs (opened_writer None false false [])
    [1; 2; 3] [97; 47; 98] Compression_Lz4
  = PakWriter.AddFile platform_without_codecs (opened_writer None false false [])
      [1; 2; 3] [97; 47; 98] Compression_None.
Proof.
  split; [reflexivity|].
  apply (AddFile_unsupported_compression platform_without_codecs
           (opened_writer None false false []) [1; 2; 3] [97; 47; 98] Compression_Lz4).
  reflexivity.
Defined.

(** ** When [Finalize] writes an archive *)

Lemma holds_file_existsb : forall items,
  existsb (fun item => negb (isDirectory item)) items = true -> holds_file items.
Proof.
  induction items as [|x items IH]; intros H; simpl in H; [discriminate|].
  destruct (isDirectory x) eqn:E; simpl in H.
  - apply holds_file_later. now apply IH.
  - now apply holds_file_here.
Qed.

Lemma holds_file_nth : forall items k child,
  nth_error items k = Some child -> isDirectory child = true ->
  holds_file (ChildItems child) -> holds_file items.
Proof.
  induction items as [|x items IH]; intros k child Hk Hd Hc; destruct k; simpl in Hk;
    try discriminate.
  - injection Hk as ->. now apply holds_file_below.
  - apply holds_file_later. now apply (IH k child).
Qed.

Lemma collect_hasFiles_inv : forall root rounds pending hasFiles queue hasFiles',
  PakWriter.collect rounds root pending hasFiles = (queue, hasFiles') ->
  (forall p, In p pending ->
     p <> [] /\ exists item, PakWriter.item_at root p = Some item /\ isDirectory item = true) ->
  hasFiles' = true ->
  hasFiles = true \/
  exists p item, In p pending /\ PakWriter.item_at root p = Some item
                 /\ holds_file (ChildItems item).
Proof.
  intros root. induction rounds as [|rounds IH];
    intros pending hasFiles queue hasFiles' Hcollect Hvalid Htrue;
    cbn [PakWriter.collect] in Hcollect.
  - injection Hcollect as _ <-. now left.
  - destruct pending as [|pointer later]; [injection Hcollect as _ <-; now left|].
    destruct (Hvalid pointer (or_introl eq_refl)) as (Hne & item & Hat & Hdir).
    rewrite Hat in Hcollect.
    destruct (PakWriter.scan pointer 0 (ChildItems item)) as [queued files] eqn:Hscan.
    destruct (PakWriter.collect rounds root (later ++ queued) (hasFiles || files))
      as [rest hf] eqn:Hrec.
    injection Hcollect as _ <-.
    assert (Hqueued : forall q, In q queued ->
              exists k child, q = pointer ++ [k] /\ nth_error (ChildItems item) k = Some child
                              /\ isDirectory child = true).
    { intros q Hq.
      pose proof (proj1 (scan_spec pointer (ChildItems item) 0 q)) as Hs.
      rewrite Hscan in Hs. exact (Hs Hq). }
    assert (Hvalid' : forall p, In p (later ++ queued) ->
              p <> [] /\ exists item, PakWriter.item_at root p = Some item
                                      /\ isDirectory item = true).
    { intros p Hp. apply in_app_or in Hp as [Hp|Hp]; [apply Hvalid; now right|].
      destruct (Hqueued p Hp) as (k & child & -> & Hk & Hd).
      split; [intros E; now apply app_eq_nil in E as [_ E]|].
      exists child. split; [|exact Hd].
      now rewrite (item_at_snoc pointer root item k Hne Hat). }
    destruct (IH _ _ _ _ Hrec Hvalid' Htrue) as [Hor|(p & x & Hp & Hx & Hholds)].
    + apply orb_true_iff in Hor as [Hor|Hfiles]; [now left|].
      right. exists pointer, item. split; [now left|]. split; [exact Hat|].
      apply holds_file_existsb.
      pose proof (scan_hasFiles pointer (ChildItems item) 0) as Hs.
      rewrite Hscan in Hs. simpl in Hs. now rewrite <- Hs.
    + apply in_app_or in Hp as [Hp|Hp].
      * right. exists p, x. split; [now right|]. split; assumption.
      * destruct (Hqueued p Hp) as (k & child & -> & Hk & Hd).
        rewrite (item_at_snoc pointer root item k Hne Hat) in Hx.
        assert (child = x) by congruence. subst child.
        right. exists pointer, item. split; [now left|]. split; [exact Hat|].
        now apply (holds_file_nth _ k x).
Qed.

Lemma has_files_holds_file : forall root, has_files root = true <-> holds_file root.
Proof.
  intros root. unfold has_files. split.
  - intros H.
    destruct (PakWriter.scan [] 0 root) as [queued files] eqn:Hscan.
    destruct (PakWriter.collect _ root queued files) as [queue hf] eqn:Hcollect.
    simpl in H. subst hf.
    pose proof (root_scan_valid root) as [_ Hvalid]. rewrite Hscan in Hvalid. simpl in Hvalid.
    destruct (collect_hasFiles_inv _ _ _ _ _ _ Hcollect Hvalid eq_refl)
      as [Hfiles|(p & item & Hp & Hat & Hholds)].
    + apply holds_file_existsb.
      pose proof (scan_hasFiles [] root 0) as Hs. rewrite Hscan in Hs. simpl in Hs.
      now rewrite <- Hs.
    + pose proof (proj1 (scan_spec [] root 0 p)) as Hs. rewrite Hscan in Hs.
      destruct (Hs Hp) as (k & child & -> & Hk & Hd).
      simpl in Hat. assert (child = item) by congruence. subst child.
      now apply (holds_file_nth _ k item).
  - intros H.
    destruct (let (queued, hasFiles) := PakWriter.scan [] 0 root in
              PakWriter.collect (PakWriter.count_items root) root queued hasFiles)
      as [queue hf] eqn:E.
    simpl. now apply (Finalize_hasFiles root queue hf).
Qed.

Lemma Finalize_no_files : forall P w out,
  PakWriter._finalized w = false ->
  PakWriter._outputStream w = Some out ->
  has_files (PakWriter._rootItems w) = false ->
  PakWriter.Finalize P w
  = PakWriter.mk true (PakWriter._useHashIndex w) (PakWriter._useCompressedIndex w)
      (PakWriter._alreadyExisted w) (PakWriter._mountPoint w) (PakWriter._rootItems w) None
      (if PakWriter._alreadyExisted w
       then (if fs_valid out then Some (fs_written out) else PakWriter.file_on_disk w)
       else None).
Proof.
  intros P w out Hfin Hout Hfiles. unfold PakWriter.Finalize. rewrite Hfin, Hout.
  unfold has_files in Hfiles.
  destruct (PakWriter.scan [] 0 (PakWriter._rootItems w)) as [queued files].
  destruct (PakWriter.collect _ _ queued files) as [queue hf].
  simpl in Hfiles. subst hf. reflexivity.
Qed.

(** X21. Whether [Finalize] leaves an archive: for a writer that opened a
    new file and has a mount point within the limit, the output file
    exists afterwards exactly when a file can be reached in the item tree
    through directories; a tree of directories alone leaves no file behind. *)
Theorem Finalize_archive_iff_file : forall P w written,
  PakWriter._finalized w = false ->
  PakWriter._outputStream w = Some (mkFileStream true written) ->
  PakWriter._alreadyExisted w = false ->
  Z.of_nat (length (PakWriter._mountPoint w)) < INT16_MAX ->
  (PakWriter.file_on_disk (PakWriter.Finalize P w) <> None <-> holds_file (PakWriter._rootItems w)).
Proof.
  intros P w written Hfin Hout Hex Hmp. split.
  - intros Hfile. apply has_files_holds_file.
    destruct (has_files (PakWriter._rootItems w)) eqn:E; [reflexivity|].
    exfalso. apply Hfile.
    rewrite (Finalize_no_files P w _ Hfin Hout E). simpl. now rewrite Hex.
  - intros Hholds.
    destruct (Finalize_spec P w written Hfin Hout Hholds Hmp) as (root1 & more & _ & _ & ->).
    discriminate.
Qed.

Lemma Finalize_archive_iff_file_witness :
  ~ holds_file (PakWriter._rootItems writer_with_directories_only) /\
  PakWriter._rootItems writer_with_directories_only
    = [mkItem [97] ItemFlags_Directory 0 0 0 [mkItem [98] ItemFlags_Directory 0 0 0 []]] /\
  PakWriter.file_on_disk (PakWriter.Finalize reference_platform writer_with_directories_only)
    = None.
Proof.
  pose proof (Finalize_archive_iff_file reference_platform writer_with_directories_only
                OptionalHeader eq_refl eq_refl eq_refl ltac:(vm_compute; reflexivity)) as H.
  assert (Hnone : PakWriter.file_on_disk
                    (PakWriter.Finalize reference_platform writer_with_directories_only)
                  = None) by reflexivity.
  split; [|split; [reflexivity|exact Hnone]].
  intros Hholds. apply (proj2 H) in Hholds. now apply Hholds.
Defined.

(** *** The layout of the archive *)

Lemma AddFile_to_appends : forall P useHashIndex content pc written items path,
  exists more,
    snd (fst (PakWriter.AddFile_to P useHashIndex content pc (mkFileStream true written)
                items path)) = mkFileStream true (written ++ more).
Proof.
  intros P uh content pc written items path. unfold PakWriter.AddFile_to.
  destruct (existsb _ items); [exists []; now rewrite app_nil_r|].
  destruct pc; try destruct (WITH_ZLIB P); try destruct (WITH_LZ4 P); try destruct (WITH_ZSTD P);
    unfold Write; cbn [fs_valid fs_written]; cbv beta iota zeta;
    destruct (negb (Z.of_nat (length content) >? 0));
    try (eexists; reflexivity);
    match goal with
    | |- context [negb ?c] => destruct (negb c)
    end; eexists; reflexivity.
Qed.

Lemma AddFile_appends : forall P w content path pc written,
  PakWriter._outputStream w = Some (mkFileStream true written) ->
  exists more,
    PakWriter._outputStream (snd (PakWriter.AddFile P w content path pc))
    = Some (mkFileStream true (written ++ more)).
Proof.
  intros P w content path pc written Hout.
  assert (Hsame : exists more,
            PakWriter._outputStream w = Some (mkFileStream true (written ++ more)))
    by (exists []; now rewrite app_nil_r).
  unfold PakWriter.AddFile. rewrite Hout. cbn [fs_valid negb]. cbv iota.
  destruct (empty_or_ends_with_separator path); [exact Hsame|].
  destruct (PakWriter._useHashIndex w).
  - destruct (AddFile_to_appends P true content pc written (PakWriter._rootItems w) path)
      as [more Hmore].
    destruct (PakWriter.AddFile_to P true content pc _ _ path) as [[ok o] its].
    simpl in Hmore. subst o. now exists more.
  - unfold PakWriter.FindOrCreateParentItem.
    destruct (PakWriter.FindOrCreateParentItem_loop _ _ _ _) as [[[ok o] its]|] eqn:E;
      [|exact Hsame].
    apply (FindOrCreateParentItem_loop_rel
             (PakWriter.AddFile_to P false content pc (mkFileStream true written))
             (fun _ _ r _ => exists more, snd r = mkFileStream true (written ++ more)))
      in E.
    + destruct E as [more E]. simpl in E. subst o. now exists more.
    + intros items0 p _. apply AddFile_to_appends.
    + intros p i items0 j foundItem r children _ _ IH. exact IH.
    + intros p i items0 r children _ _ IH. exact IH.
Qed.

Lemma AddFile_with_state : forall P w content path pc,
  exists items out,
    snd (PakWriter.AddFile P w content path pc) = PakWriter.with_state w items out.
Proof.
  intros P w content path pc.
  assert (Hsame : exists items out, w = PakWriter.with_state w items out).
  { exists (PakWriter._rootItems w), (PakWriter._outputStream w). now rewrite with_state_same. }
  unfold PakWriter.AddFile.
  destruct (PakWriter._outputStream w) as [out|]; [|exact Hsame].
  destruct (negb (fs_valid out)); [exact Hsame|].
  destruct (empty_or_ends_with_separator path); [exact Hsame|].
  destruct (PakWriter._useHashIndex w).
  - destruct (PakWriter.AddFile_to P true content pc out _ path) as [[ok o] its].
    now exists its, (Some o).
  - destruct (PakWriter.FindOrCreateParentItem _ _ _) as [[[ok o] its]|]; [|exact Hsame].
    now exists its, (Some o).
Qed.

Lemma AddFiles_appends : forall P additions w written,
  PakWriter._outputStream w = Some (mkFileStream true written) ->
  exists items more,
    AddFiles P w additions
    = PakWriter.with_state w items (Some (mkFileStream true (written ++ more))).
Proof.
  intros P. induction additions as [|a rest IH]; intros w written Hout.
  - exists (PakWriter._rootItems w), []. rewrite app_nil_r, <- Hout. simpl.
    now rewrite with_state_same.
  - change (AddFiles P w (a :: rest))
      with (AddFiles P (snd (PakWriter.AddFile P w (add_content a) (add_path a)
                                               (add_compression a))) rest).
    destruct (AddFile_appends P w (add_content a) (add_path a) (add_compression a) written Hout)
      as [more Hmore].
    destruct (AddFile_with_state P w (add_content a) (add_path a) (add_compression a))
      as (items1 & out1 & E1).
    destruct (IH _ _ Hmore) as (items & more' & E).
    exists items, (more ++ more'). rewrite E, E1, app_assoc. reflexivity.
Qed.

(** What the passes over the queued directories write: one index block
    without header after the other, each of a sorted item array. *)
Lemma write_directory_blocks : forall P useHashIndex compressed pointers root written,
  exists root' arrays,
    fold_left (PakWriter.write_directory P useHashIndex compressed) pointers
              (root, mkFileStream true written)
    = (root', mkFileStream true
                (written ++ flat_map (PakWriter.index_block P useHashIndex compressed []) arrays))
    /\ (pointers = [] -> arrays = []).
Proof.
  intros P uh cmp. induction pointers as [|pointer pointers IH]; intros root written.
  - exists root, []. split; [|reflexivity]. cbn [fold_left flat_map]. now rewrite app_nil_r.
  - cbn [fold_left]. unfold PakWriter.write_directory at 2.
    destruct (PakWriter.item_at root pointer) as [item|].
    + unfold Write, GetPosition. cbn [fs_valid fs_written].
      destruct (IH (PakWriter.update_at root pointer
                      (fun item0 => set_ChildItems
                                      (set_Offset item0 (Z.of_nat (length written)))
                                      (sort Name_less (ChildItems item))))
                   (written ++ PakWriter.index_block P uh cmp []
                                 (sort Name_less (ChildItems item))))
        as (root' & arrays & Hfold & _).
      exists root', (sort Name_less (ChildItems item) :: arrays).
      split; [|discriminate].
      rewrite Hfold. cbn [flat_map]. now rewrite <- app_assoc.
    + destruct (IH root written) as (root' & arrays & Hfold & _).
      exists root', arrays. split; [exact Hfold|discriminate].
Qed.

Lemma scan_no_directories : forall parent items index,
  Forall (fun item => isDirectory item = false) items ->
  PakWriter.scan parent index items = ([], negb (Nat.eqb (length items) 0)).
Proof.
  intros parent. induction items as [|item rest IH]; intros index H; [reflexivity|].
  apply Forall_cons_iff in H as [Hitem Hrest].
  cbn [PakWriter.scan]. rewrite (IH (S index) Hrest), Hitem. reflexivity.
Qed.

Lemma collect_nothing : forall rounds root hasFiles,
  PakWriter.collect rounds root [] hasFiles = ([], hasFiles).
Proof. intros rounds root hasFiles. now destruct rounds. Qed.

(** [Finalize] on a writer that holds a file, with what the directory
    passes wrote spelled out. *)
Lemma Finalize_blocks : forall P w written,
  PakWriter._finalized w = false ->
  PakWriter._outputStream w = Some (mkFileStream true written) ->
  holds_file (PakWriter._rootItems w) ->
  Z.of_nat (length (PakWriter._mountPoint w)) < INT16_MAX ->
  exists root1 arrays,
    let compressed := WITH_ZLIB P && PakWriter._useCompressedIndex w in
    let blocks :=
      flat_map (PakWriter.index_block P (PakWriter._useHashIndex w) compressed []) arrays in
    finalized P (PakWriter._useHashIndex w) compressed (written ++ blocks)
      (PakWriter._rootItems w) root1 /\
    PakWriter._rootItems (PakWriter.Finalize P w) = sort Name_less root1 /\
    PakWriter.file_on_disk (PakWriter.Finalize P w)
      = Some ((written ++ blocks)
              ++ PakWriter.index_block P (PakWriter._useHashIndex w) compressed
                   (mount_point_header (PakWriter._mountPoint w)) (sort Name_less root1)
              ++ footer_written (PakWriter._useHashIndex w) compressed
                   (Z.of_nat (length (written ++ blocks)))) /\
    (Forall (fun item => isDirectory item = false) (PakWriter._rootItems w) -> arrays = []).
Proof.
  intros P w written Hfin Hout Hholds Hmount. cbv zeta.
  unfold PakWriter.Finalize. rewrite Hfin, Hout.
  destruct (let (queued, hasFiles) := PakWriter.scan [] 0 (PakWriter._rootItems w) in
            PakWriter.collect (PakWriter.count_items (PakWriter._rootItems w))
              (PakWriter._rootItems w) queued hasFiles) as [queue hasFiles] eqn:Hqueue.
  pose proof (Finalize_hasFiles _ _ _ Hholds Hqueue) as ->.
  destruct (Finalize_directories P (PakWriter._useHashIndex w)
              (WITH_ZLIB P && PakWriter._useCompressedIndex w) _ _ _ written Hqueue)
    as (root1 & more & Hwrite & Hfinalized).
  destruct (write_directory_blocks P (PakWriter._useHashIndex w)
              (WITH_ZLIB P && PakWriter._useCompressedIndex w) (rev queue)
              (PakWriter._rootItems w) written)
    as (root' & arrays & Hblocks & Hnone).
  unfold write_directories in Hwrite.
  assert (Hmore : more = flat_map (PakWriter.index_block P (PakWriter._useHashIndex w)
                                     (WITH_ZLIB P && PakWriter._useCompressedIndex w) [])
                                  arrays).
  { rewrite Hblocks in Hwrite. injection Hwrite as _ Hwrite.
    now apply app_inv_head in Hwrite. }
  subst more.
  exists root1, arrays. split; [exact Hfinalized|].
  assert (Hflat : Forall (fun item => isDirectory item = false) (PakWriter._rootItems w) ->
                  arrays = []).
  { intros Hfiles. apply Hnone.
    rewrite (scan_no_directories [] _ O Hfiles), collect_nothing in Hqueue.
    injection Hqueue as <- _. reflexivity. }
  destruct (PakWriter.scan [] 0 (PakWriter._rootItems w)) as [queued files].
  rewrite Hqueue. cbv beta iota zeta.
  change (negb true) with false. cbv beta iota.
  rewrite Hwrite.
  apply Z.ltb_lt in Hmount. rewrite Hmount. change (negb true) with false. cbv beta iota.
  unfold Write, GetPosition. simpl fs_valid. simpl fs_written. cbv beta iota.
  split; [reflexivity|]. split; [|exact Hflat].
  simpl PakWriter.file_on_disk. unfold footer_written, footer_flags_written, mount_point_header.
  rewrite <- !app_assoc. reflexivity.
Qed.

(** X22. The layout of an archive: when [Finalize] leaves a file where
    none existed, whatever calls of [AddFile] went before, the file is,
    in this order: the output stream as those calls left it, which is the
    optional header of 8 bytes and what the calls wrote ([added]); what
    the directory passes wrote, which is a run of index blocks without
    header, each of an item array, and is empty in flat mode; the root
    index (the mount point and the sorted root items, through Deflate
    when the index is compressed); and the footer, whose offset field
    holds the position of the root index.  Every directory written (the
    relation [finalized]) has its children sorted and records in its item
    the offset at which their block stands in the part of the file that
    precedes the root index. *)
Theorem Finalize_archive_layout : forall P useHashIndex useCompressedIndex mountPoint
    additions file,
  Z.of_nat (length mountPoint) < INT16_MAX ->
  PakWriter.file_on_disk
    (PakWriter.Finalize P
       (AddFiles P (opened_writer None useHashIndex useCompressedIndex mountPoint) additions))
    = Some file ->
  exists added arrays root1,
    let writer :=
      AddFiles P (opened_writer None useHashIndex useCompressedIndex mountPoint) additions in
    let compressed := WITH_ZLIB P && useCompressedIndex in
    let blocks := flat_map (PakWriter.index_block P useHashIndex compressed []) arrays in
    PakWriter._outputStream writer
      = Some (mkFileStream true (OptionalHeader ++ added)) /\
    (useHashIndex = true -> arrays = []) /\
    finalized P useHashIndex compressed (OptionalHeader ++ added ++ blocks)
      (PakWriter._rootItems writer) root1 /\
    PakWriter._rootItems (PakWriter.Finalize P writer) = sort Name_less root1 /\
    file = OptionalHeader ++ added ++ blocks
           ++ PakWriter.index_block P useHashIndex compressed (mount_point_header mountPoint)
                (PakWriter._rootItems (PakWriter.Finalize P writer))
           ++ footer_written useHashIndex compressed
                (Z.of_nat (length (OptionalHeader ++ added ++ blocks))).
Proof.
  intros P uh uc mp additions file Hmp Hfile. cbv zeta.
  destruct (AddFiles_appends P additions (opened_writer None uh uc mp) OptionalHeader eq_refl)
    as (items & added & Hw).
  assert (Hflat : uh = true ->
                  Forall (fun item => isDirectory item = false)
                         (PakWriter._rootItems (AddFiles P (opened_writer None uh uc mp)
                                                         additions))).
  { intros ->.
    assert (H : Forall flat_item
                  (PakWriter._rootItems (AddFiles P (opened_writer None true uc mp)
                                                  additions)))
      by (apply (AddFiles_keeps_names P additions); [reflexivity|constructor]).
    revert H. apply Forall_impl. intros item (Hfile' & _). exact Hfile'. }
  rewrite Hw in *.
  set (w := PakWriter.with_state (opened_writer None uh uc mp) items
              (Some (mkFileStream true (OptionalHeader ++ added)))) in *.
  assert (Hholds : holds_file (PakWriter._rootItems w)).
  { apply has_files_holds_file.
    destruct (has_files (PakWriter._rootItems w)) eqn:E; [reflexivity|].
    rewrite (Finalize_no_files P w (mkFileStream true (OptionalHeader ++ added))
               eq_refl eq_refl E) in Hfile.
    discriminate. }
  destruct (Finalize_blocks P w (OptionalHeader ++ added) eq_refl eq_refl Hholds Hmp)
    as (root1 & arrays & Hfinalized & Hroot & Hdisk & Hnone).
  cbv zeta in Hfinalized, Hdisk.
  rewrite Hdisk in Hfile. injection Hfile as <-.
  change (PakWriter._useHashIndex w) with uh in *.
  change (PakWriter._useCompressedIndex w) with uc in *.
  change (PakWriter._mountPoint w) with mp in *.
  exists added, arrays, root1.
  split; [reflexivity|]. split; [intros Huh; apply Hnone; now apply Hflat|].
  rewrite <- !app_assoc in *.
  split; [exact Hfinalized|]. split; [exact Hroot|].
  now rewrite Hroot.
Qed.

Lemma Finalize_archive_layout_witness :
  exists file added arrays,
    PakWriter.file_on_disk
      (PakWriter.Finalize reference_platform
         (AddFiles reference_platform (opened_writer None false true [109]) reference_additions))
      = Some file /\
    PakWriter._outputStream
      (AddFiles reference_platform (opened_writer None false true [109]) reference_additions)
      = Some (mkFileStream true (OptionalHeader ++ added)) /\
    file = OptionalHeader ++ added
           ++ flat_map (PakWriter.index_block reference_platform false true []) arrays
           ++ PakWriter.index_block reference_platform false true (mount_point_header [109])
                (PakWriter._rootItems
                   (PakWriter.Finalize reference_platform
                      (AddFiles reference_platform (opened_writer None false true [109])
                                reference_additions)))
           ++ footer_written false true
                (Z.of_nat (length (OptionalHeader ++ added
                                   ++ flat_map (PakWriter.index_block reference_platform
                                                  false true []) arrays))).
Proof.
  destruct (PakWriter.file_on_disk
              (PakWriter.Finalize reference_platform
                 (AddFiles reference_platform (opened_writer None false true [109])
                           reference_additions))) as [file|] eqn:Hfile;
    [|vm_compute in Hfile; discriminate Hfile].
  destruct (Finalize_archive_layout reference_platform false true [109] reference_additions
              file ltac:(vm_compute; reflexivity) Hfile)
    as (added & arrays & root1 & Hout & _ & _ & _ & Hlayout).
  exists file, added, arrays. split; [reflexivity|]. split; [exact Hout|exact Hlayout].
Defined.

(** ** What else the round trip gives *)

Lemma finalized_directories_flags : forall P useHashIndex compressed file before after y,
  finalized P useHashIndex compressed file before after ->
  In y before -> isDirectory y = true ->
  exists y' children,
    In y' after /\ Name y' = Name y /\ Flags y' = Flags y /\
    finalized P useHashIndex compressed file (ChildItems y) children /\
    ChildItems y' = sort Name_less children.
Proof.
  intros P uh cmp file before after y H.
  induction H as [|item rest rest' Hfile _ IH
                 |item item' children rest rest' Hdir Hname Hflags _ _ _ Hc _ Hsort _ IH];
    intros Hin Hy.
  - destruct Hin.
  - destruct Hin as [<-|Hin]; [congruence|].
    destruct (IH Hin Hy) as (y' & c & Hy' & Hrest). exists y', c. split; [now right|exact Hrest].
  - destruct Hin as [<-|Hin].
    + exists item', children. split; [now left|]. repeat split; assumption.
    + destruct (IH Hin Hy) as (y' & c & Hy' & Hrest). exists y', c. split; [now right|exact Hrest].
Qed.

Lemma finalized_reaches_directory : forall P useHashIndex compressed file before names x,
  resolves before names x ->
  isDirectory x = true ->
  forall after,
  finalized P useHashIndex compressed file before after ->
  unique_names before -> files_are_leaves before ->
  exists x', reaches (sort Name_less after) names x' /\ isDirectory x' = true.
Proof.
  intros P uh cmp file before names x Hr Hx.
  induction Hr as [items item Hin|items dir names item Hin Hr IH];
    intros after Hfin [Hunique Huniquec] Hleaves.
  - destruct (finalized_directories_flags _ _ _ _ _ _ _ Hfin Hin Hx)
      as (item' & children & Hin' & Hname & Hflags & _ & _).
    exists item'. split; [|unfold isDirectory in *; now rewrite Hflags].
    rewrite <- Hname. apply reaches_last.
    + apply sort_sorted_strictly. rewrite (finalized_names _ _ _ _ _ _ Hfin). exact Hunique.
    + apply (Permutation_in (l := after)); [symmetry; apply sort_Permutation|exact Hin'].
  - pose proof (resolves_through_directory _ _ _ _ Hleaves Hin Hr) as Hdir.
    destruct (finalized_directories_flags _ _ _ _ _ _ _ Hfin Hin Hdir)
      as (dir' & children & Hin' & Hname & _ & Hfc & Hsort).
    destruct (IH Hx children Hfc) as (x' & Hreach & Hx').
    + split; apply (Forall_tree_In _ _ _ Huniquec Hin).
    + apply (Forall_tree_In _ _ _ Hleaves Hin).
    + exists x'. split; [|exact Hx'].
      rewrite <- Hname. apply reaches_step.
      * apply sort_sorted_strictly. rewrite (finalized_names _ _ _ _ _ _ Hfin). exact Hunique.
      * apply (Permutation_in (l := after)); [symmetry; apply sort_Permutation|exact Hin'].
      * now rewrite Hsort.
Qed.

Lemma resolves_prefix : forall p items r x,
  resolves items (p ++ r) x -> p <> [] -> r <> [] -> files_are_leaves items ->
  exists d, resolves items p d /\ isDirectory d = true.
Proof.
  induction p as [|n p IH]; intros items r x Hr Hp Hne Hleaves; [contradiction|].
  simpl in Hr. inversion Hr as [its item Hin E1 E2|its dir names item Hin Hbelow E1 E2]; subst.
  - destruct p; [|discriminate]. simpl in *. subst r. contradiction.
  - destruct p as [|m p].
    + simpl in *. exists dir. split; [now apply resolves_last|].
      now apply (resolves_through_directory _ _ _ _ Hleaves Hin Hbelow).
    + destruct (IH (ChildItems dir) r x Hbelow ltac:(discriminate) Hne) as (d & Hd & Hdir).
      * apply (Forall_tree_In _ _ _ Hleaves Hin).
      * exists d. split; [now apply resolves_step|exact Hdir].
Qed.

Lemma Forall_app_l : forall (A : Type) (Q : A -> Prop) (a b : list A),
  Forall Q (a ++ b) -> Forall Q a.
Proof. intros A Q a b H. now apply Forall_app in H as [H _]. Qed.

(** X23. The reader accepts what the writer wrote and reads its settings
    back: under the conditions of the round trip, the [PakFile] opened on
    the output of [Finalize] is valid, is in the index mode the writer was
    given, and has the mount point set with [SetMountPoint], with the
    platform's separator appended when it did not end with one. *)
Theorem Finalize_PakFile_settings : forall P existing useHashIndex useCompressedIndex mountPoint
    additions pakPath,
  codecs_round_trip P ->
  all_added P (opened_writer existing useHashIndex useCompressedIndex mountPoint) additions
    = true ->
  paths_ok P useHashIndex additions ->
  additions <> [] ->
  Z.of_nat (length additions) < 2 ^ 32 ->
  Z.of_nat (length mountPoint) < INT16_MAX ->
  exists file,
    PakWriter.file_on_disk
      (PakWriter.Finalize P
         (AddFiles P (opened_writer existing useHashIndex useCompressedIndex mountPoint)
                   additions)) = Some file /\
    (Z.of_nat (length file) < 2 ^ 63 ->
     PakFile.IsValid (PakFile.new P pakPath (Some file)) = negb (Nat.eqb (length pakPath) 0) /\
     PakFile._useHashIndex (PakFile.new P pakPath (Some file)) = useHashIndex /\
     PakFile.GetMountPoint (PakFile.new P pakPath (Some file)) = mount_point_read P mountPoint).
Proof.
  intros P existing uh uc mp additions pakPath Hcodecs Hall Hpaths Hne Hcount Hmp.
  destruct additions as [|a rest]; [contradiction|].
  destruct (Finalize_AddFiles P existing uh uc mp (a :: rest) a Hcodecs Hall Hpaths Hcount Hmp
              (or_introl eq_refl))
    as (items & written & root1 & more & tail & _ & _ & _ & Hfile & Hnew).
  exists ((written ++ more) ++ tail). split; [exact Hfile|].
  intros Hsize. rewrite (Hnew Hsize pakPath). repeat split.
Qed.

Lemma Finalize_PakFile_settings_witness :
  exists file,
    PakWriter.file_on_disk
      (PakWriter.Finalize reference_platform
         (AddFiles reference_platform (opened_writer None false true [109]) reference_additions))
      = Some file /\
    PakFile.IsValid (PakFile.new reference_platform [112] (Some file)) = true /\
    PakFile._useHashIndex (PakFile.new reference_platform [112] (Some file)) = false /\
    PakFile.GetMountPoint (PakFile.new reference_platform [112] (Some file)) = [109; 47].
Proof.
  destruct (Finalize_PakFile_settings reference_platform None false true [109]
              reference_additions [112])
    as (file & Hfile & H).
  - exact reference_platform_codecs.
  - vm_compute. reflexivity.
  - exact reference_additions_paths_ok.
  - discriminate.
  - vm_compute. reflexivity.
  - vm_compute. reflexivity.
  - exists file. split; [exact Hfile|]. apply H.
    vm_compute in Hfile. injection Hfile as <-. vm_compute. reflexivity.
Defined.

(** X24. The directories of the round trip: in tree mode, under the
    conditions of the round trip, every path made of leading components
    of an added path (not all of them) names a directory of the reopened
    archive: handed over as a view that ends at the terminator of its
    buffer (no C string follows it: the last argument is empty),
    [DirectoryExists] says [true] of it and [FileExists] [false]. *)
Theorem DirectoryExists_round_trip : forall P existing useCompressedIndex mountPoint additions a
    directory pakPath steps,
  codecs_round_trip P ->
  all_added P (opened_writer existing false useCompressedIndex mountPoint) additions = true ->
  paths_ok P false additions ->
  Z.of_nat (length additions) < 2 ^ 32 ->
  Z.of_nat (length mountPoint) < INT16_MAX ->
  In a additions ->
  proper_prefix (split_path (trimmedPrefix directory))
                (split_path (trimmedPrefix (add_path a))) ->
  (length directory < steps)%nat ->
  exists file,
    PakWriter.file_on_disk
      (PakWriter.Finalize P
         (AddFiles P (opened_writer existing false useCompressedIndex mountPoint) additions))
      = Some file /\
    (Z.of_nat (length file) < 2 ^ 63 ->
     PakFile.DirectoryExists P steps (PakFile.new P pakPath (Some file)) directory []
       = Some true /\
     PakFile.FileExists P steps (PakFile.new P pakPath (Some file)) directory []
       = Some false).
Proof.
  intros P existing uc mp additions a directory pakPath steps
         Hcodecs Hall Hpaths Hcount Hmp Hin (r & Hr & Hsplit) Hsteps.
  destruct (Finalize_AddFiles P existing false uc mp additions a Hcodecs Hall Hpaths Hcount Hmp Hin)
    as (items & written & root1 & more & tail & Hinv & Hfin & _ & Hfile & Hnew).
  exists ((written ++ more) ++ tail). split; [exact Hfile|].
  intros Hsize. rewrite (Hnew Hsize pakPath).
  destruct (inv_stored _ _ _ _ _ Hinv a Hin) as (offset & Hres & _).
  unfold key in Hres. rewrite Hsplit in Hres.
  destruct (resolves_prefix _ _ _ _ Hres (split_path_not_nil _) Hr (inv_leaves _ _ _ _ _ Hinv))
    as (d & Hd & Hdir).
  destruct (finalized_reaches_directory _ _ _ _ _ _ _ Hd Hdir _ Hfin
              (inv_unique _ _ _ _ _ Hinv) (inv_leaves _ _ _ _ _ Hinv))
    as (d' & Hreach & Hdir').
  assert (Hnames : Forall (fun name => name <> []) (split_path (trimmedPrefix directory))).
  { destruct Hpaths as [Heach _]. destruct (Heach a Hin) as (Hnames & _).
    rewrite Hsplit in Hnames. now apply Forall_app_l in Hnames. }
  assert (Hfind : PakFile.FindItem P steps
                    (PakFile.mk pakPath (mount_point_read P mp) false (sort Name_less root1))
                    directory [] = Some (Some d')).
  { unfold PakFile.FindItem. cbn [PakFile._useHashIndex PakFile._rootItems].
    apply (FindItem_loop_reaches _ _ _ Hreach Hnames); [reflexivity|].
    pose proof (length_split_path (trimmedPrefix directory)).
    pose proof (length_trimmedPrefix directory). lia. }
  unfold PakFile.DirectoryExists, PakFile.FileExists. rewrite Hfind, Hdir'. split; reflexivity.
Qed.

Lemma DirectoryExists_round_trip_witness :
  proper_prefix (split_path (trimmedPrefix [97; 47; 98]))
                (split_path (trimmedPrefix [97; 47; 98; 47; 99])) /\
  exists file,
    PakWriter.file_on_disk
      (PakWriter.Finalize reference_platform
         (AddFiles reference_platform (opened_writer None false true [109]) reference_additions))
      = Some file /\
    PakFile.DirectoryExists reference_platform 4
      (PakFile.new reference_platform [112] (Some file)) [97; 47; 98] [] = Some true /\
    PakFile.FileExists reference_platform 4
      (PakFile.new reference_platform [112] (Some file)) [97; 47; 98] [] = Some false.
Proof.
  assert (Hprefix : proper_prefix (split_path (trimmedPrefix [97; 47; 98]))
                                  (split_path (trimmedPrefix [97; 47; 98; 47; 99]))).
  { exists [[99]]. split; [discriminate|reflexivity]. }
  split; [exact Hprefix|].
  destruct (DirectoryExists_round_trip reference_platform None true [109] reference_additions
              (mkAddition [1; 2; 3] [97; 47; 98; 47; 99] Compression_Deflate)
              [97; 47; 98] [112] 4)
    as (file & Hfile & H).
  - exact reference_platform_codecs.
  - vm_compute. reflexivity.
  - exact reference_additions_paths_ok.
  - vm_compute. reflexivity.
  - vm_compute. reflexivity.
  - left. reflexivity.
  - exact Hprefix.
  - simpl. lia.
  - exists file. split; [exact Hfile|]. apply H.
    vm_compute in Hfile. injection Hfile as <-. vm_compute. reflexivity.
Defined.

Lemma finalized_resolves_inv : forall P useHashIndex compressed file sorted names x,
  resolves sorted names x ->
  isDirectory x = false ->
  forall before after,
  Permutation sorted after ->
  finalized P useHashIndex compressed file before after ->
  resolves before names x.
Proof.
  intros P uh cmp file sorted names x Hr Hx.
  induction Hr as [items item Hin|items dir names item Hin Hr IH];
    intros before after Hperm Hfin.
  - apply resolves_last.
    apply (Permutation_in _ Hperm) in Hin.
    destruct (finalized_flags _ _ _ _ _ _ _ Hfin Hin) as [[_ Hb]|[Hd _]]; [exact Hb|congruence].
  - apply (Permutation_in _ Hperm) in Hin.
    destruct (finalized_flags _ _ _ _ _ _ _ Hfin Hin)
      as [[_ Hb]|(_ & y & children & Hy & Hname & Hfc & Hsort)].
    + now apply resolves_step.
    + rewrite Hname. apply resolves_step; [exact Hy|].
      apply (IH Hx (ChildItems y) children); [|exact Hfc].
      rewrite Hsort. apply sort_Permutation.
Qed.

(** X25. Nothing is found that was not added: under the conditions of the
    round trip, a path of which [FileExists] says [true] on the reopened
    archive is a path of one of the files added, up to what the lookup
    does not tell apart (the components in tree mode, the hash in flat
    mode); in tree mode for a path handed over as a view that ends at
    the terminator of its buffer ([tail], the C string that follows the
    view, is empty). *)
Theorem FileExists_only_added : forall P existing useHashIndex useCompressedIndex mountPoint
    additions pakPath steps path tail,
  codecs_round_trip P ->
  all_added P (opened_writer existing useHashIndex useCompressedIndex mountPoint) additions
    = true ->
  paths_ok P useHashIndex additions ->
  additions <> [] ->
  Z.of_nat (length additions) < 2 ^ 32 ->
  Z.of_nat (length mountPoint) < INT16_MAX ->
  (useHashIndex = false -> tail = []) ->
  exists file,
    PakWriter.file_on_disk
      (PakWriter.Finalize P
         (AddFiles P (opened_writer existing useHashIndex useCompressedIndex mountPoint)
                   additions)) = Some file /\
    (Z.of_nat (length file) < 2 ^ 63 ->
     PakFile.FileExists P steps (PakFile.new P pakPath (Some file)) path tail = Some true ->
     In (lookup_key P useHashIndex path) (keys P useHashIndex additions)).
Proof.
  intros P existing uh uc mp additions pakPath steps path tail Hcodecs Hall Hpaths Hne Hcount Hmp
    Htail.
  destruct additions as [|a0 rest]; [contradiction|].
  destruct (Finalize_AddFiles P existing uh uc mp (a0 :: rest) a0 Hcodecs Hall Hpaths Hcount Hmp
              (or_introl eq_refl))
    as (items & written & root1 & more & footer & Hinv & Hfin & _ & Hfile & Hnew).
  exists ((written ++ more) ++ footer). split; [exact Hfile|].
  intros Hsize. rewrite (Hnew Hsize pakPath). clear Hnew.
  unfold PakFile.FileExists.
  destruct (PakFile.FindItem P steps _ path tail) as [[item|]|] eqn:Hfind; try discriminate.
  intros Hx. injection Hx as Hx. apply negb_true_iff in Hx.
  unfold PakFile.FindItem in Hfind. cbn [PakFile._useHashIndex PakFile._rootItems] in Hfind.
  unfold lookup_key. destruct uh.
  - destruct (nth_error (sort Name_less root1) _) as [foundItem|] eqn:Hnth; [|discriminate].
    pose proof (finalized_name_lengths _ _ _ _ _ _ Hfin (inv_described _ _ _ _ _ Hinv))
      as Hlengths.
    apply nth_error_In in Hnth.
    rewrite Forall_forall in Hlengths. specialize (Hlengths _ Hnth).
    rewrite (memcmp_eqb 8 (Name foundItem) _ Hlengths (length_le_bytes 8 _)) in Hfind.
    destruct (String_eqb (Name foundItem) _) eqn:Heq; [|discriminate].
    injection Hfind as <-. apply String_eqb_eq in Heq. rewrite <- Heq.
    apply (inv_covered _ _ _ _ _ Hinv [Name foundItem] foundItem); [|exact Hx].
    apply resolves_last.
    apply (Permutation_in (l' := root1)) in Hnth; [|apply sort_Permutation].
    destruct (finalized_flags _ _ _ _ _ _ _ Hfin Hnth) as [[_ Hb]|[Hd _]]; [exact Hb|congruence].
  - rewrite (Htail eq_refl) in Hfind.
    apply FindItem_loop_sound in Hfind. rewrite components_trimmedPrefix in Hfind.
    apply (inv_covered _ _ _ _ _ Hinv (components path) item); [|exact Hx].
    apply (finalized_resolves_inv P false (WITH_ZLIB P && uc) (written ++ more) _ _ _
             Hfind Hx items root1); [|exact Hfin].
    apply sort_Permutation.
Qed.

Lemma FileExists_only_added_witness :
  exists file,
    PakWriter.file_on_disk
      (PakWriter.Finalize reference_platform
         (AddFiles reference_platform (opened_writer None false true [109]) reference_additions))
      = Some file /\
    PakFile.FileExists reference_platform 6 (PakFile.new reference_platform [112] (Some file))
      [47; 97; 47; 47; 100] [] = Some true /\
    In (lookup_key reference_platform false [47; 97; 47; 47; 100])
       (keys reference_platform false reference_additions).
Proof.
  destruct (FileExists_only_added reference_platform None false true [109]
              reference_additions [112] 6 [47; 97; 47; 47; 100] [])
    as (file & Hfile & H).
  - exact reference_platform_codecs.
  - vm_compute. reflexivity.
  - exact reference_additions_paths_ok.
  - discriminate.
  - vm_compute. reflexivity.
  - vm_compute. reflexivity.
  - reflexivity.
  - exists file. split; [exact Hfile|].
    assert (Hexists : PakFile.FileExists reference_platform 6
                        (PakFile.new reference_platform [112] (Some file))
                        [47; 97; 47; 47; 100] [] = Some true).
    { vm_compute in Hfile. injection Hfile as <-. vm_compute. reflexivity. }
    split; [exact Hexists|].
    apply H; [|exact Hexists].
    vm_compute in Hfile. injection Hfile as <-. vm_compute. reflexivity.
Defined.

(** X26. Item descriptions are read back as written: for items whose
    fields fit the integers of the format, [ReadIndexFromStream] makes of
    the bytes [WriteItemDescription] wrote for them the same items, field
    by field and in order, without their children (which the index stores
    elsewhere), and stops where the descriptions end. *)
Theorem WriteItemDescription_read_back : forall useHashIndex items left,
  Forall (wf_item useHashIndex) items ->
  exists s',
    PakFile.ReadIndexFromStream_items useHashIndex (length items)
      (mkStream (flat_map (PakWriter.WriteItemDescription useHashIndex) items ++ left) 0)
    = (s', map strip items, true) /\
    remaining s' = left.
Proof.
  intros uh items left Hwf.
  destruct (ReadIndexFromStream_items_Write
              (flat_map (PakWriter.WriteItemDescription uh) items ++ left) uh items
              (mkStream (flat_map (PakWriter.WriteItemDescription uh) items ++ left) 0)
              left Hwf)
    as (s' & Hread & _ & _ & Hleft).
  - repeat split. simpl. lia.
  - exists s'. split; [exact Hread|exact Hleft].
Qed.

Lemma WriteItemDescription_read_back_witness :
  Forall (wf_item false)
    [mkItem [97] ItemFlags_DeflateCompressed 8 300 40 [];
     mkItem [100; 105; 114] ItemFlags_Directory 70000 0 0 [mkItem [98] ItemFlags_None 48 1 0 []]] /\
  exists s',
    PakFile.ReadIndexFromStream_items false 2
      (mkStream
         (flat_map (PakWriter.WriteItemDescription false)
            [mkItem [97] ItemFlags_DeflateCompressed 8 300 40 [];
             mkItem [100; 105; 114] ItemFlags_Directory 70000 0 0
                    [mkItem [98] ItemFlags_None 48 1 0 []]]
          ++ [7; 7]) 0)
    = (s',
       [mkItem [97] ItemFlags_DeflateCompressed 8 300 40 [];
        mkItem [100; 105; 114] ItemFlags_Directory 70000 0 0 []],
       true) /\
    remaining s' = [7; 7].
Proof.
  assert (Hwf : Forall (wf_item false)
            [mkItem [97] ItemFlags_DeflateCompressed 8 300 40 [];
             mkItem [100; 105; 114] ItemFlags_Directory 70000 0 0
                    [mkItem [98] ItemFlags_None 48 1 0 []]]).
  { repeat constructor; simpl; try lia; try discriminate; intros; try split;
      try reflexivity; try discriminate. }
  split; [exact Hwf|].
  exact (WriteItemDescription_read_back false _ [7; 7] Hwf).
Defined.

(** ** Enumerating a directory *)

Lemma store_at_prefix : forall (before after chars : list Z),
  (length chars <= length after)%nat ->
  Directory.store (before ++ after) (length before) chars
  = before ++ chars ++ skipn (length chars) after.
Proof.
  intros before after chars Hfit. unfold Directory.store.
  rewrite firstn_app, firstn_all, Nat.sub_diag, firstn_O, app_nil_r.
  rewrite length_app.
  replace (length before + length after - length before)%nat with (length after) by lia.
  rewrite firstn_all2 by exact Hfit.
  rewrite skipn_app.
  replace (length before + length chars - length before)%nat with (length chars) by lia.
  rewrite skipn_all2 by lia. reflexivity.
Qed.

Lemma c_str_terminated : forall (chars rest : list Z),
  Forall (fun c => c <> 0) chars -> Directory.c_str (chars ++ 0 :: rest) = chars.
Proof.
  induction chars as [|c chars IH]; intros rest H; simpl; [reflexivity|].
  inversion H as [|? ? Hc Hrest]; subst.
  destruct (c =? 0) eqn:E; [apply Z.eqb_eq in E; contradiction|].
  now rewrite IH.
Qed.

Lemma c_str_whole : forall chars : list Z,
  Forall (fun c => c <> 0) chars -> Directory.c_str chars = chars.
Proof.
  induction chars as [|c chars IH]; intros H; simpl; [reflexivity|].
  inversion H as [|? ? Hc Hrest]; subst.
  destruct (c =? 0) eqn:E; [apply Z.eqb_eq in E; contradiction|].
  now rewrite IH.
Qed.

Lemma Increment_skip_spec : forall options rest index,
  match Directory.Increment_skip options rest index with
  | None => filter (keeps options) rest = []
  | Some found =>
      exists skipped item later,
        rest = skipped ++ item :: later /\ found = (index + length skipped)%nat /\
        filter (keeps options) skipped = [] /\ keeps options item = true
  end.
Proof.
  intros options. induction rest as [|item rest IH]; intros index;
    cbn [Directory.Increment_skip]; [reflexivity|].
  assert (Hkeeps : keeps options item
                   = negb ((Directory.SkipDirectories options && isDirectory item)
                           || (Directory.SkipFiles options && negb (isDirectory item))))
    by reflexivity.
  destruct ((Directory.SkipDirectories options && isDirectory item)
            || (Directory.SkipFiles options && negb (isDirectory item))).
  - specialize (IH (S index)).
    destruct (Directory.Increment_skip options rest (S index)) as [found|].
    + destruct IH as (skipped & x & later & -> & -> & Hs & Hx).
      exists (item :: skipped), x, later. repeat split.
      * cbn [length]. lia.
      * cbn [filter]. now rewrite Hkeeps.
      * exact Hx.
    + cbn [filter]. now rewrite Hkeeps.
  - exists [], item, rest. repeat split.
    + cbn [length]. lia.
    + exact Hkeeps.
Qed.

Lemma hd_store_terminator : forall buffer : list Z, hd 0 (Directory.store buffer 0 [0]) = 0.
Proof.
  intros [|c buffer]; reflexivity.
Qed.

Lemma enumerate_loop_at_end : forall P MaxPathLength rounds impl,
  Directory.at_end impl = true ->
  Directory.enumerate_loop P MaxPathLength rounds impl = [].
Proof.
  intros P MaxPathLength [|rounds] impl H; simpl; [reflexivity|now rewrite H].
Qed.

Lemma Increment_nothing_kept : forall P MaxPathLength impl,
  filter (keeps (Directory._options impl))
         (skipn (Directory._index impl) (Directory._childItems impl)) = [] ->
  Directory.at_end (Directory.Increment P MaxPathLength impl) = true.
Proof.
  intros P MaxPathLength impl H. unfold Directory.Increment.
  pose proof (Increment_skip_spec (Directory._options impl)
                (skipn (Directory._index impl) (Directory._childItems impl))
                (Directory._index impl)) as Hspec.
  destruct (Directory.Increment_skip _ _ _) as [found|].
  - destruct Hspec as (skipped & item & later & E & _ & _ & Hitem).
    rewrite E, filter_app in H. cbn [filter] in H. rewrite Hitem in H.
    now destruct (filter _ skipped).
  - unfold Directory.at_end. cbn [Directory._path].
    rewrite hd_store_terminator. reflexivity.
Qed.

(** With both [SkipDirectories] and [SkipFiles] set an enumeration
    shows no entry, whatever the directory holds. *)
Lemma enumerate_skips_everything : forall P MaxPathLength steps pakFile path tail entries,
  Directory.enumerate P MaxPathLength steps pakFile path tail (Directory.mkOptions true true)
    = Some entries ->
  entries = [].
Proof.
  intros P MaxPathLength steps pakFile path tail entries. unfold Directory.enumerate.
  destruct (Directory.Open P MaxPathLength steps pakFile path tail _)
    as [[impl opened]|] eqn:Hopen;
    [|discriminate].
  intros H. injection H as <-.
  cut (Directory.at_end impl = true); [intros ->; reflexivity|].
  assert (Hclosed : forall items,
            Directory.at_end
              (Directory.mkImpl (Directory.mkOptions true true)
                 (Directory.store (repeat 0 MaxPathLength) 0 [0]) 0 items 0) = true).
  { intros items. unfold Directory.at_end. cbn [Directory._path].
    now rewrite hd_store_terminator. }
  assert (Hnone : forall items,
            filter (keeps (Directory.mkOptions true true)) items = []).
  { induction items as [|item items IH]; [reflexivity|].
    cbn [filter]. unfold keeps at 1. cbn [Directory.SkipDirectories Directory.SkipFiles].
    cbn [andb]. now destruct (isDirectory item). }
  unfold Directory.Open in Hopen.
  destruct (PakFile._useHashIndex pakFile); [injection Hopen as <- _; apply Hclosed|].
  destruct (match path with
            | [] => Some (Some (PakFile._rootItems pakFile))
            | _ :: _ => _
            end) as [[[|item items]|]|]; try discriminate;
    try (injection Hopen as <- _; apply Hclosed).
  destruct (match rev path with [] => _ | c :: _ => _ end) as [buffer fileNamePart].
  injection Hopen as <- _.
  apply Increment_nothing_kept. apply Hnone.
Qed.

Lemma enumerate_loop_windows : forall P MaxPathLength options prefix,
  TARGET_WINDOWS P = true ->
  Forall (fun c => c <> 0) prefix ->
  forall n rest done tail rounds,
  (length rest <= n)%nat ->
  length (prefix ++ tail) = MaxPathLength ->
  Forall (fun item => Name item <> [] /\ Forall (fun c => c <> 0) (Name item) /\
                      (length prefix + length (Name item) < MaxPathLength)%nat) rest ->
  (length rest < rounds)%nat ->
  Directory.enumerate_loop P MaxPathLength rounds
    (Directory.Increment P MaxPathLength
       (Directory.mkImpl options (prefix ++ tail) (length prefix) (done ++ rest) (length done)))
  = map (fun item => prefix ++ Name item) (filter (keeps options) rest).
Proof.
  intros P MaxPathLength options prefix Hwin Hprefix.
  induction n as [|n IH]; intros rest done tail rounds Hn Hlen Hnames Hrounds.
  - destruct rest; [|simpl in Hn; lia].
    rewrite enumerate_loop_at_end; [reflexivity|].
    apply Increment_nothing_kept. cbn [Directory._index Directory._childItems].
    rewrite app_nil_r, skipn_all. reflexivity.
  - assert (Hskip : skipn (length done) (done ++ rest) = rest).
    { rewrite skipn_app, skipn_all, Nat.sub_diag. reflexivity. }
    pose proof (Increment_skip_spec options rest (length done)) as Hspec.
    destruct (Directory.Increment_skip options rest (length done)) as [found|] eqn:Efound.
    + destruct Hspec as (skipped & item & later & -> & -> & Hskipped & Hitem).
      rewrite filter_app, Hskipped. cbn [filter app]. rewrite Hitem. cbn [map].
      apply Forall_app in Hnames as [_ Hnames].
      apply Forall_cons_iff in Hnames as [(Hne & Hnul & Hfit) Hlater].
      rewrite length_app in Hn, Hrounds. cbn [length] in Hn, Hrounds.
      rewrite length_app in Hlen.
      unfold Directory.Increment.
      cbn [Directory._index Directory._childItems Directory._options Directory._path
           Directory._fileNamePart].
      rewrite Hskip, Efound, Hwin.
      assert (Hnth : nth (length done + length skipped) (done ++ skipped ++ item :: later)
                         Item_default = item).
      { rewrite app_assoc, <- length_app. apply nth_middle. }
      rewrite Hnth.
      rewrite (c_str_whole _ Hnul), firstn_all.
      replace (length (Name item) <? MaxPathLength - length prefix)%nat with true
        by (symmetry; apply Nat.ltb_lt; lia).
      rewrite store_at_prefix by (rewrite length_app; cbn [length]; lia).
      destruct rounds as [|rounds]; [lia|].
      cbn [Directory.enumerate_loop].
      set (tail' := (Name item ++ [0]) ++ skipn (length (Name item ++ [0])) tail).
      assert (Hend : Directory.at_end
                       (Directory.mkImpl options (prefix ++ tail') (length prefix)
                          (done ++ skipped ++ item :: later)
                          (S (length done + length skipped))) = false).
      { unfold Directory.at_end. cbn [Directory._path]. apply Z.eqb_neq.
        destruct prefix as [|c prefix'].
        - subst tail'. destruct (Name item) as [|c name]; [contradiction|].
          apply Forall_cons_iff in Hnul as [Hc _]. exact Hc.
        - apply Forall_cons_iff in Hprefix as [Hc _]. exact Hc. }
      rewrite Hend. cbn [Directory._path]. f_equal.
      * subst tail'. rewrite <- app_assoc, app_assoc.
        apply c_str_terminated. apply Forall_app. split; assumption.
      * replace (done ++ skipped ++ item :: later) with ((done ++ skipped ++ [item]) ++ later)
          by (rewrite <- !app_assoc; reflexivity).
        replace (S (length done + length skipped)) with (length (done ++ skipped ++ [item]))
          by (rewrite !length_app; cbn [length]; lia).
        apply IH; [lia| |exact Hlater|lia].
        subst tail'. rewrite ?length_app, length_skipn, ?length_app. cbn [length]. lia.
    + rewrite Hspec. cbn [map].
      rewrite enumerate_loop_at_end; [reflexivity|].
      apply Increment_nothing_kept. cbn [Directory._index Directory._childItems Directory._options].
      now rewrite Hskip.
Qed.

Lemma length_store : forall (buffer : list Z) at_ chars,
  length (Directory.store buffer at_ chars) = length buffer.
Proof.
  intros buffer at_ chars. unfold Directory.store.
  rewrite !length_app, !length_firstn, length_skipn. lia.
Qed.

Lemma childItems_Increment : forall P MaxPathLength impl,
  Directory._childItems (Directory.Increment P MaxPathLength impl) = Directory._childItems impl.
Proof.
  intros P MaxPathLength impl. unfold Directory.Increment.
  destruct (Directory.Increment_skip _ _ _); reflexivity.
Qed.

Lemma store_path : forall MaxPathLength (path : list Z),
  (length path <= MaxPathLength)%nat ->
  Directory.store (repeat 0 MaxPathLength) 0 path
  = path ++ skipn (length path) (repeat 0 MaxPathLength).
Proof.
  intros MaxPathLength path H.
  apply (store_at_prefix [] (repeat 0 MaxPathLength) path).
  now rewrite repeat_length.
Qed.

Lemma store_separator_over : forall (separator c : Z) before zeros,
  (1 <= length zeros)%nat ->
  Directory.store
    (Directory.store ((before ++ [c]) ++ zeros) (length (before ++ [c]) - 1) [separator])
    (length (before ++ [c])) [0]
  = (before ++ [separator]) ++ 0 :: skipn 1 zeros.
Proof.
  intros separator c before zeros Hroom.
  replace (length (before ++ [c]) - 1)%nat with (length before)
    by (rewrite length_app; cbn [length]; lia).
  rewrite <- app_assoc.
  rewrite store_at_prefix by (rewrite length_app; cbn [length]; lia).
  cbn [length app skipn].
  replace (length (before ++ [c])) with (length (before ++ [separator]))
    by (rewrite !length_app; reflexivity).
  change (before ++ separator :: zeros) with (before ++ [separator] ++ zeros).
  rewrite app_assoc.
  rewrite store_at_prefix by (cbn [length]; lia).
  reflexivity.
Qed.

Lemma store_separator_after : forall (separator : Z) path zeros,
  (2 <= length zeros)%nat ->
  Directory.store (Directory.store (path ++ zeros) (length path) [separator])
                  (S (length path)) [0]
  = (path ++ [separator]) ++ 0 :: skipn 2 zeros.
Proof.
  intros separator path zeros Hroom.
  rewrite store_at_prefix by (cbn [length]; lia).
  replace (S (length path)) with (length (path ++ [separator]))
    by (rewrite length_app; cbn [length]; lia).
  rewrite app_assoc.
  rewrite store_at_prefix by (cbn [length]; rewrite length_skipn; lia).
  cbn [length app]. now rewrite skipn_skipn.
Qed.

(** X27. What an enumeration shows on Windows: in tree mode, for a
    directory that [FindItem] finds (or the root, for the empty path), the
    entries are the children that the options do not skip, in the order
    of the array, each as the path, one backslash, and the child's name,
    provided the names are not empty, nothing holds a NUL character, and
    every entry fits the buffer of [MaxPathLength] characters.  [tail] is
    the C string that follows the view of the path in its buffer. *)
Theorem enumerate_windows_entries : forall P MaxPathLength steps pakFile path tail options
    children,
  TARGET_WINDOWS P = true ->
  PakFile._useHashIndex pakFile = false ->
  (path = [] /\ children = PakFile._rootItems pakFile) \/
  (path <> [] /\ exists parentItem,
     PakFile.FindItem P steps pakFile path tail = Some (Some parentItem) /\
     children = ChildItems parentItem) ->
  Forall (fun c => c <> 0) path ->
  Forall (fun item => Name item <> [] /\ Forall (fun c => c <> 0) (Name item) /\
                      (length (directory_prefix P path) + length (Name item)
                       < MaxPathLength)%nat) children ->
  Directory.enumerate P MaxPathLength steps pakFile path tail options
  = Some (map (fun item => directory_prefix P path ++ Name item)
              (filter (keeps options) children)).
Proof.
  intros P MaxPathLength steps pakFile path tail options children Hwin Hmode Hchildren Hpath
    Hnames.
  unfold Directory.enumerate, Directory.Open. rewrite Hmode.
  assert (Hc : match path with
               | [] => Some (Some (PakFile._rootItems pakFile))
               | _ :: _ =>
                   match PakFile.FindItem P steps pakFile path tail with
                   | None => None
                   | Some None => Some None
                   | Some (Some parentItem) => Some (Some (ChildItems parentItem))
                   end
               end = Some (Some children)).
  { destruct Hchildren as [[-> ->]|(Hne & parentItem & Hfind & ->)]; [reflexivity|].
    destruct path; [contradiction|]. now rewrite Hfind. }
  rewrite Hc. clear Hc Hchildren.
  destruct children as [|item items].
  { cbn [filter map]. f_equal. apply enumerate_loop_at_end.
    unfold Directory.at_end. cbn [Directory._path]. now rewrite hd_store_terminator. }
  set (children := item :: items) in *.
  assert (Hroom : exists name : String, (length (directory_prefix P path) + length name
                                < MaxPathLength)%nat).
  { apply Forall_cons_iff in Hnames as [(_ & _ & H) _]. now exists (Name item). }
  destruct Hroom as [name Hroom].
  assert (Hsep : Directory.Separator P <> 0).
  { unfold Directory.Separator. rewrite Hwin. discriminate. }
  assert (Hgoal : forall cells,
            length (directory_prefix P path ++ cells) = MaxPathLength ->
            (let impl := Directory.Increment P MaxPathLength
                           (Directory.mkImpl options (directory_prefix P path ++ cells)
                              (length (directory_prefix P path)) children 0) in
             Some (Directory.enumerate_loop P MaxPathLength
                     (S (length (Directory._childItems impl))) impl))
            = Some (map (fun item => directory_prefix P path ++ Name item)
                        (filter (keeps options) children))).
  { intros cells Hlen. cbv zeta. rewrite childItems_Increment. cbn [Directory._childItems].
    f_equal.
    apply (enumerate_loop_windows P MaxPathLength options (directory_prefix P path) Hwin)
      with (n := length children) (done := []); try assumption; try lia.
    unfold directory_prefix. destruct (rev path) as [|c before] eqn:Erev; [constructor|].
    assert (Epath : path = rev before ++ [c]).
    { apply (f_equal (@rev Z)) in Erev. now rewrite rev_involutive in Erev. }
    destruct (is_separator c).
    - apply Forall_app. split; [|now constructor].
      rewrite Epath in Hpath. now apply Forall_app in Hpath as [H _].
    - apply Forall_app. split; [exact Hpath|now constructor]. }
  unfold directory_prefix in *.
  destruct (rev path) as [|c before] eqn:Erev.
  - apply (Hgoal (Directory.store (repeat 0 MaxPathLength) 0 [0])).
    cbn [app]. now rewrite length_store, repeat_length.
  - assert (Epath : path = rev before ++ [c]).
    { apply (f_equal (@rev Z)) in Erev. now rewrite rev_involutive in Erev. }
    assert (Hlp : length path = S (length before)).
    { rewrite Epath, length_app, length_rev. cbn [length]. lia. }
    destruct (is_separator c).
    + rewrite length_app in Hroom. cbn [length] in Hroom. rewrite length_rev in Hroom.
      clear Hpath Erev. subst path.
      rewrite store_path by lia.
      rewrite store_separator_over
        by (rewrite length_skipn, repeat_length; lia).
      replace (length (rev before ++ [c])) with (length (rev before ++ [Directory.Separator P]))
        by (rewrite !length_app; reflexivity).
      apply Hgoal.
      rewrite !length_app, length_rev. cbn [length].
      rewrite !length_skipn, repeat_length. lia.
    + rewrite length_app in Hroom. cbn [length] in Hroom.
      rewrite store_path by lia.
      rewrite store_separator_after
        by (rewrite length_skipn, repeat_length; lia).
      replace (S (length path)) with (length (path ++ [Directory.Separator P]))
        by (rewrite length_app; cbn [length]; lia).
      apply Hgoal.
      rewrite !length_app. cbn [length].
      rewrite !length_skipn, repeat_length. lia.
Qed.

Lemma enumerate_windows_entries_witness :
  PakFile.FindItem windows_platform 2 reference_pak [97] []
    = Some (Some (mkItem [97] ItemFlags_Directory 0 0 0 [mkItem [98] ItemFlags_None 8 1 0 []])) /\
  Directory.enumerate windows_platform 16 2 reference_pak [97] []
    (Directory.mkOptions false false)
    = Some [[97; 92; 98]].
Proof.
  split; [reflexivity|].
  apply (enumerate_windows_entries windows_platform 16 2 reference_pak [97] []
           (Directory.mkOptions false false) [mkItem [98] ItemFlags_None 8 1 0 []]).
  - reflexivity.
  - reflexivity.
  - right. split; [discriminate|]. eexists. split; reflexivity.
  - repeat constructor; discriminate.
  - repeat constructor; try discriminate; simpl; lia.
Defined.

(** ** Byte order *)

Lemma testbit_high : forall v n j,
  0 <= v < 2 ^ n -> 0 <= n <= j -> Z.testbit v j = false.
Proof.
  intros v n j Hv Hj. rewrite <- (Z.mod_small v (2 ^ n)) by exact Hv.
  apply Z.mod_pow2_bits_high. exact Hj.
Qed.

Lemma range_of_bits : forall x n,
  0 <= n -> 0 <= x -> (forall i, n <= i -> Z.testbit x i = false) -> 0 <= x < 2 ^ n.
Proof.
  intros x n Hn Hx Hbits.
  assert (E : x mod 2 ^ n = x).
  { apply Z.bits_inj'. intros i Hi.
    destruct (Z.ltb_spec i n).
    - now apply Z.mod_pow2_bits_low.
    - rewrite Z.mod_pow2_bits_high by lia. symmetry. now apply Hbits. }
  rewrite <- E. apply Z.mod_pos_bound. apply Z.pow_pos_nonneg; lia.
Qed.

(** One step of pushing [Z.testbit] through the operations of a swap;
    [Hv] bounds the value swapped. *)
Ltac bit_step Hv :=
  match goal with
  | |- context [Z.testbit (Z.lor ?a ?b) ?i] => rewrite (Z.lor_spec a b i)
  | |- context [Z.testbit (Z.land ?a ?b) ?i] => rewrite (Z.land_spec a b i)
  | |- context [Z.testbit (Z.shiftr ?a ?n) ?i] => rewrite (Z.shiftr_spec a n i) by lia
  | |- context [Z.testbit (Z.shiftl ?a ?n) ?i] => rewrite (Z.shiftl_spec a n i) by lia
  | |- context [Z.testbit (?a mod 2 ^ ?n) ?i] => rewrite (Z.mod_pow2_bits_low a n i) by lia
  | |- context [Z.testbit (?a mod 2 ^ ?n) ?i] => rewrite (Z.mod_pow2_bits_high a n i) by lia
  | |- context [Z.testbit ?a ?i] => rewrite (Z.testbit_neg_r a i) by lia
  | |- context [Z.testbit (Z.ones ?n) ?i] => rewrite (Z.ones_spec_low n i) by lia
  | |- context [Z.testbit (Z.ones ?n) ?i] => rewrite (Z.ones_spec_high n i) by lia
  | |- context [Z.testbit ?a ?i] => rewrite (testbit_high a _ i Hv) by lia
  end.

Ltac bits Hv :=
  repeat bit_step Hv;
  rewrite ?orb_false_r, ?andb_false_r, ?andb_true_r; cbn [orb andb];
  rewrite ?orb_false_r, ?andb_false_r, ?andb_true_r;
  try reflexivity; try (f_equal; lia).

Lemma Uint16FromBE_bits : forall v i,
  0 <= v < 2 ^ 16 -> 0 <= i ->
  Z.testbit (Uint16FromBE v) i
  = if i <? 8 then Z.testbit v (i + 8)
    else if i <? 16 then Z.testbit v (i - 8) else false.
Proof.
  intros v i Hv Hi. unfold Uint16FromBE, to_uint16.
  destruct (Z.ltb_spec i 8); [bits Hv|].
  destruct (Z.ltb_spec i 16); bits Hv.
Qed.

Lemma Uint32FromBE_bits : forall v i,
  0 <= v < 2 ^ 32 -> 0 <= i ->
  Z.testbit (Uint32FromBE v) i
  = if i <? 8 then Z.testbit v (i + 24)
    else if i <? 16 then Z.testbit v (i + 8)
    else if i <? 24 then Z.testbit v (i - 8)
    else if i <? 32 then Z.testbit v (i - 24) else false.
Proof.
  intros v i Hv Hi. unfold Uint32FromBE, to_uint32.
  change 0x00FF0000 with (Z.shiftl (Z.ones 8) 16).
  change 0x0000FF00 with (Z.shiftl (Z.ones 8) 8).
  destruct (Z.ltb_spec i 8); [bits Hv|].
  destruct (Z.ltb_spec i 16); [bits Hv|].
  destruct (Z.ltb_spec i 24); [bits Hv|].
  destruct (Z.ltb_spec i 32); bits Hv.
Qed.

Lemma Uint64FromBE_bits : forall v i,
  0 <= v < 2 ^ 64 -> 0 <= i ->
  Z.testbit (Uint64FromBE v) i
  = if i <? 8 then Z.testbit v (i + 56)
    else if i <? 16 then Z.testbit v (i + 40)
    else if i <? 24 then Z.testbit v (i + 24)
    else if i <? 32 then Z.testbit v (i + 8)
    else if i <? 40 then Z.testbit v (i - 8)
    else if i <? 48 then Z.testbit v (i - 24)
    else if i <? 56 then Z.testbit v (i - 40)
    else if i <? 64 then Z.testbit v (i - 56) else false.
Proof.
  intros v i Hv Hi. unfold Uint64FromBE, to_uint64.
  change 0x00FF000000000000 with (Z.shiftl (Z.ones 8) 48).
  change 0x0000FF0000000000 with (Z.shiftl (Z.ones 8) 40).
  change 0x000000FF00000000 with (Z.shiftl (Z.ones 8) 32).
  change 0x00000000FF000000 with (Z.shiftl (Z.ones 8) 24).
  change 0x0000000000FF0000 with (Z.shiftl (Z.ones 8) 16).
  change 0x000000000000FF00 with (Z.shiftl (Z.ones 8) 8).
  destruct (Z.ltb_spec i 8); [bits Hv|].
  destruct (Z.ltb_spec i 16); [bits Hv|].
  destruct (Z.ltb_spec i 24); [bits Hv|].
  destruct (Z.ltb_spec i 32); [bits Hv|].
  destruct (Z.ltb_spec i 40); [bits Hv|].
  destruct (Z.ltb_spec i 48); [bits Hv|].
  destruct (Z.ltb_spec i 56); [bits Hv|].
  destruct (Z.ltb_spec i 64); bits Hv.
Qed.

Lemma le_bytes_S : forall n x,
  le_bytes (S n) x = x mod 2 ^ 8 :: le_bytes n (Z.shiftr x 8).
Proof.
  intros n x. cbn [le_bytes]. now rewrite Z.shiftr_div_pow2 by lia.
Qed.

Ltac resolve_ranges :=
  repeat match goal with
         | |- context [if ?a <? ?b then _ else _] => destruct (Z.ltb_spec a b); try lia
         end.

(** Equality of two bytes cut out of values by shifts. *)
Ltac same_byte bits_lemma Hv :=
  apply Z.bits_inj'; intros i Hi;
  destruct (Z.ltb_spec i 8);
  [ rewrite !Z.mod_pow2_bits_low by lia;
    rewrite ?Z.shiftr_spec by lia;
    rewrite bits_lemma by (try exact Hv; lia);
    resolve_ranges; f_equal; lia
  | rewrite !Z.mod_pow2_bits_high by lia; reflexivity ].

Ltac swap_range bits_lemma Hv n :=
  apply range_of_bits; [lia| |];
  [ idtac
  | intros i Hi; rewrite bits_lemma by (try exact Hv; lia); resolve_ranges; reflexivity ].

Ltac swap_twice bits_lemma Hv Hrange n :=
  apply Z.bits_inj'; intros i Hi;
  rewrite bits_lemma by (try exact Hrange; lia);
  resolve_ranges;
  try (rewrite bits_lemma by (try exact Hv; lia); resolve_ranges; f_equal; lia);
  symmetry; apply (testbit_high _ n); [exact Hv|lia].

(** X28. [Uint16FromBE] swaps the two bytes of a 16-bit value, and
    applying it twice gives the value back. *)
Theorem Uint16FromBE_swaps_bytes : forall v,
  0 <= v < 2 ^ 16 ->
  le_bytes 2 (Uint16FromBE v) = rev (le_bytes 2 v) /\
  Uint16FromBE (Uint16FromBE v) = v.
Proof.
  intros v Hv.
  assert (Hrange : 0 <= Uint16FromBE v < 2 ^ 16).
  { unfold Uint16FromBE, to_uint16. apply Z.mod_pos_bound. lia. }
  split.
  - rewrite !le_bytes_S. cbn [le_bytes rev app].
    f_equal; [|f_equal]; same_byte Uint16FromBE_bits Hv.
  - swap_twice Uint16FromBE_bits Hv Hrange 16.
Qed.

Lemma Uint16FromBE_swaps_bytes_witness :
  le_bytes 2 (Uint16FromBE 0x1234) = [0x12; 0x34] /\ Uint16FromBE (Uint16FromBE 0x1234) = 0x1234.
Proof.
  apply (Uint16FromBE_swaps_bytes 0x1234). lia.
Defined.

(** X29. [Uint32FromBE] reverses the four bytes of a 32-bit value, and
    applying it twice gives the value back. *)
Theorem Uint32FromBE_reverses_bytes : forall v,
  0 <= v < 2 ^ 32 ->
  le_bytes 4 (Uint32FromBE v) = rev (le_bytes 4 v) /\
  Uint32FromBE (Uint32FromBE v) = v.
Proof.
  intros v Hv.
  assert (Hrange : 0 <= Uint32FromBE v < 2 ^ 32).
  { swap_range Uint32FromBE_bits Hv 32.
    unfold Uint32FromBE, to_uint32. rewrite !Z.lor_nonneg, !Z.land_nonneg, Z.shiftr_nonneg.
    repeat split; try lia; try (left; apply Z.mod_pos_bound; lia);
      apply Z.mod_pos_bound; lia. }
  split.
  - rewrite !le_bytes_S. cbn [le_bytes rev app]. rewrite !Z.shiftr_shiftr by lia.
    cbn [Z.add Pos.add Pos.succ].
    repeat (f_equal; [same_byte Uint32FromBE_bits Hv|]). f_equal. same_byte Uint32FromBE_bits Hv.
  - swap_twice Uint32FromBE_bits Hv Hrange 32.
Qed.

Lemma Uint32FromBE_reverses_bytes_witness :
  le_bytes 4 (Uint32FromBE 0x12345678) = [0x12; 0x34; 0x56; 0x78] /\
  Uint32FromBE (Uint32FromBE 0x12345678) = 0x12345678.
Proof.
  apply (Uint32FromBE_reverses_bytes 0x12345678). lia.
Defined.

(** X30. [Uint64FromBE] reverses the eight bytes of a 64-bit value, and
    applying it twice gives the value back. *)
Theorem Uint64FromBE_reverses_bytes : forall v,
  0 <= v < 2 ^ 64 ->
  le_bytes 8 (Uint64FromBE v) = rev (le_bytes 8 v) /\
  Uint64FromBE (Uint64FromBE v) = v.
Proof.
  intros v Hv.
  assert (Hrange : 0 <= Uint64FromBE v < 2 ^ 64).
  { swap_range Uint64FromBE_bits Hv 64.
    unfold Uint64FromBE, to_uint64. rewrite !Z.lor_nonneg, !Z.land_nonneg, !Z.shiftr_nonneg.
    repeat split; try lia; try (left; apply Z.mod_pos_bound; lia);
      apply Z.mod_pos_bound; lia. }
  split.
  - rewrite !le_bytes_S. cbn [le_bytes rev app]. rewrite !Z.shiftr_shiftr by lia.
    cbn [Z.add Pos.add Pos.succ].
    repeat (f_equal; [same_byte Uint64FromBE_bits Hv|]). f_equal. same_byte Uint64FromBE_bits Hv.
  - swap_twice Uint64FromBE_bits Hv Hrange 64.
Qed.

Lemma Uint64FromBE_reverses_bytes_witness :
  le_bytes 8 (Uint64FromBE 0x0102030405060708) = [1; 2; 3; 4; 5; 6; 7; 8] /\
  Uint64FromBE (Uint64FromBE 0x0102030405060708) = 0x0102030405060708.
Proof.
  apply (Uint64FromBE_reverses_bytes 0x0102030405060708). lia.
Defined.

(** ** A path once taken *)

Lemma find_by_name_app : forall name items extra j foundItem,
  PakWriter.find_by_name name items = Some (j, foundItem) ->
  PakWriter.find_by_name name (items ++ extra) = Some (j, foundItem).
Proof.
  intros name. induction items as [|x items IH]; intros extra j foundItem H; simpl in *;
    [discriminate|].
  destruct (String_eqb (Name x) name); [exact H|].
  destruct (PakWriter.find_by_name name items) as [[k f]|]; [|discriminate].
  now rewrite (IH extra k f eq_refl).
Qed.

Lemma find_by_name_replace_nth_any : forall name items j x y k foundItem,
  nth_error items j = Some x ->
  Name y = Name x ->
  PakWriter.find_by_name name items = Some (k, foundItem) ->
  PakWriter.find_by_name name (PakWriter.replace_nth j y items)
  = Some (k, if Nat.eqb k j then y else foundItem).
Proof.
  intros name. induction items as [|a items IH]; intros j x y k foundItem Hnth Hy H;
    [destruct j; discriminate|].
  destruct j as [|j]; simpl in *.
  - injection Hnth as <-. rewrite Hy.
    destruct (String_eqb (Name a) name); [now injection H as <- <-|].
    destruct (PakWriter.find_by_name name items) as [[k' f]|]; [|discriminate].
    now injection H as <- <-.
  - destruct (String_eqb (Name a) name); [now injection H as <- <-|].
    destruct (PakWriter.find_by_name name items) as [[k' f]|] eqn:Ef; [|discriminate].
    injection H as <- <-.
    now rewrite (IH j x y k' f Hnth Hy eq_refl).
Qed.

Lemma existsb_replace_nth : forall (f : Item -> bool) items j x y,
  nth_error items j = Some x ->
  f y = f x ->
  existsb f (PakWriter.replace_nth j y items) = existsb f items.
Proof.
  intros f. induction items as [|a items IH]; intros j x y Hnth Hy; destruct j; simpl in *;
    try discriminate.
  - injection Hnth as <-. now rewrite Hy.
  - now rewrite (IH j x y Hnth Hy).
Qed.

Lemma taken_app : forall items path extra, taken items path -> taken (items ++ extra) path.
Proof.
  intros items path extra H. revert extra.
  induction H as [items path Hsep Hin|items path i j foundItem Hsep Hfind Hbelow _];
    intros extra.
  - apply taken_here; [exact Hsep|]. now rewrite existsb_app, Hin.
  - apply (taken_below _ _ i j foundItem); [exact Hsep| |exact Hbelow].
    now apply find_by_name_app.
Qed.

(** [AddFile_to] leaves the owning array as it is or appends to it. *)
Lemma AddFile_to_items : forall P useHashIndex content pc out items path,
  exists extra,
    snd (PakWriter.AddFile_to P useHashIndex content pc out items path) = items ++ extra.
Proof.
  intros P uh content pc out items path. unfold PakWriter.AddFile_to.
  assert (Hsame : exists extra : list Item, items = items ++ extra)
    by (exists []; now rewrite app_nil_r).
  destruct (existsb _ items); [exact Hsame|].
  destruct pc; try destruct (WITH_ZLIB P); try destruct (WITH_LZ4 P); try destruct (WITH_ZSTD P);
    cbv beta iota zeta;
    destruct (negb (Z.of_nat (length content) >? 0)); try exact Hsame;
    match goal with
    | |- context [negb ?c] => destruct (negb c)
    end; try exact Hsame; eexists; reflexivity.
Qed.

(** No call of [AddFile] frees a path: the walk appends to arrays and
    puts children in place, and neither changes what a linear search for
    a name finds first. *)
Lemma FindOrCreateParentItem_loop_keeps_taken :
  forall P content pc out steps items path r items',
  PakWriter.FindOrCreateParentItem_loop steps items path
    (PakWriter.AddFile_to P false content pc out) = Some (r, items') ->
  forall other, taken items other -> taken items' other.
Proof.
  intros P content pc out steps items path r items'.
  apply (FindOrCreateParentItem_loop_rel (PakWriter.AddFile_to P false content pc out)
           (fun _ items _ items' => forall other, taken items other -> taken items' other)).
  - intros its p _ other Hother.
    destruct (AddFile_to_items P false content pc out its p) as [extra ->].
    now apply taken_app.
  - intros p i its j foundItem r0 children _ Hfind IH other Hother.
    apply find_by_name_nth_error in Hfind as [Hnth _].
    assert (Hname : Name (set_ChildItems foundItem children) = Name foundItem)
      by now destruct foundItem.
    inversion Hother as [its' other' Hsep Hin|its' other' i' k otherItem Hsep Hk Hbelow]; subst.
    + apply taken_here; [exact Hsep|].
      rewrite (existsb_replace_nth _ its j foundItem _ Hnth); [exact Hin|].
      now rewrite Hname.
    + apply (taken_below _ _ i' k
               (if Nat.eqb k j then set_ChildItems foundItem children else otherItem));
        [exact Hsep|now apply (find_by_name_replace_nth_any _ _ _ foundItem)|].
      destruct (Nat.eqb_spec k j) as [->|_]; [|exact Hbelow].
      apply find_by_name_nth_error in Hk as [Hk _].
      rewrite Hnth in Hk. injection Hk as <-.
      replace (ChildItems (set_ChildItems foundItem children)) with children
        by now destruct foundItem.
      now apply IH.
  - intros p i its r0 children _ _ _ other Hother. now apply taken_app.
Qed.

(** A path for which [AddFile] has returned [true] is taken. *)
Lemma FindOrCreateParentItem_loop_takes :
  forall P content pc written steps items path r items',
  PakWriter.FindOrCreateParentItem_loop steps items path
    (PakWriter.AddFile_to P false content pc (mkFileStream true written)) = Some (r, items') ->
  fst r = true -> taken items' path.
Proof.
  intros P content pc written steps items path r items'.
  apply (FindOrCreateParentItem_loop_rel
           (PakWriter.AddFile_to P false content pc (mkFileStream true written))
           (fun path _ r items' => fst r = true -> taken items' path)).
  - intros its p Hsep.
    destruct (PakWriter.AddFile_to P false content pc (mkFileStream true written) its p)
      as [[ok out'] its'] eqn:E.
    cbn [fst snd]. intros ->.
    apply AddFile_to_success in E as (_ & _ & _ & ->).
    apply taken_here; [exact Hsep|].
    rewrite existsb_app. cbn [existsb file_item Name].
    now rewrite String_eqb_refl, orb_true_r.
  - intros p i its j foundItem r0 children Hsep Hfind IH Hr.
    apply (taken_below _ _ i j (set_ChildItems foundItem children)); [exact Hsep| |].
    + apply (find_by_name_replace_nth _ _ _ foundItem); [exact Hfind|now destruct foundItem].
    + replace (ChildItems (set_ChildItems foundItem children)) with children
        by now destruct foundItem.
      now apply IH.
  - intros p i its r0 children Hsep Hfind IH Hr.
    apply (taken_below _ _ i (length its)
             (mkItem (firstn i p) ItemFlags_Directory 0 0 0 children)); [exact Hsep| |].
    + apply find_by_name_snoc; [exact Hfind|]. apply String_eqb_refl.
    + now apply IH.
Qed.

(** On a path that is taken the walk ends in the duplicate check, which
    turns the file down: nothing is written and no array changes. *)
Lemma FindOrCreateParentItem_loop_taken : forall P content pc out items path,
  taken items path ->
  forall steps, (length path < steps)%nat ->
  PakWriter.FindOrCreateParentItem_loop steps items path
    (PakWriter.AddFile_to P false content pc out) = Some ((false, out), items).
Proof.
  intros P content pc out items path H.
  induction H as [items path Hsep Hin|items path i j foundItem Hsep Hfind _ IH];
    intros steps Hsteps; (destruct steps as [|steps]; [lia|]);
    cbn [PakWriter.FindOrCreateParentItem_loop]; rewrite Hsep.
  - unfold PakWriter.AddFile_to. now rewrite Hin.
  - rewrite Hfind, IH.
    + rewrite set_ChildItems_same.
      apply find_by_name_nth_error in Hfind as [Hnth _].
      now rewrite (replace_nth_same _ _ _ Hnth).
    + pose proof (findAny_lt _ _ Hsep). rewrite length_skipn. lia.
Qed.

Lemma AddFile_keeps_taken : forall P w content path pc other,
  PakWriter._useHashIndex w = false ->
  taken (PakWriter._rootItems w) other ->
  taken (PakWriter._rootItems (snd (PakWriter.AddFile P w content path pc))) other.
Proof.
  intros P w content path pc other Hmode Hother. unfold PakWriter.AddFile.
  destruct (PakWriter._outputStream w) as [out|]; [|exact Hother].
  destruct (negb (fs_valid out)); [exact Hother|].
  destruct (empty_or_ends_with_separator path); [exact Hother|].
  rewrite Hmode. unfold PakWriter.FindOrCreateParentItem.
  destruct (PakWriter.FindOrCreateParentItem_loop _ _ _ _) as [[[ok out'] items']|] eqn:Hloop;
    [|exact Hother].
  cbn [snd PakWriter.with_state PakWriter._rootItems].
  exact (FindOrCreateParentItem_loop_keeps_taken _ _ _ _ _ _ _ _ _ Hloop other Hother).
Qed.

Lemma AddFiles_keeps_taken : forall P additions w other,
  PakWriter._useHashIndex w = false ->
  taken (PakWriter._rootItems w) other ->
  PakWriter._useHashIndex (AddFiles P w additions) = false /\
  taken (PakWriter._rootItems (AddFiles P w additions)) other.
Proof.
  intros P. induction additions as [|a rest IH]; intros w other Hmode Hother; [now split|].
  change (AddFiles P w (a :: rest))
    with (AddFiles P (snd (PakWriter.AddFile P w (add_content a) (add_path a)
                                             (add_compression a))) rest).
  apply IH.
  - now rewrite AddFile_mode.
  - now apply AddFile_keeps_taken.
Qed.

(** X16. Duplicate rejection in tree mode: once [AddFile] has returned
    [true] for a path, every later call with that path, whatever calls of
    [AddFile] were made in between (for any paths, successful or not) and
    whatever the content and the compression, returns [false] and leaves
    the item tree and the output stream as they were. *)
Theorem AddFile_tree_mode_rejects_duplicate : forall P w content path pc w' additions
    content2 pc2,
  PakWriter._useHashIndex w = false ->
  PakWriter.AddFile P w content path pc = (true, w') ->
  PakWriter.AddFile P (AddFiles P w' additions) content2 path pc2
  = (false, AddFiles P w' additions).
Proof.
  intros P w content path pc w' additions content2 pc2 Hmode H.
  unfold PakWriter.AddFile in H.
  destruct (PakWriter._outputStream w) as [[valid written]|] eqn:Hout; [|discriminate].
  cbn [fs_valid] in H. destruct valid; cbn [negb] in H; cbv iota in H; [|discriminate].
  destruct (empty_or_ends_with_separator path) eqn:Hpath; [discriminate|].
  rewrite Hmode in H. unfold PakWriter.FindOrCreateParentItem in H.
  destruct (PakWriter.FindOrCreateParentItem_loop _ _ _ _) as [[[ok out'] items']|] eqn:Hloop;
    [|discriminate].
  injection H as -> <-.
  pose proof (FindOrCreateParentItem_loop_unique _ _ _ _ _ _ _ _ _ Hloop) as [[written' Hw] _].
  cbn [snd] in Hw. subst out'.
  pose proof (FindOrCreateParentItem_loop_takes _ _ _ _ _ _ _ _ _ Hloop eq_refl) as Htaken.
  set (w' := PakWriter.with_state w items' (Some (mkFileStream true written'))) in *.
  destruct (AddFiles_keeps_taken P additions w' (trimmedPrefix path) Hmode Htaken)
    as [Hmode' Htaken'].
  destruct (AddFiles_appends P additions w' written' eq_refl) as (items'' & more & Hlater).
  assert (Hstream : PakWriter._outputStream (AddFiles P w' additions)
                    = Some (mkFileStream true (written' ++ more)))
    by now rewrite Hlater.
  unfold PakWriter.AddFile. rewrite Hstream. cbn [fs_valid negb]. cbv iota.
  rewrite Hpath, Hmode'. unfold PakWriter.FindOrCreateParentItem.
  rewrite (FindOrCreateParentItem_loop_taken P content2 pc2 _ _ _ Htaken') by lia.
  rewrite <- Hstream. now rewrite with_state_same.
Qed.

Lemma AddFile_tree_mode_rejects_duplicate_witness :
  PakWriter._useHashIndex (opened_writer None false false []) = false /\
  fst (PakWriter.AddFile reference_platform (opened_writer None false false [])
         [1; 2; 3] [97; 47; 98] Compression_Deflate) = true /\
  PakWriter.AddFile reference_platform
    (AddFiles reference_platform
       (snd (PakWriter.AddFile reference_platform (opened_writer None false false [])
               [1; 2; 3] [97; 47; 98] Compression_Deflate))
       [mkAddition [5] [97; 47; 99] Compression_None;
        mkAddition [6] [97; 47; 98; 47; 100] Compression_None;
        mkAddition [7] [48] Compression_None])
    [4] [97; 47; 98] Compression_None
  = (false,
     AddFiles reference_platform
       (snd (PakWriter.AddFile reference_platform (opened_writer None false false [])
               [1; 2; 3] [97; 47; 98] Compression_Deflate))
       [mkAddition [5] [97; 47; 99] Compression_None;
        mkAddition [6] [97; 47; 98; 47; 100] Compression_None;
        mkAddition [7] [48] Compression_None]).
Proof.
  split; [reflexivity|]. split; [reflexivity|].
  apply (AddFile_tree_mode_rejects_duplicate reference_platform
           (opened_writer None false false []) [1; 2; 3] [97; 47; 98] Compression_Deflate _
           _ [4] Compression_None); reflexivity.
Defined.
